(** * Planetary surface tile manager (TileMgr.cpp): a shallow embedding

    The development follows [Orbitersdk/D3D9Client/TileMgr.cpp]:
    - the per-frame resolution limit of [TileManager::Render];
    - the request queue of [TileBuffer] ([LoadTileAsync]);
    - the catalogue readers [LoadPatchData] and [LoadTileData];
    - the patch template generator [CreateSpherePatch];
    - the descriptor pool ([AddTile], [DeleteTile], the destructor), the
      loader thread's publication step and the descent step of
      [ProcessTile], over one store of tile descriptors.

    Conventions.  A C [int] is a [Z]; a [DWORD] is an [N] or a [Z] with the
    wrap-around written where the code can reach it; a [BYTE] or [WORD]
    conversion is a [Z.land] with the mask.  A pointer to a [TILEDESC] is an
    address [nat] into the descriptor store, [None] being the null pointer.
    Floating-point quantities (angles, texture coordinates) are kept
    abstract: the code that computes them is passed in as Section
    variables. *)

From Stdlib Require Import ZArith NArith QArith Lia Bool String.
From stdpp Require Import base tactics option list numbers sorting gmap strings.

#[local] Open Scope Z_scope.

(** ** Constants of the file *)

(** [int SURF_MAX_PATCHLEVEL = 14;] *)
Definition SURF_MAX_PATCHLEVEL : Z := 14.

(** [const DWORD NOTILE = (DWORD)-1;] *)
Definition NOTILE : Z := 4294967295.

(** [int TileManager::patchidx[9] = {0, 1, 2, 3, 5, 13, 37, 137, 501};] *)
Definition patchidx : list Z := [0; 1; 2; 3; 5; 13; 37; 137; 501].

(** * Part I: the embedding *)

(** ** Rate limit of [TileManager::Render] (lines 484-492) *)

Section RateLimit.
(** The type of C [double]s with the two operations the loop uses. *)
Variable F : Type.
Variable Fgt : F -> F -> bool.      (* [a > b] *)
Variable Fdouble : F -> F.          (* [a *= 2.0] *)
(** [static double limitstep0 = 5.12 * pow(2.0, -(double)SURF_MAX_PATCHLEVEL);] *)
Variable limitstep0 : F.

(** [for (limitstep = limitstep0; cstep > limitstep && maxlevel > 5;
         limitstep *= 2.0) maxlevel--;]
    One unit of fuel per test of the loop condition. *)
Fixpoint limit_loop (fuel : nat) (cstep limitstep : F) (maxlevel : Z)
  : option Z :=
  match fuel with
  | O => None
  | S fuel' =>
      if Fgt cstep limitstep && (5 <? maxlevel)
      then limit_loop fuel' cstep (Fdouble limitstep) (maxlevel - 1)
      else Some maxlevel
  end.

(** [int maxlevel = SURF_MAX_PATCHLEVEL; for (...) maxlevel--;] *)
Definition Render_maxlevel (fuel : nat) (cstep : F) : option Z :=
  limit_loop fuel cstep limitstep0 SURF_MAX_PATCHLEVEL.

(** [level = min (level, maxlvl); ... level = min (level, maxlevel);
    RenderParam.tgtlvl = level;] *)
Definition Render_tgtlvl (fuel : nat) (maxlvl level : Z) (cstep : F)
  : option Z :=
  let level := Z.min level maxlvl in
  match Render_maxlevel fuel cstep with
  | Some maxlevel => Some (Z.min level maxlevel)
  | None => None
  end.
End RateLimit.

(** The loop over the rationals, with the limit of the source. *)
Definition Qgt_bool (a b : Q) : bool := negb (Qle_bool a b).
Definition Qdouble (a : Q) : Q := (a * 2)%Q.
Definition limitstep0_Q : Q := (5.12 * (1 / 2 ^ 14))%Q.

(** ** Tile descriptors and their store *)

(** A texture handle: the address of a Direct3D texture object, never 0. *)
Definition handle := positive.

(** The contents of a [LPDIRECT3DTEXTURE9] field of a descriptor.  The code
    stores in it either a texture object or, by a cast, a [DWORD] index into
    the texture archive ([NOTILE] included); the null pointer is the cast of
    0.  The constructor records which of the two was stored. *)
Inductive texval : Type :=
| TexIdx (i : Z)
| TexHnd (h : handle).

Arguments TexHnd h%_positive.

Definition NULLTEX : texval := TexIdx 0.

(** [(DWORD)td->tex] *)
Definition tex_DWORD (v : texval) : Z :=
  match v with TexIdx i => i | TexHnd h => Z.pos h end.

(** [if (td->tex)] *)
Definition tex_nonnull (v : texval) : bool := negb (tex_DWORD v =? 0).

(** A texture object or the null pointer: what the loaders hand back. *)
Definition tex_of_load (r : option handle) : texval :=
  match r with Some h => TexHnd h | None => NULLTEX end.

(** A [TILEDESC*]: [None] is the null pointer. *)
Abbreviation tileptr := (option nat).

(** Modelled from the spec: the layout of [TILEDESC] (TileMgr.h is not among
    the sources): [flag: u8], [tex], [ltex], [subtile[4]], [ofs: u32]. *)
Record TILEDESC : Type := mkTILEDESC {
  tex : texval;
  ltex : texval;
  flag : Z;
  subtile : list tileptr;
  ofs : N
}.

(** [memset (td, 0, sizeof(TILEDESC))] *)
Definition zero_TILEDESC : TILEDESC :=
  mkTILEDESC NULLTEX NULLTEX 0 [None; None; None; None] 0.

Definition set_tex (v : texval) (td : TILEDESC) : TILEDESC :=
  mkTILEDESC v (ltex td) (flag td) (subtile td) (ofs td).
Definition set_ltex (v : texval) (td : TILEDESC) : TILEDESC :=
  mkTILEDESC (tex td) v (flag td) (subtile td) (ofs td).
Definition set_flag (f : Z) (td : TILEDESC) : TILEDESC :=
  mkTILEDESC (tex td) (ltex td) f (subtile td) (ofs td).
Definition set_subtile (i : nat) (p : tileptr) (td : TILEDESC) : TILEDESC :=
  mkTILEDESC (tex td) (ltex td) (flag td) (<[i := p]> (subtile td)) (ofs td).
Definition set_ofs (o : N) (td : TILEDESC) : TILEDESC :=
  mkTILEDESC (tex td) (ltex td) (flag td) (subtile td) o.

(** [td->subtile[i]] *)
Definition get_subtile (td : TILEDESC) (i : nat) : tileptr :=
  default None (subtile td !! i).

(** The store of descriptors.  Address [a] holds [Some td] while the object
    is alive and [None] once it is deleted; [new] takes the next address. *)
Abbreviation Mem := (list (option TILEDESC)).

(** [*p]: fails on the null pointer, a deleted object or a wild address. *)
Definition load (m : Mem) (p : tileptr) : option TILEDESC :=
  a ← p; mjoin (m !! a).

Definition store (m : Mem) (a : nat) (td : TILEDESC) : Mem :=
  <[a := Some td]> m.

(** [p->field = v] through an update function. *)
Definition modify (m : Mem) (p : tileptr) (f : TILEDESC -> TILEDESC)
  : option Mem :=
  a ← p; td ← load m p; Some (store m a (f td)).

(** [new TILEDESC] *)
Definition alloc (m : Mem) (td : TILEDESC) : nat * Mem :=
  (length m, m ++ [Some td]).

(** [delete p] *)
Definition free (m : Mem) (a : nat) : Mem := <[a := None]> m.

#[global] Arguments load : simpl never.
#[global] Arguments store : simpl never.
#[global] Arguments free : simpl never.

(** [DWORD] arithmetic. *)
Definition dword (x : N) : N := (x mod 2 ^ 32)%N.

(** ** The request queue of [TileBuffer] *)

(** [struct QUEUEDESC { const char *name; TILEDESC *td; }] *)
Record QUEUEDESC : Type := mkQUEUEDESC {
  qd_name : string;
  qd_td : tileptr
}.

(** The static members [loadqueue], [nqueue], [queue_in], [queue_out]. *)
Record TileQueue : Type := mkTileQueue {
  loadqueue : list QUEUEDESC;
  nqueue : Z;
  queue_in : Z;
  queue_out : Z
}.

(** [loadqueue[j]]: fails outside the array. *)
Definition queue_at (q : TileQueue) (j : Z) : option QUEUEDESC :=
  if (0 <=? j) then loadqueue q !! Z.to_nat j else None.

Section Queue.
(** [MAXQUEUE] is a constant of TileMgr.h, the length of [loadqueue]. *)
Variable MAXQUEUE : Z.

(** [for (int i = 0; i < nqueue; i++) { int j = (i+queue_out) % MAXQUEUE;
      if (loadqueue[j].td == tile) { ok = false; break; } }]
    [n] counts the iterations left; the result is [true] when the request
    is already present. *)
Fixpoint request_present (n : nat) (i : Z) (q : TileQueue) (tile : tileptr)
  : option bool :=
  match n with
  | O => Some false
  | S n' =>
      let j := Z.rem (i + queue_out q) MAXQUEUE in
      qd ← queue_at q j;
      if decide (qd_td qd = tile) then Some true
      else request_present n' (i + 1) q tile
  end.

(** [bool TileBuffer::LoadTileAsync (const char *name, TILEDESC *tile)] *)
Definition LoadTileAsync (name : string) (tile : tileptr) (q : TileQueue)
  : option (bool * TileQueue) :=
  ok ← (if nqueue q =? MAXQUEUE then Some false
        else negb <$> request_present (Z.to_nat (nqueue q)) 0 q tile);
  if ok : bool then
    _ ← queue_at q (queue_in q);
    Some (true,
          mkTileQueue (<[Z.to_nat (queue_in q) := mkQUEUEDESC name tile]>
                         (loadqueue q))
                      (nqueue q + 1)
                      (Z.rem (queue_in q + 1) MAXQUEUE)
                      (queue_out q))
  else Some (false, q).
End Queue.

(** The requests waiting in the queue, oldest first. *)
Definition queued (MAXQUEUE : Z) (q : TileQueue) : list QUEUEDESC :=
  omap (fun i : nat => queue_at q (Z.rem (Z.of_nat i + queue_out q) MAXQUEUE))
       (seq 0 (Z.to_nat (nqueue q))).

(** ** The descriptor pool of [TileBuffer] *)

(** The members [buf], [nused] and [last]; [nbuf] is the length of [buf]. *)
Record TilePool : Type := mkTilePool {
  buf : list tileptr;
  nused : N;
  last : N
}.

Definition nbuf (p : TilePool) : N := N.of_nat (length (buf p)).

(** [for (i = 0; i < nbuf; i++) { j = (i+last)%nbuf;
      if (!buf[j]) { last = j; break; } }]
    [n] counts the iterations left; the result is the new value of [last]
    (unchanged when no slot is free: the [/* Problems! */] case). *)
Fixpoint find_free (n : nat) (i : N) (p : TilePool) : N :=
  match n with
  | O => last p
  | S n' =>
      let j := (dword (i + last p) mod nbuf p)%N in
      match buf p !! N.to_nat j with
      | Some None => j
      | _ => find_free n' (i + 1)%N p
      end
  end.

(** [TILEDESC *TileBuffer::AddTile ()]: the address of the new descriptor,
    the pool and the store.  [buf[last] = td] fails outside the array. *)
Definition AddTile (p : TilePool) (m : Mem) : option (nat * TilePool * Mem) :=
  let '(td, m) := alloc m zero_TILEDESC in
  let p1 :=
    if (nused p =? nbuf p)%N
    then mkTilePool (buf p ++ replicate 16 None) (nused p) (nused p)
    else mkTilePool (buf p) (nused p)
                    (find_free (length (buf p)) 0%N p) in
  if (last p1 <? nbuf p1)%N then
    m ← modify m (Some td) (set_ofs (last p1));
    Some (td,
          mkTilePool (<[N.to_nat (last p1) := Some td]> (buf p1))
                     (dword (nused p1 + 1)) (last p1),
          m)
  else None.

(** One iteration of the loop of [DeleteTile] over [tile->subtile[i]], the
    recursive call passed in as [rec]:
    [if (tile->subtile[i]) {
       if (DeleteTile (tile->subtile[i])) tile->subtile[i] = 0;
       else del = false; }] *)
Definition DeleteTile_sub
    (rec : nat -> TilePool * Mem -> option (bool * (TilePool * Mem)))
    (tile : nat) (i : nat) (acc : bool * (TilePool * Mem))
  : option (bool * (TilePool * Mem)) :=
  let '(del, (p, m)) := acc in
  td ← load m (Some tile);
  match get_subtile td i with
  | Some c =>
      '(r, (p, m)) ← rec c (p, m);
      if r : bool then
        m ← modify m (Some tile) (set_subtile i None);
        Some (del, (p, m))
      else Some (false, (p, m))
  | None => Some acc
  end.

(** [bool TileBuffer::DeleteTile (TILEDESC *tile)]; one unit of fuel per
    level of the recursion. *)
Fixpoint DeleteTile (fuel : nat) (tile : nat) (st : TilePool * Mem)
  : option (bool * (TilePool * Mem)) :=
  match fuel with
  | O => None
  | S fuel' =>
      r ← DeleteTile_sub (DeleteTile fuel') tile 0 (true, st);
      r ← DeleteTile_sub (DeleteTile fuel') tile 1 r;
      r ← DeleteTile_sub (DeleteTile fuel') tile 2 r;
      '(del, (p, m)) ← DeleteTile_sub (DeleteTile fuel') tile 3 r;
      td ← load m (Some tile);
      if tex_nonnull (tex td) || negb del then Some (false, (p, m))
      else
        _ ← buf p !! N.to_nat (ofs td);
        Some (true,
              (mkTilePool (<[N.to_nat (ofs td) := None]> (buf p))
                          (dword (nused p + (2 ^ 32 - 1))) (last p),
               free m tile))
  end.

(** One iteration of the loop of [DeleteSubTiles]:
    [if (tile->subtile[i]) {
       if (DeleteTile (tile->subtile[i])) tile->subtile[i] = 0; }] *)
Definition DeleteSubTiles_sub (fuel : nat) (tile : nat) (i : nat)
    (st : TilePool * Mem) : option (TilePool * Mem) :=
  td ← load (snd st) (Some tile);
  match get_subtile td i with
  | Some c =>
      '(r, (p, m)) ← DeleteTile fuel c st;
      if r : bool then
        m ← modify m (Some tile) (set_subtile i None);
        Some (p, m)
      else Some (p, m)
  | None => Some st
  end.

(** [void TileBuffer::DeleteSubTiles (TILEDESC *tile)] *)
Definition DeleteSubTiles (fuel : nat) (tile : nat) (st : TilePool * Mem)
  : option (TilePool * Mem) :=
  st ← DeleteSubTiles_sub fuel tile 0 st;
  st ← DeleteSubTiles_sub fuel tile 1 st;
  st ← DeleteSubTiles_sub fuel tile 2 st;
  DeleteSubTiles_sub fuel tile 3 st.

(** ** Texture objects *)

(** [TileCatalog]: the set of texture objects registered as alive. *)
Abbreviation Catalog := (gset handle).

(** [void ReleaseTex(LPDIRECT3DTEXTURE9 pTex)]: [TileCatalog->Remove] and
    [pTex->Release()].  Releasing a field that holds an archive index
    calls through a wild pointer: the model fails there. *)
Definition ReleaseTex (v : texval) (cat : Catalog) : option Catalog :=
  match v with
  | TexHnd h => Some (cat ∖ {[ h ]})
  | TexIdx _ => None
  end.

(** [if (p) ReleaseTex(p)] *)
Definition ReleaseTex_if (v : texval) (cat : Catalog) : option Catalog :=
  if tex_nonnull v then ReleaseTex v cat else Some cat.

(** The body of the loop of [TileBuffer::~TileBuffer] for slot [buf[i]]:
    [if (buf[i]) {
       if (!(buf[i]->flag & 0x80)) {
         if (buf[i]->tex)  ReleaseTex(buf[i]->tex);
         if (buf[i]->ltex) ReleaseTex(buf[i]->ltex); }
       delete buf[i]; }] *)
Definition destroy_slot (slot : tileptr) (st : Mem * Catalog)
  : option (Mem * Catalog) :=
  match slot with
  | None => Some st
  | Some a =>
      let '(m, cat) := st in
      td ← load m (Some a);
      cat ← (if Z.land (flag td) 128 =? 0
             then cat ← ReleaseTex_if (tex td) cat; ReleaseTex_if (ltex td) cat
             else Some cat);
      Some (free m a, cat)
  end.

(** [TileBuffer::~TileBuffer()]: the loop over [buf[0..nbuf)]. *)
Fixpoint destroy_slots (slots : list tileptr) (st : Mem * Catalog)
  : option (Mem * Catalog) :=
  match slots with
  | [] => Some st
  | slot :: slots' => st ← destroy_slot slot st; destroy_slots slots' st
  end.

Definition TileBuffer_destroy (p : TilePool) (m : Mem) (cat : Catalog)
  : option (Mem * Catalog) :=
  destroy_slots (buf p) (m, cat).

(** ** The loader thread *)

(** [static const long TILESIZE = 32896;] *)
Definition TILESIZE : Z := 32896.

(** Conversion to the 32-bit [long] of the platform. *)
Definition to_long (x : Z) : Z := (x + 2 ^ 31) mod 2 ^ 32 - 2 ^ 31.

(** [ofs = (td->flag & 0x40 ? (long)idx * TILESIZE : (long)idx);] *)
Definition tile_offset (flag idx : Z) : Z :=
  if Z.land flag 64 =? 0 then to_long idx
  else to_long (to_long idx * TILESIZE).

(** [((td->flag & 3) == 3) || (td->flag & 4)] *)
Definition has_mask (flag : Z) : bool :=
  (Z.land flag 3 =? 3) || negb (Z.land flag 4 =? 0).

Section Loader.
Variable MAXQUEUE : Z.
(** [ReadDDSSurface (dev, fname, ofs, &tex, bManaged)] as the loader uses
    it: the texture object on [S_OK], nothing on any other result.  The
    archive is the file named [<planet><suffix>]. *)
Variable ReadDDSSurface : string -> string -> Z -> option handle.

(** The texture objects [ReadDDSSurface] registers:
    [TileCatalog->Add] of the texture just created. *)
Definition catalog_add (r : option handle) (cat : Catalog) : Catalog :=
  match r with Some h => {[ h ]} ∪ cat | None => cat end.

(** One pass of the loop of [LoadTile_ThreadProc] that finds the thread
    running and not held: the head request is copied out, its textures
    are read, and the result is published:
    [td->tex = tex; td->ltex = mask; td->flag &= 0x3F; nqueue--;
     queue_out = (queue_out+1) % MAXQUEUE;] *)
Definition LoadTile_pass (q : TileQueue) (m : Mem) (cat : Catalog)
  : option (TileQueue * Mem * Catalog) :=
  if 0 <? nqueue q then
    qd ← queue_at q (queue_out q);
    td ← load m (qd_td qd);
    let tidx := tex_DWORD (tex td) in
    let rtex :=
      if tidx =? NOTILE then None
      else ReadDDSSurface (qd_name qd) "_tile.tex"
                          (tile_offset (flag td) tidx) in
    let rmask :=
      if has_mask (flag td) then
        let midx := tex_DWORD (ltex td) in
        if midx =? NOTILE then None
        else ReadDDSSurface (qd_name qd) "_tile_lmask.tex"
                            (tile_offset (flag td) midx)
      else None in
    m ← modify m (qd_td qd)
          (fun td => set_flag (Z.land (flag td) 63)
                       (set_ltex (tex_of_load rmask)
                          (set_tex (tex_of_load rtex) td)));
    Some (mkTileQueue (loadqueue q) (nqueue q - 1) (queue_in q)
                      (Z.rem (queue_out q + 1) MAXQUEUE),
          m, catalog_add rmask (catalog_add rtex cat))
  else Some (q, m, cat).
End Loader.

(** ** [TileManager]: state *)

(** A bounded [for (i = lo; i < hi; i++) body] whose body changes neither
    [i] nor the bound; [n] counts the iterations left. *)
Fixpoint for_loop {St : Type} (n : nat) (i : Z) (body : Z -> St -> option St)
    (s : St) : option St :=
  match n with
  | O => Some s
  | S n' => s ← body i s; for_loop n' (i + 1) body s
  end.

Definition for_range {St : Type} (lo hi : Z) (body : Z -> St -> option St)
    (s : St) : option St :=
  for_loop (Z.to_nat (hi - lo)) lo body s.

(** [patchidx[k]]: fails outside the array. *)
Definition patchidx_at (k : Z) : option Z :=
  if 0 <=? k then patchidx !! Z.to_nat k else None.

(** The members of [TileManager] the modelled functions use, with the
    static members [bGlobalSpecular], [bGlobalLights] and the global
    [tmissing].  [tiledesc] is the address of the array of base tiles and
    [ntiledesc] the number of its elements (it is allocated by the
    constructor of the derived class, outside this file).  The counters are
    [DWORD]s that count descriptors and textures; they are kept in [Z]. *)
Record TileManager : Type := mkTileManager {
  tiledesc : nat;
  ntiledesc : nat;
  maxlvl : Z;
  maxbaselvl : Z;
  tilever : Z;
  ntex : Z;
  nmask : Z;
  nhitex : Z;
  nhispec : Z;
  bNoTextures : bool;
  bPreloadTile : bool;
  texbuf : list handle;
  specbuf : list handle;
  bGlobalSpecular : bool;
  bGlobalLights : bool;
  tmissing : Z
}.

Definition set_nmask (v : Z) (tm : TileManager) : TileManager :=
  mkTileManager (tiledesc tm) (ntiledesc tm) (maxlvl tm) (maxbaselvl tm)
    (tilever tm) (ntex tm) v (nhitex tm) (nhispec tm) (bNoTextures tm)
    (bPreloadTile tm) (texbuf tm) (specbuf tm) (bGlobalSpecular tm)
    (bGlobalLights tm) (tmissing tm).
Definition set_specbuf (v : list handle) (tm : TileManager) : TileManager :=
  mkTileManager (tiledesc tm) (ntiledesc tm) (maxlvl tm) (maxbaselvl tm)
    (tilever tm) (ntex tm) (nmask tm) (nhitex tm) (nhispec tm)
    (bNoTextures tm) (bPreloadTile tm) (texbuf tm) v (bGlobalSpecular tm)
    (bGlobalLights tm) (tmissing tm).
Definition set_tilever (v : Z) (tm : TileManager) : TileManager :=
  mkTileManager (tiledesc tm) (ntiledesc tm) (maxlvl tm) (maxbaselvl tm)
    v (ntex tm) (nmask tm) (nhitex tm) (nhispec tm) (bNoTextures tm)
    (bPreloadTile tm) (texbuf tm) (specbuf tm) (bGlobalSpecular tm)
    (bGlobalLights tm) (tmissing tm).
Definition set_nhi (t s : Z) (tm : TileManager) : TileManager :=
  mkTileManager (tiledesc tm) (ntiledesc tm) (maxlvl tm) (maxbaselvl tm)
    (tilever tm) (ntex tm) (nmask tm) t s (bNoTextures tm)
    (bPreloadTile tm) (texbuf tm) (specbuf tm) (bGlobalSpecular tm)
    (bGlobalLights tm) (tmissing tm).
Definition set_tmissing (v : Z) (tm : TileManager) : TileManager :=
  mkTileManager (tiledesc tm) (ntiledesc tm) (maxlvl tm) (maxbaselvl tm)
    (tilever tm) (ntex tm) (nmask tm) (nhitex tm) (nhispec tm)
    (bNoTextures tm) (bPreloadTile tm) (texbuf tm) (specbuf tm)
    (bGlobalSpecular tm) (bGlobalLights tm) v.
Definition set_textures (lvl baselvl n : Z) (no : bool) (buf : list handle)
    (tm : TileManager) : TileManager :=
  mkTileManager (tiledesc tm) (ntiledesc tm) lvl baselvl
    (tilever tm) n (nmask tm) (nhitex tm) (nhispec tm) no
    (bPreloadTile tm) buf (specbuf tm) (bGlobalSpecular tm)
    (bGlobalLights tm) (tmissing tm).

(** [tiledesc + i]: fails outside the array. *)
Definition base_tile (tm : TileManager) (i : Z) : tileptr :=
  if (0 <=? i) && (i <? Z.of_nat (ntiledesc tm))
  then Some (tiledesc tm + Z.to_nat i)%nat else None.

(** [for (i = 0; i < patchidx[maxbaselvl]; i++) tiledesc[i].flag = 1;] *)
Definition reset_base_flags (tm : TileManager) (m : Mem) : option Mem :=
  n ← patchidx_at (maxbaselvl tm);
  for_range 0 n (fun i m => modify m (base_tile tm i) (set_flag 1)) m.

(** ** [TileManager::LoadPatchData] *)

(** The bytes of ["PLTA0100"]. *)
Definition PLTA0100 : list Z := [80; 76; 84; 65; 48; 49; 48; 48].

(** [fread (&b, 1, 1, binf)] into a [BYTE] variable whose value so far is
    [prev] ([None]: never assigned): at the end of the file the variable
    keeps its value. *)
Definition fread_byte (prev : option Z) (f : list Z) : option Z * list Z :=
  match f with
  | b :: f' => (Some b, f')
  | [] => (prev, [])
  end.

(** [for (i = 0; i < npatch; i++) { fread (&flag, 1, 1, binf);
      tflag[i] = flag; }] : the array [tflag] that results. *)
Fixpoint read_flags8 (n : nat) (flag : option Z) (f : list Z)
  : list (option Z) :=
  match n with
  | O => []
  | S n' =>
      let '(flag, f) := fread_byte flag f in
      flag :: read_flags8 n' flag f
  end.

#[global] Arguments read_flags8 : simpl never.

(** [fread (tflag, sizeof(WORD), npatch, binf)]: little-endian words; an
    element the file does not cover stays unassigned. *)
Fixpoint read_flags16 (n : nat) (f : list Z) : list (option Z) :=
  match n with
  | O => []
  | S n' =>
      match f with
      | b0 :: b1 :: f' => Some (b0 + 256 * b1) :: read_flags16 n' f'
      | _ => None :: read_flags16 n' []
      end
  end.

(** What the header of the file yields: [minres], [maxres] and [tflag].
    Modelled from the spec: the layout of [LMASKFILEHEADER] (TileMgr.h is
    not among the sources): the 8-byte id, [minres: u8], [maxres: u8],
    [npatch: u16].  A value read past the end of the file is not assigned;
    the model fails where the code would use it. *)
Definition read_lmask (f : list Z) : option (Z * Z * list (option Z)) :=
  if decide (take 8 f = PLTA0100) then
    minres ← f !! 8%nat;
    maxres ← f !! 9%nat;
    lo ← f !! 10%nat;
    hi ← f !! 11%nat;
    let npatch := lo + 256 * hi in
    Some (minres, maxres, read_flags16 (Z.to_nat npatch) (drop 12 f))
  else if decide (length f < 8 /\ take (length f) PLTA0100 = f)%nat then None
  else
    minres ← f !! 0%nat;
    maxres ← f !! 1%nat;
    hi ← patchidx_at maxres;
    lo ← patchidx_at (minres - 1);
    let npatch := hi - lo in
    if npatch <? 0 then None
    else Some (minres, maxres,
               read_flags8 (Z.to_nat npatch) None (drop 2 f)).

(** The body of the loop over the base tiles:
    [if (i < patchidx[minres-1]) tiledesc[i].flag = 1;
     else { flag = (BYTE)tflag[idx++]; tiledesc[i].flag = flag;
            if (((flag & 3) == 3) || (flag & 4)) nmask++; }] *)
Definition patch_flag_body (tm : TileManager) (minres : Z)
    (tflag : list (option Z)) (i : Z) (s : Z * Z * Mem)
  : option (Z * Z * Mem) :=
  let '(idx, nm, m) := s in
  lo ← patchidx_at (minres - 1);
  if i <? lo then
    m ← modify m (base_tile tm i) (set_flag 1);
    Some (idx, nm, m)
  else
    w ← mjoin (tflag !! Z.to_nat idx);
    let flag := Z.land w 255 in
    m ← modify m (base_tile tm i) (set_flag flag);
    Some (idx + 1, if has_mask flag then nm + 1 else nm, m).

(** [bool TileManager::LoadPatchData ()].  [file] is the contents of
    [<planet>_lmask.bin], or [None] when the file cannot be opened. *)
Definition LoadPatchData (file : option (list Z)) (tm : TileManager)
    (m : Mem) : option (bool * TileManager * Mem) :=
  let tm := set_nmask 0 tm in
  match (if bGlobalSpecular tm || bGlobalLights tm then file else None) with
  | None =>
      m ← reset_base_flags tm m;
      Some (false, tm, m)
  | Some f =>
      '(minres, maxres, tflag) ← read_lmask f;
      n ← patchidx_at (maxbaselvl tm);
      '(idx, nm, m) ← for_range 0 n (patch_flag_body tm minres tflag)
                         (0, 0, m);
      Some (true, set_nmask nm tm, m)
  end.

(** ** [TileManager::LoadTileData] *)

(** Modelled from the spec: the record of the table of contents (TileMgr.h
    is not among the sources): [{sidx: u32, midx: u32, flags: u16,
    subidx[4]: u32}]. *)
Record TILEFILESPEC : Type := mkTILEFILESPEC {
  sidx : Z;
  midx : Z;
  flags : Z;
  subidx : list Z
}.

Definition set_sidx (v : Z) (t : TILEFILESPEC) : TILEFILESPEC :=
  mkTILEFILESPEC v (midx t) (flags t) (subidx t).
Definition set_midx (v : Z) (t : TILEFILESPEC) : TILEFILESPEC :=
  mkTILEFILESPEC (sidx t) v (flags t) (subidx t).

(** [struct IDXLIST { DWORD idx, ofs; };] *)
Record IDXLIST : Type := mkIDXLIST {
  il_idx : Z;
  il_ofs : Z
}.

(** [int compare_idx (const void *el1, const void *el2)] *)
Definition compare_idx (idx1 idx2 : IDXLIST) : Z :=
  if il_ofs idx1 <? il_ofs idx2 then -1
  else if il_ofs idx2 <? il_ofs idx1 then 1 else 0.

(** [for (i = 0; i < n; i++) { idxlist[i].idx = i;
      idxlist[i].ofs = tfs[i].sidx; }] (and the same with [midx]). *)
Definition make_idxlist (ofs_of : TILEFILESPEC -> Z)
    (tfs : list TILEFILESPEC) : list IDXLIST :=
  imap (fun i t => mkIDXLIST (Z.of_nat i) (ofs_of t)) tfs.

(** [for (i = 0; i < n && idxlist[i].ofs != NOTILE; i++)
      tfs[idxlist[i].idx].sidx = i;]
    over the elements of the sorted [idxlist] from position [i] on;
    [set] is the assignment to [sidx] or to [midx]. *)
Fixpoint assign_ranks (set : Z -> TILEFILESPEC -> TILEFILESPEC) (i : Z)
    (idxlist : list IDXLIST) (tfs : list TILEFILESPEC)
  : list TILEFILESPEC :=
  match idxlist with
  | [] => tfs
  | e :: rest =>
      if il_ofs e =? NOTILE then tfs
      else assign_ranks set (i + 1) rest
             (alter (set i) (Z.to_nat (il_idx e)) tfs)
  end.

(** The contents of [<planet>_tile.bin]: whether it starts with the
    ["PLTS"] header, and its records. *)
Record TOCFILE : Type := mkTOCFILE {
  toc_header : bool;
  toc_tfs : list TILEFILESPEC
}.

(** [tfs[k]], [spec.subidx[j]]: fail outside the arrays. *)
Definition tfs_at (tfs : list TILEFILESPEC) (k : Z) : option TILEFILESPEC :=
  if 0 <=? k then tfs !! Z.to_nat k else None.

Definition subidx_at (t : TILEFILESPEC) (j : Z) : option Z :=
  if 0 <=? j then subidx t !! Z.to_nat j else None.

(** [for (j = 0; j < 4; j++) if (t.subidx[j]) { bSubtiles = true; break; }] *)
Definition has_subtiles (t : TILEFILESPEC) : bool :=
  existsb (fun s => negb (s =? 0)) (take 4 (subidx t)).

Section Catalogue.
(** [qsort (idxlist, n, sizeof(IDXLIST), compare_idx)] of the C library: the
    array it leaves behind. *)
Variable qsort : list IDXLIST -> list IDXLIST.

(** The conversion of texture offsets to indices, for one of the two index
    fields. *)
Definition convert_offsets (ofs_of : TILEFILESPEC -> Z)
    (set : Z -> TILEFILESPEC -> TILEFILESPEC) (tfs : list TILEFILESPEC)
  : list TILEFILESPEC :=
  assign_ranks set 0 (qsort (make_idxlist ofs_of tfs)) tfs.

(** [if (bPreloadTile) { if (tilever >= 1) { ... tilever = 0; } }] : the
    records and [tilever] that result. *)
Definition convert_toc (preload : bool) (tilever : Z)
    (tfs : list TILEFILESPEC) : list TILEFILESPEC * Z :=
  if preload && (1 <=? tilever) then
    (convert_offsets midx set_midx (convert_offsets sidx set_sidx tfs), 0)
  else (tfs, tilever).

(** The state [AddSubtileData] works on: the counters [nhitex] and
    [nhispec], the pool and the store. *)
Definition SubtileState : Type := Z * Z * TilePool * Mem.

(** [if (t.subidx[j]) AddSubtileData (child, tfs, subidx, j,
    lvl+1);] with the recursive call passed in as [rec]. *)
Definition AddSubtileData_sub
    (rec : nat -> Z -> Z -> Z -> SubtileState -> option SubtileState)
    (t : TILEFILESPEC) (c : nat) (subidx lvl : Z) (j : Z) (s : SubtileState)
  : option SubtileState :=
  sj ← subidx_at t j;
  if sj =? 0 then Some s else rec c subidx j (lvl + 1) s.

(** [bool TileManager::AddSubtileData (TILEDESC &td, TILEFILESPEC *tfs,
    DWORD idx, DWORD sub, DWORD lvl)]; [td] is the address of the parent
    descriptor.  One unit of fuel per level of the recursion. *)
Fixpoint AddSubtileData (fuel : nat) (tm : TileManager)
    (tfs : list TILEFILESPEC) (td : nat) (idx sub lvl : Z)
    (s : SubtileState) : option SubtileState :=
  match fuel with
  | O => None
  | S fuel' =>
      let '(nhitex, nhispec, p, m) := s in
      ti ← tfs_at tfs idx;
      subidx ← subidx_at ti sub;
      t ← tfs_at tfs subidx;
      let bSubtiles := has_subtiles t in
      if negb (flags t =? 0) || bSubtiles then
        if lvl <=? maxlvl tm then
          '(c, p, m) ← AddTile p m;
          m ← modify m (Some td) (set_subtile (Z.to_nat sub) (Some c));
          m ← modify m (Some c) (set_flag (Z.land (flags t) 255));
          m ← modify m (Some c) (set_tex (TexIdx (sidx t)));
          m ← (if bGlobalSpecular tm || bGlobalLights tm then
                 if midx t =? NOTILE then Some m
                 else modify m (Some c) (set_ltex (TexIdx (midx t)))
               else modify m (Some c) (set_flag 1));
          m ← modify m (Some c) (fun d => set_flag (Z.lor (flag d) 128) d);
          m ← (if tilever tm =? 0
               then modify m (Some c) (fun d => set_flag (Z.lor (flag d) 64) d)
               else Some m);
          s ← (if bSubtiles then
                 for_range 0 4
                   (AddSubtileData_sub (AddSubtileData fuel' tm tfs)
                      t c subidx lvl)
                   (nhitex, nhispec, p, m)
               else Some (nhitex, nhispec, p, m));
          let '(nhitex, nhispec, p, m) := s in
          Some (nhitex + 1,
                if midx t =? NOTILE then nhispec else nhispec + 1, p, m)
        else
          m ← modify m (Some td) (set_subtile (Z.to_nat sub) None);
          Some (nhitex, nhispec, p, m)
      else Some s
  end.

(** The loop over the level-8 tiles:
    [for (j = 0; j < 4; j++) if (tfs[i].subidx[j])
       AddSubtileData (tile8i, tfs, i, j, 9);] *)
Definition tile8_body (fuel : nat) (tm : TileManager)
    (tfs : list TILEFILESPEC) (i : Z) (s : SubtileState)
  : option SubtileState :=
  for_range 0 4
    (fun j s =>
       ti ← tfs_at tfs i;
       sj ← subidx_at ti j;
       if sj =? 0 then Some s
       else
         k ← patchidx_at 7;
         tile8i ← base_tile tm (k + i);
         AddSubtileData fuel tm tfs tile8i i j 9 s)
    s.

(** [bool TileManager::LoadTileData ()].  [file] is the contents of
    [<planet>_tile.bin], or [None] when the file cannot be opened. *)
Definition LoadTileData (fuel : nat) (file : option TOCFILE)
    (tm : TileManager) (p : TilePool) (m : Mem)
  : option (bool * TileManager * TilePool * Mem) :=
  if maxlvl tm <=? 8 then Some (false, tm, p, m)
  else
    match file with
    | None => Some (false, tm, p, m)
    | Some f =>
        let '(tfs, ver) :=
          convert_toc (bPreloadTile tm) (if toc_header f then 1 else 0)
                      (toc_tfs f) in
        let tm := set_tilever ver tm in
        '(nt, ns, p, m) ← for_range 0 364 (tile8_body fuel tm tfs)
                            (nhitex tm, nhispec tm, p, m);
        Some (true, set_nhi nt ns tm, p, m)
    end.
End Catalogue.

(** ** Texture loading at start-up *)

(** [texbuf[k]] for a local array of texture pointers. *)
Definition texbuf_at (b : list texval) (k : Z) : option texval :=
  if 0 <=? k then b !! Z.to_nat k else None.

(** The arrays and the counter [AddSubtileTextures] works on. *)
Definition PreloadState : Type := list texval * list texval * Z * Mem.

(** The copy of one texture pointer into a descriptor:
    [if (tidx != NOTILE) {
       if (tidx < nt) { td->tex = tbuf[tidx]; tbuf[tidx] = NULL; }
       else { tmissing++; td->tex = NULL; }
     } else td->tex = NULL;]
    [nt] is the number of textures loaded into [tbuf]. *)
Definition take_texture (tidx nt : Z) (tbuf : list texval) (missing : Z)
  : option (texval * list texval * Z) :=
  if tidx =? NOTILE then Some (NULLTEX, tbuf, missing)
  else if tidx <? nt then
    v ← texbuf_at tbuf tidx;
    Some (v, <[Z.to_nat tidx := NULLTEX]> tbuf, missing)
  else Some (NULLTEX, tbuf, missing + 1).

(** [void TileManager::AddSubtileTextures (TILEDESC *td, ...)]; one unit
    of fuel per level of the recursion. *)
Fixpoint AddSubtileTextures (fuel : nat) (td : nat) (nt nm : Z)
    (s : PreloadState) : option PreloadState :=
  match fuel with
  | O => None
  | S fuel' =>
      let '(tbuf, mbuf, missing, m) := s in
      d ← load m (Some td);
      '(v, tbuf, missing) ← take_texture (tex_DWORD (tex d)) nt tbuf missing;
      m ← modify m (Some td) (set_tex v);
      d ← load m (Some td);
      '(v, mbuf, missing) ← take_texture (tex_DWORD (ltex d)) nm mbuf missing;
      m ← modify m (Some td) (set_ltex v);
      m ← modify m (Some td) (fun d => set_flag (Z.land (flag d) 127) d);
      for_range 0 4
        (fun i s =>
           d ← load (snd s) (Some td);
           match get_subtile d (Z.to_nat i) with
           | Some c => AddSubtileTextures fuel' c nt nm s
           | None => Some s
           end)
        (tbuf, mbuf, missing, m)
  end.

(** [for (i = 0; i < nt; i++) if (texbuf[i]) ReleaseTex(texbuf[i]);] *)
Fixpoint release_all (b : list texval) (cat : Catalog) : option Catalog :=
  match b with
  | [] => Some cat
  | v :: b' => cat ← ReleaseTex_if v cat; release_all b' cat
  end.

Section Textures.
(** [gc->GetTexMgr()->LoadTextures (fname, buf, 0, n)] of the texture
    manager: the texture objects it creates from the archive [fname], in
    the order of the archive; the call stores the first [n] of them. *)
Variable TexMgr_LoadTextures : string -> list handle.
(** The member [objname]. *)
Variable objname : string.

Definition load_textures (fname : string) (n : Z) : list handle :=
  take (Z.to_nat n) (TexMgr_LoadTextures fname).

(** [void TileManager::PreloadTileTextures (TILEDESC *tile8, DWORD ntex,
    DWORD nmask)] *)
Definition PreloadTileTextures (fuel : nat) (tm : TileManager)
    (ntex nmask : Z) (m : Mem) (cat : Catalog)
  : option (TileManager * Mem * Catalog) :=
  let texbuf :=
    if ntex =? 0 then []
    else load_textures (objname +:+ "_tile.tex") ntex in
  let maskbuf :=
    if nmask =? 0 then []
    else load_textures (objname +:+ "_tile_lmask.tex") nmask in
  let nt := Z.of_nat (length texbuf) in
  let nm := Z.of_nat (length maskbuf) in
  '(tbuf, mbuf, missing, m) ←
    for_range 0 364
      (fun i s =>
         k ← patchidx_at 7;
         tile8i ← base_tile tm (k + i);
         for_range 0 4
           (fun j s =>
              d ← load (snd s) (Some tile8i);
              match get_subtile d (Z.to_nat j) with
              | Some c => AddSubtileTextures fuel c nt nm s
              | None => Some s
              end)
           s)
      (TexHnd <$> texbuf, TexHnd <$> maskbuf, tmissing tm, m);
  cat ← release_all tbuf cat;
  cat ← release_all mbuf cat;
  Some (set_tmissing missing tm, m, cat).

(** [while ((int)ntex < patchidx[maxbaselvl]) maxlvl = --maxbaselvl;]
    the new [maxlvl] and [maxbaselvl]. *)
Fixpoint lower_baselvl (fuel : nat) (ntex lvl baselvl : Z)
  : option (Z * Z) :=
  match fuel with
  | O => None
  | S fuel' =>
      n ← patchidx_at baselvl;
      if ntex <? n then lower_baselvl fuel' ntex (baselvl - 1) (baselvl - 1)
      else Some (lvl, baselvl)
  end.

(** [while ((int)ntex > patchidx[maxbaselvl]) ReleaseTex(texbuf[--ntex]);]
    the textures kept and the catalogue. *)
Fixpoint release_extra (fuel : nat) (bound : Z) (texbuf : list handle)
    (cat : Catalog) : option (list handle * Catalog) :=
  match fuel with
  | O => None
  | S fuel' =>
      if bound <? Z.of_nat (length texbuf) then
        h ← List.last (Some <$> texbuf) None;
        cat ← ReleaseTex (TexHnd h) cat;
        release_extra fuel' bound (removelast texbuf) cat
      else Some (texbuf, cat)
  end.

(** [void TileManager::LoadTextures (char *modstr)] *)
Definition LoadTextures (fuel : nat) (modstr : string) (tm : TileManager)
    (m : Mem) (cat : Catalog) : option (TileManager * Mem * Catalog) :=
  n ← patchidx_at (maxbaselvl tm);
  let loaded := load_textures (objname +:+ modstr +:+ ".tex") n in
  '(tm, m, cat) ←
    (if Z.of_nat (length loaded) =? 0 then
       Some (set_textures (maxlvl tm) (maxbaselvl tm) 0 true [] tm, m, cat)
     else
       '(lvl, baselvl) ← lower_baselvl fuel (Z.of_nat (length loaded))
                            (maxlvl tm) (maxbaselvl tm);
       bound ← patchidx_at baselvl;
       '(kept, cat) ← release_extra fuel bound loaded cat;
       let tm := set_textures lvl baselvl (Z.of_nat (length kept))
                              (bNoTextures tm) kept tm in
       m ← for_range 0 bound
             (fun i m =>
                h ← kept !! Z.to_nat i;
                modify m (base_tile tm i) (set_tex (TexHnd h)))
             m;
       Some (tm, m, cat));
  if bPreloadTile tm && negb (nhitex tm =? 0)
  then PreloadTileTextures fuel tm (nhitex tm) (nhispec tm) m cat
  else Some (tm, m, cat).

(** The body of the loop of [LoadSpecularMasks] over the base tiles:
    [if (((tiledesc[i].flag & 3) == 3) || (tiledesc[i].flag & 4)) {
       if (n < nmask) tiledesc[i].ltex = specbuf[n++];
       else tiledesc[i].flag = 1; }
     if (!bGlobalLights) tiledesc[i].flag &= 0xFB;
     if (!bGlobalSpecular) tiledesc[i].flag &= 0xFD, tiledesc[i].flag |= 1;] *)
Definition specular_body (tm : TileManager) (specbuf : list handle)
    (i : Z) (s : Z * Mem) : option (Z * Mem) :=
  let '(n, m) := s in
  d ← load m (base_tile tm i);
  '(n, m) ← (if has_mask (flag d) then
               if n <? nmask tm then
                 h ← specbuf !! Z.to_nat n;
                 m ← modify m (base_tile tm i) (set_ltex (TexHnd h));
                 Some (n + 1, m)
               else
                 m ← modify m (base_tile tm i) (set_flag 1);
                 Some (n, m)
             else Some (n, m));
  m ← (if bGlobalLights tm then Some m
       else modify m (base_tile tm i)
              (fun d => set_flag (Z.land (flag d) 251) d));
  m ← (if bGlobalSpecular tm then Some m
       else modify m (base_tile tm i)
              (fun d => set_flag (Z.lor (Z.land (flag d) 253) 1) d));
  Some (n, m).

(** [void TileManager::LoadSpecularMasks ()] *)
Definition LoadSpecularMasks (tm : TileManager) (m : Mem)
  : option (TileManager * Mem) :=
  if nmask tm =? 0 then Some (tm, m)
  else
    let loaded := load_textures (objname +:+ "_lmask.tex") (nmask tm) in
    let n := Z.of_nat (length loaded) in
    if n =? 0 then
      m ← reset_base_flags tm m;
      Some (set_nmask 0 tm, m)
    else if n <? nmask tm then
      m ← reset_base_flags tm m;
      Some (set_nmask 0 (set_specbuf [] tm), m)
    else
      bound ← patchidx_at (maxbaselvl tm);
      '(_, m) ← for_range 0 bound (specular_body tm loaded) (0, m);
      Some (set_specbuf loaded tm, m).
End Textures.

(** ** [TileManager::ProcessTile] *)

(** [lvl, hemisp, ilat, nlat, ilng, nlng]: the place of a tile on the
    sphere. *)
Record TILEPOS : Type := mkTILEPOS {
  lvl : Z;
  hemisp : Z;
  ilat : Z;
  nlat : Z;
  ilng : Z;
  nlng : Z
}.

(** [struct TEXCRDRANGE { float tumin, tumax, tvmin, tvmax; }] over the
    type [F] of C [float]s. *)
Record TEXCRDRANGE (F : Type) : Type := mkTEXCRDRANGE {
  tumin : F;
  tumax : F;
  tvmin : F;
  tvmax : F
}.
Arguments mkTEXCRDRANGE {F} _ _ _ _.
Arguments tumin {F} _.
Arguments tumax {F} _.
Arguments tvmin {F} _.
Arguments tvmax {F} _.

(** The arguments of a call of [ProcessTile]. *)
Record PTARGS (F : Type) : Type := mkPTARGS {
  a_pos : TILEPOS;
  a_tile : nat;
  a_range : TEXCRDRANGE F;
  a_tex : texval;
  a_ltex : texval;
  a_flag : Z;
  a_bkp_range : TEXCRDRANGE F;
  a_bkp_tex : texval;
  a_bkp_ltex : texval;
  a_bkp_flag : Z
}.
Arguments mkPTARGS {F} _ _ _ _ _ _ _ _ _ _.
Arguments a_pos {F} _.
Arguments a_tile {F} _.
Arguments a_range {F} _.
Arguments a_tex {F} _.
Arguments a_ltex {F} _.
Arguments a_flag {F} _.
Arguments a_bkp_range {F} _.
Arguments a_bkp_tex {F} _.
Arguments a_bkp_ltex {F} _.
Arguments a_bkp_flag {F} _.

(** A call of [RenderTile]: the tile, and the texture set it is drawn
    with. *)
Record RENDERCALL (F : Type) : Type := mkRENDERCALL {
  r_pos : TILEPOS;
  r_tile : nat;
  r_range : TEXCRDRANGE F;
  r_tex : texval;
  r_ltex : texval;
  r_flag : Z
}.
Arguments mkRENDERCALL {F} _ _ _ _ _ _.
Arguments r_pos {F} _.
Arguments r_tile {F} _.
Arguments r_range {F} _.
Arguments r_tex {F} _.
Arguments r_ltex {F} _.
Arguments r_flag {F} _.

(** [lvl+1, hemisp, ilat*2+i, nlat*2, ilng*2+j, nlng*2] *)
Definition child_pos (p : TILEPOS) (i j : Z) : TILEPOS :=
  mkTILEPOS (lvl p + 1) (hemisp p) (ilat p * 2 + i) (nlat p * 2)
            (ilng p * 2 + j) (nlng p * 2).

Section Traversal.
(** C [float]s and the operations on them the descent uses. *)
Variable F : Type.
Variables Fadd Fsub Fmul : F -> F -> F.
Variable F_of_int : Z -> F.
Variable Fhalf : F.                         (* [0.5f] *)
(** The tests of the traversal that depend on the camera and on the patch
    meshes, as functions of the place of the tile:
    - [off_view]: [adist >= RenderParam.viewap];
    - [IsTileInView]: the bounding sphere meets the viewing volume;
    - [adist_positive]: [adist > 0.0];
    - [oblique]: [adist2 > rad*(2.0*ctilt+0.3)];
    - [very_oblique]: [adist2 > rad*(4.2*ctilt+0.3)];
    - [behind_horizon]: [(dist-bsrad) > RenderParam.horzdist];
    - [IsVisibleInCamera]: the final visibility test of the scene. *)
Variables off_view IsTileInView adist_positive oblique very_oblique
          behind_horizon IsVisibleInCamera : TILEPOS -> bool.
Variable MAXQUEUE : Z.
Variable objname : string.
(** [RenderParam.tgtlvl] *)
Variable tgtlvl : Z.

(** [static TEXCRDRANGE fullrange = {0,1,0,1};] *)
Definition fullrange : TEXCRDRANGE F :=
  mkTEXCRDRANGE (F_of_int 0) (F_of_int 1) (F_of_int 0) (F_of_int 1).

(** [du = (range.tumax-range.tumin) * 0.5f;
     dv = (range.tvmax-range.tvmin) * 0.5f;
     subrange.tvmax = (subrange.tvmin = range.tvmin + (1-i)*dv) + dv;
     subrange.tumax = (subrange.tumin = range.tumin + j*du) + du;] *)
Definition subrange (range : TEXCRDRANGE F) (i j : Z) : TEXCRDRANGE F :=
  let du := Fmul (Fsub (tumax range) (tumin range)) Fhalf in
  let dv := Fmul (Fsub (tvmax range) (tvmin range)) Fhalf in
  let tvmin' := Fadd (tvmin range) (Fmul (F_of_int (1 - i)) dv) in
  let tumin' := Fadd (tumin range) (Fmul (F_of_int j) du) in
  mkTEXCRDRANGE tumin' (Fadd tumin' du) tvmin' (Fadd tvmin' dv).

(** The state of the traversal: the pool, the store, the request queue
    and the calls of [RenderTile] made so far. *)
Definition TravState : Type :=
  TilePool * Mem * TileQueue * list (RENDERCALL F).

(** The body of the inner loop of the descent up to the recursive call:
    the child descriptor is looked up or created, a load is requested, and
    the arguments of the recursive call are chosen:
    [TILEDESC *subtile = tile->subtile[idx];
     bool isfull = true;
     if (!subtile) {
       tile->subtile[idx] = subtile = tilebuf->AddTile();
       isfull = false;
     } else if (subtile->flag & 0x80) {
       if ((tile->flag & 0x80) == 0)
         tilebuf->LoadTileAsync (objname, subtile);
       isfull = false;
     }
     if (isfull) isfull = (subtile->tex != NULL);
     if (isfull) ProcessTile (lvl+1, ..., subtile,
                    fullrange, subtile->tex, subtile->ltex, subtile->flag,
                    subrange, tex, ltex, flag);
     else ProcessTile (lvl+1, ..., subtile, subrange, tex, ltex, flag,
                    subrange, tex, ltex, flag);] *)
Definition descend_child (a : PTARGS F) (i j : Z) (idx : nat)
    (s : TilePool * Mem * TileQueue)
  : option (PTARGS F * (TilePool * Mem * TileQueue)) :=
  let '(p, m, q) := s in
  let sub := subrange (a_range a) i j in
  td ← load m (Some (a_tile a));
  '(c, isfull, p, m, q) ←
    match get_subtile td idx with
    | None =>
        '(c, p, m) ← AddTile p m;
        m ← modify m (Some (a_tile a)) (set_subtile idx (Some c));
        Some (c, false, p, m, q)
    | Some c =>
        sd ← load m (Some c);
        if negb (Z.land (flag sd) 128 =? 0) then
          q ← (if Z.land (flag td) 128 =? 0
               then snd <$> LoadTileAsync MAXQUEUE objname (Some c) q
               else Some q);
          Some (c, false, p, m, q)
        else Some (c, true, p, m, q)
    end;
  sd ← load m (Some c);
  let isfull := if isfull : bool then tex_nonnull (tex sd) else false in
  let pos := child_pos (a_pos a) i j in
  Some (if isfull
        then mkPTARGS pos c fullrange (tex sd) (ltex sd) (flag sd)
                      sub (a_tex a) (a_ltex a) (a_flag a)
        else mkPTARGS pos c sub (a_tex a) (a_ltex a) (a_flag a)
                      sub (a_tex a) (a_ltex a) (a_flag a),
        (p, m, q)).

(** [bStepDown] and [bCoarseTex] as the tests on distance and obliqueness
    leave them. *)
Definition step_down (pos : TILEPOS) : bool * bool :=
  let bStepDown := lvl pos <? tgtlvl in
  if bStepDown && (8 <=? lvl pos) && adist_positive pos then
    if oblique pos then (false, very_oblique pos) else (bStepDown, false)
  else (bStepDown, false).

(** [void TileManager::ProcessTile (...)].  One unit of fuel per level of
    the recursion; [dfuel] is the fuel of the calls of [DeleteSubTiles].
    The statistics counters of the client are left out. *)
Fixpoint ProcessTile (fuel dfuel : nat) (a : PTARGS F) (s : TravState)
  : option TravState :=
  match fuel with
  | O => None
  | S fuel' =>
      let '(p, m, q, tr) := s in
      let pos := a_pos a in
      if off_view pos then Some s
      else if negb (IsTileInView pos) then
        '(p, m) ← DeleteSubTiles dfuel (a_tile a) (p, m);
        Some (p, m, q, tr)
      else
        let '(bStepDown, bCoarseTex) := step_down pos in
        if bStepDown then
          foldl (fun (s : option TravState) '(i, j, idx) =>
                   '(p, m, q, tr) ← s;
                   '(a', (p, m, q)) ← descend_child a i j idx (p, m, q);
                   ProcessTile fuel' dfuel a' (p, m, q, tr))
                (Some s) [(1, 0, 0%nat); (1, 1, 1%nat);
                          (0, 0, 2%nat); (0, 1, 3%nat)]
        else if behind_horizon pos then Some s
        else if negb (IsVisibleInCamera pos) then Some s
        else
          let call :=
            if bCoarseTex
            then mkRENDERCALL pos (a_tile a) (a_bkp_range a) (a_bkp_tex a)
                              (a_bkp_ltex a) (a_bkp_flag a)
            else mkRENDERCALL pos (a_tile a) (a_range a) (a_tex a)
                              (a_ltex a) (a_flag a) in
          Some (p, m, q, tr ++ [call])
  end.
End Traversal.

(** ** [TileManager::CreateSpherePatch] *)

(** A C array allocated with [new T[n]]: an element is [None] until it is
    assigned. *)
Definition new_array {A : Type} (n : Z) : option (list (option A)) :=
  if n <? 0 then None else Some (replicate (Z.to_nat n) None).

(** [a[n] = v]: fails outside the array. *)
Definition array_store {A : Type} (a : list (option A)) (n : Z) (v : A)
  : option (list (option A)) :=
  if (0 <=? n) && (n <? Z.of_nat (length a))
  then Some (<[Z.to_nat n := Some v]> a) else None.

(** [a[n]]: fails outside the array and on an element never assigned. *)
Definition array_load {A : Type} (a : list (option A)) (n : Z) : option A :=
  if 0 <=? n then mjoin (a !! Z.to_nat n) else None.

(** [memcpy (pBuffer, a, n*sizeof(T))]: the contents copied, all of them
    assigned. *)
Definition array_contents {A : Type} (a : list (option A)) : option (list A) :=
  mapM id a.

(** Conversion to [WORD]. *)
Definition to_WORD (x : Z) : Z := Z.land x 65535.

(** [struct VBMESH]: the vertex buffer, the index buffer and the two
    counts (the bounding sphere is floating-point data and left out). *)
Record VBMESH (V : Type) : Type := mkVBMESH {
  pVB : list V;
  pIB : list Z;
  nVtx : Z;
  nFace : Z
}.
Arguments mkVBMESH {V} _ _ _ _.
Arguments pVB {V} _.
Arguments pIB {V} _.
Arguments nVtx {V} _.
Arguments nFace {V} _.

(** [Idx[n++] = a; Idx[n++] = b; Idx[n++] = c;] *)
Definition store3 (a b c : Z) (s : Z * list (option Z))
  : option (Z * list (option Z)) :=
  let '(n, Idx) := s in
  Idx ← array_store Idx n (to_WORD a);
  Idx ← array_store Idx (n + 1) (to_WORD b);
  Idx ← array_store Idx (n + 2) (to_WORD c);
  Some (n + 3, Idx).

#[global] Arguments store3 : simpl never.

(** [for (j = 0; j < nseg; j++) {
      Idx[n++] = nofs0+j; Idx[n++] = nofs1+j; Idx[n++] = nofs0+j+1;
      if (reduce && j == nseg-1) break;
      Idx[n++] = nofs0+j+1; Idx[n++] = nofs1+j; Idx[n++] = nofs1+j+1; }]
    from [j] on; [k] counts the iterations left. *)
Fixpoint face_strip (k : nat) (j nseg nofs0 nofs1 : Z) (reduce : bool)
    (s : Z * list (option Z)) : option (Z * list (option Z)) :=
  match k with
  | O => Some s
  | S k' =>
      s ← store3 (nofs0 + j) (nofs1 + j) (nofs0 + j + 1) s;
      if reduce && (j =? nseg - 1) then Some s
      else
        s ← store3 (nofs0 + j + 1) (nofs1 + j) (nofs1 + j + 1) s;
        face_strip k' (j + 1) nseg nofs0 nofs1 reduce s
  end.

(** The body of the outer loop over the strips of faces:
    [nseg = (reduce ? bseg-i : bseg); nofs1 = nofs0+nseg+1;
     for (j ...) ...; nofs0 = nofs1;]
    on the state [(n, nofs0, Idx)]. *)
Definition face_body (bseg : Z) (reduce : bool) (i : Z)
    (s : Z * Z * list (option Z)) : option (Z * Z * list (option Z)) :=
  let '(n, nofs0, Idx) := s in
  let nseg := if reduce then bseg - i else bseg in
  let nofs1 := nofs0 + nseg + 1 in
  '(n, Idx) ← face_strip (Z.to_nat nseg) 0 nseg nofs0 nofs1 reduce (n, Idx);
  Some (n, nofs1, Idx).

(** [for (i = 0; i < nIdx/3; i += 3)
      tmp = Idx[i+1], Idx[i+1] = Idx[i+2], Idx[i+2] = tmp;]
    from [i] on, one unit of fuel per test of the loop condition. *)
Fixpoint flip_faces (fuel : nat) (i bound : Z) (Idx : list (option Z))
  : option (list (option Z)) :=
  match fuel with
  | O => None
  | S fuel' =>
      if i <? bound then
        tmp ← array_load Idx (i + 1);
        v ← array_load Idx (i + 2);
        Idx ← array_store Idx (i + 1) v;
        Idx ← array_store Idx (i + 2) tmp;
        flip_faces fuel' (i + 3) bound Idx
      else Some Idx
  end.

Section SpherePatch.
(** The vertex type [VERTEX_2TEX], and the vertex the body of the node
    loop computes (position, normal and texture coordinates, all in
    floating point) from the parameters of the patch and from [i], [j]
    and [nseg]. *)
Variable V : Type.
Variable make_vertex :
  Z -> Z -> Z -> Z -> bool -> bool -> Z -> Z -> Z -> V.

(** The body of the outer loop over the strips of nodes:
    [nseg = (reduce ? bseg-i : bseg);
     for (j = 0; j <= nseg; j++) { ... Vtx[n] = ...; n++; }]
    on the state [(n, Vtx)]. *)
Definition node_body (nlng nlat ilat res bseg : Z)
    (reduce outside shift_origin : bool) (i : Z)
    (s : Z * list (option V)) : option (Z * list (option V)) :=
  let nseg := if reduce then bseg - i else bseg in
  for_range 0 (nseg + 1)
    (fun j '(n, Vtx) =>
       Vtx ← array_store Vtx n
               (make_vertex nlng nlat ilat res outside shift_origin
                            i j nseg);
       Some (n + 1, Vtx))
    s.

(** [void TileManager::CreateSpherePatch (dev, mesh, nlng, nlat, ilat, res,
    bseg, reduce, outside, store_vtx, shift_origin)]: the mesh it fills
    in.  The integer computations are taken in [Z]. *)
Definition CreateSpherePatch (nlng nlat ilat res bseg : Z)
    (reduce outside store_vtx shift_origin : bool) : option (VBMESH V) :=
  let bseg :=
    if (bseg <? 0) || (ilat =? nlat - 1) then (nlat - ilat) * res
    else bseg in
  let nVtx := (bseg + 1) * (res + 1) in
  let nVtx := if reduce then nVtx - Z.quot ((res + 1) * res) 2 else nVtx in
  Vtx ← new_array nVtx;
  '(_, Vtx) ← for_range 0 (res + 1)
                (node_body nlng nlat ilat res bseg reduce outside
                           shift_origin)
                (0, Vtx);
  let nIdx :=
    (if reduce then res * (2 * bseg - res) else 2 * res * bseg) * 3 in
  Idx ← new_array nIdx;
  '(_, _, Idx) ← for_range 0 res (face_body bseg reduce) (0, 0, Idx);
  Idx ← (if outside then Some Idx
         else flip_faces (S (Z.to_nat (Z.quot nIdx 3))) 0 (Z.quot nIdx 3)
                         Idx);
  vb ← array_contents Vtx;
  ib ← array_contents Idx;
  Some (mkVBMESH vb ib nVtx (Z.quot nIdx 3)).
End SpherePatch.

(** ** Well-formed states *)

(** The ring buffer as the code keeps it: [MAXQUEUE] cells, between 0 and
    [MAXQUEUE] requests, and [queue_in] that many cells after
    [queue_out]. *)
Definition queue_wf (MAXQUEUE : Z) (q : TileQueue) : Prop :=
  0 < MAXQUEUE /\
  length (loadqueue q) = Z.to_nat MAXQUEUE /\
  0 <= nqueue q <= MAXQUEUE /\
  0 <= queue_out q < MAXQUEUE /\
  queue_in q = Z.rem (queue_out q + nqueue q) MAXQUEUE.

(** ** Sample states for the examples *)

(** A manager with [n] base tiles at the start of the store, base level
    [baselvl], specular masks enabled. *)
Definition sample_tm (n : nat) (baselvl : Z) : TileManager :=
  mkTileManager 0 n 8 baselvl 0 0 0 0 0 false false [] [] true false 0.

(** A store that holds [n] zeroed descriptors. *)
Definition sample_mem (n : nat) : Mem := replicate n (Some zero_TILEDESC).

(** An old-style mask file: [minres = 1], [maxres = 8], then the flags. *)
Definition sample_lmask (flags : list Z) : list Z := 1 :: 8 :: flags.

(** ** Arrays under construction *)

(** The first [n] elements of the array are assigned, to values that
    satisfy [P]. *)
Definition filled {A : Type} (P : A -> Prop) (n : Z) (a : list (option A))
  : Prop :=
  forall k, 0 <= k < n ->
    exists v, a !! Z.to_nat k = Some (Some v) /\ P v.

(** The number of the first node of strip [i]. *)
Definition strip_start (bseg : Z) (reduce : bool) (i : Z) : Z :=
  if reduce then i * (bseg + 1) - Z.quot (i * (i - 1)) 2
  else i * (bseg + 1).

(** The number of indices written before strip [i]. *)
Definition face_start (bseg : Z) (reduce : bool) (i : Z) : Z :=
  if reduce then 6 * i * bseg - 3 * i * i else 6 * i * bseg.

(** ** The contract of [qsort] and what the conversion is measured by *)

(** What the C library promises of [qsort] with [compare_idx]: the array it
    leaves is a rearrangement of the one it got, and no element compares
    greater than its successor. *)
Definition qsort_contract (qsort : list IDXLIST -> list IDXLIST) : Prop :=
  forall l, qsort l ≡ₚ l /\
            Sorted (fun a b => compare_idx a b <= 0) (qsort l).

(** The entries of the sorted array the assignment loop visits: those
    before the first [NOTILE]. *)
Fixpoint live_prefix (l : list IDXLIST) : list IDXLIST :=
  match l with
  | [] => []
  | e :: rest => if il_ofs e =? NOTILE then [] else e :: live_prefix rest
  end.

(** The indices that are not [NOTILE]. *)
Definition tile_indices (l : list Z) : list Z :=
  filter (fun v => v <> NOTILE) l.

(** The merge sort of stdpp by [ofs], a function that meets the contract. *)
Definition ofs_le (a b : IDXLIST) : Prop := il_ofs a <= il_ofs b.

#[global] Instance ofs_le_dec : RelDecision ofs_le :=
  fun a b => Z_le_dec (il_ofs a) (il_ofs b).

Definition qsort_merge (l : list IDXLIST) : list IDXLIST :=
  merge_sort ofs_le l.


(** A table of contents in which two records share a surface offset. *)
Definition sample_toc_shared : list TILEFILESPEC :=
  [mkTILEFILESPEC 100 NOTILE 1 [0; 0; 0; 0];
   mkTILEFILESPEC 100 NOTILE 1 [0; 0; 0; 0]].

(** A table of contents with distinct offsets, one record without
    textures. *)
Definition sample_toc : list TILEFILESPEC :=
  [mkTILEFILESPEC 65792 32896 1 [0; 0; 0; 0];
   mkTILEFILESPEC NOTILE NOTILE 0 [1; 0; 0; 0];
   mkTILEFILESPEC 0 0 1 [0; 0; 0; 0];
   mkTILEFILESPEC 32896 NOTILE 1 [0; 0; 0; 0]].


(** ** Well-formed pools and trees of descriptors *)

(** A slot of [buf] that holds a descriptor. *)
Definition occupied (s : tileptr) : Prop := s <> None.

(** The pool as [AddTile] and [DeleteTile] keep it: [nused] counts the
    occupied slots, [last] is a slot of [buf] (or [buf] is empty), and
    [nbuf] stays far from the end of the [DWORD] range. *)
Definition pool_wf (p : TilePool) : Prop :=
  (nbuf p + 16 < 2 ^ 31)%N /\
  (last p < nbuf p \/ nbuf p = 0)%N /\
  nused p = N.of_nat (length (filter occupied (buf p))).

(** [subtree m n p f]: in the store [m] the pointer [p] is null and [f] is
    empty, or [p] is the root of a tree of descriptors of height at most
    [n] that occupies the addresses [f], the root first. *)
Inductive subtree (m : Mem) : nat -> tileptr -> list nat -> Prop :=
| subtree_null n : subtree m n None []
| subtree_node n a td f0 f1 f2 f3 :
    load m (Some a) = Some td ->
    length (subtile td) = 4%nat ->
    subtree m n (get_subtile td 0) f0 ->
    subtree m n (get_subtile td 1) f1 ->
    subtree m n (get_subtile td 2) f2 ->
    subtree m n (get_subtile td 3) f3 ->
    subtree m (S n) (Some a) (a :: f0 ++ f1 ++ f2 ++ f3).

(** Every descriptor at the addresses [f] has a null [tex]. *)
Definition all_null (m : Mem) (f : list nat) : Prop :=
  forall b td, b ∈ f -> load m (Some b) = Some td ->
               tex_nonnull (tex td) = false.

(** [nused] after [k] executions of [nused--]. *)
Definition nused_after (k : nat) (n : N) : N :=
  Nat.iter k (fun x => dword (x + (2 ^ 32 - 1))) n.

(** The slots ([ofs]) of the descriptors at the addresses [f]. *)
Definition slots_of (m : Mem) (f : list nat) : list nat :=
  omap (fun b => (fun td => N.to_nat (ofs td)) <$> load m (Some b)) f.

Definition is_slot (m : Mem) (f : list nat) (s : nat) : Prop :=
  s ∈ slots_of m f.

(** What a call of [DeleteTile] on a tree at the addresses [f] leaves of
    the pool [p] and the store [m]: outside [f] and its slots nothing
    changes; and, when it returns [true], every descriptor of the tree is
    deleted, every one of its slots is emptied, and [nused] has gone down
    once per descriptor. *)
Definition frame_ok (f : list nat) (p : TilePool) (m : Mem)
    (p' : TilePool) (m' : Mem) : Prop :=
  length m' = length m /\
  (forall b, b ∉ f -> m' !! b = m !! b) /\
  length (buf p') = length (buf p) /\
  last p' = last p /\
  (forall s, ~ is_slot m f s -> buf p' !! s = buf p !! s).

Definition freed_ok (f : list nat) (p : TilePool) (m : Mem)
    (p' : TilePool) (m' : Mem) : Prop :=
  (forall b, b ∈ f -> m' !! b = Some None) /\
  (forall s, is_slot m f s -> buf p' !! s = Some None) /\
  nused p' = nused_after (length f) (nused p).


(** A field that holds a texture object. *)
Definition loaded (v : texval) : Prop := exists h, v = TexHnd h.

(** A field that holds a texture object or the null pointer: no archive
    index waits in it. *)
Definition resolved (v : texval) : Prop :=
  match v with TexHnd _ => True | TexIdx i => i = 0 end.


(** The traversal over the rationals, with a queue of ten cells and the
    planet name ["Earth"]. *)
Definition Q_half : Q := 1 # 2.

Definition sample_descend :=
  descend_child Q Qplus Qminus Qmult inject_Z Q_half 10 "Earth".

(** The empty pool, the empty queue of ten cells, and the arguments of the
    call of [ProcessTile] for the first level-8 tile, drawn with its own
    texture (the object 1). *)
Definition sample_pool : TilePool := mkTilePool [] 0 0.

Definition sample_queue : TileQueue :=
  mkTileQueue (replicate 10 (mkQUEUEDESC "Earth" None)) 0 0 0.

Definition sample_args : PTARGS Q :=
  mkPTARGS (mkTILEPOS 8 0 0 8 0 32) 0
           (fullrange Q inject_Z) (TexHnd 1%positive) NULLTEX 1
           (fullrange Q inject_Z) (TexHnd 1%positive) NULLTEX 1.


(** A store with the first level-8 tile at address 0, drawn with the
    texture object 1, and its first child at address 1, loaded with the
    texture object 2 of its own. *)
Definition sample_mem_loaded : Mem :=
  [Some (mkTILEDESC (TexHnd 1) NULLTEX 1 [Some 1%nat; None; None; None] 0);
   Some (mkTILEDESC (TexHnd 2) NULLTEX 1 [None; None; None; None] 0)].

Definition sample_pool_loaded : TilePool :=
  mkTilePool (Some 1%nat :: replicate 15 None) 1 0.

(** A frame in which every tile is in view, the target level is 10, and
    every tile of level 9 is seen under a very oblique angle. *)
Definition sample_ProcessTile :=
  ProcessTile Q Qplus Qminus Qmult inject_Z Q_half
    (fun _ => false) (fun _ => true)
    (fun pos => lvl pos =? 9) (fun _ => true) (fun _ => true)
    (fun _ => false) (fun _ => true) 10 "Earth" 10.


(** The state of the loop of [DeleteTile] over the children of the
    descriptor at [a] (which held [td] on entry), before child [k], when
    the children handled so far occupied the addresses [D]: relative to
    the pool [p] and the store [m] on entry. *)
Definition child_inv (a : nat) (td : TILEDESC) (k : nat) (D : list nat)
    (p : TilePool) (m : Mem) (del : bool) (pk : TilePool) (mk : Mem)
  : Prop :=
  (exists tdk, load mk (Some a) = Some tdk /\ tex tdk = tex td /\
               ofs tdk = ofs td /\
               forall i, (k <= i)%nat ->
                         get_subtile tdk i = get_subtile td i) /\
  (del = true <-> all_null m D) /\
  length mk = length m /\
  (forall b, b ∉ a :: D -> mk !! b = m !! b) /\
  length (buf pk) = length (buf p) /\
  last pk = last p /\
  (forall s, ~ is_slot m D s -> buf pk !! s = buf p !! s) /\
  (del = true -> freed_ok D p m pk mk).


(** A store with a level-8 tile at address 0 and one catalogued child at
    address 1 that is not loaded: its [tex] and [ltex] hold the archive
    indices 7 and 3, and its flag asks for a light mask.  The child
    occupies slot 0 of the pool and a request for it is queued. *)
Definition sample_mem_unloaded : Mem :=
  [Some (mkTILEDESC (TexHnd 1) NULLTEX 1 [Some 1%nat; None; None; None] 0);
   Some (mkTILEDESC (TexIdx 7) (TexIdx 3) 132 [None; None; None; None] 0)].

Definition sample_queue_request : TileQueue :=
  mkTileQueue (mkQUEUEDESC "Earth" (Some 1%nat)
               :: replicate 9 (mkQUEUEDESC "Earth" None)) 1 1 0.

(** An archive whose surface texture cannot be read while its mask can: the
    mask becomes the texture object 9. *)
Definition sample_ReadDDSSurface (name suffix : string) (ofs : Z)
  : option handle :=
  if decide (suffix = "_tile_lmask.tex") then Some 9%positive else None.

(** The store once the loader has served that request: the child has a
    null [tex] and the mask object 9 in [ltex]. *)
Definition sample_mem_mask_only : Mem :=
  [Some (mkTILEDESC (TexHnd 1) NULLTEX 1 [Some 1%nat; None; None; None] 0);
   Some (mkTILEDESC NULLTEX (TexHnd 9) 4 [None; None; None; None] 0)].


(** The descriptor refers to the texture object [h]. *)
Definition holds_handle (h : handle) (td : TILEDESC) : Prop :=
  tex td = TexHnd h \/ ltex td = TexHnd h.


(** ** The store in order *)

(** The descriptor [td] at address [a] is in order: if it is marked as
    loaded, or is one of the [n] base tiles at [lo], its [tex] holds no
    archive index. *)
Definition cell_ok (lo n : nat) (a : nat) (td : TILEDESC) : Prop :=
  (Z.land (flag td) 128 = 0 \/ (lo <= a < lo + n)%nat) -> resolved (tex td).

(** The store is in order: it contains the array of base tiles, and every
    descriptor in it is in order. *)
Definition mem_inv (lo n : nat) (m : Mem) : Prop :=
  (lo + n <= length m)%nat /\
  forall a td, load m (Some a) = Some td -> cell_ok lo n a td.

(** The invariant of the store with the descriptor at [c] left out: the
    state of the store while that descriptor is being filled in. *)
Definition mem_inv_except (lo n : nat) (c : nat) (m : Mem) : Prop :=
  (lo + n <= length m)%nat /\
  forall a td, a <> c -> load m (Some a) = Some td -> cell_ok lo n a td.

(** ** Places of tiles *)

(** The tile at [pos] is one of the [4^k] tiles of level [lvl pos0 + k]
    that subdivide the tile at [pos0]: same hemisphere, [2^k] times the
    bands and sectors, and its band and its sector among those that
    subdivide the band and the sector of [pos0]. *)
Definition covers (pos0 pos : TILEPOS) : Prop :=
  let k := lvl pos - lvl pos0 in
  0 <= k /\ hemisp pos = hemisp pos0 /\
  nlat pos = nlat pos0 * 2 ^ k /\ nlng pos = nlng pos0 * 2 ^ k /\
  ilat pos0 * 2 ^ k <= ilat pos < (ilat pos0 + 1) * 2 ^ k /\
  ilng pos0 * 2 ^ k <= ilng pos < (ilng pos0 + 1) * 2 ^ k.


(** A texture manager that finds six textures in every archive. *)
Definition sample_archive (fname : string) : list handle :=
  [1; 2; 3; 4; 5; 6]%positive.

(** ** Masked base tiles *)

(** The flag of base tile [j] in the store (0 when there is none). *)
Definition base_flag (tm : TileManager) (m : Mem) (j : Z) : Z :=
  default 0 (flag <$> load m (base_tile tm j)).

(** The number of base tiles below [i] whose flag asks for a mask. *)
Definition masks_before (tm : TileManager) (m : Mem) (i : Z) : Z :=
  Z.of_nat (length (filter (fun j => has_mask (base_flag tm m j) = true)
                           (seqZ 0 i))).

(** What the two statements
    [if (!bGlobalLights) flag &= 0xFB;
     if (!bGlobalSpecular) flag &= 0xFD, flag |= 1;]
    make of a flag. *)
Definition global_flag (tm : TileManager) (f : Z) : Z :=
  let f := if bGlobalLights tm then f else Z.land f 251 in
  if bGlobalSpecular tm then f else Z.lor (Z.land f 253) 1.

(** What the body of the loop of [LoadSpecularMasks] makes of a base tile
    [td] when [n] masks have been handed out: the next mask goes into
    [ltex] if the flag asks for one (the flag is reset to 1 when the masks
    have run out), then the flag is cut down to what is enabled. *)
Definition specular_tile (tm : TileManager) (specbuf : list handle) (n : Z)
    (td : TILEDESC) : TILEDESC :=
  let td1 :=
    if has_mask (flag td) then
      if n <? nmask tm then
        match specbuf !! Z.to_nat n with
        | Some h => set_ltex (TexHnd h) td
        | None => td
        end
      else set_flag 1 td
    else td in
  set_flag (global_flag tm (flag td1)) td1.


(** ** What the catalogue adds to the store *)

(** [d'] has the textures and the flag of [d]. *)
Definition same_texture (d d' : TILEDESC) : Prop :=
  tex d' = tex d /\ ltex d' = ltex d /\ flag d' = flag d.

(** The store [m] extends the store [m0] by catalogued descriptors: every
    descriptor of [m0] is still there with its textures and its flag, and
    every descriptor behind them is marked as not loaded (bit [0x80]), and
    as old-style (bit [0x40]) when [oldstyle] is set. *)
Definition catalogued (oldstyle : bool) (m0 m : Mem) : Prop :=
  (length m0 <= length m)%nat /\
  (forall a d, load m0 (Some a) = Some d ->
     exists d', load m (Some a) = Some d' /\ same_texture d d') /\
  (forall a, (length m0 <= a < length m)%nat ->
     exists d, load m (Some a) = Some d /\ Z.land (flag d) 128 <> 0 /\
               (oldstyle = true -> Z.land (flag d) 64 <> 0)).

(** What a call of [AddSubtileData] leaves of the counters and of the
    store, relative to what it found. *)
Definition subtiles_added (tm : TileManager) (s s' : SubtileState) : Prop :=
  let '(nt, ns, p, m) := s in
  let '(nt', ns', p', m') := s' in
  catalogued (tilever tm =? 0) m m' /\
  nt' = nt + Z.of_nat (length m' - length m) /\
  ns <= ns' <= ns + Z.of_nat (length m' - length m).

(** A table of contents with a header: the first level-8 tile has one
    subtile, record 364, with a surface texture and no mask. *)
Definition sample_tocfile : TOCFILE :=
  mkTOCFILE true
    (mkTILEFILESPEC NOTILE NOTILE 0 [364; 0; 0; 0]
     :: replicate 363 (mkTILEFILESPEC NOTILE NOTILE 0 [0; 0; 0; 0])
     ++ [mkTILEFILESPEC 0 NOTILE 1 [0; 0; 0; 0]]).

(** A manager with all 501 base tiles and one level of subtiles. *)
Definition sample_tm9 : TileManager :=
  set_textures 9 8 0 false [] (sample_tm 501 8).

(** ** The descriptors of the pool *)

(** The addresses in the occupied slots of [buf]. *)
Definition pool_tiles (p : TilePool) : list nat := omap id (buf p).

(** The destructor of the pool releases [h]: a descriptor of the pool that
    is marked as loaded refers to it. *)
Definition pool_releases (slots : list tileptr) (m : Mem) (h : handle)
  : Prop :=
  exists a td, a ∈ omap id slots /\ load m (Some a) = Some td /\
               Z.land (flag td) 128 = 0 /\ holds_handle h td.


(** ** [TileManager::CreateSphere] *)

(** Conversion to [DWORD]. *)
Definition to_DWORD (x : Z) : Z := x mod 2 ^ 32.

(** [for (x = x0; x < bound; x++) body] with a [WORD] counter [x] and a
    [DWORD] bound: the counter wraps at [2^16], so that the loop may not
    end; one unit of fuel per test of the condition.  The result is the
    counter on exit and the state. *)
Fixpoint word_for {St : Type} (fuel : nat) (x bound : Z)
    (body : Z -> St -> option St) (s : St) : option (Z * St) :=
  match fuel with
  | O => None
  | S fuel' =>
      if x <? bound then
        s ← body x s; word_for fuel' (to_WORD (x + 1)) bound body s
      else Some (x, s)
  end.

Section Sphere.
(** The vertex type [VERTEX_2TEX]; the vertex of ring [y] at position [x]
    (position, normal and texture coordinates are floating-point
    functions of [nrings], [hemisphere], [which_half], [texres], [y] and
    [x]); and the two pole vertices. *)
Variable V : Type.
Variable ring_vertex : Z -> bool -> Z -> Z -> Z -> Z -> V.
Variables north_vertex south_vertex : V.

(** [*vtx++ = VERTEX_2TEX (...); nvtx++;] on the state
    [(vtx - Vtx, nvtx, Vtx)]: the pointer is not a [WORD], the counter
    is. *)
Definition push_vertex (v : V) (s : Z * Z * list (option V))
  : option (Z * Z * list (option V)) :=
  let '(vp, nvtx, Vtx) := s in
  Vtx ← array_store Vtx vp v;
  Some (vp + 1, to_WORD (nvtx + 1), Vtx).

(** [void TileManager::CreateSphere (dev, mesh, nrings, hemisphere,
    which_half, texres)]: the mesh it fills in.  [nrings] is a [DWORD];
    the counter [nidx], which is written and never read, is left out. *)
Definition CreateSphere (fuel : nat) (nrings : Z) (hemisphere : bool)
    (which_half texres : Z) : option (VBMESH V) :=
  let nVtx := to_DWORD (if hemisphere then nrings * (nrings + 1) + 2
                        else nrings * (2 * nrings + 1) + 2) in
  let nIdx := to_DWORD (if hemisphere then 6 * nrings * nrings
                        else 12 * nrings * nrings) in
  Vtx ← new_array nVtx;
  Idx ← new_array nIdx;
  let x1 := to_DWORD (if hemisphere then nrings else nrings * 2) in
  let x2 := to_DWORD (x1 + 1) in
  (* the middle of the sphere *)
  '(_, (vp, nvtx, Vtx)) ←
    word_for fuel 0 nrings
      (fun y s =>
         snd <$> word_for fuel 0 x2
                   (fun x s =>
                      push_vertex (ring_vertex nrings hemisphere which_half
                                               texres y x) s)
                   s)
      (0, 0, Vtx);
  '(y, (n, Idx)) ←
    word_for fuel 0 (to_DWORD (nrings - 1))
      (fun y s =>
         snd <$> word_for fuel 0 x1
                   (fun x s =>
                      s ← store3 (to_DWORD (y * x2 + x))
                                 (to_DWORD (y * x2 + (x + 1)))
                                 (to_DWORD ((y + 1) * x2 + x)) s;
                      store3 (to_DWORD (y * x2 + (x + 1)))
                             (to_DWORD ((y + 1) * x2 + (x + 1)))
                             (to_DWORD ((y + 1) * x2 + x)) s)
                   s)
      (0, Idx);
  (* top and bottom *)
  let wNorthVtx := nvtx in
  '(vp, nvtx, Vtx) ← push_vertex north_vertex (vp, nvtx, Vtx);
  let wSouthVtx := nvtx in
  '(vp, nvtx, Vtx) ← push_vertex south_vertex (vp, nvtx, Vtx);
  '(_, (n, Idx)) ←
    word_for fuel 0 x1
      (fun x s => store3 wSouthVtx (to_DWORD (y * x2 + (x + 1)))
                         (to_DWORD (y * x2 + x)) s)
      (n, Idx);
  '(_, (n, Idx)) ←
    word_for fuel 0 x1
      (fun x s => store3 wNorthVtx (to_DWORD (0 * x2 + (x + 1)))
                         (to_DWORD (0 * x2 + x)) s)
      (n, Idx);
  vb ← array_contents Vtx;
  ib ← array_contents Idx;
  Some (mkVBMESH vb ib nVtx (nIdx / 3)).
End Sphere.


(** ** [TileManager::Render]: the loop over the tiles of the start level *)

(** [int TileManager::NLAT[9] = {0,1,1,1,1,1,2,4,8};] *)
Definition NLAT : list Z := [0; 1; 1; 1; 1; 1; 2; 4; 8].

(** [int TileManager::NLNG5[1] = {4};] and the tables of the levels 6 to
    8. *)
Definition NLNG5 : list Z := [4].
Definition NLNG6 : list Z := [8; 4].
Definition NLNG7 : list Z := [16; 16; 12; 6].
Definition NLNG8 : list Z := [32; 32; 30; 28; 24; 18; 12; 6].

(** [int *TileManager::NLNG[9] = {0,0,0,0,0,NLNG5,NLNG6,NLNG7,NLNG8};]
    [None] is the null pointer. *)
Definition NLNG : list (option (list Z)) :=
  [None; None; None; None; None;
   Some NLNG5; Some NLNG6; Some NLNG7; Some NLNG8].

(** [t[k]] for a C array [t]: fails outside the array. *)
Definition table_at {A : Type} (t : list A) (k : Z) : option A :=
  if 0 <=? k then t !! Z.to_nat k else None.

(** [for (i = hi; i >= lo; i--) body] from [i] on; [n] counts the
    iterations left. *)
Fixpoint for_down {St : Type} (n : nat) (i : Z) (body : Z -> St -> option St)
    (s : St) : option St :=
  match n with
  | O => Some s
  | S n' => s ← body i s; for_down n' (i - 1) body s
  end.

(** [for (hemisp = idx = 0; hemisp < 2; hemisp++) {
      for (ilat = nlat-1; ilat >= 0; ilat--)
        for (ilng = 0; ilng < nlng[ilat]; ilng++) {
          body (hemisp, ilat, ilng, nlng[ilat], idx);
          idx++; } }]
    on the state [(idx, s)]; [nlng] is a pointer, null for the levels below
    5, and [nlng[ilat]] fails outside the table. *)
Definition Render_loop {St : Type} (nlat : Z) (nlng : option (list Z))
    (body : Z -> Z -> Z -> Z -> Z -> St -> option St) (s : St)
  : option (Z * St) :=
  for_range 0 2
    (fun hemisp st =>
       for_down (Z.to_nat nlat) (nlat - 1)
         (fun ilat st =>
            n ← (l ← nlng; table_at l ilat);
            for_range 0 n
              (fun ilng '(idx, s) =>
                 s ← body hemisp ilat ilng n idx s;
                 Some (idx + 1, s))
              st)
         st)
    (0, s).

Section RenderTiles.
(** C [double]s, for the rate limit. *)
Variable D : Type.
Variable Dgt : D -> D -> bool.
Variable Ddouble : D -> D.
Variable limitstep0 : D.
(** C [float]s and the tests of the traversal, as for [ProcessTile]. *)
Variable F : Type.
Variables Fadd Fsub Fmul : F -> F -> F.
Variable F_of_int : Z -> F.
Variable Fhalf : F.
Variables off_view IsTileInView adist_positive oblique very_oblique
          behind_horizon IsVisibleInCamera : TILEPOS -> bool.
Variable MAXQUEUE : Z.
Variable objname : string.
(** [RenderSimple (level, npatch, td, &RenderParam.wmat)] of the derived
    class, with [td] as an offset into [tiledesc]. *)
Variable RenderSimple :
  Z -> Z -> Z -> TravState F -> option (TravState F).

(** The call in the body of the loop:
    [ProcessTile (startlvl, hemisp, ilat, nlat, ilng, nlng[ilat], td+idx,
       range, td[idx].tex, td[idx].ltex, td[idx].flag,
       range, td[idx].tex, td[idx].ltex, td[idx].flag);]
    with [td = tiledesc + texofs] and [range = {0,1,0,1}]. *)
Definition Render_tile (fuel dfuel : nat) (tm : TileManager)
    (level startlvl nlat texofs hemisp ilat ilng n idx : Z)
    (s : TravState F) : option (TravState F) :=
  let range := mkTEXCRDRANGE (F_of_int 0) (F_of_int 1)
                             (F_of_int 0) (F_of_int 1) in
  t ← base_tile tm (texofs + idx);
  d ← load (snd (fst (fst s))) (Some t);
  ProcessTile F Fadd Fsub Fmul F_of_int Fhalf off_view IsTileInView
    adist_positive oblique very_oblique behind_horizon IsVisibleInCamera
    MAXQUEUE objname level fuel dfuel
    (mkPTARGS (mkTILEPOS startlvl hemisp ilat nlat ilng n) t
              range (tex d) (ltex d) (flag d)
              range (tex d) (ltex d) (flag d))
    s.

(** [void TileManager::Render (dev, wmat, scale, level, viewap, bfog)]
    from the clamping of [level] on: the request queue, the pool, the
    store and the calls of [RenderTile].  [cstep] is the angle the camera
    has turned by; [rfuel] is the fuel of the rate limit, [fuel] and
    [dfuel] that of [ProcessTile].  The set-up of the device
    ([InitRenderTile], [EndRenderTile], the world matrices) is left
    out. *)
Definition Render (rfuel fuel dfuel : nat) (tm : TileManager) (level : Z)
    (cstep : D) (s : TravState F) : option (TravState F) :=
  level ← Render_tgtlvl D Dgt Ddouble limitstep0 rfuel (maxlvl tm) level
            cstep;
  let startlvl := Z.min level 8 in
  nlat ← table_at NLAT startlvl;
  nlng ← table_at NLNG startlvl;
  texofs ← patchidx_at (startlvl - 1);
  if level <=? 4 then
    hi ← patchidx_at level;
    lo ← patchidx_at (level - 1);
    RenderSimple level (hi - lo) texofs s
  else
    snd <$> Render_loop nlat nlng
              (Render_tile fuel dfuel tm level startlvl nlat texofs) s.
End RenderTiles.

(** A position on the sphere that exists: one of the two hemispheres, a
    band below [nlat] and a sector below [nlng]. *)
Definition valid_pos (pos : TILEPOS) : Prop :=
  0 <= hemisp pos <= 1 /\ 0 <= ilat pos < nlat pos /\
  0 <= ilng pos < nlng pos.

(** The sum of a list of integers. *)
Definition sumZ (l : list Z) : Z := foldr Z.add 0 l.

(** A frame in which every tile is in view and seen from above, over
    the rationals, with a queue of ten cells, the planet name ["Earth"]
    and a [RenderSimple] that draws nothing. *)
Definition sample_Render :=
  Render Q Qgt_bool Qdouble limitstep0_Q Q Qplus Qminus Qmult inject_Z Q_half
    (fun _ => false) (fun _ => true) (fun _ => false) (fun _ => false)
    (fun _ => false) (fun _ => false) (fun _ => true) 10 "Earth"
    (fun _ _ _ s => Some s).


(** ** A request that outlives its descriptor *)





(** ** Nodes kept and nodes deleted *)

(** The descriptor at [b] has survived from the store [m] to the store
    [m']: it is alive in both, with the same [tex], [ltex], [flag] and
    [ofs] (its links to subtiles may have been cleared). *)
Definition kept (m m' : Mem) (b : nat) : Prop :=
  exists td td',
    load m (Some b) = Some td /\ load m' (Some b) = Some td' /\
    tex td' = tex td /\ ltex td' = ltex td /\ flag td' = flag td /\
    ofs td' = ofs td.

(** What a call of [DeleteTile] does to each node [b] of the tree at the
    addresses [D]: it keeps the node when its own subtree has a [tex]
    that is not null, and deletes it otherwise. *)
Definition nodes_ok (m m' : Mem) (D : list nat) : Prop :=
  forall b k fb,
    b ∈ D -> subtree m k (Some b) fb ->
    (~ all_null m fb -> kept m m' b) /\
    (all_null m fb -> load m' (Some b) = None).

(** A slot of [buf] changes only when it is the slot of a node of [D]
    that has been deleted. *)
Definition slots_ok (p : TilePool) (m : Mem) (p' : TilePool) (m' : Mem)
    (D : list nat) : Prop :=
  forall s,
    buf p' !! s = buf p !! s \/
    exists b td, b ∈ D /\ load m (Some b) = Some td /\
                 N.to_nat (ofs td) = s /\ load m' (Some b) = None.

(** The state of the loop of [DeleteTile] over the children of the
    descriptor at [a] (which held [td] on entry), before child [k], when
    the children handled so far occupied the addresses [D]. *)
Definition nodes_inv (a : nat) (td : TILEDESC) (k : nat) (D : list nat)
    (p : TilePool) (m : Mem) (pk : TilePool) (mk : Mem) : Prop :=
  (exists tdk, load mk (Some a) = Some tdk /\ tex tdk = tex td /\
               ltex tdk = ltex td /\ flag tdk = flag td /\
               ofs tdk = ofs td /\
               forall i, (k <= i)%nat ->
                         get_subtile tdk i = get_subtile td i) /\
  (forall b, b ∉ a :: D -> mk !! b = m !! b) /\
  length (buf pk) = length (buf p) /\
  nodes_ok m mk D /\ slots_ok p m pk mk D.


(** ** Texture objects in use *)

(** The texture object a field holds, if it holds one. *)
Definition tex_handle (v : texval) : option handle :=
  match v with TexHnd h => Some h | TexIdx _ => None end.

(** The texture objects an array of texture pointers holds. *)
Definition handles (b : list texval) : list handle := omap tex_handle b.

(** Some descriptor of the store refers to the texture object [h]. *)
Definition held (m : Mem) (h : handle) : Prop :=
  exists a d, load m (Some a) = Some d /\ holds_handle h d.

(** The state of the copy into the tile tree, for the objects [T0] and
    [M0] loaded into the two arrays: the objects left in an array are
    distinct and among those loaded into it, and no descriptor refers to
    an object that is still in an array. *)
Definition preload_inv (T0 M0 : list handle) (s : PreloadState) : Prop :=
  let '(tbuf, mbuf, _, m) := s in
  NoDup (handles tbuf) /\ NoDup (handles mbuf) /\
  (forall h, h ∈ handles tbuf -> h ∈ T0) /\
  (forall h, h ∈ handles mbuf -> h ∈ M0) /\
  (forall h, held m h -> (h ∉ handles tbuf) /\ (h ∉ handles mbuf)).

(** A texture manager that finds three surface textures (the objects 1
    to 3) and two masks (the objects 4 and 5). *)
Definition sample_texmgr (fname : string) : list handle :=
  if String.eqb fname "Earth_tile.tex" then [1; 2; 3]%positive
  else [4; 5]%positive.

(** A store with the 501 base tiles and, at address 501, one catalogued
    subtile of the first level-8 tile, which asks for the surface
    texture 1 of the archive and for no mask. *)
Definition sample_mem_tree : Mem :=
  <[137%nat :=
      Some (mkTILEDESC NULLTEX NULLTEX 1 [Some 501%nat; None; None; None] 0)]>
    (sample_mem 501)
  ++ [Some (mkTILEDESC (TexIdx 1) (TexIdx NOTILE) 128
                       [None; None; None; None] 0)].


(** * Part II: properties *)

(** ** The rate limit *)

Section RateLimitFacts.
Variable F : Type.
Variable Fgt : F -> F -> bool.
Variable Fdouble : F -> F.
Variable limitstep0 : F.
Variable Fle : F -> F -> Prop.
Hypothesis Fgt_le : forall a b l, Fle a b -> Fgt a l = true -> Fgt b l = true.

#[local] Abbreviation loop := (limit_loop F Fgt Fdouble).

(** With more fuel than levels above 5 the loop ends, between 5 and the
    level it started from. *)
Lemma limit_loop_total fuel cstep l m :
  (Z.to_nat (m - 5) < fuel)%nat ->
  exists r, loop fuel cstep l m = Some r /\ r <= m /\ (5 <= m -> 5 <= r).
Proof.
  revert l m. induction fuel as [|fuel IH]; intros l m Hf; [lia|].
  simpl. destruct (Fgt cstep l && (5 <? m)) eqn:E.
  - apply andb_true_iff in E as [_ E]. apply Z.ltb_lt in E.
    destruct (IH (Fdouble l) (m - 1)) as (r & Hr & Hle & Hge); [lia|].
    exists r. split; [done|]. split; lia.
  - exists m. split; [done|]. split; lia.
Qed.

Lemma limit_loop_le fuel cstep l m r :
  loop fuel cstep l m = Some r -> r <= m.
Proof.
  revert l m. induction fuel as [|fuel IH]; intros l m; [done|].
  simpl. destruct (Fgt cstep l && (5 <? m)).
  - intros H. apply IH in H. lia.
  - intros [= <-]. lia.
Qed.

Lemma limit_loop_mono fuel c1 c2 l m r1 r2 :
  Fle c1 c2 ->
  loop fuel c1 l m = Some r1 ->
  loop fuel c2 l m = Some r2 ->
  r2 <= r1.
Proof using Fgt_le.
  intros Hle. revert l m. induction fuel as [|fuel IH]; intros l m; [done|].
  simpl. destruct (5 <? m) eqn:Em.
  - rewrite !andb_true_r. destruct (Fgt c1 l) eqn:E1.
    + rewrite (Fgt_le _ _ _ Hle E1). apply IH.
    + intros [= <-]. destruct (Fgt c2 l).
      * intros H2. apply limit_loop_le in H2. lia.
      * intros [= <-]. lia.
  - rewrite !andb_false_r. intros [= <-] [= <-]. lia.
Qed.

(** What the loop computes: it leaves [m] at [r] after exceeding the
    [m - r] limits [l], [2l], [4l], ..., and stops at level 5 or at the
    first limit the step does not exceed. *)
Lemma limit_loop_spec fuel cstep l m r :
  loop fuel cstep l m = Some r ->
  (forall k, (k < Z.to_nat (m - r))%nat ->
             Fgt cstep (Nat.iter k Fdouble l) = true) /\
  (r <= 5 \/ Fgt cstep (Nat.iter (Z.to_nat (m - r)) Fdouble l) = false).
Proof.
  revert l m. induction fuel as [|fuel IH]; intros l m; [done|].
  simpl. destruct (Fgt cstep l && (5 <? m)) eqn:E.
  - intros H. pose proof (limit_loop_le _ _ _ _ _ H) as Hle.
    apply IH in H as [Hk Hstop].
    apply andb_true_iff in E as [E _].
    replace (Z.to_nat (m - r)) with (S (Z.to_nat (m - 1 - r))) by lia.
    split.
    + intros [|k] Hlt; [done|]. rewrite Nat.iter_succ_r. apply Hk. lia.
    + rewrite Nat.iter_succ_r. exact Hstop.
  - intros [= <-]. replace (Z.to_nat (m - m)) with 0%nat by lia. split.
    + intros k Hk. lia.
    + simpl. apply andb_false_iff in E as [E|E]; [by right|].
      left. apply Z.ltb_ge in E. lia.
Qed.
End RateLimitFacts.

Lemma Qgt_bool_le (a b l : Q) :
  Qle a b -> Qgt_bool a l = true -> Qgt_bool b l = true.
Proof.
  unfold Qgt_bool. intros Hab Ha.
  apply negb_true_iff in Ha. apply negb_true_iff.
  destruct (Qle_bool b l) eqn:E; [|done].
  apply Qle_bool_iff in E.
  assert (Hal : Qle a l) by (eapply Qle_trans; eauto).
  apply Qle_bool_iff in Hal. congruence.
Qed.

(** C6.  The rate limit of [Render]: with fuel for the at most ten tests of
    the loop condition, [maxlevel] is a function of [cstep] alone; it is
    [SURF_MAX_PATCHLEVEL] minus the number of limits [l0], [2 l0], [4 l0],
    ... the step exceeds before the level reaches 5; a larger step never
    gives a larger [maxlevel]; [maxlevel] stays between 5 and
    [SURF_MAX_PATCHLEVEL]; and the target level is the minimum of the
    level requested (clamped to [maxlvl] by the frame set-up) and
    [maxlevel]. *)
Theorem rate_limit_monotone
    (F : Type) (Fgt : F -> F -> bool) (Fdouble : F -> F) (limitstep0 : F)
    (Fle : F -> F -> Prop)
    (Fgt_le : forall a b l, Fle a b -> Fgt a l = true -> Fgt b l = true)
    (fuel : nat) (cstep1 cstep2 : F) :
  (9 < fuel)%nat ->
  Fle cstep1 cstep2 ->
  exists maxlevel1 maxlevel2,
    Render_maxlevel F Fgt Fdouble limitstep0 fuel cstep1 = Some maxlevel1 /\
    Render_maxlevel F Fgt Fdouble limitstep0 fuel cstep2 = Some maxlevel2 /\
    maxlevel2 <= maxlevel1 /\
    5 <= maxlevel2 /\ maxlevel1 <= SURF_MAX_PATCHLEVEL /\
    (forall k, (k < Z.to_nat (SURF_MAX_PATCHLEVEL - maxlevel2))%nat ->
               Fgt cstep2 (Nat.iter k Fdouble limitstep0) = true) /\
    (maxlevel2 = 5 \/
     Fgt cstep2 (Nat.iter (Z.to_nat (SURF_MAX_PATCHLEVEL - maxlevel2))
                          Fdouble limitstep0) = false) /\
    (forall maxlvl level,
        Render_tgtlvl F Fgt Fdouble limitstep0 fuel maxlvl level cstep1
        = Some (Z.min (Z.min level maxlvl) maxlevel1) /\
        Render_tgtlvl F Fgt Fdouble limitstep0 fuel maxlvl level cstep2
        = Some (Z.min (Z.min level maxlvl) maxlevel2)).
Proof.
  intros Hfuel Hle. unfold Render_tgtlvl, Render_maxlevel.
  destruct (limit_loop_total F Fgt Fdouble fuel cstep1 limitstep0
              SURF_MAX_PATCHLEVEL) as (m1 & H1 & Hm1 & Hg1);
    [unfold SURF_MAX_PATCHLEVEL; lia|].
  destruct (limit_loop_total F Fgt Fdouble fuel cstep2 limitstep0
              SURF_MAX_PATCHLEVEL) as (m2 & H2 & Hm2 & Hg2);
    [unfold SURF_MAX_PATCHLEVEL; lia|].
  exists m1, m2. rewrite H1, H2.
  pose proof (limit_loop_mono F Fgt Fdouble Fle Fgt_le _ _ _ _ _ _ _
                Hle H1 H2) as Hmono.
  destruct (limit_loop_spec F Fgt Fdouble _ _ _ _ _ H2) as [Hk Hstop].
  assert (5 <= m2) by (apply Hg2; unfold SURF_MAX_PATCHLEVEL; lia).
  repeat split; try done.
  destruct Hstop as [Hstop|Hstop]; [left; lia|by right].
Qed.

(** The theorem at the rationals, for the steps 0.001 and 0.6. *)
Lemma rate_limit_monotone_witness :
  exists maxlevel1 maxlevel2,
    Render_maxlevel Q Qgt_bool Qdouble limitstep0_Q 10 (1 # 1000)
    = Some maxlevel1 /\
    Render_maxlevel Q Qgt_bool Qdouble limitstep0_Q 10 (6 # 10)
    = Some maxlevel2 /\
    maxlevel2 <= maxlevel1.
Proof.
  destruct (rate_limit_monotone Q Qgt_bool Qdouble limitstep0_Q Qle
              Qgt_bool_le 10 (1 # 1000) (6 # 10))
    as (m1 & m2 & H1 & H2 & Hle & _).
  - lia.
  - unfold Qle. simpl. lia.
  - exists m1, m2. auto.
Defined.

Example rate_limit_S3 :
  Render_tgtlvl Q Qgt_bool Qdouble limitstep0_Q 10 14 12 (6 # 10) = Some 5.
Proof. reflexivity. Qed.

(** ** The request queue *)

Lemma omap_ext_in {A B : Type} (f g : A -> option B) (l : list A) :
  (forall x, x ∈ l -> f x = g x) -> omap f l = omap g l.
Proof.
  induction l as [|x l IH]; intros H; [done|]. csimpl.
  rewrite (H x) by left. rewrite IH; [done|].
  intros y Hy. apply H. by right.
Qed.

Section QueueFacts.
Variable MAXQUEUE : Z.

Lemma queue_at_Some q j :
  queue_wf MAXQUEUE q -> 0 <= j < MAXQUEUE -> is_Some (queue_at q j).
Proof.
  intros (Hpos & Hlen & _) Hj. unfold queue_at.
  destruct (Z.leb_spec 0 j); [|lia].
  apply lookup_lt_is_Some. lia.
Qed.

Lemma queue_slot_range q i :
  queue_wf MAXQUEUE q -> 0 <= i ->
  0 <= Z.rem (i + queue_out q) MAXQUEUE < MAXQUEUE.
Proof.
  intros (Hpos & _ & _ & Hout & _) Hi.
  rewrite Z.rem_mod_nonneg by lia. apply Z.mod_pos_bound. lia.
Qed.

(** The cell of the [i]-th waiting request. *)
Definition slot (q : TileQueue) (i : nat) : option QUEUEDESC :=
  queue_at q (Z.rem (Z.of_nat i + queue_out q) MAXQUEUE).

Lemma request_present_spec q tile n i0 :
  queue_wf MAXQUEUE q ->
  exists b,
    request_present MAXQUEUE n (Z.of_nat i0) q tile = Some b /\
    (b = true <-> tile ∈ qd_td <$> omap (slot q) (seq i0 n)).
Proof.
  intros Hwf. revert i0. induction n as [|n IH]; intros i0.
  - exists false. split; [done|]. simpl. split; [done|].
    intros H. by apply not_elem_of_nil in H.
  - cbn [request_present seq omap list_omap].
    destruct (queue_at_Some q (Z.rem (Z.of_nat i0 + queue_out q) MAXQUEUE)
                Hwf) as [qd Hqd].
    { apply queue_slot_range; [done|lia]. }
    unfold slot at 1. rewrite Hqd. simpl.
    destruct (decide (qd_td qd = tile)) as [Heq|Hne].
    + exists true. split; [done|]. split; [|done]. intros _.
      rewrite Heq. left.
    + replace (Z.of_nat i0 + 1) with (Z.of_nat (S i0)) by lia.
      destruct (IH (S i0)) as (b & Hb & Hiff). exists b. split; [done|].
      rewrite elem_of_cons, Hiff. split; [by right|].
      intros [?|?]; [congruence|done].
Qed.

Lemma slots_distinct q (k n : nat) :
  queue_wf MAXQUEUE q -> (k < n)%nat -> Z.of_nat n < MAXQUEUE ->
  Z.rem (Z.of_nat k + queue_out q) MAXQUEUE
  <> Z.rem (Z.of_nat n + queue_out q) MAXQUEUE.
Proof.
  intros (Hpos & _ & _ & Hout & _) Hk Hn.
  rewrite !Z.rem_mod_nonneg by lia. intros Heq.
  pose proof (Z.div_mod (Z.of_nat k + queue_out q) MAXQUEUE ltac:(lia)) as E1.
  pose proof (Z.div_mod (Z.of_nat n + queue_out q) MAXQUEUE ltac:(lia)) as E2.
  rewrite Heq in E1.
  set (q1 := (Z.of_nat k + queue_out q) `div` MAXQUEUE) in *.
  set (q2 := (Z.of_nat n + queue_out q) `div` MAXQUEUE) in *.
  assert (Hd : Z.of_nat n - Z.of_nat k = MAXQUEUE * (q2 - q1)) by lia.
  assert (q2 - q1 <= 0 \/ 1 <= q2 - q1) as [Hq|Hq] by lia; nia.
Qed.
End QueueFacts.

(** C5.  On a well-formed queue [LoadTileAsync] returns [false] exactly
    when the queue holds [MAXQUEUE] requests or a waiting request is for
    the same descriptor, and then the queue is unchanged; otherwise it
    returns [true], the request is appended behind the waiting ones,
    [nqueue] grows by one and [queue_out] stays. *)
Theorem LoadTileAsync_spec (MAXQUEUE : Z) (name : string) (tile : tileptr)
    (q : TileQueue) :
  queue_wf MAXQUEUE q ->
  exists ok q',
    LoadTileAsync MAXQUEUE name tile q = Some (ok, q') /\
    (ok = false <->
     nqueue q = MAXQUEUE \/ tile ∈ qd_td <$> queued MAXQUEUE q) /\
    (ok = false -> q' = q) /\
    (ok = true ->
     queued MAXQUEUE q' = queued MAXQUEUE q ++ [mkQUEUEDESC name tile] /\
     nqueue q' = nqueue q + 1 /\
     queue_out q' = queue_out q /\
     queue_in q' = Z.rem (queue_in q + 1) MAXQUEUE /\
     queue_wf MAXQUEUE q').
Proof.
  intros Hwf. pose proof Hwf as (Hpos & Hlen & Hn & Hout & Hin).
  unfold LoadTileAsync.
  destruct (Z.eqb_spec (nqueue q) MAXQUEUE) as [Hfull|Hnfull].
  { exists false, q. simpl. split; [done|]. split; [|done]. tauto. }
  destruct (request_present_spec MAXQUEUE q tile (Z.to_nat (nqueue q)) 0
              Hwf) as (b & Hp & Hb).
  change (Z.of_nat 0) with 0 in Hp. rewrite Hp. simpl.
  fold (queued MAXQUEUE q) in *.
  destruct b; simpl.
  { exists false, q. split; [done|]. split; [|done]. tauto. }
  assert (Hndup : ~ tile ∈ qd_td <$> queued MAXQUEUE q).
  { intros H. apply Hb in H. done. }
  assert (Hinr : 0 <= queue_in q < MAXQUEUE).
  { rewrite Hin. rewrite Z.add_comm. apply queue_slot_range; [done|lia]. }
  destruct (queue_at_Some MAXQUEUE q (queue_in q) Hwf Hinr) as [old Hold].
  rewrite Hold. simpl. eexists true, _. split; [done|].
  split; [split; [done|intros [?|?]; done]|]. split; [done|].
  intros _. simpl. split; [|split; [done|split; [done|split; [done|]]]].
  - unfold queued. simpl.
    replace (Z.to_nat (nqueue q + 1)) with (S (Z.to_nat (nqueue q))) by lia.
    rewrite seq_S, omap_app. simpl. f_equal.
    + apply omap_ext_in. intros k Hk.
      apply list_elem_of_In, in_seq in Hk. unfold queue_at. simpl.
      pose proof (queue_slot_range MAXQUEUE q (Z.of_nat k) Hwf ltac:(lia))
        as Hr.
      destruct (Z.leb_spec 0 (Z.rem (Z.of_nat k + queue_out q) MAXQUEUE));
        [|lia].
      rewrite list_lookup_insert_ne; [done|].
      pose proof (slots_distinct MAXQUEUE q k (Z.to_nat (nqueue q)) Hwf
                    ltac:(lia) ltac:(lia)) as Hd.
      rewrite Hin. rewrite (Z.add_comm (queue_out q)).
      rewrite Z2Nat.id in Hd by lia.
      pose proof (queue_slot_range MAXQUEUE q (nqueue q) Hwf ltac:(lia)).
      lia.
    + unfold queue_at. simpl.
      rewrite Z2Nat.id by lia. rewrite (Z.add_comm (nqueue q)), <- Hin.
      destruct (Z.leb_spec 0 (queue_in q)); [|lia].
      rewrite list_lookup_insert_eq by lia. done.
  - unfold queue_wf. simpl. rewrite length_insert.
    split; [done|]. split; [done|]. split; [lia|]. split; [done|].
    rewrite Hin. rewrite !Z.rem_mod_nonneg by lia.
    rewrite Z.add_assoc. apply Zplus_mod_idemp_l.
Qed.

(** The theorem on a queue of three cells that holds one request. *)
Lemma LoadTileAsync_spec_witness :
  exists ok q',
    LoadTileAsync 3 "Earth" (Some 9%nat)
      (mkTileQueue [mkQUEUEDESC "Moon" None; mkQUEUEDESC "Moon" None;
                    mkQUEUEDESC "Earth" (Some 7%nat)] 1 0 2)
    = Some (ok, q') /\
    (ok = true -> nqueue q' = 2).
Proof.
  destruct (LoadTileAsync_spec 3 "Earth" (Some 9%nat)
              (mkTileQueue [mkQUEUEDESC "Moon" None; mkQUEUEDESC "Moon" None;
                            mkQUEUEDESC "Earth" (Some 7%nat)] 1 0 2))
    as (ok & q' & Hrun & _ & _ & Hok).
  - unfold queue_wf. simpl. repeat split; (lia || reflexivity).
  - exists ok, q'. split; [exact Hrun|].
    intros H. destruct (Hok H) as (_ & Hn & _). exact Hn.
Defined.

Example LoadTileAsync_S6 :
  let q := mkTileQueue [mkQUEUEDESC "Earth" (Some 5%nat);
                        mkQUEUEDESC "Earth" (Some 6%nat)] 2 0 0 in
  LoadTileAsync 2 "Earth" (Some 7%nat) q = Some (false, q) /\
  LoadTileAsync 2 "Earth" (Some 5%nat) q = Some (false, q).
Proof. split; reflexivity. Qed.

(** ** The store *)

Lemma load_lookup (m : Mem) (a : nat) (td : TILEDESC) :
  load m (Some a) = Some td <-> m !! a = Some (Some td).
Proof.
  change (load m (Some a)) with (mjoin (m !! a)).
  destruct (m !! a) as [[?|]|]; simpl; split; congruence.
Qed.

Lemma load_Some_lt (m : Mem) (a : nat) (td : TILEDESC) :
  load m (Some a) = Some td -> (a < length m)%nat.
Proof.
  rewrite load_lookup. intros H. apply lookup_lt_is_Some. by eexists.
Qed.

Lemma load_store_eq (m : Mem) (a : nat) (td : TILEDESC) :
  (a < length m)%nat -> load (store m a td) (Some a) = Some td.
Proof.
  intros H. apply load_lookup. unfold store.
  by rewrite list_lookup_insert_eq.
Qed.

Lemma load_store_ne (m : Mem) (a b : nat) (td : TILEDESC) :
  a <> b -> load (store m a td) (Some b) = load m (Some b).
Proof.
  intros H. change (load ?m (Some b)) with (mjoin (m !! b)).
  change (load (store m a td) (Some b)) with (mjoin (store m a td !! b)).
  unfold store. by rewrite list_lookup_insert_ne.
Qed.

Lemma length_store (m : Mem) (a : nat) (td : TILEDESC) :
  length (store m a td) = length m.
Proof. apply length_insert. Qed.

Lemma modify_Some (m : Mem) (a : nat) (td : TILEDESC)
    (f : TILEDESC -> TILEDESC) :
  load m (Some a) = Some td ->
  modify m (Some a) f = Some (store m a (f td)).
Proof. intros H. unfold modify. simpl. by rewrite H. Qed.

Lemma modify_inv (m m' : Mem) (p : tileptr) (f : TILEDESC -> TILEDESC) :
  modify m p f = Some m' ->
  exists a td, p = Some a /\ load m (Some a) = Some td /\
               m' = store m a (f td).
Proof.
  unfold modify. destruct p as [a|]; [|done]. simpl.
  destruct (load m (Some a)) as [td|] eqn:E; [|done].
  intros [= <-]. eauto.
Qed.

(** ** Bounded loops *)

Lemma for_loop_inv {St : Type} (P : Z -> St -> Prop) (n : nat) (i : Z)
    (body : Z -> St -> option St) (s : St) :
  P i s ->
  (forall k s, i <= k < i + Z.of_nat n -> P k s ->
               exists s', body k s = Some s' /\ P (k + 1) s') ->
  exists s', for_loop n i body s = Some s' /\ P (i + Z.of_nat n) s'.
Proof.
  revert i s. induction n as [|n IH]; intros i s H0 Hstep.
  - exists s. split; [done|]. by replace (i + Z.of_nat 0) with i by lia.
  - simpl. destruct (Hstep i s ltac:(lia) H0) as (s1 & Hb & H1).
    rewrite Hb. simpl.
    destruct (IH (i + 1) s1 H1) as (s' & Hrun & HP).
    { intros k s2 Hk. apply Hstep. lia. }
    exists s'. split; [done|].
    by replace (i + Z.of_nat (S n)) with (i + 1 + Z.of_nat n) by lia.
Qed.

(** A property every successful step keeps holds after the loop. *)
Lemma for_loop_preserves {St : Type} (P : St -> Prop) (n : nat) (i : Z)
    (body : Z -> St -> option St) (s s' : St) :
  (forall k s s', body k s = Some s' -> P s -> P s') ->
  for_loop n i body s = Some s' -> P s -> P s'.
Proof.
  intros Hstep. revert i s. induction n as [|n IH]; intros i s.
  - simpl. by intros [= <-].
  - simpl. destruct (body i s) as [s1|] eqn:Hb; [|done]. simpl.
    intros Hrun Hs. eapply IH; [exact Hrun|]. eapply Hstep; eauto.
Qed.

(** ** [LoadPatchData] *)

Lemma patchidx_at_range (k n : Z) :
  patchidx_at k = Some n -> 0 <= n <= 501.
Proof.
  unfold patchidx_at. destruct (0 <=? k); [|done].
  intros H. apply list_elem_of_lookup_2 in H. revert n H.
  apply Forall_forall. unfold patchidx. repeat constructor; lia.
Qed.

Lemma base_tile_Some (tm : TileManager) (i : Z) :
  0 <= i < Z.of_nat (ntiledesc tm) ->
  base_tile tm i = Some (tiledesc tm + Z.to_nat i)%nat.
Proof.
  intros H. unfold base_tile.
  destruct (Z.leb_spec 0 i); [|lia].
  destruct (Z.ltb_spec i (Z.of_nat (ntiledesc tm))); [done|lia].
Qed.

Lemma read_flags8_lookup (n : nat) (prev : option Z) (f : list Z) (i : nat)
    (b : Z) :
  f !! i = Some b -> (i < n)%nat ->
  read_flags8 n prev f !! i = Some (Some b).
Proof.
  revert prev f i. induction n as [|n IH]; intros prev f i Hf Hi; [lia|].
  destruct f as [|b0 f]; [done|]. simpl.
  destruct i as [|i]; simpl in *; [congruence|].
  apply IH; [done|lia].
Qed.

Lemma land_255_byte (b : Z) : 0 <= b < 256 -> Z.land b 255 = b.
Proof.
  intros H. change 255 with (Z.ones 8).
  rewrite Z.land_ones by lia. apply Z.mod_small. lia.
Qed.

Lemma read_lmask_old (f : list Z) :
  f !! 0%nat = Some 1 -> f !! 1%nat = Some 8 ->
  read_lmask f = Some (1, 8, read_flags8 501 None (drop 2 f)).
Proof.
  destruct f as [|b0 [|b1 f]]; try done. simpl.
  intros [= ->] [= ->]. unfold read_lmask.
  destruct (decide (take 8 (1 :: 8 :: f) = PLTA0100)) as [E|_]; [done|].
  destruct (decide _) as [[_ E]|_]; [|done].
  simpl in E. destruct f; done.
Qed.

(** C7.  With specular masks or city lights enabled and an old-style
    [_lmask.bin] whose first two bytes are [minres = 1] and [maxres = 8]
    and which holds the flag bytes of the base tiles behind them,
    [LoadPatchData] succeeds and gives every base tile [i] the [i]-th
    flag byte of the file.  The base tiles are those below
    [patchidx[maxbaselvl]], which is at most [patchidx[8] = 501]: all of
    [[0, patchidx[8])] on a planet with base level 8. *)
Theorem LoadPatchData_old_style (f : list Z) (tm : TileManager) (m : Mem)
    (n : Z) :
  bGlobalSpecular tm || bGlobalLights tm = true ->
  f !! 0%nat = Some 1 -> f !! 1%nat = Some 8 ->
  Forall (fun b => 0 <= b < 256) f ->
  patchidx_at (maxbaselvl tm) = Some n ->
  n <= Z.of_nat (ntiledesc tm) ->
  n + 2 <= Z.of_nat (length f) ->
  (forall i, 0 <= i < n -> is_Some (load m (base_tile tm i))) ->
  exists tm' m',
    LoadPatchData (Some f) tm m = Some (true, tm', m') /\
    patchidx_at 8 = Some 501 /\ n <= 501 /\
    (maxbaselvl tm = 8 -> n = 501) /\
    forall i, 0 <= i < n ->
      exists td, load m' (base_tile tm i) = Some td /\
                 drop 2 f !! Z.to_nat i = Some (flag td).
Proof.
  intros Hen H0 H1 Hbytes Hn Hsize Hlen Hlive.
  pose proof (patchidx_at_range _ _ Hn) as Hrange.
  unfold LoadPatchData. simpl. rewrite Hen.
  rewrite (read_lmask_old f H0 H1). simpl. rewrite Hn. simpl.
  unfold for_range. rewrite Z.sub_0_r.
  destruct (for_loop_inv
    (fun k (s : Z * Z * Mem) =>
       let '(idx, nm, m') := s in
       idx = k /\
       (forall j, 0 <= j < n -> is_Some (load m' (base_tile tm j))) /\
       (forall j, 0 <= j < k ->
          exists td, load m' (base_tile tm j) = Some td /\
                     f !! (Z.to_nat j + 2)%nat = Some (flag td)))
    (Z.to_nat n) 0
    (patch_flag_body (set_nmask 0 tm) 1 (read_flags8 501 None (drop 2 f)))
    (0, 0, m)) as ([[idx nm] m'] & Hrun & _ & _ & Hflags).
  - split; [done|]. split; [done|]. intros j Hj. lia.
  - intros k [[idx nm] mk] Hk (-> & Hl & Hf).
    unfold patch_flag_body. change (patchidx_at (1 - 1)) with (Some 0).
    simpl. destruct (Z.ltb_spec k 0); [lia|].
    destruct (lookup_lt_is_Some_2 f (Z.to_nat k + 2)) as [b Hb]; [lia|].
    rewrite (read_flags8_lookup 501 None (drop 2 f) (Z.to_nat k) b);
      [|by rewrite lookup_drop, Nat.add_comm|lia].
    simpl.
    assert (Hbr : 0 <= b < 256).
    { eapply Forall_forall in Hbytes; [exact Hbytes|].
      eapply list_elem_of_lookup_2; eauto. }
    rewrite (land_255_byte b Hbr).
    change (base_tile (set_nmask 0 tm)) with (base_tile tm).
    destruct (Hl k ltac:(lia)) as [td Htd].
    rewrite (base_tile_Some tm k) in * by lia.
    rewrite (modify_Some _ _ _ _ Htd). simpl.
    eexists. split; [done|]. simpl. split; [done|].
    pose proof (load_Some_lt _ _ _ Htd) as Hlt. split.
    + intros j Hj. destruct (Hl j Hj) as [tdj Htdj].
      rewrite (base_tile_Some tm j) in * by lia.
      destruct (decide (Z.to_nat k = Z.to_nat j)) as [E|E].
      * replace j with k by lia. rewrite load_store_eq by done. eauto.
      * rewrite load_store_ne by lia. eauto.
    + intros j Hj. destruct (decide (j = k)) as [->|E].
      * rewrite (base_tile_Some tm k) by lia.
        rewrite load_store_eq by done. eexists. split; [done|]. done.
      * destruct (Hf j ltac:(lia)) as (tdj & Htdj & Hfj).
        rewrite (base_tile_Some tm j) in * by lia.
        rewrite load_store_ne by lia. eauto.
  - rewrite Hrun. simpl. eexists _, m'. split; [done|].
    split; [done|]. split; [lia|].
    split; [intros E8; rewrite E8 in Hn; by injection Hn as <-|].
    intros i Hi. destruct (Hflags i ltac:(lia)) as (td & Htd & Hf).
    exists td. split; [done|]. by rewrite lookup_drop, Nat.add_comm.
Qed.

(** The theorem on the five base tiles of a planet with base level 4. *)
Lemma LoadPatchData_old_style_witness :
  exists tm' m',
    LoadPatchData (Some (sample_lmask [7; 6; 5; 4; 3])) (sample_tm 5 4)
                  (sample_mem 5) = Some (true, tm', m') /\
    forall i, 0 <= i < 5 ->
      exists td, load m' (base_tile (sample_tm 5 4) i) = Some td /\
                 [7; 6; 5; 4; 3] !! Z.to_nat i = Some (flag td).
Proof.
  destruct (LoadPatchData_old_style (sample_lmask [7; 6; 5; 4; 3])
              (sample_tm 5 4) (sample_mem 5) 5)
    as (tm' & m' & Hrun & _ & _ & _ & Hflags);
    [| | | | | | | |by exists tm', m'].
  - reflexivity.
  - reflexivity.
  - reflexivity.
  - unfold sample_lmask. repeat constructor; lia.
  - reflexivity.
  - simpl. lia.
  - simpl. lia.
  - intros i Hi.
    assert (i = 0 \/ i = 1 \/ i = 2 \/ i = 3 \/ i = 4) as Hc by lia.
    destruct Hc as [-> | [-> | [-> | [-> | ->]]]];
      vm_compute; eexists; reflexivity.
Defined.

(** ** [CreateSpherePatch] *)

Lemma filled_weaken {A : Type} (P : A -> Prop) (n n' : Z)
    (a : list (option A)) :
  filled P n a -> n' <= n -> filled P n' a.
Proof. intros H Hle k Hk. apply H. lia. Qed.

Lemma array_store_filled {A : Type} (P : A -> Prop) (a : list (option A))
    (n : Z) (v : A) :
  0 <= n < Z.of_nat (length a) -> filled P n a -> P v ->
  exists a', array_store a n v = Some a' /\ length a' = length a /\
             filled P (n + 1) a'.
Proof.
  intros Hn Hf Hv. unfold array_store.
  destruct (Z.leb_spec 0 n); [|lia].
  destruct (Z.ltb_spec n (Z.of_nat (length a))); [|lia]. simpl.
  eexists. split; [done|]. split; [apply length_insert|].
  intros k Hk. destruct (decide (k = n)) as [->|Hne].
  - exists v. rewrite list_lookup_insert_eq by lia. done.
  - rewrite list_lookup_insert_ne by lia. apply Hf. lia.
Qed.

(** A store anywhere in the array keeps a full array full. *)
Lemma array_store_full {A : Type} (P : A -> Prop) (a : list (option A))
    (n : Z) (v : A) :
  0 <= n < Z.of_nat (length a) -> filled P (Z.of_nat (length a)) a -> P v ->
  exists a', array_store a n v = Some a' /\ length a' = length a /\
             filled P (Z.of_nat (length a')) a'.
Proof.
  intros Hn Hf Hv. unfold array_store.
  destruct (Z.leb_spec 0 n); [|lia].
  destruct (Z.ltb_spec n (Z.of_nat (length a))); [|lia]. simpl.
  eexists. split; [done|]. split; [apply length_insert|].
  rewrite length_insert.
  intros k Hk. destruct (decide (k = n)) as [->|Hne].
  - exists v. rewrite list_lookup_insert_eq by lia. done.
  - rewrite list_lookup_insert_ne by lia. apply Hf. lia.
Qed.

Lemma array_load_filled {A : Type} (P : A -> Prop) (a : list (option A))
    (n k : Z) :
  filled P n a -> 0 <= k < n -> exists v, array_load a k = Some v /\ P v.
Proof.
  intros Hf Hk. destruct (Hf k Hk) as (v & Hv & HP).
  exists v. unfold array_load. destruct (Z.leb_spec 0 k); [|lia].
  rewrite Hv. done.
Qed.

Lemma array_contents_filled {A : Type} (P : A -> Prop)
    (a : list (option A)) :
  filled P (Z.of_nat (length a)) a ->
  exists l, array_contents a = Some l /\ length l = length a /\ Forall P l.
Proof.
  unfold array_contents. intros Hf.
  assert (exists l, Forall2 (fun x y => id x = Some y) a l /\ Forall P l)
    as (l & H2 & HP).
  { induction a as [|o a IH]; [by exists []|].
    destruct (Hf 0 ltac:(simpl; lia)) as (v & Hv & HPv). simpl in Hv.
    injection Hv as ->.
    destruct IH as (l & Hl & HPl).
    { intros k Hk. destruct (Hf (k + 1)) as (w & Hw & HPw);
        [simpl length; lia|].
      replace (Z.to_nat (k + 1)) with (S (Z.to_nat k)) in Hw by lia.
      eauto. }
    exists (v :: l). split; by constructor. }
  exists l. split; [by apply mapM_Some_2|].
  split; [|done]. symmetry. by eapply Forall2_length.
Qed.

Lemma to_WORD_range (x n : Z) : 0 <= x < n -> 0 <= to_WORD x < n.
Proof.
  intros H. unfold to_WORD. change 65535 with (Z.ones 16).
  rewrite Z.land_ones by lia.
  pose proof (Z.mod_pos_bound x (2 ^ 16) ltac:(lia)).
  pose proof (Z.mod_le x (2 ^ 16) ltac:(lia) ltac:(lia)). lia.
Qed.

Lemma even_product (r : Z) : 0 <= r -> 2 * Z.quot ((r + 1) * r) 2 = (r + 1) * r.
Proof.
  intros Hr. rewrite Z.quot_div_nonneg by nia.
  destruct (Z.Even_or_Odd r) as [[k ->]|[k ->]].
  - replace ((2 * k + 1) * (2 * k)) with ((2 * k + 1) * k * 2) by lia.
    rewrite Z.div_mul by lia. lia.
  - replace ((2 * k + 1 + 1) * (2 * k + 1)) with ((k + 1) * (2 * k + 1) * 2)
      by lia.
    rewrite Z.div_mul by lia. lia.
Qed.

Lemma strip_start_succ (bseg : Z) (reduce : bool) (i : Z) :
  0 <= i ->
  strip_start bseg reduce (i + 1)
  = strip_start bseg reduce i + (if reduce then bseg - i else bseg) + 1.
Proof.
  intros Hi. unfold strip_start. destruct reduce; [|lia].
  replace (i + 1 - 1) with i by lia.
  pose proof (even_product i Hi) as H1.
  destruct (decide (i = 0)) as [->|Hne].
  { change (Z.quot ((0 + 1) * 0) 2) with 0.
    change (Z.quot (0 * (0 - 1)) 2) with 0. lia. }
  pose proof (even_product (i - 1) ltac:(lia)) as H2.
  replace (i - 1 + 1) with i in H2 by lia. lia.
Qed.

Lemma strip_start_mono (bseg : Z) (reduce : bool) (i j : Z) :
  0 <= i <= j -> (reduce = true -> j <= bseg + 1) -> 0 <= bseg ->
  strip_start bseg reduce i <= strip_start bseg reduce j.
Proof.
  intros Hij Hr Hb.
  replace j with (i + Z.of_nat (Z.to_nat (j - i))) in * by lia.
  induction (Z.to_nat (j - i)) as [|n IH]; [by rewrite Z.add_0_r|].
  replace (i + Z.of_nat (S n)) with (i + Z.of_nat n + 1) in * by lia.
  rewrite strip_start_succ by lia.
  etrans; [apply IH; [lia|intros H; specialize (Hr H); lia]|].
  destruct reduce; [specialize (Hr eq_refl)|]; lia.
Qed.

Lemma face_start_succ (bseg : Z) (reduce : bool) (i : Z) :
  face_start bseg reduce (i + 1)
  = face_start bseg reduce i
    + (if reduce then 6 * (bseg - i) - 3 else 6 * bseg).
Proof. unfold face_start. destruct reduce; lia. Qed.

Lemma face_start_mono (bseg : Z) (reduce : bool) (i j : Z) :
  0 <= i <= j -> (reduce = true -> j <= bseg) -> 0 <= bseg ->
  face_start bseg reduce i <= face_start bseg reduce j.
Proof.
  intros Hij Hr Hb.
  replace j with (i + Z.of_nat (Z.to_nat (j - i))) in * by lia.
  induction (Z.to_nat (j - i)) as [|n IH]; [by rewrite Z.add_0_r|].
  replace (i + Z.of_nat (S n)) with (i + Z.of_nat n + 1) in * by lia.
  rewrite face_start_succ.
  etrans; [apply IH; [lia|intros H; specialize (Hr H); lia]|].
  destruct reduce; [specialize (Hr eq_refl)|]; lia.
Qed.

Section SpherePatchFacts.
Variable V : Type.
Variable make_vertex : Z -> Z -> Z -> Z -> bool -> bool -> Z -> Z -> Z -> V.

Lemma node_body_spec (nlng nlat ilat res bseg : Z)
    (reduce outside shift_origin : bool) (i : Z) (Vtx : list (option V)) :
  0 <= i -> 0 <= bseg -> (reduce = true -> i <= bseg) ->
  strip_start bseg reduce (i + 1) <= Z.of_nat (length Vtx) ->
  filled (fun _ => True) (strip_start bseg reduce i) Vtx ->
  exists Vtx',
    node_body V make_vertex nlng nlat ilat res bseg reduce outside
      shift_origin i (strip_start bseg reduce i, Vtx)
    = Some (strip_start bseg reduce (i + 1), Vtx') /\
    length Vtx' = length Vtx /\
    filled (fun _ => True) (strip_start bseg reduce (i + 1)) Vtx'.
Proof.
  intros Hi Hb Hr Hlen Hf. unfold node_body, for_range.
  set (nseg := if reduce then bseg - i else bseg).
  assert (Hnseg : 0 <= nseg).
  { unfold nseg. destruct reduce; [specialize (Hr eq_refl)|]; lia. }
  pose proof (strip_start_succ bseg reduce i Hi) as Hsucc. fold nseg in Hsucc.
  pose proof (strip_start_mono bseg reduce 0 i ltac:(lia)
                ltac:(intros H; specialize (Hr H); lia) Hb) as H0.
  assert (Hs0 : strip_start bseg reduce 0 = 0) by (by destruct reduce).
  destruct (for_loop_inv
    (fun j (s : Z * list (option V)) =>
       fst s = strip_start bseg reduce i + j /\
       length (snd s) = length Vtx /\
       filled (fun _ => True) (fst s) (snd s))
    (Z.to_nat (nseg + 1 - 0)) 0
    (fun j '(n, Vtx) =>
       Vtx ← array_store Vtx n
               (make_vertex nlng nlat ilat res outside shift_origin
                            i j nseg);
       Some (n + 1, Vtx))
    (strip_start bseg reduce i, Vtx)) as ([n' Vtx'] & Hrun & Hn & Hl & Hfill).
  - simpl. split; [lia|]. done.
  - intros j [n Vj] Hj (Hn & Hl & Hfj). simpl in *. subst n.
    destruct (array_store_filled (fun _ => True) Vj
                (strip_start bseg reduce i + j)
                (make_vertex nlng nlat ilat res outside shift_origin
                             i j nseg)) as (V2 & Hst & Hl2 & Hf2);
      [lia|done|done|].
    rewrite Hst. simpl. eexists. split; [done|]. simpl.
    split; [lia|]. split; [congruence|].
    by replace (strip_start bseg reduce i + (j + 1))
      with (strip_start bseg reduce i + j + 1) by lia.
  - simpl in *. rewrite Hrun.
    replace n' with (strip_start bseg reduce (i + 1)) in * by lia.
    eauto.
Qed.

Lemma node_loop_spec (nlng nlat ilat res bseg : Z)
    (reduce outside shift_origin : bool) (Vtx : list (option V)) :
  0 <= res -> 0 <= bseg -> (reduce = true -> res <= bseg) ->
  Z.of_nat (length Vtx) = strip_start bseg reduce (res + 1) ->
  exists n Vtx',
    for_range 0 (res + 1)
      (node_body V make_vertex nlng nlat ilat res bseg reduce outside
                 shift_origin) (0, Vtx) = Some (n, Vtx') /\
    length Vtx' = length Vtx /\
    filled (fun _ => True) (Z.of_nat (length Vtx')) Vtx'.
Proof.
  intros Hres Hb Hr Hlen. unfold for_range.
  assert (Hs0 : strip_start bseg reduce 0 = 0) by (by destruct reduce).
  destruct (for_loop_inv
    (fun i (s : Z * list (option V)) =>
       fst s = strip_start bseg reduce i /\
       length (snd s) = length Vtx /\
       filled (fun _ => True) (fst s) (snd s))
    (Z.to_nat (res + 1 - 0)) 0
    (node_body V make_vertex nlng nlat ilat res bseg reduce outside
               shift_origin)
    (0, Vtx)) as ([n' Vtx'] & Hrun & Hn & Hl & Hfill).
  - simpl. split; [done|]. split; [done|]. intros k Hk. lia.
  - intros i [n Vi] Hi (Hn & Hl & Hfi). simpl in *. subst n.
    destruct (node_body_spec nlng nlat ilat res bseg reduce outside
                shift_origin i Vi) as (V2 & Hst & Hl2 & Hf2);
      [lia|done|intros H; specialize (Hr H); lia| |done|].
    { rewrite Hl, Hlen. apply strip_start_mono; [lia| |done].
      intros H; specialize (Hr H); lia. }
    rewrite Hst. eexists. split; [done|]. simpl.
    split; [done|]. split; [congruence|done].
  - simpl in *. rewrite Hrun. exists n', Vtx'. split; [done|].
    split; [done|]. rewrite Hl, Hlen.
    replace (0 + Z.of_nat (Z.to_nat (res + 1 - 0))) with (res + 1) in Hn
      by lia.
    by rewrite <- Hn.
Qed.
End SpherePatchFacts.

Lemma store3_spec (P : Z -> Prop) (a b c n : Z) (Idx : list (option Z)) :
  0 <= n -> n + 3 <= Z.of_nat (length Idx) -> filled P n Idx ->
  P (to_WORD a) -> P (to_WORD b) -> P (to_WORD c) ->
  exists Idx', store3 a b c (n, Idx) = Some (n + 3, Idx') /\
               length Idx' = length Idx /\ filled P (n + 3) Idx'.
Proof.
  intros Hn Hlen Hf Ha Hb Hc. unfold store3.
  destruct (array_store_filled P Idx n (to_WORD a))
    as (I1 & H1 & L1 & F1); [lia|done|done|].
  destruct (array_store_filled P I1 (n + 1) (to_WORD b))
    as (I2 & H2 & L2 & F2); [lia|done|done|].
  destruct (array_store_filled P I2 (n + 2) (to_WORD c))
    as (I3 & H3 & L3 & F3); [lia| |done|].
  { by replace (n + 2) with (n + 1 + 1) by lia. }
  rewrite H1. simpl. rewrite H2. simpl. rewrite H3. simpl.
  exists I3. split; [done|]. split; [congruence|].
  by replace (n + 3) with (n + 2 + 1) by lia.
Qed.

Lemma face_strip_spec (nV : Z) (k : nat) (j nseg nofs0 nofs1 : Z)
    (reduce : bool) (n : Z) (Idx : list (option Z)) :
  let P := fun v => 0 <= v < nV in
  let cnt := if reduce then 6 * (nseg - j) - 3 else 6 * (nseg - j) in
  Z.of_nat k = nseg - j -> 0 <= j -> 0 <= n -> 0 <= nofs0 -> 0 <= nofs1 ->
  (reduce = true -> j < nseg) ->
  nofs0 + nseg < nV ->
  nofs1 + (if reduce then nseg - 1 else nseg) < nV ->
  n + cnt <= Z.of_nat (length Idx) ->
  filled P n Idx ->
  exists Idx',
    face_strip k j nseg nofs0 nofs1 reduce (n, Idx) = Some (n + cnt, Idx') /\
    length Idx' = length Idx /\ filled P (n + cnt) Idx'.
Proof.
  intros P cnt. subst cnt. revert j n Idx.
  induction k as [|k IH]; intros j n Idx Hk Hj Hn H0 H1 Hr Hb0 Hb1 Hlen Hf.
  - assert (nseg = j) as -> by lia.
    destruct reduce; [specialize (Hr eq_refl); lia|].
    simpl. exists Idx. replace (n + 6 * (j - j)) with n by lia. done.
  - cbn [face_strip].
    destruct (store3_spec P (nofs0 + j) (nofs1 + j) (nofs0 + j + 1) n Idx)
      as (I1 & E1 & L1 & F1); try done.
    { destruct reduce; lia. }
    { apply to_WORD_range. lia. }
    { apply to_WORD_range. destruct reduce; lia. }
    { apply to_WORD_range. lia. }
    rewrite E1. simpl.
    destruct reduce; simpl.
    + pose proof (Hr eq_refl) as Hr'.
      destruct (Z.eqb_spec j (nseg - 1)) as [->|Hne].
      * exists I1. replace (n + (6 * (nseg - (nseg - 1)) - 3)) with (n + 3)
          by lia. done.
      * destruct (store3_spec P (nofs0 + j + 1) (nofs1 + j) (nofs1 + j + 1)
                    (n + 3) I1) as (I2 & E2 & L2 & F2); try done;
          try lia; try (apply to_WORD_range; lia).
        rewrite E2. simpl.
        destruct (IH (j + 1) (n + 3 + 3) I2) as (I3 & E3 & L3 & F3);
          try lia; try done.
        rewrite E3.
        replace (n + 3 + 3 + (6 * (nseg - (j + 1)) - 3))
          with (n + (6 * (nseg - j) - 3)) in * by lia.
        exists I3. split; [done|]. split; [congruence|done].
    + destruct (store3_spec P (nofs0 + j + 1) (nofs1 + j) (nofs1 + j + 1)
                  (n + 3) I1) as (I2 & E2 & L2 & F2); try done;
        try lia; try (apply to_WORD_range; lia).
      rewrite E2. simpl.
      destruct (IH (j + 1) (n + 3 + 3) I2) as (I3 & E3 & L3 & F3);
        try lia; try done.
      rewrite E3.
      replace (n + 3 + 3 + 6 * (nseg - (j + 1)))
        with (n + 6 * (nseg - j)) in * by lia.
      exists I3. split; [done|]. split; [congruence|done].
Qed.

Lemma face_loop_spec (res bseg : Z) (reduce : bool) (Idx : list (option Z)) :
  let nV := strip_start bseg reduce (res + 1) in
  let P := fun v => 0 <= v < nV in
  0 <= res -> 0 <= bseg -> (reduce = true -> res <= bseg) ->
  Z.of_nat (length Idx) = face_start bseg reduce res ->
  exists n nofs0 Idx',
    for_range 0 res (face_body bseg reduce) (0, 0, Idx)
    = Some (n, nofs0, Idx') /\
    length Idx' = length Idx /\
    filled P (Z.of_nat (length Idx')) Idx'.
Proof.
  intros nV P Hres Hb Hr Hlen. unfold for_range.
  assert (Hs0 : strip_start bseg reduce 0 = 0) by (by destruct reduce).
  assert (Hf0 : face_start bseg reduce 0 = 0) by (by destruct reduce).
  destruct (for_loop_inv
    (fun i (s : Z * Z * list (option Z)) =>
       let '(n, nofs0, Ix) := s in
       n = face_start bseg reduce i /\
       nofs0 = strip_start bseg reduce i /\
       length Ix = length Idx /\
       filled P n Ix)
    (Z.to_nat (res - 0)) 0 (face_body bseg reduce) (0, 0, Idx))
    as ([[n' nofs'] Idx'] & Hrun & Hn & Hnofs & Hl & Hfill).
  - split; [done|]. split; [done|]. split; [done|]. intros k Hk. lia.
  - intros i [[n nofs0] Ii] Hi (-> & -> & Hl & Hfi).
    unfold face_body.
    set (nseg := if reduce then bseg - i else bseg).
    pose proof (strip_start_succ bseg reduce i ltac:(lia)) as Hs1.
    pose proof (strip_start_succ bseg reduce (i + 1) ltac:(lia)) as Hs2.
    pose proof (face_start_succ bseg reduce i) as Hf1.
    fold nseg in Hs1.
    pose proof (strip_start_mono bseg reduce 0 i ltac:(lia)
                  ltac:(intros H; specialize (Hr H); lia) Hb) as Hm0.
    pose proof (strip_start_mono bseg reduce (i + 2) (res + 1) ltac:(lia)
                  ltac:(intros H; specialize (Hr H); lia) Hb) as Hm2.
    pose proof (face_start_mono bseg reduce 0 i ltac:(lia)
                  ltac:(intros H; specialize (Hr H); lia) Hb) as Hg0.
    pose proof (face_start_mono bseg reduce (i + 1) res ltac:(lia)
                  ltac:(intros H; specialize (Hr H); lia) Hb) as Hg1.
    replace (i + 1 + 1) with (i + 2) in Hs2 by lia.
    assert (Hnseg : 0 <= nseg).
    { unfold nseg. destruct reduce; [specialize (Hr eq_refl)|]; lia. }
    destruct (face_strip_spec nV (Z.to_nat nseg) 0 nseg
                (strip_start bseg reduce i)
                (strip_start bseg reduce i + nseg + 1) reduce
                (face_start bseg reduce i) Ii)
      as (I2 & E2 & L2 & F2); try lia; try done.
    { intros ->. specialize (Hr eq_refl). unfold nseg. lia. }
    { unfold nV, nseg in *.
      destruct reduce; [specialize (Hr eq_refl)|]; lia. }
    { unfold nV, nseg in *.
      destruct reduce; [specialize (Hr eq_refl)|]; lia. }
    { rewrite Hl, Hlen. unfold nseg in *. destruct reduce; lia. }
    rewrite E2. simpl. eexists. split; [done|]. simpl.
    split; [unfold nseg in *; destruct reduce; lia|].
    split; [lia|]. split; [congruence|].
    replace (face_start bseg reduce (i + 1))
      with (face_start bseg reduce i +
            (if reduce then 6 * (nseg - 0) - 3 else 6 * (nseg - 0)));
      [done|].
    unfold nseg in *. destruct reduce; lia.
  - rewrite Hrun. exists n', nofs', Idx'. split; [done|]. split; [done|].
    rewrite Hl, Hlen.
    replace (0 + Z.of_nat (Z.to_nat (res - 0))) with res in Hn by lia.
    by rewrite <- Hn.
Qed.

Lemma flip_faces_spec (P : Z -> Prop) (fuel : nat) (i bound : Z)
    (Idx : list (option Z)) :
  0 <= i -> (Z.to_nat (bound - i) < fuel)%nat ->
  3 * bound <= Z.of_nat (length Idx) ->
  filled P (Z.of_nat (length Idx)) Idx ->
  exists Idx', flip_faces fuel i bound Idx = Some Idx' /\
               length Idx' = length Idx /\
               filled P (Z.of_nat (length Idx')) Idx'.
Proof.
  revert i Idx. induction fuel as [|fuel IH]; intros i Idx Hi Hf Hb Hfill;
    [lia|].
  simpl. destruct (Z.ltb_spec i bound); [|by exists Idx].
  destruct (array_load_filled P Idx _ (i + 1) Hfill) as (t & Ht & HPt);
    [lia|].
  destruct (array_load_filled P Idx _ (i + 2) Hfill) as (v & Hv & HPv);
    [lia|].
  rewrite Ht, Hv. simpl.
  destruct (array_store_full P Idx (i + 1) v) as (I1 & E1 & L1 & F1);
    [lia|done|done|].
  rewrite E1. simpl.
  destruct (array_store_full P I1 (i + 2) t) as (I2 & E2 & L2 & F2);
    [lia|done|done|].
  rewrite E2. simpl.
  destruct (IH (i + 3) I2) as (I3 & E3 & L3 & F3); [lia|lia|lia|done|].
  exists I3. split; [done|]. split; [congruence|done].
Qed.

Lemma new_array_Some {A : Type} (n : Z) :
  0 <= n -> exists a : list (option A),
    new_array n = Some a /\ Z.of_nat (length a) = n /\
    filled (fun _ => True) 0 a.
Proof.
  intros H. unfold new_array. destruct (Z.ltb_spec n 0); [lia|].
  eexists. split; [done|]. rewrite length_replicate.
  split; [lia|]. intros k Hk. lia.
Qed.

(** C9.  For parameters with [0 <= ilat < nlat], [0 <= res] and, after the
    defaulting rule for [bseg], [0 <= bseg] and [res <= bseg] when [reduce]
    is set (all small enough for the [int] computations to be exact),
    [CreateSpherePatch] completes without a store outside its two arrays;
    the mesh has [(bseg+1)(res+1)] vertices, less [((res+1) res)/2] when
    [reduce] is set, all of them assigned; and every entry of the index
    buffer is assigned and lies in [[0, nVtx)]. *)
Theorem CreateSpherePatch_in_bounds (V : Type)
    (make_vertex : Z -> Z -> Z -> Z -> bool -> bool -> Z -> Z -> Z -> V)
    (nlng nlat ilat res bseg : Z)
    (reduce outside store_vtx shift_origin : bool) :
  let bseg' := if (bseg <? 0) || (ilat =? nlat - 1)
               then (nlat - ilat) * res else bseg in
  0 <= ilat < nlat -> nlat < 2 ^ 31 ->
  0 <= res <= 2 ^ 14 -> 0 <= bseg' <= 2 ^ 14 ->
  (reduce = true -> res <= bseg') ->
  exists mesh,
    CreateSpherePatch V make_vertex nlng nlat ilat res bseg reduce outside
                      store_vtx shift_origin = Some mesh /\
    nVtx mesh = (bseg' + 1) * (res + 1)
                - (if reduce then Z.quot ((res + 1) * res) 2 else 0) /\
    Z.of_nat (length (pVB mesh)) = nVtx mesh /\
    nFace mesh = (if reduce then res * (2 * bseg' - res)
                  else 2 * res * bseg') /\
    Z.of_nat (length (pIB mesh)) = 3 * nFace mesh /\
    Forall (fun x => 0 <= x < nVtx mesh) (pIB mesh).
Proof.
  intros bseg' Hilat Hnlat Hres Hb Hr. unfold CreateSpherePatch.
  fold bseg'.
  set (nV := if reduce
             then (bseg' + 1) * (res + 1) - Z.quot ((res + 1) * res) 2
             else (bseg' + 1) * (res + 1)).
  set (nI := (if reduce then res * (2 * bseg' - res)
              else 2 * res * bseg') * 3).
  assert (HnV : nV = strip_start bseg' reduce (res + 1)).
  { unfold nV, strip_start. replace (res + 1 - 1) with res by lia.
    destruct reduce; lia. }
  assert (HnI : nI = face_start bseg' reduce res).
  { unfold nI, face_start. destruct reduce; lia. }
  assert (Hs0 : strip_start bseg' reduce 0 = 0) by (by destruct reduce).
  assert (Hf0 : face_start bseg' reduce 0 = 0) by (by destruct reduce).
  pose proof (strip_start_mono bseg' reduce 0 (res + 1) ltac:(lia)
                ltac:(intros H; specialize (Hr H); lia) ltac:(lia)) as HV0.
  pose proof (face_start_mono bseg' reduce 0 res ltac:(lia)
                ltac:(intros H; specialize (Hr H); lia) ltac:(lia)) as HI0.
  destruct (@new_array_Some V nV ltac:(lia)) as (Vtx & EV & LV & _).
  rewrite EV. cbn [mbind option_bind].
  destruct (node_loop_spec V make_vertex nlng nlat ilat res bseg' reduce
              outside shift_origin Vtx) as (n & Vtx' & EN & LN & FN);
    [lia|lia|done|lia|].
  rewrite EN. cbn [mbind option_bind].
  destruct (@new_array_Some Z nI ltac:(lia)) as (Idx & EI & LI & _).
  rewrite EI. cbn [mbind option_bind].
  destruct (face_loop_spec res bseg' reduce Idx)
    as (n2 & nofs & Idx' & EF & LF & FF); [lia|lia|done|lia|].
  rewrite EF. cbn [mbind option_bind]. rewrite <- HnV in FF.
  assert (exists Idx2,
    (if outside then Some Idx'
     else flip_faces (S (Z.to_nat (Z.quot nI 3))) 0 (Z.quot nI 3) Idx')
    = Some Idx2 /\ length Idx2 = length Idx' /\
    filled (fun v => 0 <= v < nV) (Z.of_nat (length Idx2)) Idx2)
    as (Idx2 & E2 & L2 & F2).
  { destruct outside; [by exists Idx'|].
    apply flip_faces_spec; [lia|lia| |done].
    unfold nI. rewrite Z.quot_mul by lia. rewrite LF, LI. unfold nI. lia. }
  rewrite E2. cbn [mbind option_bind].
  destruct (array_contents_filled (fun _ => True) Vtx' FN)
    as (vb & Evb & Lvb & _).
  destruct (array_contents_filled _ Idx2 F2) as (ib & Eib & Lib & Fib).
  rewrite Evb, Eib. cbn [mbind option_bind]. eexists. split; [done|].
  cbn [nVtx nFace pVB pIB].
  fold nV. unfold nI in *. rewrite Z.quot_mul by lia.
  split; [unfold nV; destruct reduce; lia|].
  split; [lia|]. split; [done|]. split; [lia|done].
Qed.

(** The theorem for the first template of level 8:
    [CreateSpherePatch (dev, PATCH_TPL_8[0], 32, 8, 0, 12, 15, false, true,
    true)]. *)
Lemma CreateSpherePatch_in_bounds_witness :
  exists mesh : VBMESH (Z * Z),
    CreateSpherePatch (Z * Z) (fun _ _ _ _ _ _ i j _ => (i, j))
                      32 8 0 12 15 false true true false = Some mesh /\
    nVtx mesh = 208 /\
    Forall (fun x => 0 <= x < nVtx mesh) (pIB mesh).
Proof.
  destruct (CreateSpherePatch_in_bounds (Z * Z)
              (fun _ _ _ _ _ _ i j _ => (i, j))
              32 8 0 12 15 false true true false)
    as (mesh & Hrun & Hn & _ & _ & _ & Hidx).
  - lia.
  - lia.
  - lia.
  - simpl. lia.
  - intros H. discriminate H.
  - exists mesh. split; [exact Hrun|]. split; [exact Hn|exact Hidx].
Defined.

Example CreateSpherePatch_pole :
  (fun m : VBMESH (Z * Z) => (nVtx m, nFace m, length (pIB m)))
    <$> CreateSpherePatch (Z * Z) (fun _ _ _ _ _ _ i j _ => (i, j))
                          6 4 3 12 (-1) true false true false
  = Some (91, 144, 432%nat).
Proof. vm_compute. reflexivity. Qed.

(** ** The conversion of offsets to indices in [LoadTileData] *)

Lemma compare_idx_le (a b : IDXLIST) :
  compare_idx a b <= 0 <-> il_ofs a <= il_ofs b.
Proof.
  unfold compare_idx.
  destruct (Z.ltb_spec (il_ofs a) (il_ofs b)); [lia|].
  destruct (Z.ltb_spec (il_ofs b) (il_ofs a)); lia.
Qed.

Lemma live_prefix_split (l : list IDXLIST) :
  Sorted (fun a b => compare_idx a b <= 0) l ->
  Forall (fun e => il_ofs e <= NOTILE) l ->
  exists rest, l = live_prefix l ++ rest /\
               Forall (fun e => il_ofs e = NOTILE) rest /\
               Forall (fun e => il_ofs e <> NOTILE) (live_prefix l).
Proof.
  intros Hs Hmax. apply Sorted_StronglySorted in Hs.
  2:{ intros a b c. rewrite !compare_idx_le. lia. }
  induction l as [|e l IH]; [by exists []|].
  apply StronglySorted_inv in Hs as [Hs He].
  apply Forall_cons in Hmax as [Hemax Hmax]. simpl.
  destruct (Z.eqb_spec (il_ofs e) NOTILE) as [Heq|Hne].
  - exists (e :: l). split; [done|]. split; [|done].
    constructor; [done|].
    rewrite Forall_forall in He, Hmax. apply Forall_forall. intros x Hx.
    specialize (He x Hx). specialize (Hmax x Hx).
    apply compare_idx_le in He. lia.
  - destruct (IH Hs Hmax) as (rest & Hl & Hrest & Hlive).
    exists rest. split; [simpl; congruence|]. split; [done|].
    by constructor.
Qed.

Section AssignRanks.
Variable ofs_of : TILEFILESPEC -> Z.
Variable set : Z -> TILEFILESPEC -> TILEFILESPEC.
Hypothesis ofs_of_set : forall v t, ofs_of (set v t) = v.

(** The assignment loop replaces the offsets of the entries it visits by
    their positions and leaves the other offsets, [X], alone. *)
Lemma assign_ranks_ofs (l : list IDXLIST) (i : Z)
    (tfs : list TILEFILESPEC) (X : list Z) :
  NoDup (il_idx <$> l) ->
  Forall (fun e => 0 <= il_idx e /\
                   exists t, tfs !! Z.to_nat (il_idx e) = Some t /\
                             ofs_of t = il_ofs e) l ->
  ofs_of <$> tfs ≡ₚ (il_ofs <$> live_prefix l) ++ X ->
  ofs_of <$> assign_ranks set i l tfs
  ≡ₚ seqZ i (Z.of_nat (length (live_prefix l))) ++ X.
Proof using ofs_of_set.
  revert i tfs X. induction l as [|e l IH]; intros i tfs X Hnd Hall Hperm.
  - simpl in *. done.
  - simpl in *. apply NoDup_cons in Hnd as [Hnin Hnd].
    apply Forall_cons in Hall as [(He0 & t & Ht & Hofs) Hall].
    destruct (Z.eqb_spec (il_ofs e) NOTILE) as [Heq|Hne]; [done|].
    cbn [length fmap list_fmap app] in *.
    rewrite Nat2Z.inj_succ, seqZ_cons by lia.
    replace (Z.pred (Z.succ (Z.of_nat (length (live_prefix l)))))
      with (Z.of_nat (length (live_prefix l))) by lia.
    destruct (list_elem_of_split_length tfs (Z.to_nat (il_idx e)) t Ht)
      as (A & B & -> & HlenA).
    assert (Halt : alter (set i) (Z.to_nat (il_idx e)) (A ++ t :: B)
                   = A ++ set i t :: B).
    { rewrite HlenA. replace (length A) with (length A + 0)%nat by lia.
      by rewrite alter_app_r. }
    rewrite Halt.
    assert (HAB : ofs_of <$> A ++ B ≡ₚ (il_ofs <$> live_prefix l) ++ X).
    { rewrite fmap_app, fmap_cons, Hofs in Hperm.
      rewrite <- Permutation_middle in Hperm.
      apply Permutation_cons_inv in Hperm. by rewrite fmap_app. }
    rewrite <- app_comm_cons, Permutation_middle.
    apply IH; [done| |].
    + rewrite Forall_forall in Hall. apply Forall_forall.
      intros e' He'. destruct (Hall e' He') as (He'0 & t' & Ht' & Hofs').
      split; [done|]. exists t'. split; [|done].
      rewrite <- Halt. rewrite list_lookup_alter_ne; [done|].
      intros Heq. apply Hnin. apply list_elem_of_fmap.
      exists e'. split; [lia|done].
    + rewrite fmap_app, fmap_cons, ofs_of_set.
      rewrite <- Permutation_middle. rewrite <- fmap_app, HAB.
      by rewrite <- Permutation_middle.
Qed.
End AssignRanks.

Lemma filter_all {A : Type} (P : A -> Prop) `{forall x, Decision (P x)}
    (l : list A) :
  Forall P l -> filter P l = l.
Proof.
  induction 1 as [|x l Hx Hl IH]; [done|].
  rewrite filter_cons_True by done. by f_equal.
Qed.

Lemma filter_none {A : Type} (P : A -> Prop) `{forall x, Decision (P x)}
    (l : list A) :
  Forall (fun x => ~ P x) l -> filter P l = [].
Proof.
  induction 1 as [|x l Hx Hl IH]; [done|].
  by rewrite filter_cons_False.
Qed.

Lemma make_idxlist_idx (ofs_of : TILEFILESPEC -> Z)
    (tfs : list TILEFILESPEC) :
  il_idx <$> make_idxlist ofs_of tfs = Z.of_nat <$> seq 0 (length tfs).
Proof.
  unfold make_idxlist. rewrite fmap_imap.
  apply list_eq. intros i. rewrite list_lookup_imap, list_lookup_fmap.
  destruct (tfs !! i) as [t|] eqn:E; simpl.
  - rewrite lookup_seq_lt; [done|]. eapply lookup_lt_Some; eauto.
  - rewrite lookup_seq_ge; [done|]. by apply lookup_ge_None.
Qed.

Lemma make_idxlist_ofs (ofs_of : TILEFILESPEC -> Z)
    (tfs : list TILEFILESPEC) :
  il_ofs <$> make_idxlist ofs_of tfs = ofs_of <$> tfs.
Proof.
  unfold make_idxlist. rewrite fmap_imap.
  apply list_eq. intros i. rewrite list_lookup_imap, list_lookup_fmap.
  by destruct (tfs !! i).
Qed.

Lemma make_idxlist_elem (ofs_of : TILEFILESPEC -> Z)
    (tfs : list TILEFILESPEC) (e : IDXLIST) :
  e ∈ make_idxlist ofs_of tfs ->
  0 <= il_idx e /\
  exists t, tfs !! Z.to_nat (il_idx e) = Some t /\ ofs_of t = il_ofs e.
Proof.
  intros He. apply elem_of_lookup_imap_1 in He as (i & t & -> & Ht).
  simpl. split; [lia|]. exists t. by rewrite Nat2Z.id.
Qed.

(** One pass of the conversion: the indices that are not [NOTILE] become
    the numbers from 0 up to their count. *)
Lemma convert_offsets_dense (qsort : list IDXLIST -> list IDXLIST)
    (ofs_of : TILEFILESPEC -> Z)
    (set : Z -> TILEFILESPEC -> TILEFILESPEC) (tfs : list TILEFILESPEC) :
  qsort_contract qsort ->
  (forall v t, ofs_of (set v t) = v) ->
  Z.of_nat (length tfs) <= NOTILE ->
  Forall (fun t => ofs_of t <= NOTILE) tfs ->
  tile_indices (ofs_of <$> convert_offsets qsort ofs_of set tfs)
  ≡ₚ seqZ 0 (Z.of_nat (length (tile_indices (ofs_of <$> tfs)))).
Proof.
  intros Hq Hset Hn Hmax. unfold convert_offsets.
  destruct (Hq (make_idxlist ofs_of tfs)) as [Hperm Hsorted].
  set (L := qsort (make_idxlist ofs_of tfs)) in *.
  assert (HofsL : il_ofs <$> L ≡ₚ ofs_of <$> tfs).
  { by rewrite Hperm, make_idxlist_ofs. }
  assert (HmaxL : Forall (fun e => il_ofs e <= NOTILE) L).
  { apply Forall_forall. intros e He. rewrite Hperm in He.
    apply make_idxlist_elem in He as (_ & t & Ht & <-).
    rewrite Forall_forall in Hmax. apply Hmax.
    eapply list_elem_of_lookup_2; eauto. }
  destruct (live_prefix_split L Hsorted HmaxL) as (R & HL & HR & HP).
  set (X := il_ofs <$> R).
  assert (HX : Forall (fun v => ~ v <> NOTILE) X).
  { unfold X. apply Forall_fmap. eapply Forall_impl; [exact HR|].
    intros e He Hne. by apply Hne. }
  assert (HPofs : Forall (fun v => v <> NOTILE) (il_ofs <$> live_prefix L)).
  { by apply Forall_fmap. }
  assert (Hdecomp : ofs_of <$> tfs ≡ₚ (il_ofs <$> live_prefix L) ++ X).
  { rewrite <- HofsL. rewrite HL at 1. by rewrite fmap_app. }
  assert (Hcount : length (tile_indices (ofs_of <$> tfs))
                   = length (live_prefix L)).
  { unfold tile_indices. rewrite Hdecomp, filter_app.
    rewrite (filter_all _ _ HPofs), (filter_none _ _ HX).
    by rewrite app_nil_r, length_fmap. }
  rewrite Hcount.
  assert (Hres := assign_ranks_ofs ofs_of set Hset L 0 tfs X).
  unfold tile_indices. rewrite Hres; [| |  |exact Hdecomp].
  - rewrite filter_app, (filter_none _ _ HX), app_nil_r.
    apply reflexive_eq, filter_all. apply Forall_seqZ. intros j Hj.
    assert (length (live_prefix L) <= length L)%nat.
    { rewrite HL at 2. rewrite length_app. lia. }
    assert (length L = length tfs).
    { rewrite Hperm. unfold make_idxlist. apply length_imap. }
    lia.
  - rewrite Hperm, make_idxlist_idx.
    apply NoDup_fmap; [intros ???; lia|apply NoDup_seq].
  - apply Forall_forall. intros e He. rewrite Hperm in He.
    by apply make_idxlist_elem.
Qed.

Lemma assign_ranks_other {B : Type} (g : TILEFILESPEC -> B)
    (set : Z -> TILEFILESPEC -> TILEFILESPEC) (l : list IDXLIST) (i : Z)
    (tfs : list TILEFILESPEC) :
  (forall v t, g (set v t) = g t) ->
  g <$> assign_ranks set i l tfs = g <$> tfs.
Proof.
  intros Hg. revert i tfs. induction l as [|e l IH]; intros i tfs; [done|].
  simpl. destruct (il_ofs e =? NOTILE); [done|]. rewrite IH.
  apply list_eq. intros j. rewrite !list_lookup_fmap.
  destruct (decide (Z.to_nat (il_idx e) = j)) as [<-|Hne].
  - rewrite list_lookup_alter_eq. destruct (tfs !! _); simpl; [|done].
    by rewrite Hg.
  - by rewrite list_lookup_alter_ne.
Qed.

Lemma remove_dups_NoDup {A : Type} `{EqDecision A} (l : list A) :
  NoDup l -> remove_dups l = l.
Proof.
  induction 1 as [|x l Hx Hl IH]; [done|]. simpl.
  destruct (decide_rel elem_of x l); [done|]. by f_equal.
Qed.

Lemma qsort_merge_contract : qsort_contract qsort_merge.
Proof.
  intros l. unfold qsort_merge. split; [apply merge_sort_Permutation|].
  assert (Total ofs_le) by (intros a b; unfold ofs_le; lia).
  pose proof (Sorted_merge_sort ofs_le l) as Hs.
  induction Hs as [|a l' Hs IH Hhd]; constructor; [done|].
  destruct Hhd; constructor. by apply compare_idx_le.
Qed.

(** C8, as amended.  For a table of contents of version 1 or later read
    with preloading on, whatever sorting function meets the contract of
    [qsort]: after the conversion the surface indices that are not
    [NOTILE] are, as a multiset, the numbers [0 .. k-1], where [k] is the
    number of records whose surface index is not [NOTILE]; likewise for the
    mask indices; [tilever] is reset to 0.  [k] is the number of distinct
    surface indices when no two records share one. *)
Theorem convert_toc_dense (qsort : list IDXLIST -> list IDXLIST)
    (tilever : Z) (tfs : list TILEFILESPEC) :
  qsort_contract qsort ->
  1 <= tilever ->
  Z.of_nat (length tfs) <= NOTILE ->
  Forall (fun t => sidx t <= NOTILE /\ midx t <= NOTILE) tfs ->
  exists tfs',
    convert_toc qsort true tilever tfs = (tfs', 0) /\
    tile_indices (sidx <$> tfs')
    ≡ₚ seqZ 0 (Z.of_nat (length (tile_indices (sidx <$> tfs)))) /\
    tile_indices (midx <$> tfs')
    ≡ₚ seqZ 0 (Z.of_nat (length (tile_indices (midx <$> tfs)))) /\
    (NoDup (tile_indices (sidx <$> tfs)) ->
     length (tile_indices (sidx <$> tfs))
     = length (remove_dups (tile_indices (sidx <$> tfs)))).
Proof.
  intros Hq Hver Hn Hmax. unfold convert_toc.
  destruct (Z.leb_spec 1 tilever); [|lia]. simpl.
  eexists. split; [done|].
  set (tfs1 := convert_offsets qsort sidx set_sidx tfs).
  assert (Hm1 : midx <$> tfs1 = midx <$> tfs).
  { unfold tfs1, convert_offsets. by apply assign_ranks_other. }
  assert (Hlen1 : length tfs1 = length tfs).
  { by rewrite <- (length_fmap midx tfs1), Hm1, length_fmap. }
  split; [|split].
  - unfold convert_offsets at 1.
    rewrite (assign_ranks_other sidx set_midx) by done.
    apply convert_offsets_dense; try done.
    eapply Forall_impl; [exact Hmax|]. by intros t [? ?].
  - rewrite <- Hm1. apply convert_offsets_dense; try done; [lia|].
    apply Forall_forall. intros t Ht.
    assert (Hin : midx t ∈ midx <$> tfs1).
    { apply list_elem_of_fmap. eauto. }
    rewrite Hm1 in Hin. apply list_elem_of_fmap in Hin as (t' & -> & Ht').
    rewrite Forall_forall in Hmax. by apply Hmax.
  - intros Hnd. by rewrite remove_dups_NoDup.
Qed.

(** The theorem for the merge sort and a table of four records. *)
Lemma convert_toc_dense_witness :
  exists tfs',
    convert_toc qsort_merge true 1 sample_toc = (tfs', 0) /\
    tile_indices (sidx <$> tfs') ≡ₚ seqZ 0 3.
Proof.
  destruct (convert_toc_dense qsort_merge 1 sample_toc)
    as (tfs' & Hrun & Hs & _).
  - exact qsort_merge_contract.
  - lia.
  - vm_compute. discriminate.
  - unfold sample_toc. repeat constructor; vm_compute; discriminate.
  - exists tfs'. split; [exact Hrun|exact Hs].
Defined.

Example convert_toc_sample :
  sidx <$> fst (convert_toc qsort_merge true 1 sample_toc)
  = [2; NOTILE; 0; 1].
Proof. vm_compute. reflexivity. Qed.

(** C8 as stated fails: two records that share the surface offset 100 get
    the indices 0 and 1, two values, while the file has one distinct
    surface index. *)
Lemma convert_toc_dense_counterexample :
  ~ (tile_indices (sidx <$> fst (convert_toc qsort_merge true 1
                                              sample_toc_shared))
     ≡ₚ seqZ 0 (Z.of_nat (length (remove_dups
                   (tile_indices (sidx <$> sample_toc_shared)))))).
Proof.
  intros H. apply Permutation_length in H. vm_compute in H. discriminate.
Qed.

(** ** The descriptor pool: [AddTile] *)

Lemma exists_free_slot (b : list tileptr) :
  (length (filter occupied b) < length b)%nat ->
  exists f, b !! f = Some None.
Proof.
  induction b as [|s b IH]; simpl; [lia|].
  destruct s as [a|].
  - rewrite filter_cons_True by done. simpl. intros H.
    destruct IH as [f Hf]; [lia|]. by exists (S f).
  - intros _. by exists 0%nat.
Qed.

Lemma find_free_spec (p : TilePool) (n : nat) (i : N) :
  (N.of_nat n + i <= nbuf p)%N -> (nbuf p < 2 ^ 31)%N ->
  (last p < nbuf p)%N ->
  (exists i', (i <= i' < i + N.of_nat n)%N /\
              buf p !! N.to_nat ((i' + last p) mod nbuf p) = Some None) ->
  buf p !! N.to_nat (find_free n i p) = Some None.
Proof.
  revert i. induction n as [|n IH]; intros i Hn Hb Hl (i' & Hi' & Hfree);
    [lia|].
  simpl. unfold dword.
  rewrite (N.mod_small (i + last p)) by lia.
  destruct (buf p !! N.to_nat ((i + last p) mod nbuf p)) as [[a|]|] eqn:E;
    [|done|].
  - apply IH; [lia|done|done|]. exists i'. split; [|done].
    destruct (decide (i' = i)) as [->|Hne]; [congruence|lia].
  - apply IH; [lia|done|done|]. exists i'. split; [|done].
    destruct (decide (i' = i)) as [->|Hne]; [congruence|lia].
Qed.

Lemma find_free_free (p : TilePool) :
  pool_wf p -> nused p <> nbuf p ->
  buf p !! N.to_nat (find_free (length (buf p)) 0 p) = Some None.
Proof.
  intros (Hb & Hl & Hu) Hne.
  assert (Hlt : (length (filter occupied (buf p)) < length (buf p))%nat).
  { pose proof (length_filter occupied (buf p)). unfold nbuf in *. lia. }
  destruct (exists_free_slot _ Hlt) as [f Hf].
  pose proof (lookup_lt_Some _ _ _ Hf) as Hflt.
  assert (Hnz : nbuf p <> 0%N) by (unfold nbuf; lia).
  destruct Hl as [Hl|Hl]; [|done].
  apply find_free_spec; [unfold nbuf; lia|lia|done|].
  exists ((N.of_nat f + nbuf p - last p) mod nbuf p)%N.
  pose proof (N.mod_upper_bound (N.of_nat f + nbuf p - last p) (nbuf p) Hnz).
  split; [split; [apply N.le_0_l|rewrite N.add_0_l; exact H]|].
  rewrite N.Div0.add_mod_idemp_l.
  replace (N.of_nat f + nbuf p - last p + last p)%N
    with (N.of_nat f + 1 * nbuf p)%N by lia.
  rewrite N.Div0.mod_add. rewrite N.mod_small by (unfold nbuf; lia).
  by rewrite Nat2N.id.
Qed.

(** [AddTile] on a well-formed pool: the new descriptor lives at a fresh
    address, is zeroed apart from [ofs], occupies the slot [ofs] of [buf],
    and that slot was free or lies in the 16 slots just added. *)
Lemma AddTile_spec (p : TilePool) (m : Mem) :
  pool_wf p ->
  exists p' m',
    AddTile p m = Some (length m, p', m') /\
    m' = m ++ [Some (set_ofs (last p') zero_TILEDESC)] /\
    buf p' !! N.to_nat (last p') = Some (Some (length m)) /\
    (buf p !! N.to_nat (last p') = Some None \/
     (length (buf p) <= N.to_nat (last p'))%nat) /\
    (forall s, s <> N.to_nat (last p') -> s < length (buf p) ->
               buf p' !! s = buf p !! s)%nat /\
    nused p' = (nused p + 1)%N.
Proof.
  intros Hwf. pose proof Hwf as (Hb & Hl & Hu).
  unfold AddTile, alloc.
  set (p1 := if (nused p =? nbuf p)%N
             then mkTilePool (buf p ++ replicate 16 None) (nused p) (nused p)
             else mkTilePool (buf p) (nused p)
                    (find_free (length (buf p)) 0 p)).
  assert (Hp1 : (last p1 < nbuf p1)%N /\ nused p1 = nused p /\
                (buf p1 !! N.to_nat (last p1) = Some None) /\
                (buf p !! N.to_nat (last p1) = Some None \/
                 (length (buf p) <= N.to_nat (last p1))%nat) /\
                (forall s, (s < length (buf p))%nat ->
                           buf p1 !! s = buf p !! s)).
  { unfold p1. destruct (N.eqb_spec (nused p) (nbuf p)) as [E|E]; simpl.
    - unfold nbuf in *. cbn [buf nused last].
      rewrite length_app. cbn [length].
      split; [lia|]. split; [done|]. split; [|split].
      + rewrite lookup_app_r by lia.
        by replace (N.to_nat (nused p) - length (buf p))%nat with 0%nat
          by lia.
      + right. lia.
      + intros s Hs. by rewrite lookup_app_l.
    - pose proof (find_free_free p Hwf E) as Hf.
      pose proof (lookup_lt_Some _ _ _ Hf). unfold nbuf. simpl.
      split; [lia|]. split; [done|]. split; [done|]. split; [by left|done]. }
  destruct Hp1 as (Hlast & Hnu & Hfree & Hold & Hsame).
  destruct (N.ltb_spec (last p1) (nbuf p1)); [|lia].
  assert (Hld : load (m ++ [Some zero_TILEDESC]) (Some (length m))
                = Some zero_TILEDESC).
  { apply load_lookup. rewrite lookup_app_r by lia.
    by rewrite Nat.sub_diag. }
  rewrite (modify_Some _ _ _ _ Hld). simpl.
  eexists _, _. split; [done|]. simpl.
  split; [|split; [|split; [done|split]]].
  - unfold store. rewrite insert_app_r_alt by lia.
    by rewrite Nat.sub_diag.
  - apply list_lookup_insert_eq. unfold nbuf in *. lia.
  - intros s Hs Hlt. rewrite list_lookup_insert_ne by done. by apply Hsame.
  - rewrite Hnu. unfold dword. apply N.mod_small.
    pose proof (length_filter occupied (buf p)). unfold nbuf in *. lia.
Qed.

Lemma load_app_l (m l : Mem) (a : nat) :
  (a < length m)%nat -> load (m ++ l) (Some a) = load m (Some a).
Proof.
  intros H. change (load ?m (Some a)) with (mjoin (m !! a)).
  change (load (m ++ l) (Some a)) with (mjoin ((m ++ l) !! a)).
  by rewrite lookup_app_l.
Qed.

Lemma load_app_new (m : Mem) (td : TILEDESC) :
  load (m ++ [Some td]) (Some (length m)) = Some td.
Proof.
  apply load_lookup. rewrite lookup_app_r by lia. by rewrite Nat.sub_diag.
Qed.

(** ** The descent of [ProcessTile]: a child that does not exist *)

(** C4, as amended.  On a well-formed pool [AddTile] returns a descriptor
    at a fresh address that is zeroed apart from [ofs], which is the slot
    of [buf] it occupies, a slot that was free or has just been added.  In
    the descent of [ProcessTile] a child that does not exist is created by
    [AddTile] and linked into the parent; its [flag] stays 0 (bit [0x80]
    is not set) and its [tex] stays null; no load is requested; and the
    recursive call draws the child with the sub-rectangle and the textures
    of the parent. *)
Theorem descend_child_creates (F : Type) (Fadd Fsub Fmul : F -> F -> F)
    (F_of_int : Z -> F) (Fhalf : F) (MAXQUEUE : Z) (objname : string)
    (a : PTARGS F) (i j : Z) (idx : nat)
    (p : TilePool) (m : Mem) (q : TileQueue) (td : TILEDESC) :
  pool_wf p ->
  load m (Some (a_tile a)) = Some td ->
  get_subtile td idx = None ->
  exists p' m' child,
    AddTile p m
    = Some (length m, p', m ++ [Some child]) /\
    child = set_ofs (last p') zero_TILEDESC /\
    buf p' !! N.to_nat (ofs child) = Some (Some (length m)) /\
    (buf p !! N.to_nat (ofs child) = Some None \/
     (length (buf p) <= N.to_nat (ofs child))%nat) /\
    descend_child F Fadd Fsub Fmul F_of_int Fhalf MAXQUEUE objname
                  a i j idx (p, m, q)
    = Some (let sub := subrange F Fadd Fsub Fmul F_of_int Fhalf
                                (a_range a) i j in
            mkPTARGS (child_pos (a_pos a) i j) (length m)
                     sub (a_tex a) (a_ltex a) (a_flag a)
                     sub (a_tex a) (a_ltex a) (a_flag a),
            (p', m', q)) /\
    load m' (Some (length m)) = Some child /\
    flag child = 0 /\ tex child = NULLTEX /\
    load m' (Some (a_tile a))
    = Some (set_subtile idx (Some (length m)) td).
Proof.
  intros Hwf Htd Hsub.
  destruct (AddTile_spec p m Hwf) as (p' & m1 & Hadd & -> & Hslot & Hfree & _).
  pose proof (load_Some_lt _ _ _ Htd) as Hlt.
  exists p', (store (m ++ [Some (set_ofs (last p') zero_TILEDESC)])
                    (a_tile a) (set_subtile idx (Some (length m)) td)),
         (set_ofs (last p') zero_TILEDESC).
  split; [done|]. split; [done|]. split; [done|]. split; [done|].
  assert (Hne : a_tile a <> length m) by lia.
  split; [|split; [|split; [done|split; [done|]]]].
  - unfold descend_child. rewrite Htd. cbn [mbind option_bind].
    rewrite Hsub, Hadd. cbn [mbind option_bind].
    rewrite (modify_Some _ _ td) by (by rewrite load_app_l).
    cbn [mbind option_bind].
    rewrite load_store_ne by done. rewrite load_app_new.
    reflexivity.
  - rewrite load_store_ne by done. apply load_app_new.
  - apply load_store_eq. rewrite length_app. lia.
Qed.

(** The theorem for the first level-8 tile, on the empty pool. *)
Lemma descend_child_creates_witness :
  exists p' m' child,
    sample_descend sample_args 1 0 0%nat
                   (sample_pool, sample_mem 1, sample_queue)
    = Some (mkPTARGS (child_pos (a_pos sample_args) 1 0) 1
              (subrange Q Qplus Qminus Qmult inject_Z Q_half
                        (a_range sample_args) 1 0)
              (TexHnd 1%positive) NULLTEX 1
              (subrange Q Qplus Qminus Qmult inject_Z Q_half
                        (a_range sample_args) 1 0)
              (TexHnd 1%positive) NULLTEX 1,
            (p', m', sample_queue)) /\
    load m' (Some 1%nat) = Some child /\ flag child = 0.
Proof.
  destruct (descend_child_creates Q Qplus Qminus Qmult inject_Z Q_half 10
              "Earth" sample_args 1 0 0%nat sample_pool (sample_mem 1)
              sample_queue zero_TILEDESC)
    as (p' & m' & child & _ & _ & _ & _ & Hrun & Hld & Hflag & _).
  - unfold pool_wf. vm_compute. repeat split; (reflexivity || right; reflexivity).
  - reflexivity.
  - reflexivity.
  - exists p', m', child. split; [exact Hrun|]. split; [exact Hld|exact Hflag].
Defined.

(** C4 as stated fails: the child the descent creates has the flag 0, bit
    [0x80] clear. *)
Lemma descend_child_creates_counterexample :
  exists a' p' m' q' child,
    sample_descend sample_args 1 0 0%nat
                   (sample_pool, sample_mem 1, sample_queue)
    = Some (a', (p', m', q')) /\
    get_subtile zero_TILEDESC 0 = None /\
    load m' (Some (a_tile a')) = Some child /\
    flag child <> 128 /\ Z.land (flag child) 128 = 0.
Proof.
  eexists _, _, _, _, _. split; [vm_compute; reflexivity|].
  split; [reflexivity|]. split; [vm_compute; reflexivity|].
  split; [vm_compute; discriminate|reflexivity].
Qed.

(** ** The descent of [ProcessTile]: a child with a texture of its own *)

(** C3, as amended.  In the descent of [ProcessTile], for a child that
    exists, is loaded (bit [0x80] clear) and has a non-null [tex], nothing
    is created or requested, and the recursive call gets the full range
    and the child's own textures and flag as the current texture set, and
    the sub-rectangle with the parent's current textures and flag as the
    backup set. *)
Theorem descend_child_loaded (F : Type) (Fadd Fsub Fmul : F -> F -> F)
    (F_of_int : Z -> F) (Fhalf : F) (MAXQUEUE : Z) (objname : string)
    (a : PTARGS F) (i j : Z) (idx : nat)
    (p : TilePool) (m : Mem) (q : TileQueue) (td sd : TILEDESC) (c : nat) :
  load m (Some (a_tile a)) = Some td ->
  get_subtile td idx = Some c ->
  load m (Some c) = Some sd ->
  Z.land (flag sd) 128 = 0 ->
  tex_nonnull (tex sd) = true ->
  descend_child F Fadd Fsub Fmul F_of_int Fhalf MAXQUEUE objname
                a i j idx (p, m, q)
  = Some (mkPTARGS (child_pos (a_pos a) i j) c
            (fullrange F F_of_int) (tex sd) (ltex sd) (flag sd)
            (subrange F Fadd Fsub Fmul F_of_int Fhalf (a_range a) i j)
            (a_tex a) (a_ltex a) (a_flag a),
          (p, m, q)).
Proof.
  intros Htd Hsub Hsd Hflag Htex. unfold descend_child.
  rewrite Htd. cbn [mbind option_bind]. rewrite Hsub, Hsd.
  cbn [mbind option_bind]. rewrite Hflag. cbn [Z.eqb negb mbind option_bind].
  rewrite Hsd. cbn [mbind option_bind]. by rewrite Htex.
Qed.

(** The theorem for a level-8 tile whose first child is loaded. *)
Lemma descend_child_loaded_witness :
  exists a',
    sample_descend sample_args 1 0 0%nat
      (sample_pool_loaded, sample_mem_loaded, sample_queue)
    = Some (a', (sample_pool_loaded, sample_mem_loaded, sample_queue)) /\
    a_tex a' = TexHnd 2 /\ a_bkp_tex a' = TexHnd 1.
Proof.
  eexists. split.
  - apply (descend_child_loaded Q Qplus Qminus Qmult inject_Z Q_half 10
             "Earth" sample_args 1 0 0%nat sample_pool_loaded
             sample_mem_loaded sample_queue
             (mkTILEDESC (TexHnd 1) NULLTEX 1
                         [Some 1%nat; None; None; None] 0)
             (mkTILEDESC (TexHnd 2) NULLTEX 1 [None; None; None; None] 0)
             1%nat); reflexivity.
  - split; reflexivity.
Defined.

(** C3 as stated fails: for a loaded child the backup set of the recursive
    call is not the child's own texture set: the backup texture is the
    parent's and the backup range is the sub-rectangle, not the full
    range. *)
Lemma descend_child_loaded_counterexample :
  exists a' s child,
    sample_descend sample_args 1 0 0%nat
      (sample_pool_loaded, sample_mem_loaded, sample_queue)
    = Some (a', s) /\
    load sample_mem_loaded (Some (a_tile a')) = Some child /\
    Z.land (flag child) 128 = 0 /\ tex_nonnull (tex child) = true /\
    a_tex a' = tex child /\
    a_bkp_tex a' <> tex child /\
    a_bkp_range a' <> fullrange Q inject_Z.
Proof.
  eexists _, _, _. split; [vm_compute; reflexivity|].
  split; [vm_compute; reflexivity|].
  repeat split; vm_compute; discriminate.
Qed.

(** The backup set is what a tile seen under a very oblique angle is drawn
    with: the loaded child is drawn with the parent's texture 1 on the
    sub-rectangle, not with its own texture 2. *)
Example ProcessTile_coarse :
  exists p m q call calls,
    sample_ProcessTile 3%nat 2%nat sample_args
      (sample_pool_loaded, sample_mem_loaded, sample_queue, [])
    = Some (p, m, q, call :: calls) /\
    r_tile call = 1%nat /\ r_tex call = TexHnd 1 /\
    r_range call = subrange Q Qplus Qminus Qmult inject_Z Q_half
                            (fullrange Q inject_Z) 1 0.
Proof.
  eexists _, _, _, _, _. split; [vm_compute; reflexivity|].
  repeat split.
Qed.

(** ** The descriptor pool: [DeleteTile] *)

Lemma load_agree (m m' : Mem) (b : nat) :
  m' !! b = m !! b -> load m' (Some b) = load m (Some b).
Proof.
  intros H. change (load ?m (Some b)) with (mjoin (m !! b)).
  change (load m' (Some b)) with (mjoin (m' !! b)). by rewrite H.
Qed.

Lemma load_free_ne (m : Mem) (a b : nat) :
  a <> b -> load (free m a) (Some b) = load m (Some b).
Proof.
  intros H. apply load_agree. unfold free. by rewrite list_lookup_insert_ne.
Qed.

Lemma is_slot_iff (m : Mem) (f : list nat) (s : nat) :
  is_slot m f s <->
  exists b td, b ∈ f /\ load m (Some b) = Some td /\ N.to_nat (ofs td) = s.
Proof.
  unfold is_slot, slots_of. rewrite list_elem_of_omap. split.
  - intros (b & Hb & Hs). destruct (load m (Some b)) as [td|] eqn:E; [|done].
    injection Hs as <-. eauto.
  - intros (b & td & Hb & Htd & <-). exists b. by rewrite Htd.
Qed.

Lemma is_slot_app (m : Mem) (f g : list nat) (s : nat) :
  is_slot m (f ++ g) s <-> is_slot m f s \/ is_slot m g s.
Proof. unfold is_slot, slots_of. by rewrite omap_app, elem_of_app. Qed.

Lemma slots_of_agree (m m' : Mem) (f : list nat) :
  (forall b, b ∈ f -> m' !! b = m !! b) -> slots_of m' f = slots_of m f.
Proof.
  intros H. unfold slots_of. apply omap_ext_in. intros b Hb.
  by rewrite (load_agree m m' b (H b Hb)).
Qed.

Lemma all_null_app (m : Mem) (f g : list nat) :
  all_null m (f ++ g) <-> all_null m f /\ all_null m g.
Proof.
  unfold all_null. split.
  - intros H. split; intros b td Hb; apply H; apply elem_of_app; auto.
  - intros [Hf Hg] b td Hb. apply elem_of_app in Hb as [Hb|Hb]; eauto.
Qed.

Lemma all_null_agree (m m' : Mem) (f : list nat) :
  (forall b, b ∈ f -> m' !! b = m !! b) -> all_null m' f <-> all_null m f.
Proof.
  intros H. unfold all_null. split; intros Hn b td Hb Hld.
  - apply (Hn b td Hb). by rewrite (load_agree m m' b (H b Hb)).
  - apply (Hn b td Hb). by rewrite <- (load_agree m m' b (H b Hb)).
Qed.

Lemma subtree_agree (m m' : Mem) (n : nat) (c : tileptr) (f : list nat) :
  (forall b, b ∈ f -> m' !! b = m !! b) ->
  subtree m n c f -> subtree m' n c f.
Proof.
  intros Hag Hs. induction Hs as [|n a td f0 f1 f2 f3 Hld Hlen _ IH0 _ IH1
                                   _ IH2 _ IH3]; [constructor|].
  apply subtree_node with (td := td); try done.
  - rewrite <- Hld. apply load_agree, Hag. left.
  - apply IH0. intros b Hb. apply Hag. right. apply elem_of_app. auto.
  - apply IH1. intros b Hb. apply Hag. right.
    rewrite !elem_of_app. auto.
  - apply IH2. intros b Hb. apply Hag. right.
    rewrite !elem_of_app. auto.
  - apply IH3. intros b Hb. apply Hag. right.
    rewrite !elem_of_app. auto.
Qed.

Lemma get_subtile_set_ne (td : TILEDESC) (i j : nat) (v : tileptr) :
  i <> j -> get_subtile (set_subtile j v td) i = get_subtile td i.
Proof.
  intros H. unfold get_subtile, set_subtile. simpl.
  by rewrite list_lookup_insert_ne.
Qed.

Lemma nused_after_add (a b : nat) (n : N) :
  nused_after b (nused_after a n) = nused_after (a + b) n.
Proof.
  unfold nused_after. rewrite (Nat.add_comm a b). by rewrite Nat.iter_add.
Qed.

Section DeleteTileStep.
Variable n : nat.
Hypothesis Hrec : forall p m c f,
  subtree m n (Some c) f -> NoDup f ->
  (forall s, is_slot m f s -> (s < length (buf p))%nat) ->
  exists r p' m',
    DeleteTile n c (p, m) = Some (r, (p', m')) /\
    (r = true <-> all_null m f) /\
    frame_ok f p m p' m' /\
    (r = true -> freed_ok f p m p' m').

Lemma DeleteTile_sub_step (a : nat) (td : TILEDESC) (k : nat)
    (D fk : list nat) (p : TilePool) (m : Mem) (del : bool)
    (pk : TilePool) (mk : Mem) :
  child_inv a td k D p m del pk mk ->
  subtree m n (get_subtile td k) fk ->
  NoDup fk -> a ∉ fk -> a ∉ D -> (forall b, b ∈ D -> b ∉ fk) ->
  (forall s, is_slot m fk s -> (s < length (buf p))%nat) ->
  exists del' pk' mk',
    DeleteTile_sub (DeleteTile n) a k (del, (pk, mk))
    = Some (del', (pk', mk')) /\
    child_inv a td (S k) (D ++ fk) p m del' pk' mk'.
Proof using Hrec.
  intros ((tdk & Hld & Htex & Hofs & Hsub) & Hdel & Hlen & Hfr & Hbl & Hla
          & Hbf & Hfreed) Hst Hnd Hafk HaD Hdisj Hslots.
  unfold DeleteTile_sub. rewrite Hld. cbn [mbind option_bind].
  rewrite (Hsub k) by lia.
  destruct (get_subtile td k) as [c|] eqn:Hc.
  2:{ inversion Hst; subst. exists del, pk, mk. split; [done|].
      rewrite app_nil_r. split; [|done].
      exists tdk. split; [done|]. split; [done|]. split; [done|].
      intros i Hi. apply Hsub. lia. }
  (* the store agrees with the one on entry on the child's tree *)
  assert (Hag : forall b, b ∈ fk -> mk !! b = m !! b).
  { intros b Hb. apply Hfr. intros Hin. apply elem_of_cons in Hin as [->|Hin].
    - done.
    - by apply (Hdisj b). }
  destruct (Hrec pk mk c fk) as (r & p' & m' & Hrun & Hr & Hfok & Hfree).
  { by apply (subtree_agree m mk). }
  { done. }
  { intros s Hs. rewrite Hbl. apply Hslots. unfold is_slot in *.
    by rewrite <- (slots_of_agree m mk fk Hag). }
  rewrite Hrun. cbn [mbind option_bind].
  destruct Hfok as (Hlen' & Hfr' & Hbl' & Hla' & Hbf').
  assert (Hnull : all_null mk fk <-> all_null m fk)
    by (by apply all_null_agree).
  assert (Hslot_eq : forall s, is_slot mk fk s <-> is_slot m fk s).
  { intros s. unfold is_slot. by rewrite (slots_of_agree m mk fk Hag). }
  assert (Hlda : load m' (Some a) = Some tdk).
  { rewrite <- Hld. apply load_agree. by apply Hfr'. }
  assert (Hmemfr : forall b, b ∉ a :: D ++ fk -> m' !! b = m !! b).
  { intros b Hb. rewrite Hfr'.
    - apply Hfr. intros Hin. apply Hb.
      apply elem_of_cons in Hin as [->|Hin]; [left|right].
      apply elem_of_app. by left.
    - intros Hin. apply Hb. right. apply elem_of_app. by right. }
  assert (Hbuffr : forall s, ~ is_slot m (D ++ fk) s ->
                             buf p' !! s = buf p !! s).
  { intros s Hs. rewrite Hbf'.
    - apply Hbf. intros Hin. apply Hs. apply is_slot_app. by left.
    - intros Hin. apply Hs. apply is_slot_app. right. by apply Hslot_eq. }
  destruct r.
  - (* the child is deleted: the pointer to it is cleared *)
    rewrite (modify_Some _ _ _ _ Hlda). cbn [mbind option_bind].
    eexists del, p', _. split; [done|].
    pose proof (load_Some_lt _ _ _ Hlda) as Halt.
    split; [|split; [|split; [|split; [|split; [|split; [|split]]]]]].
    + exists (set_subtile k None tdk). split; [by apply load_store_eq|].
      split; [done|]. split; [done|]. intros i Hi.
      rewrite get_subtile_set_ne by lia. apply Hsub. lia.
    + rewrite all_null_app. rewrite Hdel.
      destruct Hr as [Hr _]. specialize (Hr eq_refl).
      apply Hnull in Hr. tauto.
    + rewrite length_store. lia.
    + intros b Hb. unfold store. rewrite list_lookup_insert_ne.
      * by apply Hmemfr.
      * intros ->. apply Hb. left.
    + lia.
    + congruence.
    + done.
    + intros Hd. destruct (Hfreed Hd) as (HfD & HsD & HnD).
      destruct (Hfree eq_refl) as (Hfk & Hsk & Hnk).
      split; [|split].
      * intros b Hb. unfold store. rewrite list_lookup_insert_ne.
        2:{ intros ->. apply elem_of_app in Hb as [Hb|Hb]; done. }
        apply elem_of_app in Hb as [Hb|Hb].
        -- rewrite Hfr'; [by apply HfD|]. by apply Hdisj.
        -- by apply Hfk.
      * intros s Hs. destruct (decide (s ∈ slots_of mk fk)) as [Hin|Hnin].
        -- by apply Hsk.
        -- rewrite Hbf' by done. apply HsD.
           apply is_slot_app in Hs as [Hs|Hs]; [done|].
           by apply Hslot_eq in Hs.
      * rewrite Hnk, HnD, length_app. apply nused_after_add.
  - (* the child stays *)
    exists false, p', m'. split; [done|].
    split; [|split; [|split; [|split; [|split; [|split; [|split]]]]]].
    + exists tdk. split; [done|]. split; [done|]. split; [done|].
      intros i Hi. apply Hsub. lia.
    + split; [done|]. rewrite all_null_app. intros [_ Hn].
      apply Hnull in Hn. by apply Hr in Hn.
    + lia.
    + done.
    + lia.
    + congruence.
    + done.
    + done.
Qed.
End DeleteTileStep.

Lemma is_slot_mono (m : Mem) (f g : list nat) (s : nat) :
  (forall b, b ∈ f -> b ∈ g) -> is_slot m f s -> is_slot m g s.
Proof.
  intros Hsub. rewrite !is_slot_iff. intros (b & td & Hb & Hld & Hs).
  exists b, td. auto.
Qed.

(** [DeleteTile] on a tree of descriptors, with fuel for its height. *)
Lemma DeleteTile_correct (n : nat) :
  forall p m c f,
    subtree m n (Some c) f -> NoDup f ->
    (forall s, is_slot m f s -> (s < length (buf p))%nat) ->
    exists r p' m',
      DeleteTile n c (p, m) = Some (r, (p', m')) /\
      (r = true <-> all_null m f) /\
      frame_ok f p m p' m' /\
      (r = true -> freed_ok f p m p' m').
Proof.
  induction n as [|n IH]; intros p m a f Hst Hnd Hslots; [inversion Hst|].
  inversion Hst as [|n' a' td f0 f1 f2 f3 Hld Hlen H0 H1 H2 H3]; subst.
  apply NoDup_cons in Hnd as [Ha Hnd].
  apply NoDup_app in Hnd as (Hnd0 & Hd0 & Hnd).
  apply NoDup_app in Hnd as (Hnd1 & Hd1 & Hnd).
  apply NoDup_app in Hnd as (Hnd2 & Hd2 & Hnd3).
  rewrite !elem_of_app in Ha.
  assert (Hinit : child_inv a td 0 [] p m true p m).
  { split; [exists td; done|]. split.
    { split; [|done]. intros _ b td' Hb _. by apply elem_of_nil in Hb. }
    split; [done|]. split; [done|]. split; [done|]. split; [done|].
    split; [done|]. intros _. split; [|split; [|done]].
    - intros b Hb. by apply elem_of_nil in Hb.
    - intros s Hs. unfold is_slot in Hs. simpl in Hs.
      by apply elem_of_nil in Hs. }
  assert (Hsl : forall g, (forall b, b ∈ g -> b ∈ f0 ++ f1 ++ f2 ++ f3) ->
                 forall s, is_slot m g s -> (s < length (buf p))%nat).
  { intros g Hg s Hs. apply Hslots. eapply is_slot_mono; [|exact Hs].
    intros b Hb. right. by apply Hg. }
  destruct (DeleteTile_sub_step n IH a td 0 [] f0 p m true p m)
    as (d0 & p0 & m0 & E0 & I0).
  { exact Hinit. }
  { exact H0. }
  { exact Hnd0. }
  { tauto. }
  { by intros ?%elem_of_nil. }
  { by intros ? ?%elem_of_nil. }
  { apply Hsl. intros b Hb. rewrite !elem_of_app. auto. }
  destruct (DeleteTile_sub_step n IH a td 1 ([] ++ f0) f1 p m d0 p0 m0)
    as (d1 & p1 & m1 & E1 & I1).
  { exact I0. }
  { exact H1. }
  { exact Hnd1. }
  { tauto. }
  { simpl. tauto. }
  { simpl. intros b Hb Hb1. apply (Hd0 b Hb). rewrite !elem_of_app. auto. }
  { apply Hsl. intros b Hb. rewrite !elem_of_app. auto. }
  destruct (DeleteTile_sub_step n IH a td 2 (([] ++ f0) ++ f1) f2
              p m d1 p1 m1) as (d2 & p2 & m2 & E2 & I2).
  { exact I1. }
  { exact H2. }
  { exact Hnd2. }
  { tauto. }
  { simpl. rewrite elem_of_app. tauto. }
  { simpl. intros b Hb Hb2. apply elem_of_app in Hb as [Hb|Hb].
    - apply (Hd0 b Hb). rewrite !elem_of_app. auto.
    - apply (Hd1 b Hb). rewrite !elem_of_app. auto. }
  { apply Hsl. intros b Hb. rewrite !elem_of_app. auto. }
  destruct (DeleteTile_sub_step n IH a td 3 ((([] ++ f0) ++ f1) ++ f2) f3
              p m d2 p2 m2) as (d3 & p3 & m3 & E3 & I3).
  { exact I2. }
  { exact H3. }
  { exact Hnd3. }
  { tauto. }
  { simpl. rewrite !elem_of_app. tauto. }
  { simpl. intros b Hb Hb3. rewrite !elem_of_app in Hb.
    destruct Hb as [[Hb|Hb]|Hb].
    - apply (Hd0 b Hb). rewrite !elem_of_app. auto.
    - apply (Hd1 b Hb). rewrite !elem_of_app. auto.
    - by apply (Hd2 b Hb). }
  { apply Hsl. intros b Hb. rewrite !elem_of_app. auto. }
  cbn [DeleteTile]. rewrite E0. cbn [mbind option_bind].
  rewrite E1. cbn [mbind option_bind]. rewrite E2. cbn [mbind option_bind].
  rewrite E3. cbn [mbind option_bind].
  clear E0 E1 E2 E3 I0 I1 I2.
  replace (((([] ++ f0) ++ f1) ++ f2) ++ f3) with (f0 ++ f1 ++ f2 ++ f3) in I3
    by (simpl; by rewrite !app_assoc).
  set (D := f0 ++ f1 ++ f2 ++ f3) in *.
  destruct I3 as ((td3 & Hld3 & Htex3 & Hofs3 & _) & Hdel & Hlen3 & Hfr3
                  & Hbl3 & Hla3 & Hbf3 & Hfreed).
  rewrite Hld3. cbn [mbind option_bind]. rewrite Htex3.
  assert (Hown : all_null m (a :: D) <->
                 tex_nonnull (tex td) = false /\ all_null m D).
  { unfold all_null. split.
    - intros H. split; [apply (H a td); [left|done]|].
      intros b td' Hb. apply H. by right.
    - intros [Ht HD] b td' Hb Hld'. apply elem_of_cons in Hb as [->|Hb].
      + congruence.
      + by apply (HD b td'). }
  assert (HslotD : forall s, is_slot m D s -> is_slot m (a :: D) s).
  { intros s. apply is_slot_mono. intros b Hb. by right. }
  destruct (tex_nonnull (tex td) || negb d3) eqn:Hcond.
  - (* the tile or a subtile holds a texture *)
    exists false, p3, m3. split; [done|]. split.
    { split; [done|]. intros Hall. apply Hown in Hall as [Ht HD].
      apply Hdel in HD. rewrite Ht, HD in Hcond. done. }
    split; [|done].
    split; [done|]. split; [done|]. split; [done|]. split; [done|].
    intros s Hs. apply Hbf3. intros Hin. by apply Hs, HslotD.
  - apply orb_false_iff in Hcond as [Ht Hd]. apply negb_false_iff in Hd.
    subst d3. destruct (Hfreed eq_refl) as (HfD & HsD & HnD).
    assert (Hslot_a : is_slot m (a :: D) (N.to_nat (ofs td))).
    { apply is_slot_iff. exists a, td. split; [left|done]. }
    pose proof (Hslots _ Hslot_a) as Hbound.
    rewrite Hofs3.
    destruct (lookup_lt_is_Some_2 (buf p3) (N.to_nat (ofs td)))
      as [old Hold]; [lia|].
    rewrite Hold. cbn [mbind option_bind].
    eexists true, _, _. split; [done|].
    pose proof (load_Some_lt _ _ _ Hld3) as Halt.
    split; [|split].
    + split; [|done]. intros _. apply Hown. split; [done|]. by apply Hdel.
    + split; [unfold free; by rewrite length_insert|].
      split; [|split; [cbn; by rewrite length_insert|split; [done|]]].
      * intros b Hb. unfold free. rewrite list_lookup_insert_ne.
        -- by apply Hfr3.
        -- intros ->. apply Hb. left.
      * intros s Hs. cbn. rewrite list_lookup_insert_ne.
        -- apply Hbf3. intros Hin. by apply Hs, HslotD.
        -- intros <-. by apply Hs.
    + intros _. split; [|split].
      * intros b Hb. unfold free. apply elem_of_cons in Hb as [->|Hb].
        -- by rewrite list_lookup_insert_eq.
        -- rewrite list_lookup_insert_ne; [by apply HfD|].
           intros ->. apply Ha. unfold D in Hb.
           by rewrite !elem_of_app in Hb.
      * intros s Hs. cbn.
        destruct (decide (N.to_nat (ofs td) = s)) as [<-|Hne].
        -- apply list_lookup_insert_eq. lia.
        -- rewrite list_lookup_insert_ne by done. apply HsD.
           apply is_slot_iff in Hs as (b & td' & Hb & Hld' & Hs).
           apply elem_of_cons in Hb as [->|Hb]; [congruence|].
           apply is_slot_iff. eauto.
      * cbn. rewrite HnD. reflexivity.
Qed.

(** ** Mask textures of deleted descriptors *)

Lemma load_free_Some (m : Mem) (a c : nat) (td : TILEDESC) :
  load (free m a) (Some c) = Some td -> load m (Some c) = Some td.
Proof.
  intros H. destruct (decide (a = c)) as [->|Hne].
  - apply load_lookup in H. unfold free in H.
    destruct (decide (c < length m)%nat).
    + rewrite list_lookup_insert_eq in H by done. done.
    + rewrite list_insert_ge in H by lia. by apply load_lookup.
  - by rewrite load_free_ne in H.
Qed.

Lemma ReleaseTex_if_keeps (h : handle) (v : texval) (cat cat' : Catalog) :
  ReleaseTex_if v cat = Some cat' -> v <> TexHnd h -> h ∈ cat -> h ∈ cat'.
Proof.
  unfold ReleaseTex_if, ReleaseTex. destruct (tex_nonnull v).
  - destruct v as [i|h']; [done|]. intros [= <-] Hne Hin.
    apply elem_of_difference. split; [done|].
    rewrite elem_of_singleton. congruence.
  - by intros [= <-].
Qed.

(** The destructor of the pool releases no texture object that no
    descriptor refers to. *)
Lemma destroy_slots_keeps (h : handle) (slots : list tileptr) (m mf : Mem)
    (cat cat' : Catalog) :
  destroy_slots slots (m, cat) = Some (mf, cat') ->
  (forall c td, load m (Some c) = Some td -> ~ holds_handle h td) ->
  h ∈ cat -> h ∈ cat'.
Proof.
  revert m cat. induction slots as [|slot slots IH]; intros m cat.
  - simpl. by intros [= <- <-].
  - simpl. destruct slot as [a|]; simpl; [|apply IH].
    destruct (load m (Some a)) as [td|] eqn:Hld; simpl; [|done].
    intros Hrun Hno Hin.
    destruct (Z.land (flag td) 128 =? 0).
    + destruct (ReleaseTex_if (tex td) cat) as [c1|] eqn:E1;
        simpl in Hrun; [|done].
      destruct (ReleaseTex_if (ltex td) c1) as [c2|] eqn:E2;
        simpl in Hrun; [|done].
      apply (IH _ _ Hrun).
      * intros c tdc Hc. apply (Hno c tdc). by apply load_free_Some in Hc.
      * apply (ReleaseTex_if_keeps h _ _ _ E2).
        -- intros Hl. apply (Hno a td Hld). by right.
        -- apply (ReleaseTex_if_keeps h _ _ _ E1); [|done].
           intros Ht. apply (Hno a td Hld). by left.
    + simpl in Hrun. apply (IH _ _ Hrun); [|done].
      intros c tdc Hc. apply (Hno c tdc). by apply load_free_Some in Hc.
Qed.

(** A pass of the loader whose surface read fails and whose mask read
    succeeds leaves a descriptor with a null [tex] and the mask object in
    [ltex], marked as loaded. *)
Lemma LoadTile_pass_mask_only (MAXQUEUE : Z)
    (ReadDDSSurface : string -> string -> Z -> option handle)
    (q : TileQueue) (m : Mem) (cat : Catalog) (name : string) (a : nat)
    (td : TILEDESC) (h : handle) :
  0 < nqueue q ->
  queue_at q (queue_out q) = Some (mkQUEUEDESC name (Some a)) ->
  load m (Some a) = Some td ->
  has_mask (flag td) = true ->
  tex_DWORD (tex td) <> NOTILE -> tex_DWORD (ltex td) <> NOTILE ->
  ReadDDSSurface name "_tile.tex"
                 (tile_offset (flag td) (tex_DWORD (tex td))) = None ->
  ReadDDSSurface name "_tile_lmask.tex"
                 (tile_offset (flag td) (tex_DWORD (ltex td))) = Some h ->
  exists q',
    LoadTile_pass MAXQUEUE ReadDDSSurface q m cat
    = Some (q',
            store m a (mkTILEDESC NULLTEX (TexHnd h) (Z.land (flag td) 63)
                                  (subtile td) (ofs td)),
            {[ h ]} ∪ cat).
Proof.
  intros Hn Hq Hld Hmask Ht Hl Hrt Hrm. unfold LoadTile_pass.
  destruct (Z.ltb_spec 0 (nqueue q)); [|lia].
  rewrite Hq. cbn [mbind option_bind qd_td qd_name]. rewrite Hld.
  cbn [mbind option_bind]. rewrite Hmask.
  destruct (Z.eqb_spec (tex_DWORD (tex td)) NOTILE); [done|].
  destruct (Z.eqb_spec (tex_DWORD (ltex td)) NOTILE); [done|].
  rewrite Hrt, Hrm. rewrite (modify_Some _ _ _ _ Hld).
  cbn [mbind option_bind]. eexists. reflexivity.
Qed.

(** C10.  [DeleteTile] looks at [tex] only.  On a tree of descriptors whose
    [tex] fields are all null it returns [true] and deletes every
    descriptor and empties every slot of the tree, also when a descriptor
    [b] of the tree holds a mask texture object [h] in [ltex].  The
    object is not released: if no descriptor outside the tree refers to
    [h], no descriptor at all refers to it afterwards, and the destructor
    of the pool leaves [h] registered in the texture catalogue. *)
Theorem DeleteTile_drops_mask (n : nat) (p : TilePool) (m : Mem)
    (d : nat) (f : list nat) (b : nat) (td : TILEDESC) (h : handle) :
  subtree m n (Some d) f -> NoDup f ->
  (forall s, is_slot m f s -> (s < length (buf p))%nat) ->
  (forall c tdc, c ∈ f -> load m (Some c) = Some tdc ->
                 tex_DWORD (tex tdc) = 0) ->
  b ∈ f -> load m (Some b) = Some td -> ltex td = TexHnd h ->
  exists p' m',
    DeleteTile n d (p, m) = Some (true, (p', m')) /\
    (forall c, c ∈ f -> load m' (Some c) = None) /\
    (forall s, is_slot m f s -> buf p' !! s = Some None) /\
    ((forall c tdc, c ∉ f -> load m (Some c) = Some tdc ->
                    ~ holds_handle h tdc) ->
     (forall c tdc, load m' (Some c) = Some tdc -> ~ holds_handle h tdc) /\
     forall cat mf cat',
       h ∈ cat -> TileBuffer_destroy p' m' cat = Some (mf, cat') ->
       h ∈ cat').
Proof.
  intros Hst Hnd Hslots Hnull Hb Hld Hltex.
  destruct (DeleteTile_correct n p m d f Hst Hnd Hslots)
    as (r & p' & m' & Hrun & Hr & (_ & Hfr & _) & Hfree).
  assert (r = true) as ->.
  { apply Hr. intros c tdc Hc Hldc. unfold tex_nonnull.
    by rewrite (Hnull c tdc Hc Hldc). }
  destruct (Hfree eq_refl) as (Hgone & Hsl & _).
  exists p', m'. split; [done|]. split; [|split; [done|]].
  { intros c Hc. change (load m' (Some c)) with (mjoin (m' !! c)).
    by rewrite (Hgone c Hc). }
  intros Hout.
  assert (Hnone : forall c tdc, load m' (Some c) = Some tdc ->
                                ~ holds_handle h tdc).
  { intros c tdc Hc. destruct (decide (c ∈ f)) as [Hin|Hnin].
    - apply load_lookup in Hc. rewrite (Hgone c Hin) in Hc. done.
    - rewrite (load_agree m m' c (Hfr c Hnin)) in Hc. by apply (Hout c). }
  split; [done|]. intros cat mf cat' Hin Hd.
  by apply (destroy_slots_keeps h (buf p') m' mf cat cat').
Qed.

(** The theorem for the child of [sample_mem_mask_only], which holds the
    mask object 9. *)
Lemma DeleteTile_drops_mask_witness :
  exists p' m',
    DeleteTile 1 1 (sample_pool_loaded, sample_mem_mask_only)
    = Some (true, (p', m')) /\
    load m' (Some 1%nat) = None.
Proof.
  destruct (DeleteTile_drops_mask 1 sample_pool_loaded sample_mem_mask_only
              1 [1%nat] 1
              (mkTILEDESC NULLTEX (TexHnd 9) 4 [None; None; None; None] 0)
              9%positive) as (p' & m' & Hrun & Hgone & _).
  - apply (subtree_node sample_mem_mask_only 0 1
             (mkTILEDESC NULLTEX (TexHnd 9) 4 [None; None; None; None] 0)
             [] [] [] []); (reflexivity || constructor).
  - apply NoDup_singleton.
  - intros s Hs. vm_compute in Hs. apply list_elem_of_singleton in Hs.
    subst s. simpl. lia.
  - intros c tdc Hc Hld. apply list_elem_of_singleton in Hc. subst c.
    vm_compute in Hld. injection Hld as <-. reflexivity.
  - left.
  - reflexivity.
  - reflexivity.
  - exists p', m'. split; [exact Hrun|]. apply Hgone. left.
Defined.

(** From the request to the leak: the loader serves the request for the
    catalogued child with a failed surface read and a mask read that
    yields the object 9; [DeleteTile] then deletes the child; and the
    destructor of the pool, which finds no descriptor left, leaves the
    object 9 registered. *)
Example mask_object_leaks :
  exists q p' m' mf cat',
    LoadTile_pass 10 sample_ReadDDSSurface sample_queue_request
                  sample_mem_unloaded ∅
    = Some (q, sample_mem_mask_only, {[ 9%positive ]} ∪ ∅) /\
    DeleteTile 1 1 (sample_pool_loaded, sample_mem_mask_only)
    = Some (true, (p', m')) /\
    TileBuffer_destroy p' m' ({[ 9%positive ]} ∪ ∅) = Some (mf, cat') /\
    9%positive ∈ cat'.
Proof.
  destruct (LoadTile_pass_mask_only 10 sample_ReadDDSSurface
              sample_queue_request sample_mem_unloaded ∅ "Earth" 1
              (mkTILEDESC (TexIdx 7) (TexIdx 3) 132
                          [None; None; None; None] 0) 9%positive)
    as (q & Hpass); try reflexivity; try (vm_compute; discriminate).
  exists q. eexists _, _, _, _.
  split; [exact Hpass|]. split; [vm_compute; reflexivity|].
  split; [reflexivity|]. set_solver.
Qed.

(** ** The invariant of the [tex] fields *)

Section TexInvariant.
Variables lo n : nat.

Lemma load_store_inv (m : Mem) (a b : nat) (x td : TILEDESC) :
  load (store m a x) (Some b) = Some td ->
  (b = a /\ td = x) \/ load m (Some b) = Some td.
Proof.
  intros H. destruct (decide (a = b)) as [->|Hne].
  - destruct (decide (b < length m)%nat).
    + rewrite load_store_eq in H by done. left. split; congruence.
    + unfold store in H. rewrite list_insert_ge in H by lia. by right.
  - rewrite load_store_ne in H by done. by right.
Qed.

Lemma mem_inv_store (m : Mem) (a : nat) (x : TILEDESC) :
  mem_inv lo n m -> cell_ok lo n a x -> mem_inv lo n (store m a x).
Proof.
  intros [Hlen Hok] Hx. split; [by rewrite length_store|].
  intros b td Hld. apply load_store_inv in Hld as [[-> ->]|Hld]; [done|].
  by apply Hok.
Qed.

Lemma mem_inv_modify (m m' : Mem) (p : tileptr)
    (f : TILEDESC -> TILEDESC) :
  mem_inv lo n m -> modify m p f = Some m' ->
  (forall a td, p = Some a -> load m (Some a) = Some td ->
                cell_ok lo n a td -> cell_ok lo n a (f td)) ->
  mem_inv lo n m'.
Proof.
  intros Hinv Hmod Hf.
  apply modify_inv in Hmod as (a & td & -> & Hld & ->).
  apply mem_inv_store; [done|]. apply (Hf a td); [done|done|].
  by apply Hinv.
Qed.

(** An update that changes neither [tex] nor [flag]. *)
Lemma mem_inv_modify_other (m m' : Mem) (p : tileptr)
    (f : TILEDESC -> TILEDESC) :
  mem_inv lo n m -> modify m p f = Some m' ->
  (forall td, tex (f td) = tex td /\ flag (f td) = flag td) ->
  mem_inv lo n m'.
Proof.
  intros Hinv Hmod Hf. apply (mem_inv_modify m m' p f Hinv Hmod).
  intros a td _ _ Hok. unfold cell_ok in *.
  destruct (Hf td) as [-> ->]. done.
Qed.

(** An update that leaves a texture object or the null pointer in [tex]. *)
Lemma mem_inv_modify_resolved (m m' : Mem) (p : tileptr)
    (f : TILEDESC -> TILEDESC) :
  mem_inv lo n m -> modify m p f = Some m' ->
  (forall td, resolved (tex (f td))) ->
  mem_inv lo n m'.
Proof.
  intros Hinv Hmod Hf. apply (mem_inv_modify m m' p f Hinv Hmod).
  intros a td _ _ _ _. apply Hf.
Qed.

Lemma mem_inv_alloc (m : Mem) (x : TILEDESC) :
  mem_inv lo n m -> resolved (tex x) -> mem_inv lo n (m ++ [Some x]).
Proof.
  intros [Hlen Hok] Hx. split; [rewrite length_app; lia|].
  intros a td Hld. destruct (decide (a < length m)%nat) as [Hlt|Hge].
  - rewrite load_app_l in Hld by done. by apply Hok.
  - destruct (decide (a = length m)) as [->|Hne].
    + rewrite load_app_new in Hld. injection Hld as <-. by intros _.
    + apply load_Some_lt in Hld. rewrite length_app in Hld. simpl in Hld.
      lia.
Qed.

Lemma mem_inv_free (m : Mem) (a : nat) :
  mem_inv lo n m -> mem_inv lo n (free m a).
Proof.
  intros [Hlen Hok]. split; [unfold free; by rewrite length_insert|].
  intros b td Hld. apply load_free_Some in Hld. by apply Hok.
Qed.

Lemma mem_inv_for_loop {St : Type} (get : St -> Mem) (k : nat) (i : Z)
    (body : Z -> St -> option St) (s s' : St) :
  (forall j s s', body j s = Some s' ->
                  mem_inv lo n (get s) -> mem_inv lo n (get s')) ->
  for_loop k i body s = Some s' ->
  mem_inv lo n (get s) -> mem_inv lo n (get s').
Proof.
  intros Hbody. apply (for_loop_preserves (fun s => mem_inv lo n (get s))).
  exact Hbody.
Qed.
End TexInvariant.

(** An update of a base tile that keeps [tex]. *)
Lemma mem_inv_modify_base (m m' : Mem) (tm : TileManager) (i : Z)
    (f : TILEDESC -> TILEDESC) :
  mem_inv (tiledesc tm) (ntiledesc tm) m ->
  modify m (base_tile tm i) f = Some m' ->
  (forall td, tex (f td) = tex td) ->
  mem_inv (tiledesc tm) (ntiledesc tm) m'.
Proof.
  intros Hinv Hmod Hf.
  apply (mem_inv_modify _ _ m m' _ f Hinv Hmod).
  intros a td Ha Hld Hok _. rewrite Hf. apply Hok. right.
  unfold base_tile in Ha.
  destruct (Z.leb_spec 0 i); [|done].
  destruct (Z.ltb_spec i (Z.of_nat (ntiledesc tm))); [|done].
  injection Ha as <-. lia.
Qed.


(** [bind_inv H as x E]: from [H : mx ≫= f = Some y] to [E : mx = Some x]
    and [H : f x = Some y]. *)
Tactic Notation "bind_inv" hyp(H) "as" simple_intropattern(x) ident(E) :=
  apply bind_Some in H as (x & E & H).

Section PoolInvariant.
Variables lo n : nat.

Lemma mem_inv_AddTile (p p' : TilePool) (m m' : Mem) (c : nat) :
  AddTile p m = Some (c, p', m') ->
  mem_inv lo n m ->
  mem_inv lo n m' /\ c = length m /\
  exists o, load m' (Some c) = Some (set_ofs o zero_TILEDESC).
Proof.
  unfold AddTile, alloc. intros H Hinv.
  match type of H with
  | (if ?b then _ else _) = _ => destruct b; [|done]
  end.
  bind_inv H as m1 E. injection H as <- <- <-.
  pose proof (mem_inv_alloc lo n m zero_TILEDESC Hinv eq_refl) as Hinv1.
  split; [|split; [done|]].
  - eapply mem_inv_modify_other; [exact Hinv1|exact E|done].
  - apply modify_inv in E as (a & td & [= <-] & Hld & ->).
    rewrite load_app_new in Hld. injection Hld as <-.
    eexists. apply load_store_eq. rewrite length_app. simpl. lia.
Qed.

Lemma mem_inv_DeleteTile (fuel : nat) :
  forall tile p m r p' m',
    DeleteTile fuel tile (p, m) = Some (r, (p', m')) ->
    mem_inv lo n m -> mem_inv lo n m'.
Proof.
  induction fuel as [|fuel IH]; intros tile p m r p' m' H Hinv; [done|].
  cbn [DeleteTile] in H.
  assert (Hsub : forall i acc acc',
    DeleteTile_sub (DeleteTile fuel) tile i acc = Some acc' ->
    mem_inv lo n (snd (snd acc)) -> mem_inv lo n (snd (snd acc'))).
  { intros i [del [pk mk]] acc' Hs Hk. unfold DeleteTile_sub in Hs.
    bind_inv Hs as td Etd.
    destruct (get_subtile td i) as [c|]; [|by injection Hs as <-].
    bind_inv Hs as [r0 [p0 m0]] Er.
    pose proof (IH _ _ _ _ _ _ Er Hk) as H0.
    destruct r0.
    - bind_inv Hs as m1 Em. injection Hs as <-. simpl.
      eapply mem_inv_modify_other; [exact H0|exact Em|done].
    - by injection Hs as <-. }
  bind_inv H as r0 E0. bind_inv H as r1 E1. bind_inv H as r2 E2.
  bind_inv H as [del [p3 m3]] E3. bind_inv H as td Etd.
  assert (H3 : mem_inv lo n m3).
  { apply (Hsub _ _ _ E3). apply (Hsub _ _ _ E2). apply (Hsub _ _ _ E1).
    by apply (Hsub _ _ _ E0). }
  destruct (tex_nonnull (tex td) || negb del).
  - by injection H as <- <- <-.
  - bind_inv H as old Eold. injection H as <- <- <-. by apply mem_inv_free.
Qed.

Lemma mem_inv_DeleteSubTiles (fuel : nat) (tile : nat) (p p' : TilePool)
    (m m' : Mem) :
  DeleteSubTiles fuel tile (p, m) = Some (p', m') ->
  mem_inv lo n m -> mem_inv lo n m'.
Proof.
  assert (Hsub : forall i st st',
    DeleteSubTiles_sub fuel tile i st = Some st' ->
    mem_inv lo n (snd st) -> mem_inv lo n (snd st')).
  { intros i [pk mk] st' Hs Hk. unfold DeleteSubTiles_sub in Hs.
    bind_inv Hs as td Etd.
    destruct (get_subtile td i) as [c|]; [|by injection Hs as <-].
    bind_inv Hs as [r0 [p0 m0]] Er.
    pose proof (mem_inv_DeleteTile _ _ _ _ _ _ _ Er Hk) as H0.
    destruct r0.
    - bind_inv Hs as m1 Em. injection Hs as <-. simpl.
      eapply mem_inv_modify_other; [exact H0|exact Em|done].
    - by injection Hs as <-. }
  unfold DeleteSubTiles. intros H Hinv.
  bind_inv H as s0 E0. bind_inv H as s1 E1. bind_inv H as s2 E2.
  apply (Hsub _ _ _ H). apply (Hsub _ _ _ E2). apply (Hsub _ _ _ E1).
  by apply (Hsub _ _ _ E0).
Qed.
End PoolInvariant.

Section TraversalInvariant.
Variables lo n : nat.
Variable F : Type.
Variables Fadd Fsub Fmul : F -> F -> F.
Variable F_of_int : Z -> F.
Variable Fhalf : F.
Variables off_view IsTileInView adist_positive oblique very_oblique
          behind_horizon IsVisibleInCamera : TILEPOS -> bool.
Variable MAXQUEUE : Z.
Variable objname : string.
Variable tgtlvl : Z.

Lemma mem_inv_descend_child (a a' : PTARGS F) (i j : Z) (idx : nat)
    (p p' : TilePool) (m m' : Mem) (q q' : TileQueue) :
  descend_child F Fadd Fsub Fmul F_of_int Fhalf MAXQUEUE objname
                a i j idx (p, m, q) = Some (a', (p', m', q')) ->
  mem_inv lo n m -> mem_inv lo n m'.
Proof.
  unfold descend_child. intros H Hinv.
  bind_inv H as td Etd. bind_inv H as [[[[c isfull] p1] m1] q1] Ec.
  bind_inv H as sd Esd. injection H as _ <- <- <-.
  destruct (get_subtile td idx) as [c0|].
  - bind_inv Ec as sd0 Esd0.
    destruct (negb (Z.land (flag sd0) 128 =? 0)).
    + bind_inv Ec as q0 Eq0. by injection Ec as _ _ _ <- _.
    + by injection Ec as _ _ _ <- _.
  - bind_inv Ec as [[c0 p0] m0] Eadd. bind_inv Ec as m2 Em2.
    injection Ec as _ _ _ <- _.
    destruct (mem_inv_AddTile lo n _ _ _ _ _ Eadd Hinv) as (H0 & _).
    eapply mem_inv_modify_other; [exact H0|exact Em2|done].
Qed.

Lemma mem_inv_ProcessTile (fuel dfuel : nat) :
  forall (a : PTARGS F) p m q tr p' m' q' tr',
    ProcessTile F Fadd Fsub Fmul F_of_int Fhalf off_view IsTileInView
      adist_positive oblique very_oblique behind_horizon IsVisibleInCamera
      MAXQUEUE objname tgtlvl fuel dfuel a (p, m, q, tr)
    = Some (p', m', q', tr') ->
    mem_inv lo n m -> mem_inv lo n m'.
Proof.
  induction fuel as [|fuel IH]; intros a p m q tr p' m' q' tr' H Hinv;
    [done|].
  cbn [ProcessTile] in H.
  destruct (off_view (a_pos a)); [by injection H as <- <- <- <-|].
  destruct (negb (IsTileInView (a_pos a))).
  { bind_inv H as [p1 m1] Ed. injection H as <- <- <- <-.
    by apply (mem_inv_DeleteSubTiles lo n _ _ _ _ _ _ Ed). }
  destruct (step_down adist_positive oblique very_oblique tgtlvl (a_pos a))
    as [bStepDown bCoarseTex].
  destruct bStepDown.
  - assert (Hfold : forall l (s : option (TravState F)) s',
      foldl (fun (s : option (TravState F)) '(i, j, idx) =>
               '(p, m, q, tr) ← s;
               '(a', (p, m, q)) ← descend_child F Fadd Fsub Fmul F_of_int
                                    Fhalf MAXQUEUE objname a i j idx (p, m, q);
               ProcessTile F Fadd Fsub Fmul F_of_int Fhalf off_view
                 IsTileInView adist_positive oblique very_oblique
                 behind_horizon IsVisibleInCamera MAXQUEUE objname tgtlvl
                 fuel dfuel a' (p, m, q, tr)) s l = Some s' ->
      (forall s0, s = Some s0 -> mem_inv lo n (snd (fst (fst s0)))) ->
      mem_inv lo n (snd (fst (fst s')))).
    { induction l as [|[[i j] idx] l IHl]; intros s s' Hf Hs.
      - cbn [foldl] in Hf. by apply Hs.
      - cbn [foldl] in Hf. apply (IHl _ _ Hf). intros s0 Hs0.
        cbv beta iota in Hs0.
        bind_inv Hs0 as [[[p0 m0] q0] tr0] E0.
        bind_inv Hs0 as [a1 [[p1 m1] q1]] E1.
        destruct s0 as [[[p2 m2] q2] tr2]. simpl.
        apply (IH _ _ _ _ _ _ _ _ _ Hs0).
        apply (mem_inv_descend_child _ _ _ _ _ _ _ _ _ _ _ E1).
        exact (Hs _ E0). }
    apply (Hfold _ _ _ H). by intros s0 [= <-].
  - destruct (behind_horizon (a_pos a)); [by injection H as <- <- <- <-|].
    destruct (negb (IsVisibleInCamera (a_pos a)));
      by injection H as <- <- <- <-.
Qed.
End TraversalInvariant.

Section StartupInvariant.

Lemma resolved_tex_of_load (r : option handle) : resolved (tex_of_load r).
Proof. by destruct r. Qed.

Lemma mem_inv_LoadTile_pass (lo n : nat) (MAXQUEUE : Z)
    (ReadDDSSurface : string -> string -> Z -> option handle)
    (q q' : TileQueue) (m m' : Mem) (cat cat' : Catalog) :
  LoadTile_pass MAXQUEUE ReadDDSSurface q m cat = Some (q', m', cat') ->
  mem_inv lo n m -> mem_inv lo n m'.
Proof.
  unfold LoadTile_pass. intros H Hinv.
  destruct (0 <? nqueue q); [|by injection H as <- <- <-].
  bind_inv H as qd Eqd. bind_inv H as td Etd. bind_inv H as m1 Em.
  injection H as _ <- _.
  eapply mem_inv_modify_resolved; [exact Hinv|exact Em|].
  intros d. apply resolved_tex_of_load.
Qed.

Lemma mem_inv_reset_base_flags (tm : TileManager) (m m' : Mem) :
  reset_base_flags tm m = Some m' ->
  mem_inv (tiledesc tm) (ntiledesc tm) m ->
  mem_inv (tiledesc tm) (ntiledesc tm) m'.
Proof.
  unfold reset_base_flags, for_range. intros H.
  bind_inv H as k Ek. revert H.
  apply (mem_inv_for_loop _ _ (fun s => s)).
  intros j s s' Hb Hs. by eapply mem_inv_modify_base.
Qed.

Lemma mem_inv_LoadPatchData (file : option (list Z)) (tm tm' : TileManager)
    (m m' : Mem) (b : bool) :
  LoadPatchData file tm m = Some (b, tm', m') ->
  mem_inv (tiledesc tm) (ntiledesc tm) m ->
  mem_inv (tiledesc tm') (ntiledesc tm') m' /\
  tiledesc tm' = tiledesc tm /\ ntiledesc tm' = ntiledesc tm.
Proof.
  unfold LoadPatchData. intros H Hinv.
  destruct (if bGlobalSpecular (set_nmask 0 tm)
               || bGlobalLights (set_nmask 0 tm)
            then file else None) as [f|].
  - bind_inv H as [[minres maxres] tflag] Er. bind_inv H as k Ek.
    bind_inv H as [[idx nm] m1] El. injection H as _ <- <-.
    split; [|done]. cbn [tiledesc ntiledesc set_nmask].
    unfold for_range in El.
    refine (mem_inv_for_loop _ _ (fun s : Z * Z * Mem => snd s) _ _ _ _ _
              _ El Hinv).
    intros j s s' Hb Hs.
    destruct s as [[idx0 nm0] m0]. unfold patch_flag_body in Hb.
    bind_inv Hb as lo0 Elo. simpl in Hs.
    destruct (j <? lo0).
    + bind_inv Hb as m2 Em2. injection Hb as <-. simpl.
      eapply (mem_inv_modify_base m0 m2 tm); [done|exact Em2|done].
    + bind_inv Hb as w Ew. bind_inv Hb as m2 Em2. injection Hb as <-. simpl.
      eapply (mem_inv_modify_base m0 m2 tm); [done|exact Em2|done].
  - bind_inv H as m1 Em. injection H as _ <- <-. split; [|done].
    by apply (mem_inv_reset_base_flags (set_nmask 0 tm) m m1).
Qed.
End StartupInvariant.

(** ** A descriptor under construction *)

Section FreshCell.
Variables lo n : nat.

Lemma modify_load (m m' : Mem) (a : nat) (f : TILEDESC -> TILEDESC) :
  modify m (Some a) f = Some m' ->
  exists td, load m (Some a) = Some td /\ load m' (Some a) = Some (f td).
Proof.
  intros H. apply modify_inv in H as (a' & td & [= <-] & Hld & ->).
  exists td. split; [done|]. apply load_store_eq. by eapply load_Some_lt.
Qed.

Lemma mem_inv_open (c : nat) (m : Mem) :
  mem_inv lo n m -> mem_inv_except lo n c m.
Proof. intros [Hlen Hc]. split; [done|]. intros a td _. apply Hc. Qed.

Lemma mem_inv_except_modify (c : nat) (m m' : Mem)
    (f : TILEDESC -> TILEDESC) :
  mem_inv_except lo n c m -> modify m (Some c) f = Some m' ->
  mem_inv_except lo n c m'.
Proof.
  intros [Hlen Hc] H. apply modify_inv in H as (a' & td & [= <-] & Hld & ->).
  split; [by rewrite length_store|]. intros a d Hne.
  rewrite load_store_ne by done. by apply Hc.
Qed.

Lemma mem_inv_close (c : nat) (m : Mem) :
  mem_inv_except lo n c m ->
  (forall td, load m (Some c) = Some td -> cell_ok lo n c td) ->
  mem_inv lo n m.
Proof.
  intros [Hlen Hc] Hcell. split; [done|]. intros a td Hld.
  destruct (decide (a = c)) as [->|Hne]; [by apply Hcell|by apply Hc].
Qed.

(** A modification that leaves a texture object or the null pointer in
    [tex], whatever the descriptor held. *)
Lemma mem_inv_modify_known (m m' : Mem) (p : tileptr)
    (f : TILEDESC -> TILEDESC) :
  mem_inv lo n m -> modify m p f = Some m' ->
  (forall td, load m p = Some td -> resolved (tex (f td))) ->
  mem_inv lo n m'.
Proof.
  intros Hinv Hmod Hres. eapply mem_inv_modify; [exact Hinv|exact Hmod|].
  intros a td -> Hld _ _. by apply Hres.
Qed.

Lemma bit7_set (x : Z) : Z.land (Z.lor x 128) 128 <> 0.
Proof.
  intros H. apply (f_equal (fun z => Z.testbit z 7)) in H.
  rewrite Z.land_spec, Z.lor_spec, Z.bits_0 in H.
  change (Z.testbit 128 7) with true in H.
  by rewrite orb_true_r in H.
Qed.

Lemma bit7_kept (x : Z) :
  Z.land x 128 <> 0 -> Z.land (Z.lor x 64) 128 <> 0.
Proof.
  intros Hx H. apply Hx. apply Z.bits_inj'. intros k Hk.
  apply (f_equal (fun z => Z.testbit z k)) in H.
  rewrite Z.land_spec, Z.lor_spec, Z.bits_0 in H.
  rewrite Z.land_spec, Z.bits_0.
  destruct (Z.testbit x k); [|done]. by rewrite orb_true_l in H.
Qed.
End FreshCell.

(** ** The catalogue of subtiles keeps the invariant *)

Section CatalogueInvariant.
Variables lo n : nat.
Variable qsort : list IDXLIST -> list IDXLIST.

Lemma mem_inv_AddSubtileData (fuel : nat) (tm : TileManager)
    (tfs : list TILEFILESPEC) :
  forall (td : nat) (idx sub lvl : Z) nt ns p m nt' ns' p' m',
    AddSubtileData fuel tm tfs td idx sub lvl (nt, ns, p, m)
    = Some (nt', ns', p', m') ->
    mem_inv lo n m -> mem_inv lo n m'.
Proof.
  induction fuel as [|fuel IH];
    intros td idx sub lvl nt ns p m nt' ns' p' m' H Hinv; [done|].
  cbn [AddSubtileData] in H.
  bind_inv H as ti Eti. bind_inv H as subidx Esub. bind_inv H as t Et.
  destruct (negb (flags t =? 0) || has_subtiles t);
    [|by injection H as _ _ _ <-].
  destruct (lvl <=? maxlvl tm).
  - bind_inv H as [[c p1] m1] Eadd. bind_inv H as m2 E2.
    bind_inv H as m3 E3. bind_inv H as m4 E4. bind_inv H as m5 E5.
    bind_inv H as m6 E6. bind_inv H as m7 E7.
    bind_inv H as [[[nt1 ns1] p8] m8] E8. injection H as _ _ _ <-.
    destruct (mem_inv_AddTile lo n _ _ _ _ _ Eadd Hinv) as (H1 & Hc & _).
    assert (Hfresh : (lo + n <= c)%nat) by (destruct Hinv; lia).
    assert (H2 : mem_inv lo n m2).
    { eapply mem_inv_modify_other; [exact H1|exact E2|done]. }
    assert (H7 : mem_inv lo n m7).
    { apply (mem_inv_close lo n c).
      - apply (mem_inv_open lo n c) in H2.
        pose proof (mem_inv_except_modify lo n c _ _ _ H2 E3) as H3.
        pose proof (mem_inv_except_modify lo n c _ _ _ H3 E4) as H4.
        assert (H5 : mem_inv_except lo n c m5).
        { destruct (bGlobalSpecular tm || bGlobalLights tm).
          - destruct (midx t =? NOTILE).
            + by injection E5 as <-.
            + by apply (mem_inv_except_modify lo n c _ _ _ H4 E5).
          - by apply (mem_inv_except_modify lo n c _ _ _ H4 E5). }
        pose proof (mem_inv_except_modify lo n c _ _ _ H5 E6) as H6.
        destruct (tilever tm =? 0).
        + by apply (mem_inv_except_modify lo n c _ _ _ H6 E7).
        + by injection E7 as <-.
      - intros d Hd [Hbit|Hbase]; [exfalso|lia].
        apply modify_load in E6 as (d5 & _ & Hd6).
        destruct (tilever tm =? 0).
        + apply modify_load in E7 as (d6 & Hd6' & Hd7).
          rewrite Hd6 in Hd6'. injection Hd6' as <-.
          rewrite Hd in Hd7. injection Hd7 as ->.
          revert Hbit. cbn [flag set_flag]. apply bit7_kept, bit7_set.
        + injection E7 as <-. rewrite Hd in Hd6. injection Hd6 as ->.
          revert Hbit. cbn [flag set_flag]. apply bit7_set. }
    destruct (has_subtiles t); [|by injection E8 as _ _ _ <-].
    unfold for_range in E8.
    refine (for_loop_preserves
              (fun s : SubtileState => mem_inv lo n (snd s))
              _ _ _ _ _ _ E8 H7).
    intros j [[[a1 a2] a3] a4] [[[b1 b2] b3] b4] Hb Hs.
    unfold AddSubtileData_sub in Hb. bind_inv Hb as sj Esj.
    destruct (sj =? 0); [by injection Hb as _ _ _ <-|].
    by apply (IH _ _ _ _ _ _ _ _ _ _ _ _ Hb).
  - bind_inv H as m2 E2. injection H as _ _ _ <-.
    eapply mem_inv_modify_other; [exact Hinv|exact E2|done].
Qed.

Lemma mem_inv_LoadTileData (fuel : nat) (file : option TOCFILE)
    (tm tm' : TileManager) (p p' : TilePool) (m m' : Mem) (b : bool) :
  LoadTileData qsort fuel file tm p m = Some (b, tm', p', m') ->
  mem_inv lo n m ->
  mem_inv lo n m' /\
  tiledesc tm' = tiledesc tm /\ ntiledesc tm' = ntiledesc tm.
Proof.
  unfold LoadTileData. intros H Hinv.
  destruct (maxlvl tm <=? 8); [by injection H as _ <- _ <-|].
  destruct file as [f|]; [|by injection H as _ <- _ <-].
  destruct (convert_toc qsort (bPreloadTile tm)
              (if toc_header f then 1 else 0) (toc_tfs f)) as [tfs ver].
  bind_inv H as [[[nt ns] p1] m1] El. injection H as _ <- _ <-.
  split; [|done]. unfold for_range in El.
  refine (for_loop_preserves
            (fun s : SubtileState => mem_inv lo n (snd s))
            _ _ _ _ _ _ El Hinv).
  intros i s s' Hb Hs. unfold tile8_body, for_range in Hb.
  refine (for_loop_preserves
            (fun s : SubtileState => mem_inv lo n (snd s))
            _ _ _ _ _ _ Hb Hs).
  clear. intros j [[[a1 a2] a3] a4] [[[b1 b2] b3] b4] Hb Hs.
  bind_inv Hb as ti Eti. bind_inv Hb as sj Esj.
  destruct (sj =? 0); [by injection Hb as _ _ _ <-|].
  bind_inv Hb as k Ek. bind_inv Hb as t8 Et8.
  by apply (mem_inv_AddSubtileData _ _ _ _ _ _ _ _ _ _ _ _ _ _ _ Hb).
Qed.
End CatalogueInvariant.

(** ** The start-up texture loads keep the invariant *)

Section TexturesInvariant.
Variable TexMgr_LoadTextures : string -> list handle.
Variable objname : string.

Lemma take_texture_resolved (tidx nt : Z) (tbuf tbuf' : list texval)
    (missing missing' : Z) (v : texval) :
  take_texture tidx nt tbuf missing = Some (v, tbuf', missing') ->
  Forall resolved tbuf -> resolved v /\ Forall resolved tbuf'.
Proof.
  unfold take_texture. intros H Hall.
  destruct (tidx =? NOTILE); [by injection H as <- <- _|].
  destruct (tidx <? nt); [|by injection H as <- <- _].
  bind_inv H as w Ew. injection H as <- <- _. split.
  - unfold texbuf_at in Ew. destruct (0 <=? tidx); [|done].
    by eapply Forall_lookup_1.
  - by apply Forall_insert.
Qed.

Lemma Forall_resolved_handles (l : list handle) :
  Forall resolved (TexHnd <$> l).
Proof. apply Forall_fmap. by apply Forall_true. Qed.

Lemma mem_inv_AddSubtileTextures (lo n : nat) (fuel : nat) (nt nm : Z) :
  forall (td : nat) tbuf mbuf missing m tbuf' mbuf' missing' m',
    AddSubtileTextures fuel td nt nm (tbuf, mbuf, missing, m)
    = Some (tbuf', mbuf', missing', m') ->
    Forall resolved tbuf -> mem_inv lo n m ->
    Forall resolved tbuf' /\ mem_inv lo n m'.
Proof.
  induction fuel as [|fuel IH];
    intros td tbuf mbuf missing m tbuf' mbuf' missing' m' H Hall Hinv;
    [done|].
  cbn [AddSubtileTextures] in H.
  bind_inv H as d0 Ed0. bind_inv H as [[v tbuf1] missing1] Et.
  bind_inv H as m1 E1. bind_inv H as d1 Ed1.
  bind_inv H as [[v2 mbuf1] missing2] Et2.
  bind_inv H as m2 E2. bind_inv H as m3 E3.
  destruct (take_texture_resolved _ _ _ _ _ _ _ Et Hall) as [Hv Hall1].
  assert (H1 : mem_inv lo n m1).
  { eapply mem_inv_modify_resolved; [exact Hinv|exact E1|done]. }
  assert (H2 : mem_inv lo n m2).
  { eapply mem_inv_modify_other; [exact H1|exact E2|done]. }
  assert (H3 : mem_inv lo n m3).
  { eapply mem_inv_modify_known; [exact H2|exact E3|].
    intros d Hd. cbn [tex set_flag].
    apply modify_load in E1 as (e0 & _ & He1).
    apply modify_load in E2 as (e1 & He1' & He2).
    rewrite He1 in He1'. injection He1' as <-.
    rewrite Hd in He2. injection He2 as ->. exact Hv. }
  unfold for_range in H.
  refine (for_loop_preserves
            (fun s : PreloadState =>
               Forall resolved (fst (fst (fst s))) /\ mem_inv lo n (snd s))
            _ _ _ _ (tbuf', mbuf', missing', m') _ H (conj Hall1 H3)).
  intros i [[[a1 a2] a3] a4] [[[b1 b2] b3] b4] Hb [Hs1 Hs2].
  bind_inv Hb as d Ed.
  destruct (get_subtile d (Z.to_nat i)) as [c|].
  - by apply (IH _ _ _ _ _ _ _ _ _ Hb).
  - by injection Hb as <- _ _ <-.
Qed.

Lemma mem_inv_PreloadTileTextures (lo n : nat) (fuel : nat)
    (tm tm' : TileManager) (ntex nmask : Z) (m m' : Mem)
    (cat cat' : Catalog) :
  PreloadTileTextures TexMgr_LoadTextures objname fuel tm ntex nmask m cat
  = Some (tm', m', cat') ->
  mem_inv lo n m ->
  mem_inv lo n m' /\
  tiledesc tm' = tiledesc tm /\ ntiledesc tm' = ntiledesc tm.
Proof.
  unfold PreloadTileTextures. intros H Hinv.
  bind_inv H as [[[tbuf mbuf] missing] m1] El.
  bind_inv H as cat1 Ec1. bind_inv H as cat2 Ec2.
  injection H as <- <- _. split; [|done].
  unfold for_range in El.
  refine (proj2 (for_loop_preserves
            (fun s : PreloadState =>
               Forall resolved (fst (fst (fst s))) /\ mem_inv lo n (snd s))
            _ _ _ _ (tbuf, mbuf, missing, m1) _ El
            (conj (Forall_resolved_handles _) Hinv))).
  clear. intros i s s' Hb Hs.
  bind_inv Hb as k Ek. bind_inv Hb as t8 Et8. unfold for_range in Hb.
  refine (for_loop_preserves
            (fun s : PreloadState =>
               Forall resolved (fst (fst (fst s))) /\ mem_inv lo n (snd s))
            _ _ _ _ _ _ Hb Hs).
  clear. intros j [[[a1 a2] a3] a4] [[[b1 b2] b3] b4] Hb [Hs1 Hs2].
  bind_inv Hb as d Ed.
  destruct (get_subtile d (Z.to_nat j)) as [c|].
  - by apply (mem_inv_AddSubtileTextures _ _ _ _ _ _ _ _ _ _ _ _ _ _ Hb).
  - by injection Hb as <- _ _ <-.
Qed.

Lemma mem_inv_LoadTextures (fuel : nat) (modstr : string)
    (tm tm' : TileManager) (m m' : Mem) (cat cat' : Catalog) :
  LoadTextures TexMgr_LoadTextures objname fuel modstr tm m cat
  = Some (tm', m', cat') ->
  mem_inv (tiledesc tm) (ntiledesc tm) m ->
  mem_inv (tiledesc tm') (ntiledesc tm') m' /\
  tiledesc tm' = tiledesc tm /\ ntiledesc tm' = ntiledesc tm.
Proof.
  unfold LoadTextures. intros H Hinv.
  bind_inv H as k Ek. bind_inv H as [[tm1 m1] cat1] E1.
  assert (H1 : mem_inv (tiledesc tm) (ntiledesc tm) m1 /\
               tiledesc tm1 = tiledesc tm /\ ntiledesc tm1 = ntiledesc tm).
  { destruct (Z.of_nat (length (load_textures TexMgr_LoadTextures
                                  (objname +:+ modstr +:+ ".tex") k)) =? 0).
    - by injection E1 as <- <- _.
    - bind_inv E1 as [lvl baselvl] Elow. bind_inv E1 as bound Eb.
      bind_inv E1 as [kept cat0] Erel. bind_inv E1 as m2 El.
      injection E1 as <- <- _. split; [|done].
      unfold for_range in El.
      refine (mem_inv_for_loop _ _ (fun s : Mem => s) _ _ _ _ _ _ El Hinv).
      intros j s s' Hb Hs. bind_inv Hb as h Eh.
      eapply mem_inv_modify_resolved; [exact Hs|exact Hb|done]. }
  destruct H1 as (H1 & Hlo & Hn).
  destruct (bPreloadTile tm1 && negb (nhitex tm1 =? 0)).
  - destruct (mem_inv_PreloadTileTextures _ _ _ _ _ _ _ _ _ _ _ H H1)
      as (H2 & Hlo2 & Hn2).
    rewrite Hlo2, Hn2, Hlo, Hn. done.
  - injection H as <- <- _. rewrite Hlo, Hn. done.
Qed.

Lemma mem_inv_LoadSpecularMasks (tm tm' : TileManager) (m m' : Mem) :
  LoadSpecularMasks TexMgr_LoadTextures objname tm m = Some (tm', m') ->
  mem_inv (tiledesc tm) (ntiledesc tm) m ->
  mem_inv (tiledesc tm') (ntiledesc tm') m' /\
  tiledesc tm' = tiledesc tm /\ ntiledesc tm' = ntiledesc tm.
Proof.
  unfold LoadSpecularMasks. intros H Hinv.
  destruct (nmask tm =? 0); [by injection H as <- <-|].
  destruct (Z.of_nat (length (load_textures TexMgr_LoadTextures
                                (objname +:+ "_lmask.tex") (nmask tm))) =? 0).
  { bind_inv H as m1 Em. injection H as <- <-. split; [|done].
    by apply (mem_inv_reset_base_flags tm m m1). }
  destruct (Z.of_nat (length (load_textures TexMgr_LoadTextures
                                (objname +:+ "_lmask.tex") (nmask tm)))
            <? nmask tm).
  { bind_inv H as m1 Em. injection H as <- <-. split; [|done].
    by apply (mem_inv_reset_base_flags tm m m1). }
  bind_inv H as bound Eb. bind_inv H as [k m1] El.
  injection H as <- <-. split; [|done]. unfold for_range in El.
  refine (mem_inv_for_loop _ _ (fun s : Z * Mem => snd s) _ _ _ _ _
            _ El Hinv).
  clear. intros j [k0 m0] [k1 m1] Hb Hs. unfold specular_body in Hb.
  bind_inv Hb as d Ed. bind_inv Hb as [k2 m2] E2.
  bind_inv Hb as m3 E3. bind_inv Hb as m4 E4. injection Hb as _ <-.
  cbn [snd] in *.
  assert (H2 : mem_inv (tiledesc tm) (ntiledesc tm) m2).
  { destruct (has_mask (flag d)); [|by injection E2 as _ <-].
    destruct (k0 <? nmask tm).
    - bind_inv E2 as h Eh. bind_inv E2 as m5 E5. injection E2 as _ <-.
      by eapply (mem_inv_modify_base m0 m5 tm).
    - bind_inv E2 as m5 E5. injection E2 as _ <-.
      by eapply (mem_inv_modify_base m0 m5 tm). }
  assert (H3 : mem_inv (tiledesc tm) (ntiledesc tm) m3).
  { destruct (bGlobalLights tm); [by injection E3 as <-|].
    by eapply (mem_inv_modify_base m2 m3 tm). }
  destruct (bGlobalSpecular tm); [by injection E4 as <-|].
  by eapply (mem_inv_modify_base m3 m4 tm).
Qed.
End TexturesInvariant.

(** ** The publication of the loader, write by write *)

Lemma modify_modify (m m1 m2 : Mem) (p : tileptr)
    (f g : TILEDESC -> TILEDESC) :
  modify m p f = Some m1 -> modify m1 p g = Some m2 ->
  modify m p (fun d => g (f d)) = Some m2.
Proof.
  intros Hf Hg. apply modify_inv in Hf as (a & td & -> & Hld & ->).
  apply modify_inv in Hg as (a' & td' & [= <-] & Hld' & ->).
  rewrite load_store_eq in Hld' by (by eapply load_Some_lt).
  injection Hld' as <-. rewrite (modify_Some _ _ _ _ Hld). f_equal.
  unfold store. by rewrite list_insert_insert_eq.
Qed.

(** The three writes [td->tex = tex; td->ltex = mask; td->flag &= 0x3F;]
    taken one at a time: the invariant holds after each of them, and
    together they are the update of [LoadTile_pass]. *)
Lemma publication_in_order (lo n : nat) (m m1 m2 m3 : Mem) (p : tileptr)
    (rtex rmask : option handle) :
  mem_inv lo n m ->
  modify m p (set_tex (tex_of_load rtex)) = Some m1 ->
  modify m1 p (set_ltex (tex_of_load rmask)) = Some m2 ->
  modify m2 p (fun td => set_flag (Z.land (flag td) 63) td) = Some m3 ->
  mem_inv lo n m1 /\ mem_inv lo n m2 /\ mem_inv lo n m3 /\
  modify m p (fun td => set_flag (Z.land (flag td) 63)
                          (set_ltex (tex_of_load rmask)
                             (set_tex (tex_of_load rtex) td))) = Some m3.
Proof.
  intros Hinv E1 E2 E3.
  assert (H1 : mem_inv lo n m1).
  { eapply mem_inv_modify_resolved; [exact Hinv|exact E1|].
    intros d. apply resolved_tex_of_load. }
  assert (H2 : mem_inv lo n m2).
  { eapply mem_inv_modify_other; [exact H1|exact E2|done]. }
  pose proof (modify_modify _ _ _ _ _ _ E1 E2) as E12.
  pose proof (modify_modify _ _ _ _ _ _ E12 E3) as E123.
  split; [exact H1|]. split; [exact H2|]. split; [|exact E123].
  eapply mem_inv_modify_resolved; [exact Hinv|exact E123|].
  intros d. apply resolved_tex_of_load.
Qed.

(** ** Every operation keeps the store in order *)

Lemma mem_inv_sample_unloaded : mem_inv 0 1 sample_mem_unloaded.
Proof.
  split; [cbn; lia|]. intros a td Hld. apply load_lookup in Hld.
  destruct a as [|[|a]]; cbn in Hld.
  - injection Hld as <-. intros _. exact I.
  - injection Hld as <-. intros [Hbit|Hbase]; [done|cbn in Hbase; lia].
  - done.
Qed.

(** X18.  Each of the operations that write descriptors keeps the store
    in order when it completes: after [LoadPatchData], [LoadTileData]
    (with [AddSubtileData]), [LoadTextures] (with [PreloadTileTextures]
    and [AddSubtileTextures]), [LoadSpecularMasks], [ProcessTile] (with
    [AddTile], [DeleteSubTiles] and [LoadTileAsync]) and after a pass of
    the loader thread that serves a request for a live descriptor, no
    base tile and no descriptor whose flag has bit [0x80] clear holds an
    archive index in [tex], if none did before.  The files, the texture
    manager, the sorting function, the camera and the arguments are
    arbitrary. *)
Theorem operations_keep_store_in_order :
  (forall file tm m b tm' m',
     LoadPatchData file tm m = Some (b, tm', m') ->
     mem_inv (tiledesc tm) (ntiledesc tm) m ->
     mem_inv (tiledesc tm') (ntiledesc tm') m') /\
  (forall qsort fuel file tm p m b tm' p' m',
     LoadTileData qsort fuel file tm p m = Some (b, tm', p', m') ->
     mem_inv (tiledesc tm) (ntiledesc tm) m ->
     mem_inv (tiledesc tm') (ntiledesc tm') m') /\
  (forall texmgr objname fuel modstr tm m cat tm' m' cat',
     LoadTextures texmgr objname fuel modstr tm m cat
     = Some (tm', m', cat') ->
     mem_inv (tiledesc tm) (ntiledesc tm) m ->
     mem_inv (tiledesc tm') (ntiledesc tm') m') /\
  (forall texmgr objname tm m tm' m',
     LoadSpecularMasks texmgr objname tm m = Some (tm', m') ->
     mem_inv (tiledesc tm) (ntiledesc tm) m ->
     mem_inv (tiledesc tm') (ntiledesc tm') m') /\
  (forall lo n (F : Type) Fadd Fsub Fmul F_of_int Fhalf
          off_view IsTileInView adist_positive oblique very_oblique
          behind_horizon IsVisibleInCamera MAXQUEUE objname tgtlvl
          fuel dfuel (a : PTARGS F) p m q tr p' m' q' tr',
     ProcessTile F Fadd Fsub Fmul F_of_int Fhalf off_view IsTileInView
       adist_positive oblique very_oblique behind_horizon
       IsVisibleInCamera MAXQUEUE objname tgtlvl fuel dfuel a
       (p, m, q, tr) = Some (p', m', q', tr') ->
     mem_inv lo n m -> mem_inv lo n m') /\
  (forall lo n MAXQUEUE ReadDDSSurface q m cat q' m' cat',
     LoadTile_pass MAXQUEUE ReadDDSSurface q m cat = Some (q', m', cat') ->
     mem_inv lo n m -> mem_inv lo n m').
Proof.
  split; [|split; [|split; [|split; [|split]]]].
  - intros file tm m b tm' m' H Hinv.
    by destruct (mem_inv_LoadPatchData _ _ _ _ _ _ H Hinv).
  - intros qsort fuel file tm p m b tm' p' m' H Hinv.
    destruct (mem_inv_LoadTileData _ _ _ _ _ _ _ _ _ _ _ _ H Hinv)
      as (H1 & -> & ->). done.
  - intros texmgr objname fuel modstr tm m cat tm' m' cat' H Hinv.
    by destruct (mem_inv_LoadTextures _ _ _ _ _ _ _ _ _ _ H Hinv).
  - intros texmgr objname tm m tm' m' H Hinv.
    by destruct (mem_inv_LoadSpecularMasks _ _ _ _ _ _ H Hinv).
  - intros lo n F Fadd Fsub Fmul F_of_int Fhalf off_view IsTileInView
      adist_positive oblique very_oblique behind_horizon IsVisibleInCamera
      MAXQUEUE objname tgtlvl fuel dfuel a p m q tr p' m' q' tr' H Hinv.
    by eapply mem_inv_ProcessTile.
  - intros lo n MAXQUEUE rd q m cat q' m' cat' H Hinv.
    by eapply mem_inv_LoadTile_pass.
Qed.

(** The theorem for a pass of the loader on the request for the child at
    address 1: the store it leaves is in order. *)
Lemma operations_keep_store_in_order_witness :
  LoadTile_pass 10 sample_ReadDDSSurface sample_queue_request
                sample_mem_unloaded ∅
  = Some (mkTileQueue (loadqueue sample_queue_request) 0 1 1,
          sample_mem_mask_only, {[ 9%positive ]} ∪ ∅) /\
  mem_inv 0 1 sample_mem_mask_only.
Proof.
  split; [reflexivity|].
  refine (proj2 (proj2 (proj2 (proj2 (proj2
            operations_keep_store_in_order)))) 0%nat 1%nat 10
            sample_ReadDDSSurface sample_queue_request sample_mem_unloaded
            ∅ _ _ _ _ mem_inv_sample_unloaded).
  reflexivity.
Defined.

(** ** A request that outlives its descriptor *)


(** ** The loader thread serves the queue in order *)

Lemma omap_seq_S {B : Type} (f : nat -> option B) (a k : nat) :
  omap f (seq (S a) k) = omap (fun i => f (S i)) (seq a k).
Proof.
  revert a. induction k as [|k IH]; intros a; [done|].
  cbn [seq]. csimpl. by rewrite IH.
Qed.

(** X1.  A pass of the loader thread on a well-formed queue that holds at
    least one request, the oldest for a live descriptor, serves that
    request and no other: the waiting list loses its head, [queue_in]
    stays, the queue stays well formed; the descriptor gets a texture
    object or the null pointer in [tex] and in [ltex] and its flag loses
    the bits [0x80] and [0x40] and keeps the others; its links and its
    slot are kept, and no other descriptor changes. *)
Theorem LoadTile_pass_serves_head (MAXQUEUE : Z)
    (ReadDDSSurface : string -> string -> Z -> option handle)
    (q : TileQueue) (m : Mem) (cat : Catalog) (qd : QUEUEDESC)
    (td : TILEDESC) :
  queue_wf MAXQUEUE q -> 0 < nqueue q ->
  queue_at q (queue_out q) = Some qd ->
  load m (qd_td qd) = Some td ->
  exists q' m' cat' a td',
    LoadTile_pass MAXQUEUE ReadDDSSurface q m cat = Some (q', m', cat') /\
    queued MAXQUEUE q = qd :: queued MAXQUEUE q' /\
    queue_wf MAXQUEUE q' /\ queue_in q' = queue_in q /\
    qd_td qd = Some a /\ load m' (Some a) = Some td' /\
    flag td' = Z.land (flag td) 63 /\ Z.land (flag td') 128 = 0 /\
    resolved (tex td') /\ resolved (ltex td') /\
    subtile td' = subtile td /\ ofs td' = ofs td /\
    (forall b, b <> a -> load m' (Some b) = load m (Some b)).
Proof.
  intros Hwf Hn Hqd Hld. pose proof Hwf as (Hpos & Hlen & Hnq & Hout & Hin).
  unfold LoadTile_pass. destruct (Z.ltb_spec 0 (nqueue q)); [|lia].
  rewrite Hqd. cbn [mbind option_bind]. rewrite Hld. cbn [mbind option_bind].
  destruct (qd_td qd) as [a|] eqn:Ea; [|done].
  rewrite (modify_Some _ _ _ _ Hld). cbn [mbind option_bind].
  eexists _, _, _, a, _. split; [reflexivity|].
  pose proof (load_Some_lt _ _ _ Hld) as Hlt.
  split; [|split; [|split; [done|split; [done|split;
    [by apply load_store_eq|]]]]].
  - unfold queued. cbn [nqueue queue_out].
    replace (Z.to_nat (nqueue q)) with (S (Z.to_nat (nqueue q - 1))) by lia.
    cbn [seq]. csimpl. rewrite Z.add_0_l.
    rewrite Z.rem_small by lia. rewrite Hqd. f_equal.
    rewrite omap_seq_S. apply omap_ext_in. intros k _.
    unfold queue_at. cbn [loadqueue].
    replace (Z.rem (Z.of_nat k + Z.rem (queue_out q + 1) MAXQUEUE) MAXQUEUE)
      with (Z.rem (Z.of_nat (S k) + queue_out q) MAXQUEUE); [done|].
    assert (E1 : Z.rem (queue_out q + 1) MAXQUEUE
                 = (queue_out q + 1) mod MAXQUEUE)
      by (apply Z.rem_mod_nonneg; lia).
    pose proof (Z.mod_pos_bound (queue_out q + 1) MAXQUEUE ltac:(lia)).
    rewrite E1. rewrite !Z.rem_mod_nonneg by lia.
    rewrite Zplus_mod_idemp_r. f_equal. lia.
  - unfold queue_wf. cbn [loadqueue nqueue queue_in queue_out].
    assert (E1 : Z.rem (queue_out q + 1) MAXQUEUE
                 = (queue_out q + 1) mod MAXQUEUE)
      by (apply Z.rem_mod_nonneg; lia).
    pose proof (Z.mod_pos_bound (queue_out q + 1) MAXQUEUE ltac:(lia)).
    split; [done|]. split; [done|]. split; [lia|]. rewrite E1.
    split; [done|].
    rewrite Hin. rewrite !Z.rem_mod_nonneg by lia.
    rewrite Zplus_mod_idemp_l. f_equal. lia.
  - cbn [flag tex ltex subtile ofs set_flag set_ltex set_tex].
    split; [done|]. split.
    { rewrite <- Z.land_assoc. change (Z.land 63 128) with 0.
      apply Z.land_0_r. }
    split; [apply resolved_tex_of_load|]. split; [apply resolved_tex_of_load|].
    split; [done|]. split; [done|].
    intros b Hb. by rewrite load_store_ne.
Qed.

(** The theorem on the queue of ten cells that holds the request for the
    catalogued child of [sample_mem_unloaded]. *)
Lemma LoadTile_pass_serves_head_witness :
  exists q' m' cat',
    LoadTile_pass 10 sample_ReadDDSSurface sample_queue_request
                  sample_mem_unloaded ∅ = Some (q', m', cat') /\
    queued 10 sample_queue_request
    = mkQUEUEDESC "Earth" (Some 1%nat) :: queued 10 q' /\
    queue_wf 10 q'.
Proof.
  destruct (LoadTile_pass_serves_head 10 sample_ReadDDSSurface
              sample_queue_request sample_mem_unloaded ∅
              (mkQUEUEDESC "Earth" (Some 1%nat))
              (mkTILEDESC (TexIdx 7) (TexIdx 3) 132
                          [None; None; None; None] 0))
    as (q' & m' & cat' & a & td' & Hrun & Hq & Hwf & _).
  - unfold queue_wf. cbn. repeat split; lia.
  - cbn. lia.
  - reflexivity.
  - reflexivity.
  - exists q', m', cat'. auto.
Defined.

(** ** The offset of a tile in its archive *)

Lemma to_long_range (x : Z) : - 2 ^ 31 <= to_long x < 2 ^ 31.
Proof.
  unfold to_long. pose proof (Z.mod_pos_bound (x + 2 ^ 31) (2 ^ 32)). lia.
Qed.

Lemma to_long_id_iff (x : Z) : to_long x = x <-> - 2 ^ 31 <= x < 2 ^ 31.
Proof.
  split.
  - intros <-. apply to_long_range.
  - intros H. unfold to_long. rewrite Z.mod_small by lia. lia.
Qed.

(** X2.  The offset the loader thread seeks to, for an index that fits a
    [DWORD]: for a new-style descriptor (bit [0x40] clear) it is the index
    itself exactly when the index is below [2^31]; for an old-style
    descriptor it is the index times [TILESIZE] exactly when the index is
    at most 65280, the largest one whose product fits a [long]. *)
Theorem tile_offset_exact (flag idx : Z) :
  0 <= idx < 2 ^ 32 ->
  (tile_offset flag idx
   = (if Z.land flag 64 =? 0 then idx else idx * TILESIZE)) <->
  (if Z.land flag 64 =? 0 then idx < 2 ^ 31 else idx <= 65280).
Proof.
  intros Hidx. unfold tile_offset, TILESIZE.
  destruct (Z.land flag 64 =? 0).
  - rewrite to_long_id_iff. lia.
  - split.
    + intros H. pose proof (to_long_range (to_long idx * 32896)) as Hr.
      rewrite H in Hr. lia.
    + intros H. assert (E : to_long idx = idx) by (apply to_long_id_iff; lia).
      rewrite E. apply to_long_id_iff. lia.
Qed.

(** The theorem for the last old-style index that can be addressed. *)
Lemma tile_offset_exact_witness :
  tile_offset 193 65280 = 65280 * TILESIZE.
Proof.
  apply (tile_offset_exact 193 65280); [lia|]. vm_compute. discriminate.
Defined.

(** ** The pool under [AddTile] and [DeleteTile] *)

(** The array [buf] after the growth step of [AddTile]. *)
Lemma AddTile_shape (p : TilePool) (m : Mem) :
  pool_wf p ->
  exists l : nat,
    let b1 := if (nused p =? nbuf p)%N then buf p ++ replicate 16 None
              else buf p in
    (l < length b1)%nat /\ b1 !! l = Some None /\
    AddTile p m
    = Some (length m,
            mkTilePool (<[l := Some (length m)]> b1) (nused p + 1)
                       (N.of_nat l),
            m ++ [Some (set_ofs (N.of_nat l) zero_TILEDESC)]).
Proof.
  intros Hwf. pose proof Hwf as (Hb & Hl & Hu).
  pose proof (length_filter occupied (buf p)) as Hocc.
  unfold AddTile, alloc.
  destruct (N.eqb_spec (nused p) (nbuf p)) as [E|E].
  - exists (length (buf p)). cbn zeta. cbn [buf nused last].
    unfold nbuf in *. cbn [buf]. rewrite length_app, length_replicate.
    destruct (N.ltb_spec (nused p) (N.of_nat (length (buf p) + 16)));
      [|lia].
    split; [lia|]. split.
    { rewrite lookup_app_r by lia. by rewrite Nat.sub_diag. }
    rewrite (modify_Some _ _ zero_TILEDESC) by apply load_app_new.
    cbn [mbind option_bind]. rewrite E, Nat2N.id.
    unfold store, dword. rewrite N.mod_small by lia.
    rewrite (insert_app_r_alt m) by lia. by rewrite Nat.sub_diag.
  - pose proof (find_free_free p Hwf E) as Hf.
    pose proof (lookup_lt_Some _ _ _ Hf) as Hlt.
    exists (N.to_nat (find_free (length (buf p)) 0 p)). cbn zeta.
    cbn [buf nused last]. unfold nbuf in *. cbn [buf nused last].
    destruct (N.ltb_spec (find_free (length (buf p)) 0 p)
                (N.of_nat (length (buf p)))); [|lia].
    split; [done|]. split; [done|].
    rewrite (modify_Some _ _ zero_TILEDESC) by apply load_app_new.
    cbn [mbind option_bind]. rewrite N2Nat.id.
    unfold store, dword. rewrite N.mod_small by lia.
    rewrite (insert_app_r_alt m) by lia. by rewrite Nat.sub_diag.
Qed.

Lemma filter_occupied_free (b : list tileptr) (k : nat) :
  filter occupied (b ++ replicate k None) = filter occupied b.
Proof.
  rewrite filter_app. induction k as [|k IH]; [by rewrite app_nil_r|].
  cbn [replicate]. rewrite filter_cons_False; [done|].
  unfold occupied. by intros H.
Qed.

Lemma filter_occupied_insert (b : list tileptr) (l c : nat) :
  b !! l = Some None ->
  length (filter occupied (<[l := Some c]> b))
  = S (length (filter occupied b)).
Proof.
  revert l. induction b as [|s b IH]; intros l H; [done|].
  destruct l as [|l]; simpl in H.
  - injection H as ->. cbn [insert list_insert].
    rewrite filter_cons_True by done.
    rewrite (filter_cons_False _ None); [done|]. unfold occupied. by intros H.
  - cbn [insert list_insert]. destruct s as [a|].
    + rewrite !filter_cons_True by done. cbn [length]. f_equal. by apply IH.
    + rewrite !filter_cons_False by (unfold occupied; by intros H0).
      by apply IH.
Qed.

(** X3.  On a well-formed pool whose array can still grow, [AddTile]
    succeeds and leaves a well-formed pool: [nused] has grown by one,
    [buf] has grown by 16 slots exactly when every slot was occupied, and
    no slot that held a descriptor has been overwritten. *)
Theorem AddTile_keeps_pool_wf (p : TilePool) (m : Mem) :
  pool_wf p -> (nbuf p + 32 < 2 ^ 31)%N ->
  exists c p' m',
    AddTile p m = Some (c, p', m') /\ pool_wf p' /\
    nused p' = (nused p + 1)%N /\
    length (buf p')
    = (if (nused p =? nbuf p)%N then length (buf p) + 16
       else length (buf p))%nat /\
    (forall s a, buf p !! s = Some (Some a) -> buf p' !! s = Some (Some a)).
Proof.
  intros Hwf Hroom. destruct (AddTile_shape p m Hwf) as (l & Hl & Hfree & Hrun).
  cbn zeta in *. pose proof Hwf as (Hb & Hlast & Hu).
  eexists _, _, _. split; [exact Hrun|]. cbn [buf nused last].
  assert (Hlen : length (if (nused p =? nbuf p)%N
                         then buf p ++ replicate 16 None else buf p)
                 = (if (nused p =? nbuf p)%N then length (buf p) + 16
                    else length (buf p))%nat).
  { destruct (nused p =? nbuf p)%N; [|done].
    by rewrite length_app, length_replicate. }
  split; [|split; [done|split]].
  - unfold pool_wf, nbuf in *. cbn [buf nused last].
    rewrite length_insert, Hlen.
    split; [destruct (nused p =? N.of_nat (length (buf p)))%N; lia|].
    split; [left; rewrite <- Hlen; lia|].
    rewrite (filter_occupied_insert _ _ _ Hfree).
    destruct (nused p =? N.of_nat (length (buf p)))%N.
    + rewrite filter_occupied_free. lia.
    + lia.
  - by rewrite length_insert.
  - intros s a Hs.
    assert (Hs1 : (if (nused p =? nbuf p)%N
                   then buf p ++ replicate 16 None else buf p) !! s
                  = Some (Some a)).
    { destruct (nused p =? nbuf p)%N; [|done].
      rewrite lookup_app_l; [done|]. by eapply lookup_lt_Some. }
    rewrite list_lookup_insert_ne; [done|]. intros ->. congruence.
Qed.

(** The theorem on the empty pool: the first descriptor makes [buf] grow
    to 16 slots. *)
Lemma AddTile_keeps_pool_wf_witness :
  exists c p' m',
    AddTile sample_pool (sample_mem 1) = Some (c, p', m') /\
    pool_wf p' /\ length (buf p') = 16%nat.
Proof.
  destruct (AddTile_keeps_pool_wf sample_pool (sample_mem 1))
    as (c & p' & m' & Hrun & Hwf & _ & Hlen & _).
  - unfold pool_wf, nbuf. cbn. split; [lia|]. split; [by right|done].
  - unfold nbuf. cbn. lia.
  - exists c, p', m'. auto.
Defined.

(** X4.  A descriptor that [AddTile] has just created, and that has been
    given neither a texture nor a child, is taken back by [DeleteTile]:
    the call returns [true], [nused] is what it was before [AddTile], the
    slot is free again ([buf] is the old array, with the 16 free slots
    [AddTile] may have added), the descriptor is deleted and the older
    descriptors are untouched. *)
Theorem AddTile_DeleteTile_roundtrip (p : TilePool) (m : Mem) (fuel : nat) :
  pool_wf p ->
  exists c p1 m1 p2 m2,
    AddTile p m = Some (c, p1, m1) /\
    DeleteTile (S fuel) c (p1, m1) = Some (true, (p2, m2)) /\
    nused p2 = nused p /\
    buf p2 = (if (nused p =? nbuf p)%N then buf p ++ replicate 16 None
              else buf p) /\
    load m2 (Some c) = None /\
    (forall b, (b < length m)%nat -> m2 !! b = m !! b).
Proof.
  intros Hwf. destruct (AddTile_shape p m Hwf) as (l & Hl & Hfree & Hrun).
  cbn zeta in *. pose proof Hwf as (Hb & Hlast & Hu).
  pose proof (length_filter occupied (buf p)) as Hocc.
  set (b1 := if (nused p =? nbuf p)%N then buf p ++ replicate 16 None
             else buf p) in *.
  set (td := set_ofs (N.of_nat l) zero_TILEDESC).
  assert (Hld : load (m ++ [Some td]) (Some (length m)) = Some td)
    by apply load_app_new.
  eexists _, _, _, _, _. split; [exact Hrun|].
  assert (Hsub : forall i acc,
    DeleteTile_sub (DeleteTile fuel) (length m) i
      (acc, (mkTilePool (<[l := Some (length m)]> b1) (nused p + 1)
                        (N.of_nat l), m ++ [Some td]))
    = Some (acc, (mkTilePool (<[l := Some (length m)]> b1) (nused p + 1)
                             (N.of_nat l), m ++ [Some td]))).
  { intros i acc. unfold DeleteTile_sub. rewrite Hld.
    cbn [mbind option_bind].
    replace (get_subtile td i) with (@None nat); [done|].
    unfold get_subtile, td. cbn [subtile set_ofs zero_TILEDESC].
    by destruct i as [|[|[|[|i]]]]. }
  split; [|split; [|split; [|split]]].
  - cbn [DeleteTile]. fold td.
    do 4 (rewrite Hsub; cbn [mbind option_bind]). rewrite Hld.
    cbn [mbind option_bind]. cbn [tex td set_ofs zero_TILEDESC ofs].
    change (tex_nonnull NULLTEX || negb true) with false. cbn iota.
    rewrite Nat2N.id. cbn [buf nused last].
    rewrite list_lookup_insert_eq by done. cbn [mbind option_bind].
    reflexivity.
  - cbn [nused]. unfold dword, nbuf in *.
    replace (nused p + 1 + (2 ^ 32 - 1))%N with (nused p + 1 * 2 ^ 32)%N
      by lia.
    rewrite N.Div0.mod_add. apply N.mod_small. lia.
  - cbn [buf]. rewrite list_insert_insert_eq. by apply list_insert_id.
  - unfold free. apply eq_None_not_Some. intros [d Hd].
    apply load_lookup in Hd.
    rewrite list_lookup_insert_eq in Hd; [done|].
    rewrite length_app. cbn. lia.
  - intros b Hlt. unfold free. rewrite list_lookup_insert_ne by lia.
    by apply lookup_app_l.
Qed.

(** The theorem on the empty pool. *)
Lemma AddTile_DeleteTile_roundtrip_witness :
  exists c p1 m1 p2 m2,
    AddTile sample_pool (sample_mem 1) = Some (c, p1, m1) /\
    DeleteTile 1 c (p1, m1) = Some (true, (p2, m2)) /\
    nused p2 = 0%N /\ buf p2 = replicate 16 None.
Proof.
  destruct (AddTile_DeleteTile_roundtrip sample_pool (sample_mem 1) 0)
    as (c & p1 & m1 & p2 & m2 & H1 & H2 & H3 & H4 & _).
  - unfold pool_wf, nbuf. cbn. split; [lia|]. split; [by right|done].
  - exists c, p1, m1, p2, m2. auto.
Defined.

(** ** What [ProcessTile] draws *)

Section TraversalCalls.
Variable F : Type.
Variables Fadd Fsub Fmul : F -> F -> F.
Variable F_of_int : Z -> F.
Variable Fhalf : F.
Variables off_view IsTileInView adist_positive oblique very_oblique
          behind_horizon IsVisibleInCamera : TILEPOS -> bool.
Variable MAXQUEUE : Z.
Variable objname : string.
Variable tgtlvl : Z.

#[local] Abbreviation descend :=
  (descend_child F Fadd Fsub Fmul F_of_int Fhalf MAXQUEUE objname).
#[local] Abbreviation process :=
  (ProcessTile F Fadd Fsub Fmul F_of_int Fhalf off_view IsTileInView
     adist_positive oblique very_oblique behind_horizon IsVisibleInCamera
     MAXQUEUE objname tgtlvl).

Lemma step_down_lvl (pos : TILEPOS) (c : bool) :
  step_down adist_positive oblique very_oblique tgtlvl pos = (true, c) ->
  lvl pos < tgtlvl.
Proof.
  unfold step_down. destruct (Z.ltb_spec (lvl pos) tgtlvl); [done|].
  cbn. by intros [= ?].
Qed.

(** The calls of [RenderTile] a call of [ProcessTile] adds: [Pa] is a
    property of the arguments that the descent hands down, [Pm] one of
    the store that every step keeps, and [Q] follows for every call. *)
Lemma ProcessTile_calls (Pa : PTARGS F -> Prop) (Pm : Mem -> Prop)
    (Q : RENDERCALL F -> Prop) (dfuel : nat) :
  (forall a, Pa a ->
     Q (mkRENDERCALL (a_pos a) (a_tile a) (a_bkp_range a) (a_bkp_tex a)
                     (a_bkp_ltex a) (a_bkp_flag a)) /\
     Q (mkRENDERCALL (a_pos a) (a_tile a) (a_range a) (a_tex a)
                     (a_ltex a) (a_flag a))) ->
  (forall a i j idx p m q a' p' m' q',
     descend a i j idx (p, m, q) = Some (a', (p', m', q')) ->
     0 <= i <= 1 -> 0 <= j <= 1 -> lvl (a_pos a) < tgtlvl ->
     Pa a -> Pm m -> Pa a' /\ Pm m') ->
  (forall t p m p' m',
     DeleteSubTiles dfuel t (p, m) = Some (p', m') -> Pm m -> Pm m') ->
  forall fuel a p m q tr p' m' q' tr',
    process fuel dfuel a (p, m, q, tr) = Some (p', m', q', tr') ->
    Pa a -> Pm m ->
    Pm m' /\ exists calls, tr' = tr ++ calls /\ Forall Q calls.
Proof.
  intros HQ Hdesc Hdel. induction fuel as [|fuel IH];
    intros a p m q tr p' m' q' tr' H Ha Hm; [done|].
  cbn [ProcessTile] in H.
  destruct (off_view (a_pos a)).
  { injection H as <- <- <- <-. split; [done|]. exists [].
    by rewrite app_nil_r. }
  destruct (negb (IsTileInView (a_pos a))).
  { bind_inv H as [p1 m1] Ed. injection H as <- <- <- <-.
    split; [by eapply Hdel|]. exists []. by rewrite app_nil_r. }
  destruct (step_down adist_positive oblique very_oblique tgtlvl (a_pos a))
    as [bStepDown bCoarseTex] eqn:Esd.
  destruct bStepDown.
  - apply step_down_lvl in Esd.
    assert (Hfold : forall l (s : option (TravState F)) s',
      foldl (fun (s : option (TravState F)) '(i, j, idx) =>
               '(p, m, q, tr) ← s;
               '(a', (p, m, q)) ← descend a i j idx (p, m, q);
               process fuel dfuel a' (p, m, q, tr)) s l = Some s' ->
      Forall (fun '(i, j, idx) => 0 <= i <= 1 /\ 0 <= j <= 1) l ->
      forall s0, s = Some s0 ->
        Pm (snd (fst (fst s0))) ->
        Pm (snd (fst (fst s'))) /\
        exists calls, snd s' = snd s0 ++ calls /\ Forall Q calls).
    { induction l as [|[[i j] idx] l IHl]; intros s s' Hf Hl s0 -> Hs0.
      - cbn [foldl] in Hf. injection Hf as <-. split; [done|].
        exists []. by rewrite app_nil_r.
      - cbn [foldl] in Hf. apply Forall_cons in Hl as [[Hi Hj] Hl].
        destruct s0 as [[[p0 m0] q0] tr0]. cbn [mbind option_bind] in Hf.
        destruct (descend a i j idx (p0, m0, q0))
          as [[a1 [[p1 m1] q1]]|] eqn:E1.
        2:{ exfalso. cbn [mbind option_bind] in Hf. clear -Hf.
            induction l as [|[[i' j'] idx'] l IHl]; [done|].
            cbn [foldl mbind option_bind] in Hf. auto. }
        cbn [mbind option_bind] in Hf.
        destruct (Hdesc _ _ _ _ _ _ _ _ _ _ _ E1 Hi Hj Esd Ha Hs0)
          as [Ha1 Hm1].
        destruct (process fuel dfuel a1 (p1, m1, q1, tr0))
          as [[[[p2 m2] q2] tr2]|] eqn:E2.
        2:{ exfalso. clear -Hf.
            induction l as [|[[i' j'] idx'] l IHl]; [done|].
            cbn [foldl mbind option_bind] in Hf. auto. }
        destruct (IH _ _ _ _ _ _ _ _ _ E2 Ha1 Hm1) as (Hm2 & c1 & -> & Hc1).
        destruct (IHl _ _ Hf Hl _ eq_refl Hm2) as (Hm' & c2 & Hc2 & HQ2).
        split; [done|]. exists (c1 ++ c2). cbn [snd] in *.
        rewrite Hc2, app_assoc. split; [done|]. by apply Forall_app. }
    assert (Hl : Forall (fun '(i, j, idx) => 0 <= i <= 1 /\ 0 <= j <= 1)
                   [(1, 0, 0%nat); (1, 1, 1%nat); (0, 0, 2%nat);
                    (0, 1, 3%nat)]) by (repeat constructor; lia).
    destruct (Hfold _ _ _ H Hl (p, m, q, tr) eq_refl Hm)
      as (Hm' & calls & Hc & HQc).
    split; [done|]. by exists calls.
  - destruct (behind_horizon (a_pos a)).
    { injection H as <- <- <- <-. split; [done|]. exists [].
      by rewrite app_nil_r. }
    destruct (negb (IsVisibleInCamera (a_pos a))).
    { injection H as <- <- <- <-. split; [done|]. exists [].
      by rewrite app_nil_r. }
    injection H as <- <- <- <-. split; [done|]. eexists [_].
    split; [done|]. constructor; [|done].
    destruct (HQ a Ha). by destruct bCoarseTex.
Qed.

Lemma descend_child_pos (a a' : PTARGS F) (i j : Z) (idx : nat)
    (s s' : TilePool * Mem * TileQueue) :
  descend a i j idx s = Some (a', s') ->
  a_pos a' = child_pos (a_pos a) i j.
Proof.
  unfold descend_child. destruct s as [[p m] q]. intros H.
  bind_inv H as td Etd. bind_inv H as [[[[c isfull] p1] m1] q1] Ec.
  bind_inv H as sd Esd. injection H as <- _.
  by destruct (if isfull then tex_nonnull (tex sd) else false).
Qed.

Lemma covers_refl (pos : TILEPOS) : covers pos pos.
Proof. unfold covers. rewrite Z.sub_diag. cbn. lia. Qed.

Lemma covers_child (pos0 pos : TILEPOS) (i j : Z) :
  covers pos0 pos -> 0 <= i <= 1 -> 0 <= j <= 1 ->
  covers pos0 (child_pos pos i j).
Proof.
  unfold covers, child_pos. cbn [lvl hemisp ilat nlat ilng nlng].
  intros (Hk & Hh & Hnlat & Hnlng & Hilat & Hilng) Hi Hj.
  replace (lvl pos + 1 - lvl pos0) with (Z.succ (lvl pos - lvl pos0)) by lia.
  rewrite Z.pow_succ_r by done.
  set (e := 2 ^ (lvl pos - lvl pos0)) in *.
  repeat split; try lia.
Qed.

(** X5.  Every tile [ProcessTile] draws is the tile it was called for or
    one of the tiles that subdivide it: it lies in the same hemisphere,
    within the band and the sector of that tile, at a level that is
    neither below the level of the call nor, when the descent has gone
    down at all, above the target level. *)
Theorem ProcessTile_draws_within (fuel dfuel : nat) (a : PTARGS F)
    (p p' : TilePool) (m m' : Mem) (q q' : TileQueue)
    (tr tr' : list (RENDERCALL F)) :
  process fuel dfuel a (p, m, q, tr) = Some (p', m', q', tr') ->
  exists calls,
    tr' = tr ++ calls /\
    Forall (fun c => covers (a_pos a) (r_pos c) /\
                     lvl (r_pos c) <= Z.max (lvl (a_pos a)) tgtlvl) calls.
Proof.
  intros H.
  refine (proj2 (ProcessTile_calls
            (fun b => covers (a_pos a) (a_pos b) /\
                      lvl (a_pos b) <= Z.max (lvl (a_pos a)) tgtlvl)
            (fun _ => True) _ dfuel _ _ _ fuel a p m q tr p' m' q' tr' H
            _ I)).
  - intros b Hb. by cbn [r_pos].
  - intros b i j idx p0 m0 q0 b' p1 m1 q1 Hd Hi Hj Hlvl [Hc Hl] _.
    rewrite (descend_child_pos _ _ _ _ _ _ _ Hd). split; [|done]. split.
    + by apply covers_child.
    + cbn [child_pos lvl]. lia.
  - done.
  - split; [apply covers_refl|lia].
Qed.
End TraversalCalls.

(** The theorem for the frame of [sample_ProcessTile], on the first
    level-8 tile and its loaded child. *)
Lemma ProcessTile_draws_within_witness :
  exists p m q calls,
    sample_ProcessTile 3%nat 2%nat sample_args
      (sample_pool_loaded, sample_mem_loaded, sample_queue, [])
    = Some (p, m, q, calls) /\
    Forall (fun c => covers (a_pos sample_args) (r_pos c) /\
                     lvl (r_pos c) <= 10) calls.
Proof.
  destruct (sample_ProcessTile 3%nat 2%nat sample_args
              (sample_pool_loaded, sample_mem_loaded, sample_queue, []))
    as [[[[p m] q] tr']|] eqn:E; [|vm_compute in E; discriminate].
  destruct (ProcessTile_draws_within _ _ _ _ _ _ _ _ _ _ _ _ _ _ _ _ _ _ _
              _ _ _ _ _ _ _ _ E) as (calls & -> & Hc).
  exists p, m, q, calls. split; [done|]. exact Hc.
Defined.

Section TraversalTextures.
Variables lo n : nat.
Variable F : Type.
Variables Fadd Fsub Fmul : F -> F -> F.
Variable F_of_int : Z -> F.
Variable Fhalf : F.
Variables off_view IsTileInView adist_positive oblique very_oblique
          behind_horizon IsVisibleInCamera : TILEPOS -> bool.
Variable MAXQUEUE : Z.
Variable objname : string.
Variable tgtlvl : Z.

(** The texture the descent hands down is the one it was given or the
    texture of a child marked as loaded. *)
Lemma descend_child_resolved (a a' : PTARGS F) (i j : Z) (idx : nat)
    (p p' : TilePool) (m m' : Mem) (q q' : TileQueue) :
  descend_child F Fadd Fsub Fmul F_of_int Fhalf MAXQUEUE objname
                a i j idx (p, m, q) = Some (a', (p', m', q')) ->
  mem_inv lo n m -> resolved (a_tex a) ->
  resolved (a_tex a') /\ resolved (a_bkp_tex a').
Proof.
  unfold descend_child. intros H Hinv Ha.
  bind_inv H as td Etd. bind_inv H as [[[[c isfull] p1] m1] q1] Ec.
  bind_inv H as sd Esd. injection H as <- _ _ _.
  destruct isfull; [|done].
  destruct (tex_nonnull (tex sd)); [|done]. cbn [a_tex a_bkp_tex].
  split; [|done].
  destruct (get_subtile td idx) as [c0|].
  - bind_inv Ec as sd0 Esd0.
    destruct (Z.eqb_spec (Z.land (flag sd0) 128) 0) as [Hbit|Hbit];
      cbn [negb] in Ec.
    + injection Ec as <- _ <- _. rewrite Esd0 in Esd. injection Esd as <-.
      destruct Hinv as [_ Hcell]. apply (Hcell c0 sd0 Esd0). by left.
    + bind_inv Ec as q0 Eq0. done.
  - bind_inv Ec as [[c0 p0] m0] Eadd. bind_inv Ec as m2 Em2. done.
Qed.

(** X6.  From a store in which no descriptor marked as loaded and no base
    tile holds an archive index in [tex], [ProcessTile], called with a
    texture object or the null pointer, hands [RenderTile] a texture
    object or the null pointer in every call: an archive index that
    waits in a descriptor is never drawn with. *)
Theorem ProcessTile_draws_resolved (fuel dfuel : nat) (a : PTARGS F)
    (p p' : TilePool) (m m' : Mem) (q q' : TileQueue)
    (tr tr' : list (RENDERCALL F)) :
  ProcessTile F Fadd Fsub Fmul F_of_int Fhalf off_view IsTileInView
    adist_positive oblique very_oblique behind_horizon IsVisibleInCamera
    MAXQUEUE objname tgtlvl fuel dfuel a (p, m, q, tr)
  = Some (p', m', q', tr') ->
  mem_inv lo n m -> resolved (a_tex a) -> resolved (a_bkp_tex a) ->
  mem_inv lo n m' /\
  exists calls, tr' = tr ++ calls /\ Forall (fun c => resolved (r_tex c)) calls.
Proof.
  intros H Hinv Ht Hb.
  refine (ProcessTile_calls F Fadd Fsub Fmul F_of_int Fhalf off_view
            IsTileInView adist_positive oblique very_oblique behind_horizon
            IsVisibleInCamera MAXQUEUE objname tgtlvl
            (fun b => resolved (a_tex b) /\ resolved (a_bkp_tex b))
            (mem_inv lo n) _ dfuel _ _ _ fuel a p m q tr p' m' q' tr' H
            (conj Ht Hb) Hinv).
  - intros b [Hb1 Hb2]. by cbn [r_tex].
  - intros b i j idx p0 m0 q0 b' p1 m1 q1 Hd _ _ _ [Hb1 _] Hm0. split.
    + by eapply descend_child_resolved.
    + by eapply mem_inv_descend_child.
  - intros t p0 m0 p1 m1. apply mem_inv_DeleteSubTiles.
Qed.
End TraversalTextures.

(** The theorem for the frame of [sample_ProcessTile]: the first level-8
    tile is the one base tile of the store. *)
Lemma ProcessTile_draws_resolved_witness :
  exists p m q calls,
    sample_ProcessTile 3%nat 2%nat sample_args
      (sample_pool_loaded, sample_mem_loaded, sample_queue, [])
    = Some (p, m, q, calls) /\
    Forall (fun c => resolved (r_tex c)) calls.
Proof.
  destruct (sample_ProcessTile 3%nat 2%nat sample_args
              (sample_pool_loaded, sample_mem_loaded, sample_queue, []))
    as [[[[p m] q] tr']|] eqn:E; [|vm_compute in E; discriminate].
  destruct (ProcessTile_draws_resolved 0 1 _ _ _ _ _ _ _ _ _ _ _ _ _ _ _ _
              _ _ _ _ _ _ _ _ _ _ _ E) as (_ & calls & -> & Hc).
  - split; [cbn; lia|]. intros b td Hld. apply load_lookup in Hld.
    destruct b as [|[|b]]; cbn in Hld; [| |done];
      injection Hld as <-; intros _; exact I.
  - exact I.
  - exact I.
  - exists p, m, q, calls. split; [done|]. exact Hc.
Defined.

Section TraversalDepth.
Variable F : Type.
Variables Fadd Fsub Fmul : F -> F -> F.
Variable F_of_int : Z -> F.
Variable Fhalf : F.
Variables off_view IsTileInView adist_positive oblique very_oblique
          behind_horizon IsVisibleInCamera : TILEPOS -> bool.
Variable MAXQUEUE : Z.
Variable objname : string.
Variable tgtlvl : Z.

#[local] Abbreviation descend' :=
  (descend_child F Fadd Fsub Fmul F_of_int Fhalf MAXQUEUE objname).
#[local] Abbreviation process' :=
  (ProcessTile F Fadd Fsub Fmul F_of_int Fhalf off_view IsTileInView
     adist_positive oblique very_oblique behind_horizon IsVisibleInCamera
     MAXQUEUE objname tgtlvl).

(** One step of the loop over the four children, for two recursive calls
    that agree on the children. *)
Lemma descend_step_ext (rec1 rec2 : PTARGS F -> TravState F ->
                                    option (TravState F))
    (a : PTARGS F) (i j : Z) (idx : nat) (s : option (TravState F)) :
  (forall a' s', a_pos a' = child_pos (a_pos a) i j ->
                 rec1 a' s' = rec2 a' s') ->
  ('(p, m, q, tr) ← s;
   '(a', (p, m, q)) ← descend' a i j idx (p, m, q);
   rec1 a' (p, m, q, tr))
  = ('(p, m, q, tr) ← s;
     '(a', (p, m, q)) ← descend' a i j idx (p, m, q);
     rec2 a' (p, m, q, tr)).
Proof.
  intros Hrec. destruct s as [[[[p m] q] tr]|]; [|done].
  cbn [mbind option_bind].
  destruct (descend' a i j idx (p, m, q)) as [[a' [[p1 m1] q1]]|] eqn:E;
    [|done].
  cbn [mbind option_bind]. apply Hrec.
  by eapply descend_child_pos.
Qed.

(** X7.  The recursion of [ProcessTile] stops at the target level: a call
    for a tile of level [lvl] goes at most [tgtlvl - lvl] levels down, so
    that one unit of fuel more than that is as good as any larger
    amount. *)
Theorem ProcessTile_depth_bound (fuel k dfuel : nat) (a : PTARGS F)
    (s : TravState F) :
  Z.max 0 (tgtlvl - lvl (a_pos a)) < Z.of_nat fuel ->
  process' (fuel + k)%nat dfuel a s = process' fuel dfuel a s.
Proof.
  revert a s. induction fuel as [|fuel IH]; intros a s Hf; [lia|].
  cbn [ProcessTile Nat.add]. destruct s as [[[p m] q] tr].
  destruct (off_view (a_pos a)); [done|].
  destruct (negb (IsTileInView (a_pos a))); [done|].
  destruct (step_down adist_positive oblique very_oblique tgtlvl (a_pos a))
    as [bStepDown bCoarseTex] eqn:Esd.
  destruct bStepDown; [|done].
  apply step_down_lvl in Esd. cbn [foldl].
  assert (Hrec : forall i j a' s',
            a_pos a' = child_pos (a_pos a) i j ->
            process' (fuel + k)%nat dfuel a' s' = process' fuel dfuel a' s').
  { intros i j a' s' Hpos. apply IH. rewrite Hpos. cbn [child_pos lvl].
    lia. }
  rewrite (descend_step_ext (process' (fuel + k)%nat dfuel)
             (process' fuel dfuel) a 1 0 0 _ (Hrec 1 0)).
  rewrite (descend_step_ext (process' (fuel + k)%nat dfuel)
             (process' fuel dfuel) a 1 1 1 _ (Hrec 1 1)).
  rewrite (descend_step_ext (process' (fuel + k)%nat dfuel)
             (process' fuel dfuel) a 0 0 2 _ (Hrec 0 0)).
  apply (descend_step_ext (process' (fuel + k)%nat dfuel)
           (process' fuel dfuel) a 0 1 3 _ (Hrec 0 1)).
Qed.
End TraversalDepth.

(** The theorem for the frame of [sample_ProcessTile], whose target level
    is two levels below the level-8 tile. *)
Lemma ProcessTile_depth_bound_witness :
  sample_ProcessTile 5%nat 2%nat sample_args
    (sample_pool_loaded, sample_mem_loaded, sample_queue, [])
  = sample_ProcessTile 3%nat 2%nat sample_args
      (sample_pool_loaded, sample_mem_loaded, sample_queue, []).
Proof.
  apply (ProcessTile_depth_bound Q Qplus Qminus Qmult inject_Z Q_half
           (fun _ => false) (fun _ => true)
           (fun pos => lvl pos =? 9) (fun _ => true) (fun _ => true)
           (fun _ => false) (fun _ => true) 10 "Earth" 10 3 2 2 sample_args).
  cbn. lia.
Defined.

(** ** [LoadTextures]: the base textures *)

Lemma patchidx_at_Some (k : Z) :
  0 <= k <= 8 -> exists n, patchidx_at k = Some n.
Proof.
  intros H. unfold patchidx_at. destruct (Z.leb_spec 0 k); [|lia].
  apply lookup_lt_is_Some. cbn. lia.
Qed.

Lemma patchidx_at_level (k n : Z) : patchidx_at k = Some n -> 0 <= k <= 8.
Proof.
  unfold patchidx_at. destruct (Z.leb_spec 0 k); [|done].
  intros Hk. apply lookup_lt_Some in Hk. cbn in Hk. lia.
Qed.

(** The loop [while ((int)ntex < patchidx[maxbaselvl]) maxlvl =
    --maxbaselvl;] stops at the highest level whose textures are all
    there. *)
Lemma lower_baselvl_spec (fuel : nat) (k lvl b : Z) :
  0 <= k -> 0 <= b <= 8 -> b < Z.of_nat fuel ->
  exists L pL,
    lower_baselvl fuel k lvl b = Some (if L =? b then lvl else L, L) /\
    0 <= L <= b /\ patchidx_at L = Some pL /\ pL <= k /\
    (forall L' p', L < L' <= b -> patchidx_at L' = Some p' -> k < p').
Proof.
  revert lvl b. induction fuel as [|fuel IH]; intros lvl b Hk Hb Hf; [lia|].
  cbn [lower_baselvl]. destruct (patchidx_at_Some b Hb) as [n Hn].
  rewrite Hn. cbn [mbind option_bind].
  destruct (Z.ltb_spec k n) as [Hlt|Hge].
  - assert (Hb0 : b <> 0).
    { intros ->. cbn in Hn. injection Hn as <-. lia. }
    destruct (IH (b - 1) (b - 1) Hk ltac:(lia) ltac:(lia))
      as (L & pL & Hrun & HL & HpL & Hle & Hall).
    exists L, pL. rewrite Hrun. split.
    { replace (L =? b) with false by (symmetry; apply Z.eqb_neq; lia).
      destruct (Z.eqb_spec L (b - 1)) as [E|E]; [by rewrite E|done]. }
    split; [lia|]. split; [done|]. split; [done|].
    intros L' p' HL' Hp'. destruct (decide (L' = b)) as [->|Hne].
    + congruence.
    + apply (Hall L' p'); [lia|done].
  - exists b, n. rewrite Z.eqb_refl. split; [done|]. split; [lia|].
    split; [done|]. split; [done|]. intros L' p' HL'. lia.
Qed.

(** The loop [while ((int)ntex > patchidx[maxbaselvl])
    ReleaseTex(texbuf[--ntex]);] keeps the first [bound] textures and
    takes the others off the catalogue. *)
Lemma release_extra_spec (fuel : nat) (bound : Z) (l : list handle)
    (cat : Catalog) :
  0 <= bound -> (length l < fuel)%nat ->
  exists cat',
    release_extra fuel bound l cat = Some (take (Z.to_nat bound) l, cat') /\
    (forall h, h ∈ cat' <-> h ∈ cat /\ h ∉ drop (Z.to_nat bound) l).
Proof.
  revert l cat. induction fuel as [|fuel IH]; intros l cat Hb Hf; [lia|].
  cbn [release_extra].
  destruct (Z.ltb_spec bound (Z.of_nat (length l))) as [Hlt|Hge].
  - destruct (decide (l = [])) as [->|Hne]; [cbn in Hlt; lia|].
    destruct (exists_last Hne) as (l0 & h & ->).
    rewrite length_app in Hlt, Hf. cbn [length] in Hlt, Hf.
    rewrite fmap_app. cbn [fmap list_fmap].
    rewrite last_last. cbn [mbind option_bind ReleaseTex].
    rewrite removelast_last.
    destruct (IH l0 (cat ∖ {[ h ]}) Hb ltac:(lia)) as (cat' & Hrun & Hcat).
    exists cat'. rewrite Hrun. split.
    { f_equal. f_equal. rewrite take_app_le by lia. done. }
    intros x. rewrite Hcat. rewrite drop_app_le by lia.
    rewrite elem_of_app, list_elem_of_singleton, elem_of_difference,
      elem_of_singleton. tauto.
  - exists cat. split.
    { f_equal. f_equal. by rewrite take_ge by lia. }
    intros x. rewrite drop_ge by lia. rewrite elem_of_nil. tauto.
Qed.

Lemma base_tile_live (tm : TileManager) (m : Mem) (i : Z) :
  is_Some (load m (base_tile tm i)) -> 0 <= i < Z.of_nat (ntiledesc tm).
Proof.
  unfold base_tile. destruct (Z.leb_spec 0 i);
    destruct (Z.ltb_spec i (Z.of_nat (ntiledesc tm))); cbn;
    intros [td Htd]; done || lia.
Qed.

(** X8.  [LoadTextures] when the archive yields at least one texture (and
    tiles are not preloaded): the base level ends as the highest level,
    not above the one asked for, whose [patchidx] textures were all
    loaded; [maxlvl] is lowered to that level when the base level is
    lowered and kept otherwise; exactly [patchidx[maxbaselvl]] textures
    are kept, the first ones of the archive, base tile [i] gets the
    [i]-th of them, and the textures loaded beyond that number are taken
    off the catalogue. *)
Theorem LoadTextures_levels (TexMgr_LoadTextures : string -> list handle)
    (objname modstr : string) (fuel : nat) (tm : TileManager) (m : Mem)
    (cat : Catalog) (n0 : Z) :
  let loaded := load_textures TexMgr_LoadTextures
                              (objname +:+ modstr +:+ ".tex") n0 in
  let k := Z.of_nat (length loaded) in
  patchidx_at (maxbaselvl tm) = Some n0 ->
  0 < k -> bPreloadTile tm = false ->
  (9 + length loaded < fuel)%nat ->
  (forall i, 0 <= i < k -> is_Some (load m (base_tile tm i))) ->
  exists tm' m' cat' pL,
    LoadTextures TexMgr_LoadTextures objname fuel modstr tm m cat
    = Some (tm', m', cat') /\
    patchidx_at (maxbaselvl tm') = Some pL /\ pL <= k /\
    maxbaselvl tm' <= maxbaselvl tm /\
    (forall L' p', maxbaselvl tm' < L' <= maxbaselvl tm ->
                   patchidx_at L' = Some p' -> k < p') /\
    maxlvl tm' = (if maxbaselvl tm' =? maxbaselvl tm then maxlvl tm
                  else maxbaselvl tm') /\
    ntex tm' = pL /\ texbuf tm' = take (Z.to_nat pL) loaded /\
    bNoTextures tm' = bNoTextures tm /\
    (forall i, 0 <= i < pL ->
       exists td h, load m' (base_tile tm i) = Some td /\
                    loaded !! Z.to_nat i = Some h /\ tex td = TexHnd h) /\
    (forall h, h ∈ cat' <-> h ∈ cat /\ h ∉ drop (Z.to_nat pL) loaded).
Proof.
  intros loaded k Hn0 Hk Hpre Hfuel Hlive.
  pose proof (patchidx_at_level _ _ Hn0) as Hlvl.
  unfold LoadTextures. rewrite Hn0. cbn [mbind option_bind]. fold loaded.
  destruct (Z.eqb_spec (Z.of_nat (length loaded)) 0) as [E|_]; [lia|].
  destruct (lower_baselvl_spec fuel k (maxlvl tm) (maxbaselvl tm)
              ltac:(lia) Hlvl ltac:(lia))
    as (L & pL & Hlow & HL & HpL & Hle & Hall).
  fold k. rewrite Hlow. cbn [mbind option_bind]. rewrite HpL.
  cbn [mbind option_bind].
  pose proof (patchidx_at_range _ _ HpL) as HpLr.
  destruct (release_extra_spec fuel pL loaded cat ltac:(lia) ltac:(lia))
    as (cat' & Hrel & Hcat).
  rewrite Hrel. cbn [mbind option_bind].
  set (kept := take (Z.to_nat pL) loaded).
  set (tm1 := set_textures _ _ _ _ _ tm).
  change (base_tile tm1) with (base_tile tm).
  unfold for_range. rewrite Z.sub_0_r.
  destruct (for_loop_inv
    (fun j (mj : Mem) =>
       (forall i, 0 <= i < k -> is_Some (load mj (base_tile tm i))) /\
       (forall i, 0 <= i < j ->
          exists td h, load mj (base_tile tm i) = Some td /\
                       loaded !! Z.to_nat i = Some h /\ tex td = TexHnd h))
    (Z.to_nat pL) 0
    (fun i mi => h ← kept !! Z.to_nat i;
                 modify mi (base_tile tm i) (set_tex (TexHnd h)))
    m) as (m' & Hrun & _ & Htex).
  - split; [done|]. intros i Hi. lia.
  - intros j mj Hj [Hl Ht].
    destruct (lookup_lt_is_Some_2 loaded (Z.to_nat j)) as [h Hh]; [lia|].
    unfold kept. rewrite lookup_take_lt by lia. rewrite Hh.
    cbn [mbind option_bind].
    destruct (Hl j ltac:(lia)) as [td Htd].
    pose proof (base_tile_live tm mj j (Hl j ltac:(lia))) as Hjr.
    rewrite (base_tile_Some tm j Hjr) in *.
    rewrite (modify_Some _ _ _ _ Htd). eexists. split; [done|].
    pose proof (load_Some_lt _ _ _ Htd) as Hlt. split.
    + intros i Hi. pose proof (base_tile_live tm mj i (Hl i Hi)) as Hir.
      destruct (Hl i Hi) as [tdi Htdi].
      rewrite (base_tile_Some tm i Hir) in *.
      destruct (decide (Z.to_nat j = Z.to_nat i)) as [E|E].
      * replace i with j by lia. rewrite load_store_eq by done. eauto.
      * rewrite load_store_ne by lia. eauto.
    + intros i Hi. destruct (decide (i = j)) as [->|E].
      * rewrite (base_tile_Some tm j Hjr).
        rewrite load_store_eq by done. eauto.
      * destruct (Ht i ltac:(lia)) as (tdi & hi & Htdi & Hhi & Hti).
        pose proof (base_tile_live tm mj i (Hl i ltac:(lia))) as Hir.
        rewrite (base_tile_Some tm i Hir) in *.
        rewrite load_store_ne by lia. eauto.
  - rewrite Hrun. cbn [mbind option_bind].
    replace (bPreloadTile tm1) with false by (symmetry; exact Hpre).
    cbn [andb]. exists tm1, m', cat', pL. split; [done|].
    unfold tm1. cbn [maxbaselvl maxlvl ntex texbuf bNoTextures set_textures].
    split; [done|]. split; [done|]. split; [lia|]. split; [done|].
    split; [done|]. split.
    { unfold kept. rewrite length_take. lia. }
    split; [done|]. split; [done|]. split; [|done].
    intros i Hi. apply Htex. lia.
Qed.

Lemma sample_mem_live (n : nat) (b i : Z) :
  0 <= i < Z.of_nat n ->
  is_Some (load (sample_mem n) (base_tile (sample_tm n b) i)).
Proof.
  intros Hi. rewrite base_tile_Some by (cbn; lia). cbn [tiledesc sample_tm].
  exists zero_TILEDESC. apply load_lookup. unfold sample_mem.
  apply lookup_replicate. split; [done|lia].
Qed.

(** The theorem for a manager that asks for the 13 textures of base level
    5 and gets six: five are kept. *)
Lemma LoadTextures_levels_witness :
  exists tm' m' cat' pL,
    LoadTextures sample_archive "Earth" 20 "" (sample_tm 13 5)
                 (sample_mem 13) ∅ = Some (tm', m', cat') /\
    patchidx_at (maxbaselvl tm') = Some pL /\ pL <= 6 /\ ntex tm' = pL.
Proof.
  destruct (LoadTextures_levels sample_archive "Earth" "" 20 (sample_tm 13 5)
              (sample_mem 13) ∅ 13)
    as (tm' & m' & cat' & pL & Hrun & HpL & Hle & _ & _ & _ & Hn & _).
  - reflexivity.
  - change (0 < 6). lia.
  - reflexivity.
  - change (9 + 6 < 20)%nat. lia.
  - intros i Hi. apply sample_mem_live. change (0 <= i < 6) in Hi. lia.
  - exists tm', m', cat', pL. change (pL <= 6) in Hle. auto.
Defined.

Example LoadTextures_lowers_level :
  exists tm' m' cat',
    LoadTextures sample_archive "Earth" 20 "" (sample_tm 13 5)
                 (sample_mem 13) ∅ = Some (tm', m', cat') /\
    maxbaselvl tm' = 4 /\ maxlvl tm' = 4 /\ ntex tm' = 5.
Proof. eexists _, _, _. split; [reflexivity|]. done. Qed.

(** ** The flags and masks of the base tiles *)

Lemma for_loop_ind {St : Type} (P : Z -> St -> Prop) (n : nat) (i : Z)
    (body : Z -> St -> option St) (s s' : St) :
  for_loop n i body s = Some s' -> P i s ->
  (forall k s s1, i <= k < i + Z.of_nat n -> P k s ->
                  body k s = Some s1 -> P (k + 1) s1) ->
  P (i + Z.of_nat n) s'.
Proof.
  revert i s. induction n as [|n IH]; intros i s Hrun H0 Hstep.
  - injection Hrun as <-. by replace (i + Z.of_nat 0) with i by lia.
  - cbn [for_loop] in Hrun. bind_inv Hrun as s1 Hb.
    replace (i + Z.of_nat (S n)) with (i + 1 + Z.of_nat n) by lia.
    apply (IH _ _ Hrun).
    + apply (Hstep i s s1); [lia|done|done].
    + intros k s2 s3 Hk. apply Hstep. lia.
Qed.

Lemma base_tile_inj (tm : TileManager) (i j : Z) (a : nat) :
  base_tile tm i = Some a -> base_tile tm j = Some a -> i = j.
Proof.
  unfold base_tile.
  destruct (Z.leb_spec 0 i); destruct (Z.ltb_spec i (Z.of_nat (ntiledesc tm)));
    destruct (Z.leb_spec 0 j);
    destruct (Z.ltb_spec j (Z.of_nat (ntiledesc tm))); cbn;
    intros [= <-] [= E]; lia.
Qed.

Lemma store_store (m : Mem) (a : nat) (x y : TILEDESC) :
  store (store m a x) a y = store m a y.
Proof. unfold store. apply list_insert_insert_eq. Qed.

(** The loop [for (i = 0; i < patchidx[maxbaselvl]; i++)
    tiledesc[i].flag = 1;] *)
Lemma reset_base_flags_spec (tm : TileManager) (m : Mem) (n : Z) :
  patchidx_at (maxbaselvl tm) = Some n ->
  (forall i, 0 <= i < n -> is_Some (load m (base_tile tm i))) ->
  exists m',
    reset_base_flags tm m = Some m' /\
    (forall i, 0 <= i < n ->
       exists td, load m (base_tile tm i) = Some td /\
                  load m' (base_tile tm i) = Some (set_flag 1 td)) /\
    (forall b, (forall i, 0 <= i < n -> base_tile tm i <> Some b) ->
               m' !! b = m !! b).
Proof.
  intros Hn Hlive. unfold reset_base_flags. rewrite Hn.
  cbn [mbind option_bind]. unfold for_range. rewrite Z.sub_0_r.
  pose proof (patchidx_at_range _ _ Hn) as Hr.
  destruct (for_loop_inv
    (fun k (mk : Mem) =>
       (forall i, 0 <= i < k ->
          exists td, load m (base_tile tm i) = Some td /\
                     load mk (base_tile tm i) = Some (set_flag 1 td)) /\
       (forall i, k <= i < n ->
          load mk (base_tile tm i) = load m (base_tile tm i)) /\
       (forall b, (forall i, 0 <= i < n -> base_tile tm i <> Some b) ->
                  mk !! b = m !! b))
    (Z.to_nat n) 0
    (fun i mi => modify mi (base_tile tm i) (set_flag 1)) m)
    as (m' & Hrun & Hdone & _ & Hframe).
  - split; [intros i Hi; lia|]. split; done.
  - intros k mk Hk (Hd & Hrest & Hfr).
    destruct (Hlive k ltac:(lia)) as [td Htd].
    pose proof (base_tile_live tm m k (Hlive k ltac:(lia))) as Hkr.
    assert (Htdk : load mk (base_tile tm k) = Some td)
      by (rewrite Hrest by lia; exact Htd).
    rewrite (base_tile_Some tm k Hkr) in Htdk.
    cbv beta. rewrite (base_tile_Some tm k Hkr).
    rewrite (modify_Some _ _ _ _ Htdk). eexists. split; [done|].
    pose proof (load_Some_lt _ _ _ Htdk) as Hlt.
    split; [|split].
    + intros i Hi. destruct (decide (i = k)) as [->|E].
      * exists td. split; [done|]. rewrite (base_tile_Some tm k Hkr).
        by apply load_store_eq.
      * destruct (Hd i ltac:(lia)) as (tdi & H1 & H2). exists tdi.
        split; [done|].
        pose proof (base_tile_live tm m i (Hlive i ltac:(lia))) as Hir.
        rewrite (base_tile_Some tm i Hir) in *.
        rewrite load_store_ne by lia. done.
    + intros i Hi.
      pose proof (base_tile_live tm m i (Hlive i ltac:(lia))) as Hir.
      rewrite <- (Hrest i) by lia.
      rewrite (base_tile_Some tm i Hir).
      rewrite load_store_ne by lia. done.
    + intros b Hb. unfold store. rewrite list_lookup_insert_ne.
      * by apply Hfr.
      * intros <-. apply (Hb k); [lia|]. by apply base_tile_Some.
  - exists m'. split; [done|]. split; [|done].
    intros i Hi. apply Hdone. lia.
Qed.

(** X9.  When neither specular reflection nor city lights are enabled, or
    the mask file cannot be opened, [LoadPatchData] returns [false] with
    [nmask] 0 and sets the flag of every base tile below
    [patchidx[maxbaselvl]] to 1; the other fields of those tiles and all
    other descriptors are untouched. *)
Theorem LoadPatchData_no_masks (file : option (list Z)) (tm : TileManager)
    (m : Mem) (n : Z) :
  bGlobalSpecular tm || bGlobalLights tm = false \/ file = None ->
  patchidx_at (maxbaselvl tm) = Some n ->
  (forall i, 0 <= i < n -> is_Some (load m (base_tile tm i))) ->
  exists m',
    LoadPatchData file tm m = Some (false, set_nmask 0 tm, m') /\
    (forall i, 0 <= i < n ->
       exists td, load m (base_tile tm i) = Some td /\
                  load m' (base_tile tm i) = Some (set_flag 1 td)) /\
    (forall b, (forall i, 0 <= i < n -> base_tile tm i <> Some b) ->
               m' !! b = m !! b).
Proof.
  intros Hoff Hn Hlive.
  destruct (reset_base_flags_spec (set_nmask 0 tm) m n Hn Hlive)
    as (m' & Hrun & Hflags & Hframe).
  exists m'. split; [|split; [exact Hflags|exact Hframe]].
  unfold LoadPatchData. cbn [bGlobalSpecular bGlobalLights set_nmask].
  assert (E : (if bGlobalSpecular tm || bGlobalLights tm then file else None)
              = None).
  { destruct Hoff as [->| ->]; [done|].
    by destruct (bGlobalSpecular tm || bGlobalLights tm). }
  rewrite E. fold (set_nmask 0 tm). rewrite Hrun. done.
Qed.

(** The theorem for five base tiles and no mask file. *)
Lemma LoadPatchData_no_masks_witness :
  exists m',
    LoadPatchData None (sample_tm 5 4) (sample_mem 5)
    = Some (false, set_nmask 0 (sample_tm 5 4), m') /\
    forall i, 0 <= i < 5 ->
      exists td, load (sample_mem 5) (base_tile (sample_tm 5 4) i) = Some td /\
                 load m' (base_tile (sample_tm 5 4) i)
                 = Some (set_flag 1 td).
Proof.
  destruct (LoadPatchData_no_masks None (sample_tm 5 4) (sample_mem 5) 5)
    as (m' & Hrun & Hflags & _).
  - by right.
  - reflexivity.
  - intros i Hi. by apply sample_mem_live.
  - exists m'. auto.
Defined.

Lemma filter_ext_in {A : Type} (P1 P2 : A -> Prop)
    `{!forall x, Decision (P1 x), !forall x, Decision (P2 x)} (l : list A) :
  (forall x, x ∈ l -> P1 x <-> P2 x) -> filter P1 l = filter P2 l.
Proof.
  induction l as [|a l IH]; intros Hext; [done|].
  assert (Ha : P1 a <-> P2 a) by (apply Hext; left).
  assert (Hl : filter P1 l = filter P2 l).
  { apply IH. intros x Hx. apply Hext. by right. }
  destruct (decide (P1 a)).
  - rewrite !filter_cons_True by tauto. by rewrite Hl.
  - rewrite !filter_cons_False by tauto. done.
Qed.

Lemma masks_before_succ (tm : TileManager) (m : Mem) (k : Z) :
  0 <= k ->
  masks_before tm m (k + 1)
  = masks_before tm m k + (if has_mask (base_flag tm m k) then 1 else 0).
Proof.
  intros Hk. unfold masks_before.
  rewrite seqZ_app by lia. rewrite filter_app, length_app.
  rewrite (seqZ_cons (0 + k) 1) by lia.
  rewrite (seqZ_nil (Z.succ (0 + k)) (Z.pred 1)) by lia.
  rewrite Z.add_0_l.
  destruct (has_mask (base_flag tm m k)) eqn:E.
  - rewrite filter_cons_True by done. rewrite filter_nil. cbn [length]. lia.
  - rewrite filter_cons_False by (by rewrite E). rewrite filter_nil.
    cbn [length]. lia.
Qed.

Lemma masks_before_agree (tm : TileManager) (m m' : Mem) (k : Z) :
  (forall j, 0 <= j < k -> base_flag tm m' j = base_flag tm m j) ->
  masks_before tm m' k = masks_before tm m k.
Proof.
  intros H. unfold masks_before. f_equal. f_equal.
  apply filter_ext_in. intros j Hj. apply elem_of_seqZ in Hj.
  rewrite H by lia. done.
Qed.

Lemma base_flag_store_ne (tm : TileManager) (m : Mem) (k j : Z) (a : nat)
    (x : TILEDESC) :
  base_tile tm k = Some a -> j <> k ->
  base_flag tm (store m a x) j = base_flag tm m j.
Proof.
  intros Hk Hne. unfold base_flag.
  destruct (base_tile tm j) as [b|] eqn:Hj; [|done].
  rewrite load_store_ne; [done|]. intros <-.
  apply Hne. by eapply base_tile_inj.
Qed.

Lemma base_flag_store_eq (tm : TileManager) (m : Mem) (k : Z) (a : nat)
    (x : TILEDESC) :
  base_tile tm k = Some a -> (a < length m)%nat ->
  base_flag tm (store m a x) k = flag x.
Proof.
  intros Hk Hlt. unfold base_flag. rewrite Hk.
  by rewrite load_store_eq.
Qed.

(** X10.  The number [nmask] that [LoadPatchData] leaves behind, when it
    reads a mask file, is the number of base tiles below
    [patchidx[maxbaselvl]] whose flag, as the call has set it, asks for a
    mask: [(flag & 3) == 3] or [flag & 4]. *)
Theorem LoadPatchData_counts_masks (f : list Z) (tm tm' : TileManager)
    (m m' : Mem) (b : bool) (n : Z) :
  bGlobalSpecular tm || bGlobalLights tm = true ->
  LoadPatchData (Some f) tm m = Some (b, tm', m') ->
  patchidx_at (maxbaselvl tm) = Some n ->
  b = true /\ nmask tm' = masks_before tm m' n.
Proof.
  intros Hen Hrun Hn. pose proof (patchidx_at_range _ _ Hn) as Hr.
  unfold LoadPatchData in Hrun.
  cbn [bGlobalSpecular bGlobalLights set_nmask maxbaselvl] in Hrun.
  rewrite Hen in Hrun. fold (set_nmask 0 tm) in Hrun.
  bind_inv Hrun as [[minres maxres] tflag] Eh. rewrite Hn in Hrun.
  cbn [mbind option_bind] in Hrun.
  bind_inv Hrun as [[idx nm] m1] El.
  injection Hrun as <- <- <-. split; [done|]. cbn [nmask set_nmask].
  unfold for_range in El. rewrite Z.sub_0_r in El.
  pose proof (for_loop_ind
    (fun k (s : Z * Z * Mem) => snd (fst s) = masks_before tm (snd s) k)
    _ _ _ _ _ El) as Hind.
  rewrite Z.add_0_l, Z2Nat.id in Hind by lia. apply Hind.
  - done.
  - clear. intros k [[idx nm] mk] s1 Hk Hs Hb. cbn [fst snd] in Hs.
    unfold patch_flag_body in Hb. bind_inv Hb as lo Elo.
    change (base_tile (set_nmask 0 tm)) with (base_tile tm) in Hb.
    destruct (k <? lo).
    + bind_inv Hb as m2 Em. injection Hb as <-. cbn [fst snd].
      apply modify_inv in Em as (a & td & Ea & Hld & ->).
      pose proof (load_Some_lt _ _ _ Hld) as Hlt.
      rewrite masks_before_succ by lia.
      rewrite (base_flag_store_eq tm mk k a _ Ea Hlt).
      cbn [flag set_flag]. change (has_mask 1) with false.
      rewrite Z.add_0_r, Hs. symmetry. apply masks_before_agree.
      intros j Hj. apply (base_flag_store_ne tm mk k j a _ Ea). lia.
    + bind_inv Hb as w Ew. bind_inv Hb as m2 Em. injection Hb as <-.
      cbn [fst snd].
      apply modify_inv in Em as (a & td & Ea & Hld & ->).
      pose proof (load_Some_lt _ _ _ Hld) as Hlt.
      rewrite masks_before_succ by lia.
      rewrite (base_flag_store_eq tm mk k a _ Ea Hlt).
      cbn [flag set_flag].
      rewrite (masks_before_agree tm mk (store mk a _) k).
      * rewrite <- Hs. destruct (has_mask (Z.land w 255)); lia.
      * intros j Hj. apply (base_flag_store_ne tm mk k j a _ Ea). lia.
Qed.

(** The theorem for five base tiles and the flags 7, 1, 5, 4 and 3: four
    of them ask for a mask. *)
Lemma LoadPatchData_counts_masks_witness :
  exists tm' m',
    LoadPatchData (Some (sample_lmask [7; 1; 5; 4; 3])) (sample_tm 5 4)
                  (sample_mem 5) = Some (true, tm', m') /\
    nmask tm' = masks_before (sample_tm 5 4) m' 5.
Proof.
  destruct (LoadPatchData (Some (sample_lmask [7; 1; 5; 4; 3]))
              (sample_tm 5 4) (sample_mem 5))
    as [[[b tm'] m']|] eqn:E; [|vm_compute in E; discriminate].
  destruct (LoadPatchData_counts_masks (sample_lmask [7; 1; 5; 4; 3])
              (sample_tm 5 4) tm' (sample_mem 5) m' b 5 eq_refl E eq_refl)
    as [-> Hn].
  exists tm', m'. auto.
Defined.

Lemma masks_before_mono (tm : TileManager) (m : Mem) (a b : Z) :
  0 <= a <= b -> masks_before tm m a <= masks_before tm m b.
Proof.
  intros H. unfold masks_before.
  replace b with (a + (b - a)) by lia.
  rewrite seqZ_app by lia. rewrite filter_app, length_app. lia.
Qed.

Lemma set_flag_same (td : TILEDESC) : set_flag (flag td) td = td.
Proof. by destruct td. Qed.

(** One pass of the loop of [LoadSpecularMasks] is one update of the base
    tile. *)
Lemma specular_body_spec (tm : TileManager) (specbuf : list handle)
    (i cnt : Z) (m : Mem) (a : nat) (td : TILEDESC) :
  base_tile tm i = Some a -> load m (Some a) = Some td ->
  (has_mask (flag td) = true -> cnt < nmask tm ->
   is_Some (specbuf !! Z.to_nat cnt)) ->
  specular_body tm specbuf i (cnt, m)
  = Some (if has_mask (flag td) && (cnt <? nmask tm) then cnt + 1 else cnt,
          store m a (specular_tile tm specbuf cnt td)).
Proof.
  intros Ha Hld Hh. pose proof (load_Some_lt _ _ _ Hld) as Hlt.
  assert (Hst : forall x, load (store m a x) (Some a) = Some x)
    by (intros x; by apply load_store_eq).
  assert (Hid : store m a td = m).
  { unfold store. apply list_insert_id. by apply load_lookup. }
  unfold specular_body, specular_tile, global_flag. rewrite Ha, Hld.
  cbn [mbind option_bind].
  destruct (has_mask (flag td)) eqn:Emask; cbn [andb].
  - destruct (Z.ltb_spec cnt (nmask tm)) as [Hc|Hc].
    + destruct (Hh eq_refl Hc) as [h Hsome]. rewrite Hsome.
      cbn [mbind option_bind]. rewrite (modify_Some _ _ _ _ Hld).
      cbn [mbind option_bind].
      destruct (bGlobalLights tm), (bGlobalSpecular tm);
        cbn [mbind option_bind];
        repeat (rewrite (modify_Some _ _ _ _ (Hst _));
                cbn [mbind option_bind]; rewrite store_store);
        cbn [flag set_flag set_ltex tex ltex subtile ofs];
        rewrite ?set_flag_same; reflexivity.
    + rewrite (modify_Some _ _ _ _ Hld). cbn [mbind option_bind].
      destruct (bGlobalLights tm), (bGlobalSpecular tm);
        cbn [mbind option_bind];
        repeat (rewrite (modify_Some _ _ _ _ (Hst _));
                cbn [mbind option_bind]; rewrite store_store);
        cbn [flag set_flag set_ltex tex ltex subtile ofs];
        reflexivity.
  - destruct (bGlobalLights tm), (bGlobalSpecular tm);
      cbn [mbind option_bind];
      repeat (rewrite (modify_Some _ _ _ _ Hld); cbn [mbind option_bind]);
      repeat (rewrite (modify_Some _ _ _ _ (Hst _));
              cbn [mbind option_bind]; rewrite store_store);
      cbn [flag set_flag set_ltex tex ltex subtile ofs];
      rewrite ?set_flag_same, ?Hid; reflexivity.
Qed.

(** X11.  [LoadSpecularMasks] when the archive holds the [nmask] masks
    and [nmask] is at least the number of base tiles whose flag asks for
    a mask (the number [LoadPatchData] counts): the masks are handed out
    in the order of the base tiles, so that a tile that asks for a mask
    and has [c] such tiles before it gets mask [c] in [ltex]; a tile that
    asks for none keeps its [ltex]; no flag is reset for want of a mask,
    every flag is cut down by the two global switches only; [tex], the
    links and [ofs] are kept; and [specbuf] holds the masks. *)
Theorem LoadSpecularMasks_in_order
    (TexMgr_LoadTextures : string -> list handle) (objname : string)
    (tm : TileManager) (m : Mem) (bound : Z) :
  let loaded := load_textures TexMgr_LoadTextures
                              (objname +:+ "_lmask.tex") (nmask tm) in
  0 < nmask tm -> Z.of_nat (length loaded) = nmask tm ->
  patchidx_at (maxbaselvl tm) = Some bound ->
  (forall i, 0 <= i < bound -> is_Some (load m (base_tile tm i))) ->
  masks_before tm m bound <= nmask tm ->
  exists m',
    LoadSpecularMasks TexMgr_LoadTextures objname tm m
    = Some (set_specbuf loaded tm, m') /\
    forall i, 0 <= i < bound ->
      exists td td',
        load m (base_tile tm i) = Some td /\
        load m' (base_tile tm i) = Some td' /\
        tex td' = tex td /\ subtile td' = subtile td /\ ofs td' = ofs td /\
        flag td' = global_flag tm (flag td) /\
        (if has_mask (flag td)
         then exists h, loaded !! Z.to_nat (masks_before tm m i) = Some h /\
                        ltex td' = TexHnd h
         else ltex td' = ltex td).
Proof.
  intros loaded Hpos Hlen Hb Hlive Hcount.
  pose proof (patchidx_at_range _ _ Hb) as Hbr.
  unfold LoadSpecularMasks. fold loaded.
  destruct (Z.eqb_spec (nmask tm) 0) as [E|_]; [lia|].
  destruct (Z.eqb_spec (Z.of_nat (length loaded)) 0) as [E|_]; [lia|].
  destruct (Z.ltb_spec (Z.of_nat (length loaded)) (nmask tm)) as [E|_];
    [lia|].
  rewrite Hb. cbn [mbind option_bind]. unfold for_range.
  rewrite Z.sub_0_r.
  destruct (for_loop_inv
    (fun k (s : Z * Mem) =>
       fst s = masks_before tm m k /\
       (forall i, k <= i < bound ->
          load (snd s) (base_tile tm i) = load m (base_tile tm i)) /\
       (forall i, 0 <= i < k ->
          exists td, load m (base_tile tm i) = Some td /\
            load (snd s) (base_tile tm i)
            = Some (specular_tile tm loaded (masks_before tm m i) td)))
    (Z.to_nat bound) 0 (specular_body tm loaded) (0, m))
    as ([cnt m'] & Hrun & _ & _ & Hdone).
  - split; [done|]. split; [done|]. intros i Hi. lia.
  - intros k [cnt mk] Hk (Hcnt & Hrest & Hd). cbn [fst snd] in *.
    destruct (Hlive k ltac:(lia)) as [td Htd].
    pose proof (base_tile_live tm m k (Hlive k ltac:(lia))) as Hkr.
    pose proof (base_tile_Some tm k Hkr) as Ha.
    assert (Htdk : load mk (Some (tiledesc tm + Z.to_nat k)%nat) = Some td).
    { rewrite <- Ha. rewrite Hrest by lia. exact Htd. }
    rewrite (specular_body_spec tm loaded k cnt mk _ td Ha Htdk).
    2:{ intros _ Hc. apply lookup_lt_is_Some.
        pose proof (masks_before_mono tm m 0 k ltac:(lia)).
        change (masks_before tm m 0) with 0 in *. lia. }
    eexists. split; [done|]. cbn [fst snd].
    pose proof (load_Some_lt _ _ _ Htdk) as Hlt.
    assert (Hflag : base_flag tm m k = flag td).
    { unfold base_flag. by rewrite Htd. }
    split; [|split].
    + rewrite masks_before_succ by lia. rewrite Hflag, <- Hcnt.
      destruct (has_mask (flag td)) eqn:Em; cbn [andb]; [|lia].
      destruct (Z.ltb_spec cnt (nmask tm)) as [Hc|Hc]; [done|].
      exfalso.
      pose proof (masks_before_mono tm m (k + 1) bound ltac:(lia)) as Hmono.
      rewrite masks_before_succ in Hmono by lia.
      rewrite Hflag, Em in Hmono. lia.
    + intros i Hi.
      pose proof (base_tile_live tm m i (Hlive i ltac:(lia))) as Hir.
      rewrite <- (Hrest i) by lia. rewrite (base_tile_Some tm i Hir).
      rewrite load_store_ne by lia. done.
    + intros i Hi. destruct (decide (i = k)) as [->|E].
      * exists td. split; [done|]. rewrite Ha, Hcnt.
        by apply load_store_eq.
      * destruct (Hd i ltac:(lia)) as (tdi & H1 & H2). exists tdi.
        split; [done|].
        pose proof (base_tile_live tm m i (Hlive i ltac:(lia))) as Hir.
        rewrite (base_tile_Some tm i Hir) in *.
        rewrite load_store_ne by lia. done.
  - rewrite Hrun. cbn [mbind option_bind]. exists m'. split; [done|].
    intros i Hi. destruct (Hdone i ltac:(lia)) as (td & Htd & Htd').
    cbn [snd] in Htd'. eexists td, _. split; [done|]. split; [exact Htd'|].
    assert (Hflag : base_flag tm m i = flag td).
    { unfold base_flag. by rewrite Htd. }
    unfold specular_tile.
    destruct (has_mask (flag td)) eqn:Em.
    + assert (Hc : masks_before tm m i < nmask tm).
      { pose proof (masks_before_mono tm m (i + 1) bound ltac:(lia)) as Hmono.
        rewrite masks_before_succ in Hmono by lia.
        rewrite Hflag, Em in Hmono. lia. }
      destruct (Z.ltb_spec (masks_before tm m i) (nmask tm)); [|lia].
      destruct (lookup_lt_is_Some_2 loaded
                  (Z.to_nat (masks_before tm m i))) as [h Hh].
      { pose proof (masks_before_mono tm m 0 i ltac:(lia)).
        change (masks_before tm m 0) with 0 in *. lia. }
      rewrite Hh. cbn [tex ltex flag subtile ofs set_flag set_ltex].
      repeat (split; [done|]). by exists h.
    + cbn [tex ltex flag subtile ofs set_flag]. repeat (split; [done|]). done.
Qed.

(** The theorem for five base tiles with the flags 7, 1, 5, 4 and 3 (the
    second one asks for no mask), for which [LoadPatchData] counts four
    masks: the third tile gets the second mask. *)
Lemma LoadSpecularMasks_in_order_witness :
  exists tm1 m1 m',
    LoadPatchData (Some (sample_lmask [7; 1; 5; 4; 3])) (sample_tm 5 4)
                  (sample_mem 5) = Some (true, tm1, m1) /\
    LoadSpecularMasks sample_archive "Earth" tm1 m1
    = Some (set_specbuf [1; 2; 3; 4]%positive tm1, m') /\
    exists td', load m' (Some 2%nat) = Some td' /\ ltex td' = TexHnd 2.
Proof.
  destruct (LoadPatchData (Some (sample_lmask [7; 1; 5; 4; 3]))
              (sample_tm 5 4) (sample_mem 5))
    as [[[b tm1] m1]|] eqn:E; [|vm_compute in E; discriminate].
  vm_compute in E. injection E as <- <- <-.
  match goal with
  | |- exists tm1 m1 m', Some (_, ?t, ?m) = _ /\ _ =>
      destruct (LoadSpecularMasks_in_order sample_archive "Earth" t m 5)
        as (m' & Hrun & Hall)
  end.
  - done.
  - reflexivity.
  - reflexivity.
  - intros i Hi.
    assert (i = 0 \/ i = 1 \/ i = 2 \/ i = 3 \/ i = 4) as Hc by lia.
    destruct Hc as [-> | [-> | [-> | [-> | ->]]]];
      vm_compute; eexists; reflexivity.
  - vm_compute. discriminate.
  - eexists _, _, m'. split; [reflexivity|]. split; [exact Hrun|].
    destruct (Hall 2 ltac:(lia)) as (td & td' & Htd & Htd' & _ & _ & _ & _
                                     & Hl).
    vm_compute in Htd. injection Htd as <-.
    destruct Hl as (h & Hh & Hl). vm_compute in Hh. injection Hh as <-.
    exists td'. split; [exact Htd'|exact Hl].
Defined.

(** X12.  [LoadSpecularMasks] when the archive holds fewer masks than
    [nmask] (none at all included): masks are switched off for the
    planet, [nmask] becomes 0 and the flag of every base tile below
    [patchidx[maxbaselvl]] becomes 1, whatever [LoadPatchData] had read;
    no [ltex] is assigned and nothing else changes in the store. *)
Theorem LoadSpecularMasks_too_few
    (TexMgr_LoadTextures : string -> list handle) (objname : string)
    (tm : TileManager) (m : Mem) (bound : Z) :
  let loaded := load_textures TexMgr_LoadTextures
                              (objname +:+ "_lmask.tex") (nmask tm) in
  nmask tm <> 0 -> Z.of_nat (length loaded) < nmask tm ->
  patchidx_at (maxbaselvl tm) = Some bound ->
  (forall i, 0 <= i < bound -> is_Some (load m (base_tile tm i))) ->
  exists tm' m',
    LoadSpecularMasks TexMgr_LoadTextures objname tm m = Some (tm', m') /\
    nmask tm' = 0 /\
    (forall i, 0 <= i < bound ->
       exists td, load m (base_tile tm i) = Some td /\
                  load m' (base_tile tm i) = Some (set_flag 1 td)) /\
    (forall b, (forall i, 0 <= i < bound -> base_tile tm i <> Some b) ->
               m' !! b = m !! b).
Proof.
  intros loaded Hnm Hfew Hb Hlive.
  destruct (reset_base_flags_spec tm m bound Hb Hlive)
    as (m' & Hrun & Hflags & Hframe).
  unfold LoadSpecularMasks. fold loaded.
  destruct (Z.eqb_spec (nmask tm) 0) as [E|_]; [done|].
  destruct (Z.eqb_spec (Z.of_nat (length loaded)) 0) as [E|E].
  - rewrite Hrun. cbn [mbind option_bind]. eexists _, m'.
    split; [done|]. split; [done|]. split; done.
  - destruct (Z.ltb_spec (Z.of_nat (length loaded)) (nmask tm)); [|lia].
    rewrite Hrun. cbn [mbind option_bind]. eexists _, m'.
    split; [done|]. split; [done|]. split; done.
Qed.

(** The theorem for a manager that expects seven masks and finds six. *)
Lemma LoadSpecularMasks_too_few_witness :
  exists tm' m',
    LoadSpecularMasks sample_archive "Earth"
      (set_nmask 7 (sample_tm 5 4)) (sample_mem 5) = Some (tm', m') /\
    nmask tm' = 0.
Proof.
  destruct (LoadSpecularMasks_too_few sample_archive "Earth"
              (set_nmask 7 (sample_tm 5 4)) (sample_mem 5) 5)
    as (tm' & m' & Hrun & Hn & _).
  - done.
  - change (6 < 7). lia.
  - reflexivity.
  - intros i Hi. by apply (sample_mem_live 5 4 i).
  - exists tm', m'. auto.
Defined.

(** ** The catalogue of subtiles: what [AddSubtileData] creates *)

Lemma same_texture_refl (d : TILEDESC) : same_texture d d.
Proof. by unfold same_texture. Qed.

Lemma same_texture_trans (d1 d2 d3 : TILEDESC) :
  same_texture d1 d2 -> same_texture d2 d3 -> same_texture d1 d3.
Proof.
  unfold same_texture. intros (? & ? & ?) (? & ? & ?).
  split_and!; congruence.
Qed.

Lemma catalogued_refl (o : bool) (m : Mem) : catalogued o m m.
Proof.
  split; [done|]. split.
  - intros a d Hd. exists d. split; [done|apply same_texture_refl].
  - intros a Ha. lia.
Qed.

Lemma catalogued_trans (o : bool) (m1 m2 m3 : Mem) :
  catalogued o m1 m2 -> catalogued o m2 m3 -> catalogued o m1 m3.
Proof.
  intros (Hl1 & Ho1 & Hn1) (Hl2 & Ho2 & Hn2). split; [lia|]. split.
  - intros a d Hd. destruct (Ho1 a d Hd) as (d' & Hd' & Hs).
    destruct (Ho2 a d' Hd') as (d'' & Hd'' & Hs'). exists d''.
    split; [done|]. by eapply same_texture_trans.
  - intros a Ha. destruct (decide (a < length m2)%nat) as [Hlt|Hge].
    + destruct (Hn1 a ltac:(lia)) as (d & Hd & Hb & Hq).
      destruct (Ho2 a d Hd) as (d' & Hd' & _ & _ & Hf). exists d'.
      rewrite Hf. done.
    + apply Hn2. lia.
Qed.

(** A change of a descriptor that keeps its textures and its flag. *)
Lemma catalogued_modify (o : bool) (m m' : Mem) (p : tileptr)
    (f : TILEDESC -> TILEDESC) :
  modify m p f = Some m' -> (forall d, same_texture d (f d)) ->
  catalogued o m m'.
Proof.
  intros Hm Hf. apply modify_inv in Hm as (a & td & -> & Hld & ->).
  pose proof (load_Some_lt _ _ _ Hld) as Hlt.
  split; [by rewrite length_store|]. split.
  - intros b d Hd. destruct (decide (b = a)) as [->|Hne].
    + rewrite load_store_eq by done. exists (f td). split; [done|].
      replace d with td by congruence. apply Hf.
    + rewrite load_store_ne by done. exists d.
      split; [done|apply same_texture_refl].
  - intros b Hb. rewrite length_store in Hb. lia.
Qed.

Lemma AddTile_alloc (p p' : TilePool) (m m' : Mem) (c : nat) :
  AddTile p m = Some (c, p', m') ->
  c = length m /\ exists o, m' = m ++ [Some (set_ofs o zero_TILEDESC)].
Proof.
  unfold AddTile, alloc. intros H.
  match type of H with
  | (if ?b then _ else _) = _ => destruct b; [|done]
  end.
  bind_inv H as m1 Em. injection H as <- _ <-. split; [done|].
  rewrite (modify_Some _ _ zero_TILEDESC) in Em by apply load_app_new.
  injection Em as <-. eexists. unfold store.
  rewrite insert_app_r_alt by lia. by rewrite Nat.sub_diag.
Qed.

(** The relation a loop keeps when each pass keeps it. *)
Lemma for_loop_rel {St : Type} (R : St -> St -> Prop) (n : nat) (i : Z)
    (body : Z -> St -> option St) (s s' : St) :
  (forall s, R s s) -> (forall s1 s2 s3, R s1 s2 -> R s2 s3 -> R s1 s3) ->
  (forall k s s1, body k s = Some s1 -> R s s1) ->
  for_loop n i body s = Some s' -> R s s'.
Proof.
  intros Hrefl Htrans Hstep. revert i s. induction n as [|n IH]; intros i s.
  - cbn. intros [= <-]. apply Hrefl.
  - cbn [for_loop]. intros H. bind_inv H as s1 Hb.
    eapply Htrans; [by eapply Hstep|by eapply IH].
Qed.

Lemma modify_length (m m' : Mem) (p : tileptr) (f : TILEDESC -> TILEDESC) :
  modify m p f = Some m' -> length m' = length m.
Proof.
  intros H. apply modify_inv in H as (a & td & _ & _ & ->).
  apply length_store.
Qed.

Lemma modify_load_ne (m m' : Mem) (c a : nat) (f : TILEDESC -> TILEDESC) :
  modify m (Some c) f = Some m' -> a <> c ->
  load m' (Some a) = load m (Some a).
Proof.
  intros H Hne. apply modify_inv in H as (a' & td & [= <-] & _ & ->).
  by rewrite load_store_ne.
Qed.

Lemma bit6_set (x : Z) : Z.land (Z.lor x 64) 64 <> 0.
Proof.
  intros H. apply (f_equal (fun z => Z.testbit z 6)) in H.
  rewrite Z.land_spec, Z.lor_spec, Z.bits_0 in H.
  change (Z.testbit 64 6) with true in H.
  by rewrite orb_true_r in H.
Qed.

Lemma subtiles_added_refl (tm : TileManager) (s : SubtileState) :
  subtiles_added tm s s.
Proof.
  destruct s as [[[nt ns] p] m]. split; [apply catalogued_refl|].
  rewrite Nat.sub_diag. lia.
Qed.

Lemma subtiles_added_trans (tm : TileManager) (s1 s2 s3 : SubtileState) :
  subtiles_added tm s1 s2 -> subtiles_added tm s2 s3 ->
  subtiles_added tm s1 s3.
Proof.
  destruct s1 as [[[nt1 ns1] p1] m1], s2 as [[[nt2 ns2] p2] m2],
           s3 as [[[nt3 ns3] p3] m3].
  intros (Hc1 & Hn1 & Hs1) (Hc2 & Hn2 & Hs2).
  pose proof Hc1 as (Hl1 & _). pose proof Hc2 as (Hl2 & _).
  split; [by eapply catalogued_trans|]. lia.
Qed.

Lemma AddSubtileData_added (fuel : nat) (tm : TileManager)
    (tfs : list TILEFILESPEC) :
  forall (td : nat) (idx sub lvl : Z) (s s' : SubtileState),
    AddSubtileData fuel tm tfs td idx sub lvl s = Some s' ->
    subtiles_added tm s s'.
Proof.
  induction fuel as [|fuel IH]; intros td idx sub lvl s s' H; [done|].
  destruct s as [[[nt ns] p] m]. cbn [AddSubtileData] in H.
  bind_inv H as ti Eti. bind_inv H as subidx Esub. bind_inv H as t Et.
  destruct (negb (flags t =? 0) || has_subtiles t).
  2:{ injection H as <-. apply subtiles_added_refl. }
  destruct (lvl <=? maxlvl tm).
  2:{ bind_inv H as m2 E2. injection H as <-.
      split; [by eapply catalogued_modify|].
      rewrite (modify_length _ _ _ _ E2), Nat.sub_diag. lia. }
  bind_inv H as [[c p1] m1] Eadd. bind_inv H as m2 E2.
  bind_inv H as m3 E3. bind_inv H as m4 E4. bind_inv H as m5 E5.
  bind_inv H as m6 E6. bind_inv H as m7 E7.
  bind_inv H as [[[nt8 ns8] p8] m8] E8. injection H as <-.
  apply AddTile_alloc in Eadd as (-> & o & ->).
  set (c := length m) in *.
  assert (Hlen7 : length m7 = S (length m) /\
                  (forall a, a <> c -> load m7 (Some a) = load m2 (Some a)) /\
                  exists d, load m7 (Some c) = Some d /\
                            Z.land (flag d) 128 <> 0 /\
                            ((tilever tm =? 0) = true ->
                             Z.land (flag d) 64 <> 0)).
  { assert (H5 : length m5 = length m4 /\
                 forall a, a <> c -> load m5 (Some a) = load m4 (Some a)).
    { destruct (bGlobalSpecular tm || bGlobalLights tm).
      - destruct (midx t =? NOTILE).
        + by injection E5 as <-.
        + split; [by eapply modify_length|].
          intros a Ha. by eapply modify_load_ne.
      - split; [by eapply modify_length|].
        intros a Ha. by eapply modify_load_ne. }
    destruct H5 as [Hl5 Hf5].
    pose proof (modify_length _ _ _ _ E2) as Hl2.
    pose proof (modify_length _ _ _ _ E3) as Hl3.
    pose proof (modify_length _ _ _ _ E4) as Hl4.
    pose proof (modify_length _ _ _ _ E6) as Hl6.
    rewrite length_app in Hl2. cbn [length] in Hl2.
    pose proof (modify_load _ _ _ _ E6) as (d5 & _ & Hd6).
    destruct (tilever tm =? 0).
    - pose proof (modify_length _ _ _ _ E7) as Hl7.
      split; [lia|]. split.
      + intros a Ha. rewrite (modify_load_ne _ _ _ _ _ E7 Ha),
          (modify_load_ne _ _ _ _ _ E6 Ha), (Hf5 a Ha),
          (modify_load_ne _ _ _ _ _ E4 Ha),
          (modify_load_ne _ _ _ _ _ E3 Ha). done.
      + pose proof (modify_load _ _ _ _ E7) as (d6 & Hd6' & Hd7).
        rewrite Hd6 in Hd6'. injection Hd6' as <-.
        eexists. split; [exact Hd7|]. cbn [flag set_flag].
        split; [apply bit7_kept, bit7_set|]. intros _. apply bit6_set.
    - injection E7 as <-. split; [lia|]. split.
      + intros a Ha. rewrite (modify_load_ne _ _ _ _ _ E6 Ha), (Hf5 a Ha),
          (modify_load_ne _ _ _ _ _ E4 Ha),
          (modify_load_ne _ _ _ _ _ E3 Ha). done.
      + eexists. split; [exact Hd6|]. cbn [flag set_flag].
        split; [apply bit7_set|done]. }
  destruct Hlen7 as (Hl7 & Hf7 & d7 & Hd7 & Hb7 & Hq7).
  assert (Hcat7 : catalogued (tilever tm =? 0) m m7).
  { split; [lia|]. split.
    - intros a d Hd. pose proof (load_Some_lt _ _ _ Hd) as Hlt.
      rewrite Hf7 by (unfold c; lia).
      destruct (catalogued_modify false _ _ _ _ E2) as (_ & Hold & _).
      { intros d0. by unfold same_texture. }
      apply Hold. by rewrite load_app_l.
    - intros a Ha. replace a with c by (unfold c; lia). by exists d7. }
  assert (H8 : subtiles_added tm (nt, ns, p1, m7) (nt8, ns8, p8, m8)).
  { destruct (has_subtiles t); [|injection E8 as <- <- <- <-;
                                  apply subtiles_added_refl].
    unfold for_range in E8.
    refine (for_loop_rel (subtiles_added tm) _ _ _ _ _
              (subtiles_added_refl tm) (subtiles_added_trans tm) _ E8).
    intros j s1 s2 Hb. unfold AddSubtileData_sub in Hb.
    bind_inv Hb as sj Esj.
    destruct (sj =? 0); [injection Hb as <-; apply subtiles_added_refl|].
    by eapply IH. }
  destruct H8 as (Hc8 & Hn8 & Hs8). pose proof Hc8 as (Hl8 & _).
  split; [by eapply catalogued_trans|].
  destruct (midx t =? NOTILE); lia.
Qed.

(** X13.  The descriptors [LoadTileData] creates and its counters agree:
    [nhitex] grows by exactly the number of descriptors added to the
    store, [nhispec] by at most that number; every descriptor added is
    marked as not loaded (bit [0x80]), and as old-style (bit [0x40]) when
    the file has no header; and the descriptors that were there keep
    their textures and their flags (only their links change). *)
Theorem LoadTileData_counts (qsort : list IDXLIST -> list IDXLIST)
    (fuel : nat) (file : option TOCFILE) (tm tm' : TileManager)
    (p p' : TilePool) (m m' : Mem) (b : bool) :
  LoadTileData qsort fuel file tm p m = Some (b, tm', p', m') ->
  catalogued (tilever tm' =? 0) m m' /\
  nhitex tm' = nhitex tm + Z.of_nat (length m' - length m) /\
  nhispec tm <= nhispec tm' <= nhispec tm + Z.of_nat (length m' - length m).
Proof.
  unfold LoadTileData. intros H.
  destruct (maxlvl tm <=? 8).
  { injection H as _ <- _ <-. split; [apply catalogued_refl|].
    rewrite Nat.sub_diag. lia. }
  destruct file as [f|].
  2:{ injection H as _ <- _ <-. split; [apply catalogued_refl|].
      rewrite Nat.sub_diag. lia. }
  destruct (convert_toc qsort (bPreloadTile tm)
              (if toc_header f then 1 else 0) (toc_tfs f)) as [tfs ver].
  bind_inv H as [[[nt ns] p1] m1] El. injection H as _ <- _ <-.
  cbn [tilever nhitex nhispec set_nhi set_tilever].
  unfold for_range in El.
  refine (for_loop_rel (subtiles_added (set_tilever ver tm)) _ _ _ _
            (nt, ns, p1, m1)
            (subtiles_added_refl _) (subtiles_added_trans _) _ El).
  intros i s1 s2 Hb. unfold tile8_body, for_range in Hb.
  refine (for_loop_rel (subtiles_added (set_tilever ver tm)) _ _ _ _ _
            (subtiles_added_refl _) (subtiles_added_trans _) _ Hb).
  clear. intros j s1 s2 Hb. bind_inv Hb as ti Eti. bind_inv Hb as sj Esj.
  destruct (sj =? 0); [injection Hb as <-; apply subtiles_added_refl|].
  bind_inv Hb as k Ek. bind_inv Hb as t8 Et8.
  by eapply AddSubtileData_added.
Qed.

(** The theorem for the table of contents [sample_tocfile]. *)
Lemma LoadTileData_counts_witness :
  exists tm' p' m',
    LoadTileData qsort_merge 3 (Some sample_tocfile) sample_tm9 sample_pool
                 (sample_mem 501) = Some (true, tm', p', m') /\
    nhitex tm' = Z.of_nat (length m' - 501).
Proof.
  destruct (LoadTileData qsort_merge 3 (Some sample_tocfile) sample_tm9
              sample_pool (sample_mem 501))
    as [[[[b tm'] p'] m']|] eqn:E; [|vm_compute in E; discriminate].
  pose proof (LoadTileData_counts _ _ _ _ _ _ _ _ _ _ E) as (_ & Hn & _).
  assert (Hb : b = true).
  { vm_compute in E. by injection E as <- _ _ _. }
  subst b. exists tm', p', m'. split; [done|].
  rewrite Hn. unfold sample_mem. by rewrite length_replicate.
Defined.

Example LoadTileData_one_subtile :
  exists tm' p' m' d,
    LoadTileData qsort_merge 3 (Some sample_tocfile) sample_tm9 sample_pool
                 (sample_mem 501) = Some (true, tm', p', m') /\
    nhitex tm' = 1 /\ length m' = 502%nat /\
    load m' (Some 501%nat) = Some d /\ flag d = 129.
Proof.
  eexists _, _, _, _. split; [vm_compute; reflexivity|].
  repeat split; vm_compute; reflexivity.
Qed.

(** ** The destructor of the pool *)

Lemma ReleaseTex_if_resolved (v : texval) (cat : Catalog) :
  resolved v ->
  exists cat', ReleaseTex_if v cat = Some cat' /\
               forall h, h ∈ cat' <-> h ∈ cat /\ v <> TexHnd h.
Proof.
  unfold ReleaseTex_if, ReleaseTex, tex_nonnull. destruct v as [i|h0]; cbn.
  - intros ->. cbn. exists cat. split; [done|]. intros h.
    split; [intros ?; split; done|by intros [? _]].
  - intros _. eexists. split; [done|]. intros h.
    rewrite elem_of_difference, elem_of_singleton.
    split; intros [? Hne]; (split; [done|]); congruence.
Qed.

Lemma destroy_slots_spec (slots : list tileptr) :
  forall (m : Mem) (cat : Catalog),
    NoDup (omap id slots) ->
    (forall a, a ∈ omap id slots ->
       exists td, load m (Some a) = Some td /\
                  (Z.land (flag td) 128 = 0 ->
                   resolved (tex td) /\ resolved (ltex td))) ->
    exists m' cat',
      destroy_slots slots (m, cat) = Some (m', cat') /\
      (forall a, a ∈ omap id slots -> load m' (Some a) = None) /\
      (forall b, b ∉ omap id slots -> m' !! b = m !! b) /\
      (forall h, h ∈ cat' <-> h ∈ cat /\ ~ pool_releases slots m h).
Proof.
  induction slots as [|[a|] slots IH]; intros m cat Hnd Hlive.
  - exists m, cat. split; [done|]. split; [by intros a Ha%elem_of_nil|].
    split; [done|]. intros h. split; [|by intros [? _]].
    intros Hh. split; [done|]. intros (a & td & Ha%elem_of_nil & _). done.
  - change (omap id (Some a :: slots)) with (a :: omap id slots) in *.
    apply NoDup_cons in Hnd as [Ha Hnd].
    destruct (Hlive a ltac:(left)) as (td & Htd & Hres).
    pose proof (load_Some_lt _ _ _ Htd) as Hlt.
    assert (Hcat1 : exists cat1,
      (if Z.land (flag td) 128 =? 0
       then cat ← ReleaseTex_if (tex td) cat; ReleaseTex_if (ltex td) cat
       else Some cat) = Some cat1 /\
      forall h, h ∈ cat1 <->
                h ∈ cat /\ ~ (Z.land (flag td) 128 = 0 /\ holds_handle h td)).
    { destruct (Z.eqb_spec (Z.land (flag td) 128) 0) as [Hb|Hb].
      - destruct (Hres Hb) as [Ht Hl].
        destruct (ReleaseTex_if_resolved (tex td) cat Ht) as (c1 & E1 & H1).
        destruct (ReleaseTex_if_resolved (ltex td) c1 Hl) as (c2 & E2 & H2).
        exists c2. rewrite E1. cbn [mbind option_bind]. split; [done|].
        intros h. rewrite H2, H1. unfold holds_handle. tauto.
      - exists cat. split; [done|]. intros h. tauto. }
    destruct Hcat1 as (cat1 & Ecat1 & Hcat1).
    destruct (IH (free m a) cat1 Hnd) as (m' & cat' & Hrun & Hdead & Hfr & Hc).
    { intros b Hb. destruct (Hlive b ltac:(by right)) as (tdb & Htdb & Hr).
      exists tdb. split; [|done]. rewrite load_free_ne; [done|].
      intros ->. done. }
    exists m', cat'. split; [|split; [|split]].
    + cbn [destroy_slots destroy_slot]. rewrite Htd.
      cbn [mbind option_bind]. rewrite Ecat1. cbn [mbind option_bind].
      exact Hrun.
    + intros b Hb. apply elem_of_cons in Hb as [->|Hb]; [|by apply Hdead].
      apply eq_None_not_Some. intros [d Hd]. apply load_lookup in Hd.
      rewrite (Hfr a Ha) in Hd. unfold free in Hd.
      by rewrite list_lookup_insert_eq in Hd.
    + intros b Hb. apply not_elem_of_cons in Hb as [Hne Hb].
      rewrite (Hfr b Hb). unfold free. by rewrite list_lookup_insert_ne.
    + intros h. rewrite Hc, Hcat1. unfold pool_releases.
      change (omap id (Some a :: slots)) with (a :: omap id slots).
      split.
      * intros [[Hin Hn1] Hn2]. split; [done|].
        intros (b & tdb & Hb & Htdb & Hbit & Hh).
        apply elem_of_cons in Hb as [->|Hb].
        -- apply Hn1. replace td with tdb by congruence. done.
        -- apply Hn2. exists b, tdb. split; [done|]. split; [|done].
           rewrite load_free_ne; [done|]. intros ->. done.
      * intros [Hin Hn]. split; [split; [done|]|].
        -- intros [Hbit Hh]. apply Hn. exists a, td.
           split; [left|done].
        -- intros (b & tdb & Hb & Htdb & Hbit & Hh). apply Hn.
           exists b, tdb. split; [by right|]. split; [|done].
           by eapply load_free_Some.
  - change (omap id (None :: slots)) with (omap id slots) in *.
    destruct (IH m cat Hnd Hlive) as (m' & cat' & Hrun & Hrest).
    exists m', cat'. split; [exact Hrun|]. exact Hrest.
Qed.

(** X14.  The destructor of the pool, when the occupied slots of [buf]
    hold distinct live descriptors and no descriptor marked as loaded
    holds an archive index in [tex] or [ltex]: it completes, it deletes
    every descriptor of the pool and no other, and it takes off the
    catalogue exactly the texture objects that the loaded descriptors of
    the pool refer to; what a descriptor marked as not loaded holds is
    never released. *)
Theorem TileBuffer_destroy_releases (p : TilePool) (m : Mem)
    (cat : Catalog) :
  NoDup (pool_tiles p) ->
  (forall a, a ∈ pool_tiles p ->
     exists td, load m (Some a) = Some td /\
                (Z.land (flag td) 128 = 0 ->
                 resolved (tex td) /\ resolved (ltex td))) ->
  exists m' cat',
    TileBuffer_destroy p m cat = Some (m', cat') /\
    (forall a, a ∈ pool_tiles p -> load m' (Some a) = None) /\
    (forall b, b ∉ pool_tiles p -> m' !! b = m !! b) /\
    (forall h, h ∈ cat' <-> h ∈ cat /\ ~ pool_releases (buf p) m h).
Proof.
  intros Hnd Hlive. unfold TileBuffer_destroy.
  apply (destroy_slots_spec (buf p) m cat Hnd Hlive).
Qed.

(** The theorem for the pool that holds the loaded child of
    [sample_mem_loaded], whose texture is the object 2. *)
Lemma TileBuffer_destroy_releases_witness :
  exists m' cat',
    TileBuffer_destroy sample_pool_loaded sample_mem_loaded
                       ({[ 2%positive ]} ∪ {[ 1%positive ]})
    = Some (m', cat') /\
    load m' (Some 1%nat) = None /\
    (2%positive ∉ cat') /\ (1%positive ∈ cat').
Proof.
  destruct (TileBuffer_destroy_releases sample_pool_loaded sample_mem_loaded
              ({[ 2%positive ]} ∪ {[ 1%positive ]}))
    as (m' & cat' & Hrun & Hdead & _ & Hcat).
  - cbn. apply NoDup_singleton.
  - intros a Ha. cbn in Ha. apply list_elem_of_singleton in Ha as ->.
    eexists. split; [reflexivity|]. intros _. by split.
  - exists m', cat'. split; [exact Hrun|]. split.
    + apply Hdead. cbn. left.
    + split.
      * rewrite Hcat. intros [_ Hn]. apply Hn. eexists 1%nat, _.
        split; [cbn; left|]. split; [reflexivity|]. split; [done|by left].
      * apply Hcat.
        split; [apply elem_of_union; right; by apply elem_of_singleton|].
        intros (a & td & Ha & Htd & _ & Hh). cbn in Ha.
        apply list_elem_of_singleton in Ha as ->.
        cbn in Htd. injection Htd as <-.
        destruct Hh as [Hh|Hh]; discriminate.
Defined.

(** ** [CreateSphere] *)

Lemma to_WORD_small (x : Z) : 0 <= x <= 65535 -> to_WORD x = x.
Proof.
  intros H. unfold to_WORD. change 65535 with (Z.ones 16).
  rewrite Z.land_ones by lia. apply Z.mod_small. lia.
Qed.

Lemma to_DWORD_small (x : Z) : 0 <= x < 2 ^ 32 -> to_DWORD x = x.
Proof. intros H. unfold to_DWORD. by apply Z.mod_small. Qed.

(** A loop with a [WORD] counter whose bound the counter can reach. *)
Lemma word_for_inv {St : Type} (P : Z -> St -> Prop) (fuel : nat)
    (x bound : Z) (body : Z -> St -> option St) (s : St) :
  0 <= x <= bound -> bound <= 65535 ->
  (Z.to_nat (bound - x) < fuel)%nat ->
  P x s ->
  (forall k s, x <= k < bound -> P k s ->
               exists s', body k s = Some s' /\ P (k + 1) s') ->
  exists s', word_for fuel x bound body s = Some (bound, s') /\ P bound s'.
Proof.
  revert x s. induction fuel as [|fuel IH]; intros x s Hx Hb Hf H0 Hstep;
    [lia|].
  cbn [word_for]. destruct (Z.ltb_spec x bound) as [Hlt|Hge].
  - destruct (Hstep x s ltac:(lia) H0) as (s1 & Hb1 & H1).
    rewrite Hb1. cbn [mbind option_bind].
    rewrite to_WORD_small by lia.
    apply IH; [lia|done|lia|done|].
    intros k s2 Hk. apply Hstep. lia.
  - replace x with bound in * by lia. by exists s.
Qed.

Section SphereFacts.
Variable V : Type.
Variable ring_vertex : Z -> bool -> Z -> Z -> Z -> Z -> V.
Variables north_vertex south_vertex : V.

Lemma push_vertex_spec (v : V) (vp : Z) (Vtx : list (option V)) :
  0 <= vp < Z.of_nat (length Vtx) -> vp < 65535 ->
  filled (fun _ => True) vp Vtx ->
  exists Vtx',
    push_vertex V v (vp, vp, Vtx) = Some (vp + 1, vp + 1, Vtx') /\
    length Vtx' = length Vtx /\ filled (fun _ => True) (vp + 1) Vtx'.
Proof.
  intros Hvp Hw Hf. unfold push_vertex.
  destruct (array_store_filled (fun _ => True) Vtx vp v Hvp Hf I)
    as (Vtx' & Hst & Hlen & Hf').
  rewrite Hst. cbn [mbind option_bind]. rewrite to_WORD_small by lia.
  by exists Vtx'.
Qed.

(** The loop over the rings of vertices. *)
Lemma ring_loop_spec (fuel : nat) (nrings x2 which_half texres : Z)
    (hemisphere : bool) (Vtx : list (option V)) :
  0 <= nrings -> 0 <= x2 -> nrings * x2 <= 65534 ->
  nrings <= 65535 -> x2 <= 65535 ->
  nrings * x2 <= Z.of_nat (length Vtx) ->
  (Z.to_nat nrings < fuel)%nat -> (Z.to_nat x2 < fuel)%nat ->
  exists r Vtx',
    word_for fuel 0 nrings
      (fun y s =>
         snd <$> word_for fuel 0 x2
                   (fun x s =>
                      push_vertex V (ring_vertex nrings hemisphere which_half
                                                 texres y x) s)
                   s)
      (0, 0, Vtx)
    = Some (r, (nrings * x2, nrings * x2, Vtx')) /\
    length Vtx' = length Vtx /\
    filled (fun _ => True) (nrings * x2) Vtx'.
Proof.
  intros Hn Hx2 Hsmall Hn16 Hx16 Hlen Hf1 Hf2.
  set (ring := fun (y : Z) (s : Z * Z * list (option V)) =>
         snd <$> word_for fuel 0 x2
                   (fun x s =>
                      push_vertex V (ring_vertex nrings hemisphere which_half
                                                 texres y x) s)
                   s).
  destruct (word_for_inv
    (fun y (s : Z * Z * list (option V)) =>
       exists Vy, s = (y * x2, y * x2, Vy) /\ length Vy = length Vtx /\
                  filled (fun _ => True) (y * x2) Vy)
    fuel 0 nrings ring (0, 0, Vtx)) as (s' & Hrun & Vf & -> & Hl & Hfill);
    [lia|lia|lia| | |].
  - exists Vtx. split; [done|]. split; [done|]. intros k Hk. lia.
  - intros y s Hy (Vy & -> & Hly & Hfy). unfold ring.
    destruct (word_for_inv
      (fun x (s : Z * Z * list (option V)) =>
         exists Vx, s = (y * x2 + x, y * x2 + x, Vx) /\
                    length Vx = length Vtx /\
                    filled (fun _ => True) (y * x2 + x) Vx)
      fuel 0 x2
      (fun x s => push_vertex V (ring_vertex nrings hemisphere which_half
                                             texres y x) s)
      (y * x2, y * x2, Vy)) as (s' & Hrun & Vf & -> & Hl & Hfill);
      [lia|lia|lia| | |].
    + exists Vy. rewrite Z.add_0_r. done.
    + intros x s Hx (Vx & -> & Hlx & Hfx).
      destruct (push_vertex_spec
                  (ring_vertex nrings hemisphere which_half texres y x)
                  (y * x2 + x) Vx) as (Vx' & Hp & Hlx' & Hfx');
        [nia|nia|done|].
      rewrite Hp. eexists. split; [done|]. exists Vx'.
      rewrite Z.add_assoc. split; [done|]. split; [congruence|done].
    + rewrite Hrun. cbn [fmap option_fmap option_map snd]. eexists.
      split; [done|]. exists Vf.
      replace ((y + 1) * x2) with (y * x2 + x2) by lia. done.
  - exists nrings, Vf. done.
Qed.
End SphereFacts.

Lemma index_ok (e nv : Z) :
  0 <= e < nv -> nv <= 65536 -> 0 <= to_WORD (to_DWORD e) < nv.
Proof.
  intros He Hnv. rewrite to_DWORD_small by lia.
  rewrite to_WORD_small by lia. done.
Qed.

(** The loop over the rows of faces between the rings. *)
Lemma face_rows_spec (fuel : nat) (nrings x1 nv : Z)
    (Idx : list (option Z)) :
  1 <= nrings -> 0 <= x1 -> nv = nrings * (x1 + 1) + 2 -> nv <= 65536 ->
  6 * (nrings - 1) * x1 <= Z.of_nat (length Idx) ->
  (Z.to_nat nrings < fuel)%nat -> (Z.to_nat x1 < fuel)%nat ->
  exists Idx',
    word_for fuel 0 (nrings - 1)
      (fun y s =>
         snd <$> word_for fuel 0 x1
                   (fun x s =>
                      s ← store3 (to_DWORD (y * (x1 + 1) + x))
                                 (to_DWORD (y * (x1 + 1) + (x + 1)))
                                 (to_DWORD ((y + 1) * (x1 + 1) + x)) s;
                      store3 (to_DWORD (y * (x1 + 1) + (x + 1)))
                             (to_DWORD ((y + 1) * (x1 + 1) + (x + 1)))
                             (to_DWORD ((y + 1) * (x1 + 1) + x)) s)
                   s)
      (0, Idx)
    = Some (nrings - 1, (6 * (nrings - 1) * x1, Idx')) /\
    length Idx' = length Idx /\
    filled (fun v => 0 <= v < nv) (6 * (nrings - 1) * x1) Idx'.
Proof.
  intros Hn Hx1 Hnv Hsmall Hlen Hf1 Hf2.
  set (P := fun v : Z => 0 <= v < nv).
  set (row := fun (y : Z) (s : Z * list (option Z)) =>
         snd <$> word_for fuel 0 x1
                   (fun x s =>
                      s ← store3 (to_DWORD (y * (x1 + 1) + x))
                                 (to_DWORD (y * (x1 + 1) + (x + 1)))
                                 (to_DWORD ((y + 1) * (x1 + 1) + x)) s;
                      store3 (to_DWORD (y * (x1 + 1) + (x + 1)))
                             (to_DWORD ((y + 1) * (x1 + 1) + (x + 1)))
                             (to_DWORD ((y + 1) * (x1 + 1) + x)) s)
                   s).
  destruct (word_for_inv
    (fun y (s : Z * list (option Z)) =>
       exists Iy, s = (6 * y * x1, Iy) /\ length Iy = length Idx /\
                  filled P (6 * y * x1) Iy)
    fuel 0 (nrings - 1) row (0, Idx)) as (s' & Hrun & If & -> & Hl & Hfill);
    [lia|nia|lia| | |].
  - exists Idx. split; [done|]. split; [done|]. intros k Hk. lia.
  - intros y s Hy (Iy & -> & Hly & Hfy). unfold row.
    destruct (word_for_inv
      (fun x (s : Z * list (option Z)) =>
         exists Ix, s = (6 * y * x1 + 6 * x, Ix) /\
                    length Ix = length Idx /\
                    filled P (6 * y * x1 + 6 * x) Ix)
      fuel 0 x1
      (fun x s =>
         s ← store3 (to_DWORD (y * (x1 + 1) + x))
                    (to_DWORD (y * (x1 + 1) + (x + 1)))
                    (to_DWORD ((y + 1) * (x1 + 1) + x)) s;
         store3 (to_DWORD (y * (x1 + 1) + (x + 1)))
                (to_DWORD ((y + 1) * (x1 + 1) + (x + 1)))
                (to_DWORD ((y + 1) * (x1 + 1) + x)) s)
      (6 * y * x1, Iy)) as (s' & Hrun & If & -> & Hl & Hfill);
      [lia|nia|lia| | |].
    + exists Iy. rewrite Z.add_0_r. done.
    + intros x s Hx (Ix & -> & Hlx & Hfx).
      destruct (store3_spec P (to_DWORD (y * (x1 + 1) + x))
                  (to_DWORD (y * (x1 + 1) + (x + 1)))
                  (to_DWORD ((y + 1) * (x1 + 1) + x))
                  (6 * y * x1 + 6 * x) Ix) as (I1 & H1 & Hl1 & Hf1');
        [nia|nia|done|apply index_ok; nia|apply index_ok; nia
        |apply index_ok; nia|].
      rewrite H1. cbn [mbind option_bind].
      destruct (store3_spec P (to_DWORD (y * (x1 + 1) + (x + 1)))
                  (to_DWORD ((y + 1) * (x1 + 1) + (x + 1)))
                  (to_DWORD ((y + 1) * (x1 + 1) + x))
                  (6 * y * x1 + 6 * x + 3) I1) as (I2 & H2 & Hl2 & Hf2');
        [nia|nia|done|apply index_ok; nia|apply index_ok; nia
        |apply index_ok; nia|].
      rewrite H2. eexists. split; [done|]. exists I2.
      replace (6 * y * x1 + 6 * (x + 1)) with (6 * y * x1 + 6 * x + 3 + 3)
        by lia.
      split; [done|]. split; [congruence|done].
    + rewrite Hrun. cbn [fmap option_fmap option_map snd]. eexists.
      split; [done|]. exists If.
      replace (6 * (y + 1) * x1) with (6 * y * x1 + 6 * x1) by lia. done.
  - exists If. done.
Qed.

(** A loop that closes a pole with a fan of triangles. *)
Lemma cap_loop_spec (fuel : nat) (x1 nv a : Z) (f g : Z -> Z) (n : Z)
    (Idx : list (option Z)) :
  0 <= x1 -> x1 <= 65535 -> 0 <= n ->
  n + 3 * x1 <= Z.of_nat (length Idx) ->
  filled (fun v => 0 <= v < nv) n Idx ->
  0 <= to_WORD a < nv ->
  (forall x, 0 <= x < x1 ->
             0 <= to_WORD (f x) < nv /\ 0 <= to_WORD (g x) < nv) ->
  (Z.to_nat x1 < fuel)%nat ->
  exists Idx',
    word_for fuel 0 x1 (fun x s => store3 a (f x) (g x) s) (n, Idx)
    = Some (x1, (n + 3 * x1, Idx')) /\
    length Idx' = length Idx /\
    filled (fun v => 0 <= v < nv) (n + 3 * x1) Idx'.
Proof.
  intros Hx1 Hx16 Hn Hlen Hfill Ha Hfg Hf.
  destruct (word_for_inv
    (fun x (s : Z * list (option Z)) =>
       exists Ix, s = (n + 3 * x, Ix) /\ length Ix = length Idx /\
                  filled (fun v => 0 <= v < nv) (n + 3 * x) Ix)
    fuel 0 x1 (fun x s => store3 a (f x) (g x) s) (n, Idx))
    as (s' & Hrun & If & -> & Hl & Hfill'); [lia|lia|lia| | |].
  - exists Idx. by rewrite Z.add_0_r.
  - intros x s Hx (Ix & -> & Hlx & Hfx).
    destruct (Hfg x Hx) as [Hfx' Hgx'].
    destruct (store3_spec (fun v => 0 <= v < nv) a (f x) (g x)
                (n + 3 * x) Ix) as (I1 & H1 & Hl1 & Hf1);
      [lia|lia|done|done|done|done|].
    rewrite H1. eexists. split; [done|]. exists I1.
    replace (n + 3 * (x + 1)) with (n + 3 * x + 3) by lia.
    split; [done|]. split; [congruence|done].
  - exists If. done.
Qed.

Section SphereBounds.
Variable V : Type.
Variable ring_vertex : Z -> bool -> Z -> Z -> Z -> Z -> V.
Variables north_vertex south_vertex : V.

(** A vertex stored, whatever the [WORD] counter says. *)
Lemma push_vertex_any (v : V) (vp c : Z) (Vtx : list (option V)) :
  0 <= vp < Z.of_nat (length Vtx) ->
  filled (fun _ => True) vp Vtx ->
  exists Vtx',
    push_vertex V v (vp, c, Vtx) = Some (vp + 1, to_WORD (c + 1), Vtx') /\
    length Vtx' = length Vtx /\ filled (fun _ => True) (vp + 1) Vtx'.
Proof.
  intros Hvp Hf. unfold push_vertex.
  destruct (array_store_filled (fun _ => True) Vtx vp v Hvp Hf I)
    as (Vtx' & Hst & Hlen & Hf').
  rewrite Hst. by exists Vtx'.
Qed.

(** X15.  For [nrings >= 1] and a vertex count
    [nrings * (x1 + 1) + 2] of at most 65536, where [x1] is [nrings] for a
    hemisphere and [2 * nrings] for a full sphere, [CreateSphere] ends
    (given fuel for its longest loop) with a mesh of exactly that many
    vertices and [2 * nrings * x1] faces, both arrays written completely
    and never beyond their ends, and every index of the index buffer
    names a vertex of the mesh. *)
Theorem CreateSphere_in_bounds (fuel : nat) (nrings : Z) (hemisphere : bool)
    (which_half texres : Z) :
  let x1 := if hemisphere then nrings else nrings * 2 in
  1 <= nrings -> nrings * (x1 + 1) + 2 <= 65536 ->
  (Z.to_nat x1 + 1 < fuel)%nat ->
  exists mesh,
    CreateSphere V ring_vertex north_vertex south_vertex fuel nrings
                 hemisphere which_half texres = Some mesh /\
    nVtx mesh = nrings * (x1 + 1) + 2 /\
    Z.of_nat (length (pVB mesh)) = nVtx mesh /\
    nFace mesh = 2 * nrings * x1 /\
    Z.of_nat (length (pIB mesh)) = 3 * nFace mesh /\
    Forall (fun i => 0 <= i < nVtx mesh) (pIB mesh).
Proof.
  intros x1 Hn Hsmall Hfuel.
  assert (Hx1 : nrings <= x1 <= 2 * nrings)
    by (unfold x1; destruct hemisphere; lia).
  assert (E1 : to_DWORD (if hemisphere then nrings else nrings * 2) = x1).
  { unfold x1. destruct hemisphere; apply to_DWORD_small; nia. }
  assert (Ev : to_DWORD (if hemisphere then nrings * (nrings + 1) + 2
                         else nrings * (2 * nrings + 1) + 2)
               = nrings * (x1 + 1) + 2).
  { unfold x1.
    destruct hemisphere; (rewrite to_DWORD_small; [lia|]); nia. }
  assert (Ei : to_DWORD (if hemisphere then 6 * nrings * nrings
                         else 12 * nrings * nrings) = 6 * nrings * x1).
  { unfold x1.
    destruct hemisphere; (rewrite to_DWORD_small; [lia|]); nia. }
  clearbody x1. unfold CreateSphere. cbv zeta.
  rewrite E1, Ev, Ei.
  rewrite (to_DWORD_small (x1 + 1)) by nia.
  rewrite (to_DWORD_small (nrings - 1)) by nia.
  set (nv := nrings * (x1 + 1) + 2) in *.
  destruct (new_array_Some (A := V) nv) as (V0 & -> & HlV & _); [nia|].
  destruct (new_array_Some (A := Z) (6 * nrings * x1))
    as (I0 & -> & HlI & HfI); [nia|].
  cbn [mbind option_bind].
  destruct (ring_loop_spec V ring_vertex fuel nrings (x1 + 1) which_half
              texres hemisphere V0)
    as (r & V1 & -> & HlV1 & HfV1); [lia|lia|nia|nia|nia|nia|lia|lia|].
  cbn [mbind option_bind].
  destruct (face_rows_spec fuel nrings x1 nv I0)
    as (I1 & -> & HlI1 & HfI1); [lia|lia|done|done|nia|lia|lia|].
  cbn [mbind option_bind].
  destruct (push_vertex_spec V north_vertex (nrings * (x1 + 1)) V1)
    as (V2 & -> & HlV2 & HfV2); [nia|nia|done|].
  cbn [mbind option_bind].
  destruct (push_vertex_any south_vertex (nrings * (x1 + 1) + 1)
              (nrings * (x1 + 1) + 1) V2)
    as (V3 & -> & HlV3 & HfV3); [nia|done|].
  cbn [mbind option_bind].
  destruct (cap_loop_spec fuel x1 nv (nrings * (x1 + 1) + 1)
              (fun x => to_DWORD ((nrings - 1) * (x1 + 1) + (x + 1)))
              (fun x => to_DWORD ((nrings - 1) * (x1 + 1) + x))
              (6 * (nrings - 1) * x1) I1)
    as (I2 & -> & HlI2 & HfI2);
    [lia|nia|nia|nia|done|rewrite to_WORD_small by nia; unfold nv; lia
    | |lia|].
  { intros x Hx. split; apply index_ok; unfold nv; nia. }
  cbn [mbind option_bind].
  destruct (cap_loop_spec fuel x1 nv (nrings * (x1 + 1))
              (fun x => to_DWORD (0 * (x1 + 1) + (x + 1)))
              (fun x => to_DWORD (0 * (x1 + 1) + x))
              (6 * (nrings - 1) * x1 + 3 * x1) I2)
    as (I3 & -> & HlI3 & HfI3);
    [lia|nia|nia|nia|done|rewrite to_WORD_small by nia; unfold nv; lia
    | |lia|].
  { intros x Hx. split; apply index_ok; unfold nv; nia. }
  cbn [mbind option_bind].
  destruct (array_contents_filled (fun _ => True) V3)
    as (vb & -> & Hlvb & _).
  { replace (Z.of_nat (length V3)) with (nrings * (x1 + 1) + 1 + 1);
      [done|]. rewrite HlV3, HlV2, HlV1. unfold nv in HlV. lia. }
  destruct (array_contents_filled (fun v => 0 <= v < nv) I3)
    as (ib & -> & Hlib & Hib).
  { replace (Z.of_nat (length I3))
      with (6 * (nrings - 1) * x1 + 3 * x1 + 3 * x1); [done|].
    rewrite HlI3, HlI2, HlI1. lia. }
  cbn [mbind option_bind]. eexists. split; [done|].
  cbn [nVtx nFace pVB pIB].
  assert (Hq : 6 * nrings * x1 / 3 = 2 * nrings * x1).
  { replace (6 * nrings * x1) with (2 * nrings * x1 * 3) by lia.
    apply Z.div_mul. lia. }
  rewrite Hq. split; [done|].
  split; [rewrite Hlvb, HlV3, HlV2, HlV1; lia|]. split; [done|].
  split; [rewrite Hlib, HlI3, HlI2, HlI1; lia|done].
Qed.
End SphereBounds.

Lemma CreateSphere_in_bounds_witness :
  exists mesh,
    CreateSphere (Z * Z) (fun _ _ _ _ y x => (y, x)) (-1, 0) (-1, 1)
                 20 6 false 0 64 = Some mesh /\
    nVtx mesh = 80 /\ nFace mesh = 144.
Proof.
  destruct (CreateSphere_in_bounds (Z * Z) (fun _ _ _ _ y x => (y, x))
              (-1, 0) (-1, 1) 20 6 false 0 64)
    as (mesh & E & Hv & _ & Hf & _); [lia|lia|cbn; lia|].
  exists mesh. split; [exact E|]. split; [exact Hv|exact Hf].
Defined.

(** ** [Render] *)

Lemma for_down_ind {St : Type} (P : Z -> St -> Prop) (n : nat) (i : Z)
    (body : Z -> St -> option St) (s s' : St) :
  for_down n i body s = Some s' -> P i s ->
  (forall k s s1, i - Z.of_nat n < k <= i -> P k s ->
                  body k s = Some s1 -> P (k - 1) s1) ->
  P (i - Z.of_nat n) s'.
Proof.
  revert i s. induction n as [|n IH]; intros i s Hrun H0 Hstep.
  - injection Hrun as <-. by replace (i - Z.of_nat 0) with i by lia.
  - cbn [for_down] in Hrun. bind_inv Hrun as s1 Hb.
    replace (i - Z.of_nat (S n)) with (i - 1 - Z.of_nat n) by lia.
    apply (IH _ _ Hrun).
    + apply (Hstep i s s1); [lia|done|done].
    + intros k s2 s3 Hk. apply Hstep. lia.
Qed.

Lemma sumZ_nonneg (l : list Z) : Forall (fun n => 0 <= n) l -> 0 <= sumZ l.
Proof.
  induction 1 as [|n l Hn _ IH]; [done|]. unfold sumZ in *. cbn [foldr]. lia.
Qed.

Lemma sumZ_drop (l : list Z) (k : nat) (n : Z) :
  l !! k = Some n -> sumZ (drop k l) = n + sumZ (drop (S k) l).
Proof. intros H. by rewrite (drop_S l n k H). Qed.

Lemma sumZ_drop_le (l : list Z) (k : nat) :
  Forall (fun n => 0 <= n) l -> 0 <= sumZ (drop k l) <= sumZ l.
Proof.
  intros Hl. rewrite <- (take_drop k l) at 3.
  unfold sumZ at 3. rewrite foldr_app. fold (sumZ (drop k l)).
  pose proof (sumZ_nonneg (drop k l) (Forall_drop _ _ _ Hl)) as Hd.
  split; [done|].
  assert (Hge : forall (t : list Z) z, Forall (fun n => 0 <= n) t ->
                                       z <= foldr Z.add z t).
  { intros t z. induction 1 as [|x t Hx _ IH]; cbn [foldr]; lia. }
  apply Hge. by apply Forall_take.
Qed.

(** The loop of [Render] over a table [l] of [nlat] bands: the body is
    called at positions that exist, with the indices below twice the sum
    of the table, one after the other, and the loop leaves [idx] at that
    number. *)
Lemma Render_loop_inv {St : Type} (R : Z -> St -> Prop) (nlat : Z)
    (l : list Z) (body : Z -> Z -> Z -> Z -> Z -> St -> option St)
    (s s' : St) (idx' : Z) :
  Z.of_nat (length l) = nlat -> Forall (fun n => 0 <= n) l ->
  (forall hemisp ilat ilng n idx s s1,
     0 <= hemisp <= 1 -> 0 <= ilat < nlat ->
     l !! Z.to_nat ilat = Some n -> 0 <= ilng < n ->
     0 <= idx < 2 * sumZ l -> R idx s ->
     body hemisp ilat ilng n idx s = Some s1 -> R (idx + 1) s1) ->
  Render_loop nlat (Some l) body s = Some (idx', s') -> R 0 s ->
  idx' = 2 * sumZ l /\ R idx' s'.
Proof.
  intros Hlen Hl Hstep Hrun H0. unfold Render_loop, for_range in Hrun.
  change (Z.to_nat (2 - 0)) with 2%nat in Hrun.
  pose proof (sumZ_nonneg l Hl) as HS.
  pose proof (for_loop_ind
    (fun h (st : Z * St) => fst st = h * sumZ l /\ R (fst st) (snd st))
    _ _ _ _ _ Hrun) as Hend. cbn [fst snd] in Hend.
  destruct Hend as [E HR]; [split; [lia|done]| |split; [lia|by rewrite E in *]].
  clear Hrun H0. intros h [idx0 s0] [idx1 s1] Hh [E0 HR0] Hrun.
  cbn [fst snd] in *.
  pose proof (for_down_ind
    (fun ilat (st : Z * St) =>
       fst st = h * sumZ l + sumZ (drop (Z.to_nat (ilat + 1)) l) /\
       R (fst st) (snd st))
    _ _ _ _ _ Hrun) as Hend. cbn [fst snd] in Hend.
  replace (nlat - 1 - Z.of_nat (Z.to_nat nlat)) with (-1) in Hend by lia.
  change (Z.to_nat (-1 + 1)) with 0%nat in Hend. rewrite drop_0 in Hend.
  destruct Hend as [E1 HR1]; [| |split; [lia|done]].
  { rewrite drop_ge by lia. cbn [sumZ foldr]. split; [lia|done]. }
  clear Hrun HR0. intros ilat [idx2 s2] [idx3 s3] Hilat [E2 HR2] Hrun.
  cbn [fst snd] in *.
  bind_inv Hrun as n En. cbn [mbind option_bind] in En.
  unfold table_at in En. destruct (Z.leb_spec 0 ilat) as [_|]; [|lia].
  pose proof (sumZ_drop l _ _ En) as Ed.
  replace (S (Z.to_nat ilat)) with (Z.to_nat (ilat + 1)) in Ed by lia.
  replace (Z.to_nat (ilat - 1 + 1)) with (Z.to_nat ilat) by lia.
  pose proof (sumZ_drop_le l (Z.to_nat ilat) Hl) as Hle.
  pose proof (sumZ_drop_le l (Z.to_nat (ilat + 1)) Hl) as Hle1.
  assert (Hn : 0 <= n).
  { apply (proj1 (Forall_forall _ l) Hl).
    by eapply list_elem_of_lookup_2. }
  unfold for_range in Hrun.
  pose proof (for_loop_ind
    (fun ilng (st : Z * St) =>
       fst st = idx2 + ilng /\ R (fst st) (snd st))
    _ _ _ _ _ Hrun) as Hend. cbn [fst snd] in Hend.
  destruct Hend as [E3 HR3]; [split; [lia|done]| |split; [lia|done]].
  clear Hrun. intros ilng [idx4 s4] [idx5 s5] Hilng [E4 HR4] Hb.
  cbn [fst snd] in *. bind_inv Hb as s6 Hb6. injection Hb as <- <-.
  split; [lia|].
  apply (Hstep h ilat ilng n idx4 s4 s6); try done; nia.
Qed.

(** The tables of the levels 5 to 8 agree: [NLNG] has [NLAT] bands, and
    the two hemispheres together have as many tiles as [patchidx] counts
    for the level. *)
Lemma Render_tables (k : Z) :
  5 <= k <= 8 ->
  exists nlat l lo hi,
    table_at NLAT k = Some nlat /\ table_at NLNG k = Some (Some l) /\
    patchidx_at (k - 1) = Some lo /\ patchidx_at k = Some hi /\
    Z.of_nat (length l) = nlat /\ Forall (fun n => 0 <= n) l /\
    2 * sumZ l = hi - lo /\ 0 <= lo < hi.
Proof.
  intros Hk.
  assert (k = 5 \/ k = 6 \/ k = 7 \/ k = 8) as [-> | [-> | [-> | ->]]] by lia;
    eexists _, _, _, _;
    (split; [reflexivity|]); (split; [reflexivity|]);
    (split; [reflexivity|]); (split; [reflexivity|]);
    (split; [reflexivity|]);
    (split; [repeat constructor; lia|]); (split; [reflexivity|lia]).
Qed.

Lemma limit_loop_ge {D : Type} (Dgt : D -> D -> bool) (Ddouble : D -> D)
    (fuel : nat) (cstep l : D) (m r : Z) :
  limit_loop D Dgt Ddouble fuel cstep l m = Some r -> 5 <= m -> 5 <= r.
Proof.
  revert l m. induction fuel as [|fuel IH]; intros l m; [done|].
  cbn [limit_loop]. destruct (Dgt cstep l && (5 <? m)) eqn:E.
  - apply andb_true_iff in E as [_ E]. apply Z.ltb_lt in E.
    intros H _. apply (IH _ _ H). lia.
  - by intros [= <-].
Qed.

(** The target level of [Render] for a request above level 4 on a planet
    with more than four levels. *)
Lemma Render_tgtlvl_range {D : Type} (Dgt : D -> D -> bool)
    (Ddouble : D -> D) (limitstep0 : D) (rfuel : nat) (maxlvl level : Z)
    (cstep : D) (T : Z) :
  Render_tgtlvl D Dgt Ddouble limitstep0 rfuel maxlvl level cstep = Some T ->
  4 < level -> 4 < maxlvl ->
  5 <= T /\ T <= level /\ T <= maxlvl /\ T <= SURF_MAX_PATCHLEVEL.
Proof.
  unfold Render_tgtlvl, Render_maxlevel. intros H Hl Hm.
  destruct (limit_loop D Dgt Ddouble rfuel cstep limitstep0
              SURF_MAX_PATCHLEVEL) as [ml|] eqn:E; [|done].
  injection H as <-.
  pose proof (limit_loop_le _ _ _ _ _ _ _ _ E) as Hle.
  pose proof (limit_loop_ge _ _ _ _ _ _ _ E) as Hge.
  unfold SURF_MAX_PATCHLEVEL in *. lia.
Qed.

Lemma valid_pos_child (pos : TILEPOS) (i j : Z) :
  valid_pos pos -> 0 <= i <= 1 -> 0 <= j <= 1 ->
  valid_pos (child_pos pos i j).
Proof.
  unfold valid_pos, child_pos. cbn [hemisp ilat nlat ilng nlng]. lia.
Qed.

Section RenderFacts.
Variable D : Type.
Variable Dgt : D -> D -> bool.
Variable Ddouble : D -> D.
Variable limitstep0 : D.
Variable F : Type.
Variables Fadd Fsub Fmul : F -> F -> F.
Variable F_of_int : Z -> F.
Variable Fhalf : F.
Variables off_view IsTileInView adist_positive oblique very_oblique
          behind_horizon IsVisibleInCamera : TILEPOS -> bool.
Variable MAXQUEUE : Z.
Variable objname : string.
Variable RenderSimple :
  Z -> Z -> Z -> TravState F -> option (TravState F).

#[local] Abbreviation render :=
  (Render D Dgt Ddouble limitstep0 F Fadd Fsub Fmul F_of_int Fhalf
     off_view IsTileInView adist_positive oblique very_oblique
     behind_horizon IsVisibleInCamera MAXQUEUE objname RenderSimple).

(** A call of [Render] above level 4, taken apart: the target level, the
    tables of the start level and the run of the loop. *)
Lemma Render_high (rfuel fuel dfuel : nat) (tm : TileManager) (level : Z)
    (cstep : D) (s s' : TravState F) :
  render rfuel fuel dfuel tm level cstep s = Some s' ->
  4 < level -> 4 < maxlvl tm ->
  exists T nlat l lo hi idx',
    Render_tgtlvl D Dgt Ddouble limitstep0 rfuel (maxlvl tm) level cstep
    = Some T /\
    5 <= T /\ T <= level /\ T <= maxlvl tm /\ T <= SURF_MAX_PATCHLEVEL /\
    patchidx_at (Z.min T 8 - 1) = Some lo /\
    patchidx_at (Z.min T 8) = Some hi /\
    Z.of_nat (length l) = nlat /\ Forall (fun n => 0 <= n) l /\
    2 * sumZ l = hi - lo /\ 0 <= lo < hi /\
    Render_loop nlat (Some l)
      (Render_tile F Fadd Fsub Fmul F_of_int Fhalf off_view IsTileInView
         adist_positive oblique very_oblique behind_horizon
         IsVisibleInCamera MAXQUEUE objname fuel dfuel tm T (Z.min T 8)
         nlat lo) s = Some (idx', s').
Proof.
  unfold Render. intros H Hlevel Hmax. bind_inv H as T ET.
  destruct (Render_tgtlvl_range _ _ _ _ _ _ _ _ ET Hlevel Hmax)
    as (H5 & Hle & Hlm & H14).
  destruct (Render_tables (Z.min T 8))
    as (nlat & l & lo & hi & E1 & E2 & E3 & E4 & Hlen & Hl & Hsum & Hlo);
    [lia|].
  rewrite E1, E2, E3 in H. cbn [mbind option_bind] in H.
  destruct (Z.leb_spec T 4) as [|_]; [lia|].
  apply fmap_Some in H as ([idx' s1] & Hrun & ->).
  exists T, nlat, l, lo, hi, idx'. cbn [snd]. done.
Qed.

(** X16.  A call of [Render] for a level above 4, on a planet with more
    than four levels, from a store in which no base tile and no
    descriptor marked as loaded holds an archive index in [tex]: every
    call of [RenderTile] it makes draws a tile at a position that exists,
    at a level between 5 and the smallest of the level asked for, the
    [maxlvl] of the planet and [SURF_MAX_PATCHLEVEL], with a texture
    object or the null pointer; and the store is left in order. *)
Theorem Render_draws (rfuel fuel dfuel : nat) (tm : TileManager)
    (level : Z) (cstep : D) (p p' : TilePool) (m m' : Mem)
    (q q' : TileQueue) (tr tr' : list (RENDERCALL F)) :
  render rfuel fuel dfuel tm level cstep (p, m, q, tr)
  = Some (p', m', q', tr') ->
  mem_inv (tiledesc tm) (ntiledesc tm) m -> 4 < level -> 4 < maxlvl tm ->
  mem_inv (tiledesc tm) (ntiledesc tm) m' /\
  exists calls,
    tr' = tr ++ calls /\
    Forall (fun c => resolved (r_tex c) /\ valid_pos (r_pos c) /\
                     5 <= lvl (r_pos c) <= Z.min level (maxlvl tm) /\
                     lvl (r_pos c) <= SURF_MAX_PATCHLEVEL) calls.
Proof.
  intros H Hinv Hlevel Hmax.
  destruct (Render_high _ _ _ _ _ _ _ _ H Hlevel Hmax)
    as (T & nla & l & lo & hi & idx' & _ & H5 & Hle & Hlm & H14 & _ & _
        & Hlen & Hl & _ & _ & Hrun).
  set (Q := fun c : RENDERCALL F =>
              resolved (r_tex c) /\ valid_pos (r_pos c) /\
              5 <= lvl (r_pos c) <= Z.min level (maxlvl tm) /\
              lvl (r_pos c) <= SURF_MAX_PATCHLEVEL).
  pose proof (fun Hstep H0 => Render_loop_inv
    (fun _ (s : TravState F) =>
       mem_inv (tiledesc tm) (ntiledesc tm) (snd (fst (fst s))) /\
       exists calls, snd s = tr ++ calls /\ Forall Q calls)
    _ _ _ _ _ _ Hlen Hl Hstep Hrun H0) as HL.
  destruct HL as (_ & Hm' & Hcalls).
  - clear Hrun. intros h ila iln n idx [[[p0 m0] q0] tr0]
      [[[p1 m1] q1] tr1] Hh Hila En Hiln Hidx (Hm0 & c0 & E0 & Hc0) Hb.
    cbn [fst snd] in *. subst tr0. unfold Render_tile in Hb.
    bind_inv Hb as t Et. bind_inv Hb as d Ed. cbn [fst snd] in Ed.
    assert (Hres : resolved (tex d)).
    { destruct Hm0 as [_ Hcell]. apply (Hcell t d Ed). right.
      unfold base_tile in Et.
      destruct ((0 <=? lo + idx) && (lo + idx <? Z.of_nat (ntiledesc tm)))
        eqn:Eb; [|done].
      injection Et as <-. apply andb_true_iff in Eb as [Eb1 Eb2].
      apply Z.leb_le in Eb1. apply Z.ltb_lt in Eb2. lia. }
    destruct (ProcessTile_calls F Fadd Fsub Fmul F_of_int Fhalf off_view
                IsTileInView adist_positive oblique very_oblique
                behind_horizon IsVisibleInCamera MAXQUEUE objname T
                (fun b => (resolved (a_tex b) /\ resolved (a_bkp_tex b)) /\
                          valid_pos (a_pos b) /\ 5 <= lvl (a_pos b) <= T)
                (mem_inv (tiledesc tm) (ntiledesc tm)) Q dfuel)
      with (4 := Hb) as (Hm1 & c1 & -> & Hc1).
    + intros b ([Hb1 Hb2] & Hv & Hlv). unfold Q. cbn [r_tex r_pos].
      unfold SURF_MAX_PATCHLEVEL in *. split; (split; [done|]);
        (split; [done|]); lia.
    + intros b i j k p2 m2 q2 b' p3 m3 q3 Hd Hi Hj Hlt
        ([Hb1 Hb2] & Hv & Hlv) Hm2. split; [split; [|split]|].
      * by eapply descend_child_resolved.
      * rewrite (descend_child_pos _ _ _ _ _ _ _ _ _ _ _ _ _ _ _ Hd).
        by apply valid_pos_child.
      * rewrite (descend_child_pos _ _ _ _ _ _ _ _ _ _ _ _ _ _ _ Hd).
        cbn [child_pos lvl]. lia.
      * by eapply mem_inv_descend_child.
    + intros t0 p2 m2 p3 m3. apply mem_inv_DeleteSubTiles.
    + cbn [a_tex a_bkp_tex a_pos]. split; [done|]. split.
      * unfold valid_pos. cbn [hemisp ilat nlat ilng nlng]. lia.
      * cbn [lvl]. lia.
    + done.
    + split; [done|]. exists (c0 ++ c1). rewrite app_assoc.
      split; [done|]. by apply Forall_app.
  - cbn [fst snd]. split; [done|]. exists []. by rewrite app_nil_r.
  - cbn [fst snd] in *. split; [done|]. exact Hcalls.
Qed.

(** X17.  A call of [Render] for a level above 4, on a planet with more
    than four levels, hands the base tiles of the start level (the target
    level, at most 8) to [ProcessTile] one after the other, the southern
    hemisphere continuing where the northern one ended, up to
    [tiledesc[patchidx[startlvl] - 1]]: it ends without reading beyond
    the array only if the array has [patchidx[startlvl]] descriptors. *)
Theorem Render_reads_level (rfuel fuel dfuel : nat) (tm : TileManager)
    (level : Z) (cstep : D) (s s' : TravState F) :
  render rfuel fuel dfuel tm level cstep s = Some s' ->
  4 < level -> 4 < maxlvl tm ->
  exists T hi,
    Render_tgtlvl D Dgt Ddouble limitstep0 rfuel (maxlvl tm) level cstep
    = Some T /\
    patchidx_at (Z.min T 8) = Some hi /\ hi <= Z.of_nat (ntiledesc tm).
Proof.
  intros H Hlevel Hmax.
  destruct (Render_high _ _ _ _ _ _ _ _ H Hlevel Hmax)
    as (T & nlat & l & lo & hi & idx' & ET & _ & _ & _ & _ & _ & Ehi
        & Hlen & Hl & Hsum & Hlo & Hrun).
  exists T, hi. split; [done|]. split; [done|].
  pose proof (fun Hstep H0 => Render_loop_inv
    (fun idx (_ : TravState F) =>
       idx = 0 \/ lo + idx <= Z.of_nat (ntiledesc tm))
    _ _ _ _ _ _ Hlen Hl Hstep Hrun H0) as HL.
  destruct HL as (-> & [E|Hle]); [|by left|lia|lia].
  intros h ila iln n idx s0 s1 _ _ _ _ Hidx _ Hb. right.
  unfold Render_tile in Hb. bind_inv Hb as t Et. unfold base_tile in Et.
  destruct ((0 <=? lo + idx) && (lo + idx <? Z.of_nat (ntiledesc tm)))
    eqn:Eb; [|done].
  apply andb_true_iff in Eb as [_ Eb]. apply Z.ltb_lt in Eb. lia.
Qed.
End RenderFacts.

Lemma mem_inv_sample_mem (n : nat) : mem_inv 0 n (sample_mem n).
Proof.
  split; [unfold sample_mem; rewrite length_replicate; lia|].
  intros a td Hld _. apply load_lookup in Hld. unfold sample_mem in Hld.
  apply lookup_replicate in Hld as [[= ->] _]. done.
Qed.

(** The theorem for a request for level 5 on a planet with the thirteen
    base tiles of the levels 1 to 5: the eight tiles of level 5 are
    drawn. *)
Lemma Render_draws_witness :
  exists p m q calls,
    sample_Render 10%nat 3%nat 2%nat (sample_tm 13 5) 5 0%Q
      (sample_pool, sample_mem 13, sample_queue, [])
    = Some (p, m, q, calls) /\
    length calls = 8%nat /\
    Forall (fun c => resolved (r_tex c) /\ valid_pos (r_pos c) /\
                     lvl (r_pos c) = 5) calls.
Proof.
  destruct (sample_Render 10%nat 3%nat 2%nat (sample_tm 13 5) 5 0%Q
              (sample_pool, sample_mem 13, sample_queue, []))
    as [[[[p m] q] tr']|] eqn:E; [|vm_compute in E; discriminate].
  destruct (Render_draws _ _ _ _ _ _ _ _ _ _ _ _ _ _ _ _ _ _ _ _ _ _ _ _ _
              _ _ _ _ _ _ _ _ _ E (mem_inv_sample_mem 13))
    as (_ & calls & Ec & Hc); [lia|cbn; lia|].
  exists p, m, q, tr'. split; [done|]. split.
  - vm_compute in E. by injection E as _ _ _ <-.
  - cbn [app] in Ec. subst tr'. eapply Forall_impl; [exact Hc|].
    cbn beta. intros c (Hr & Hv & Hl & _). split; [done|]. split; [done|].
    change (maxlvl (sample_tm 13 5)) with 8 in Hl. lia.
Defined.

(** The theorem for the same request: the array of base tiles reaches
    [patchidx[5] = 13]. *)
Lemma Render_reads_level_witness :
  exists T hi,
    Render_tgtlvl Q Qgt_bool Qdouble limitstep0_Q 10
      (maxlvl (sample_tm 13 5)) 5 0%Q = Some T /\
    patchidx_at (Z.min T 8) = Some hi /\ hi <= 13.
Proof.
  destruct (sample_Render 10%nat 3%nat 2%nat (sample_tm 13 5) 5 0%Q
              (sample_pool, sample_mem 13, sample_queue, []))
    as [s'|] eqn:E; [|vm_compute in E; discriminate].
  apply (Render_reads_level _ _ _ _ _ _ _ _ _ _ _ _ _ _ _ _ _ _ _ _ _ _ _
           _ _ _ _ _ E); [lia|cbn; lia].
Defined.

(** ** [DeleteTile]: the nodes it keeps *)

Lemma subtree_unique (m : Mem) (n n' : nat) (c : tileptr) (f f' : list nat) :
  subtree m n c f -> subtree m n' c f' -> f = f'.
Proof.
  intros H. revert n' f'.
  induction H as [|n a td f0 f1 f2 f3 Hld Hlen _ IH0 _ IH1 _ IH2 _ IH3];
    intros n' f' H'.
  - by inversion H'.
  - inversion H' as [|k a' td' g0 g1 g2 g3 Hld' _ H0 H1 H2 H3]; subst.
    rewrite Hld in Hld'. injection Hld' as <-.
    by rewrite (IH0 _ _ H0), (IH1 _ _ H1), (IH2 _ _ H2), (IH3 _ _ H3).
Qed.

(** The subtree of a node of a tree lies within the tree. *)
Lemma subtree_within (m : Mem) (n : nat) (c : tileptr) (f : list nat) :
  subtree m n c f ->
  forall b k fb, b ∈ f -> subtree m k (Some b) fb ->
                 forall x, x ∈ fb -> x ∈ f.
Proof.
  induction 1 as [|n a td f0 f1 f2 f3 Hld Hlen H0 IH0 H1 IH1 H2 IH2 H3 IH3];
    intros b k fb Hb Hsub x Hx.
  - by apply elem_of_nil in Hb.
  - apply elem_of_cons in Hb as [->|Hb].
    + assert (Hs : subtree m (S n) (Some a) (a :: f0 ++ f1 ++ f2 ++ f3))
        by (by eapply subtree_node).
      by rewrite <- (subtree_unique _ _ _ _ _ _ Hsub Hs).
    + right. rewrite !elem_of_app in Hb. rewrite !elem_of_app.
      destruct Hb as [Hb|[Hb|[Hb|Hb]]]; eauto 6.
Qed.

Lemma all_null_sub (m : Mem) (f g : list nat) :
  (forall x, x ∈ g -> x ∈ f) -> all_null m f -> all_null m g.
Proof. intros Hsub H b td Hb. apply H. by apply Hsub. Qed.

Lemma kept_refl (m : Mem) (b : nat) (td : TILEDESC) :
  load m (Some b) = Some td -> kept m m b.
Proof. intros H. by exists td, td. Qed.

Lemma kept_agree (m m1 m2 : Mem) (b : nat) :
  kept m m1 b -> m2 !! b = m1 !! b -> kept m m2 b.
Proof.
  intros (td & td' & H1 & H2 & H) Hag. exists td, td'.
  split; [done|]. split; [|done]. by rewrite (load_agree m1 m2 b Hag).
Qed.

Lemma kept_from (m m0 m' : Mem) (b : nat) :
  kept m0 m' b -> m0 !! b = m !! b -> kept m m' b.
Proof.
  intros (td & td' & H1 & H2 & H) Hag. exists td, td'.
  split; [|done]. by rewrite <- (load_agree m m0 b Hag).
Qed.

Section DeleteTileNodes.
Variable n : nat.
Hypothesis HN : forall p m c f r p' m',
  subtree m n (Some c) f -> NoDup f ->
  (forall s, is_slot m f s -> (s < length (buf p))%nat) ->
  DeleteTile n c (p, m) = Some (r, (p', m')) ->
  nodes_ok m m' f /\ slots_ok p m p' m' f.

Lemma nodes_step (a : nat) (td : TILEDESC) (k : nat) (D fk : list nat)
    (p : TilePool) (m : Mem) (del del' : bool) (pk pk' : TilePool)
    (mk mk' : Mem) :
  nodes_inv a td k D p m pk mk ->
  subtree m n (get_subtile td k) fk ->
  NoDup fk -> a ∉ fk -> a ∉ D -> (forall b, b ∈ D -> b ∉ fk) ->
  (forall s, is_slot m fk s -> (s < length (buf p))%nat) ->
  DeleteTile_sub (DeleteTile n) a k (del, (pk, mk))
  = Some (del', (pk', mk')) ->
  nodes_inv a td (S k) (D ++ fk) p m pk' mk'.
Proof using HN.
  intros ((tdk & Hld & Htex & Hltex & Hflag & Hofs & Hlinks) & Hfr & Hbl
          & Hnodes & Hslots) Hsub Hnd Ha HaD Hdisj Hbound Hrun.
  unfold DeleteTile_sub in Hrun. rewrite Hld in Hrun.
  cbn [mbind option_bind] in Hrun.
  rewrite (Hlinks k (Nat.le_refl k)) in Hrun.
  destruct (get_subtile td k) as [c|] eqn:Ec.
  2:{ inversion Hsub; subst. injection Hrun as _ <- <-.
      rewrite app_nil_r. split; [|done].
      exists tdk. repeat (split; [done|]). intros i Hi. apply Hlinks. lia. }
  assert (Hag : forall b, b ∈ fk -> mk !! b = m !! b).
  { intros b Hb. apply Hfr. intros Hin. apply elem_of_cons in Hin as [->|Hin].
    - by apply Ha.
    - by apply (Hdisj b Hin). }
  assert (Hsubk : subtree mk n (Some c) fk) by (by eapply subtree_agree).
  assert (Hboundk : forall s, is_slot mk fk s -> (s < length (buf pk))%nat).
  { intros s Hs. rewrite Hbl. apply Hbound. unfold is_slot in *.
    by rewrite <- (slots_of_agree m mk fk Hag). }
  destruct (DeleteTile n c (pk, mk)) as [[r [p2 m2]]|] eqn:Erec; [|done].
  cbn [mbind option_bind] in Hrun.
  destruct (DeleteTile_correct n pk mk c fk Hsubk Hnd Hboundk)
    as (r' & p2' & m2' & Erec' & _ & (Hlen2 & Hfr2 & Hbl2 & _ & _) & _).
  rewrite Erec in Erec'. injection Erec' as <- <- <-.
  destruct (HN _ _ _ _ _ _ _ Hsubk Hnd Hboundk Erec) as [Hn2 Hs2].
  assert (Hld2 : load m2 (Some a) = Some tdk).
  { rewrite <- Hld. apply load_agree, Hfr2. done. }
  (* the store after the link is cleared, or not *)
  assert (Hfin : exists tdk',
             load mk' (Some a) = Some tdk' /\ tex tdk' = tex tdk /\
             ltex tdk' = ltex tdk /\ flag tdk' = flag tdk /\
             ofs tdk' = ofs tdk /\
             (forall i, (S k <= i)%nat ->
                        get_subtile tdk' i = get_subtile tdk i) /\
             (forall b, b <> a -> mk' !! b = m2 !! b) /\ pk' = p2).
  { destruct r.
    - apply bind_Some in Hrun as (m3 & Em3 & Hrun).
      injection Hrun as _ <- <-.
      apply modify_inv in Em3 as (a' & td2 & [= <-] & Hl2 & ->).
      rewrite Hld2 in Hl2. injection Hl2 as <-.
      exists (set_subtile k None tdk). split.
      { apply load_store_eq. apply load_lookup in Hld2.
        by eapply lookup_lt_Some. }
      repeat (split; [done|]). split.
      { intros i Hi. apply get_subtile_set_ne. lia. }
      split; [|done]. intros b Hb. unfold store.
      by rewrite list_lookup_insert_ne.
    - injection Hrun as _ <- <-. exists tdk. by repeat (split; [done|]). }
  destruct Hfin as (tdk' & Hld' & Htex' & Hltex' & Hflag' & Hofs' & Hlinks'
                    & Hfr' & ->).
  assert (HagD : forall b, b ∈ D -> mk' !! b = mk !! b).
  { intros b Hb. rewrite Hfr' by (intros ->; by apply HaD).
    apply Hfr2. by apply Hdisj. }
  assert (Hagf : forall b, b ∈ fk -> mk' !! b = m2 !! b).
  { intros b Hb. apply Hfr'. intros ->. by apply Ha. }
  split; [|split; [|split; [|split]]].
  - exists tdk'. split; [done|]. split; [congruence|].
    split; [congruence|]. split; [congruence|]. split; [congruence|].
    intros i Hi. rewrite Hlinks' by done. apply Hlinks. lia.
  - intros b Hb. rewrite not_elem_of_cons, not_elem_of_app in Hb.
    destruct Hb as (Hne & HbD & Hbf). rewrite Hfr' by done.
    rewrite Hfr2 by done. apply Hfr. rewrite not_elem_of_cons. done.
  - congruence.
  - intros b kb fb Hb Hsb. apply elem_of_app in Hb as [Hb|Hb].
    + destruct (Hnodes b kb fb Hb Hsb) as [Hk Hd]. split.
      * intros Hnn. eapply kept_agree; [by apply Hk|by apply HagD].
      * intros Hall. rewrite <- (Hd Hall). by apply load_agree, HagD.
    + assert (Hin : forall x, x ∈ fb -> x ∈ fk).
      { by apply (subtree_within m n (Some c) fk Hsub b kb fb). }
      assert (Hagb : forall x, x ∈ fb -> mk !! x = m !! x)
        by (intros x Hx; by apply Hag, Hin).
      assert (Hsbk : subtree mk kb (Some b) fb) by (by eapply subtree_agree).
      destruct (Hn2 b kb fb Hb Hsbk) as [Hk Hd]. split.
      * intros Hnn. eapply kept_agree; [|by apply Hagf].
        eapply kept_from; [|by apply Hag]. apply Hk.
        by rewrite (all_null_agree m mk fb Hagb).
      * intros Hall. rewrite <- Hd.
        -- by apply load_agree, Hagf.
        -- by rewrite (all_null_agree m mk fb Hagb).
  - intros s. destruct (Hs2 s) as [E2|(b & tdb & Hb & Hlb & Hob & Hdb)].
    + destruct (Hslots s) as [E1|(b & tdb & Hb & Hlb & Hob & Hdb)].
      * left. congruence.
      * right. exists b, tdb. split; [apply elem_of_app; by left|].
        split; [done|]. split; [done|].
        rewrite <- Hdb. by apply load_agree, HagD.
    + right. exists b, tdb. split; [apply elem_of_app; by right|].
      split; [by rewrite <- (load_agree m mk b (Hag b Hb))|].
      split; [done|]. rewrite <- Hdb. by apply load_agree, Hagf.
Qed.
End DeleteTileNodes.

(** Node by node: [DeleteTile] on a tree keeps the nodes whose own
    subtree has a [tex] that is not null, deletes the others, and
    changes no slot but those of the nodes it deletes. *)
Lemma DeleteTile_nodes (n : nat) :
  forall p m c f r p' m',
    subtree m n (Some c) f -> NoDup f ->
    (forall s, is_slot m f s -> (s < length (buf p))%nat) ->
    DeleteTile n c (p, m) = Some (r, (p', m')) ->
    nodes_ok m m' f /\ slots_ok p m p' m' f.
Proof.
  induction n as [|n IH]; intros p m a f r p' m' Hst Hnd Hslots Hrun;
    [inversion Hst|].
  destruct (DeleteTile_correct (S n) p m a f Hst Hnd Hslots)
    as (r' & p'' & m'' & Hrun' & Hiff & _ & _).
  rewrite Hrun in Hrun'. injection Hrun' as <- <- <-.
  inversion Hst as [|n' a' td f0 f1 f2 f3 Hld Hlen H0 H1 H2 H3]; subst.
  assert (Hst' : subtree m (S n) (Some a) (a :: f0 ++ f1 ++ f2 ++ f3))
    by done.
  apply NoDup_cons in Hnd as [Ha Hnd].
  apply NoDup_app in Hnd as (Hnd0 & Hd0 & Hnd).
  apply NoDup_app in Hnd as (Hnd1 & Hd1 & Hnd).
  apply NoDup_app in Hnd as (Hnd2 & Hd2 & Hnd3).
  rewrite !elem_of_app in Ha.
  assert (Hsl : forall g, (forall b, b ∈ g -> b ∈ f0 ++ f1 ++ f2 ++ f3) ->
                 forall s, is_slot m g s -> (s < length (buf p))%nat).
  { intros g Hg s Hs. apply Hslots. eapply is_slot_mono; [|exact Hs].
    intros b Hb. right. by apply Hg. }
  cbn [DeleteTile] in Hrun.
  apply bind_Some in Hrun as ([d0 [p0 m0]] & E0 & Hrun).
  apply bind_Some in Hrun as ([d1 [p1 m1]] & E1 & Hrun).
  apply bind_Some in Hrun as ([d2 [p2 m2]] & E2 & Hrun).
  apply bind_Some in Hrun as ([d3 [p3 m3]] & E3 & Hrun).
  assert (I0 : nodes_inv a td 0 [] p m p m).
  { split; [by exists td|]. split; [done|]. split; [done|]. split.
    - intros b k fb Hb. by apply elem_of_nil in Hb.
    - intros s. by left. }
  pose proof (nodes_step n IH a td 0 [] f0 p m true d0 p p0 m m0 I0 H0 Hnd0)
    as I1.
  specialize (I1 ltac:(tauto) ltac:(by intros ?%elem_of_nil)
                 ltac:(by intros ? ?%elem_of_nil)).
  specialize (I1 ltac:(apply Hsl; intros b Hb; rewrite !elem_of_app; auto)
                 E0).
  pose proof (nodes_step n IH a td 1 ([] ++ f0) f1 p m d0 d1 p0 p1 m0 m1
                I1 H1 Hnd1) as I2.
  specialize (I2 ltac:(tauto) ltac:(simpl; tauto)).
  specialize (I2 ltac:(simpl; intros b Hb Hb1; apply (Hd0 b Hb);
                       rewrite !elem_of_app; auto)).
  specialize (I2 ltac:(apply Hsl; intros b Hb; rewrite !elem_of_app; auto)
                 E1).
  pose proof (nodes_step n IH a td 2 (([] ++ f0) ++ f1) f2 p m d1 d2 p1 p2
                m1 m2 I2 H2 Hnd2) as I3.
  specialize (I3 ltac:(tauto) ltac:(simpl; rewrite elem_of_app; tauto)).
  specialize (I3 ltac:(simpl; intros b Hb Hb2;
                       apply elem_of_app in Hb as [Hb|Hb];
                       [apply (Hd0 b Hb)|apply (Hd1 b Hb)];
                       rewrite !elem_of_app; auto)).
  specialize (I3 ltac:(apply Hsl; intros b Hb; rewrite !elem_of_app; auto)
                 E2).
  pose proof (nodes_step n IH a td 3 ((([] ++ f0) ++ f1) ++ f2) f3 p m d2 d3
                p2 p3 m2 m3 I3 H3 Hnd3) as I4.
  specialize (I4 ltac:(tauto) ltac:(simpl; rewrite !elem_of_app; tauto)).
  specialize (I4 ltac:(simpl; intros b Hb Hb3; rewrite !elem_of_app in Hb;
                       destruct Hb as [[Hb|Hb]|Hb];
                       [apply (Hd0 b Hb); rewrite !elem_of_app; auto
                       |apply (Hd1 b Hb); rewrite !elem_of_app; auto
                       |by apply (Hd2 b Hb)])).
  specialize (I4 ltac:(apply Hsl; intros b Hb; rewrite !elem_of_app; auto)
                 E3).
  clear I0 I1 I2 I3 E0 E1 E2 E3.
  replace (((([] ++ f0) ++ f1) ++ f2) ++ f3) with (f0 ++ f1 ++ f2 ++ f3) in I4
    by (simpl; by rewrite !app_assoc).
  set (D := f0 ++ f1 ++ f2 ++ f3) in *.
  destruct I4 as ((td3 & Hld3 & Htex3 & Hltex3 & Hflag3 & Hofs3 & _) & Hfr3
                  & Hbl3 & Hnodes & Hslots3).
  rewrite Hld3 in Hrun. cbn [mbind option_bind] in Hrun.
  assert (HaD : a ∉ D) by (unfold D; rewrite !elem_of_app; tauto).
  destruct (tex_nonnull (tex td3) || negb d3).
  - (* the tile stays *)
    injection Hrun as <- <- <-.
    assert (Hnot : ~ all_null m (a :: D)).
    { intros Hall. by apply Hiff in Hall. }
    split.
    + intros b k fb Hb Hsb. apply elem_of_cons in Hb as [->|Hb].
      * rewrite (subtree_unique _ _ _ _ _ _ Hsb Hst'). split; [|done].
        intros _. exists td, td3. by repeat (split; [done|]).
      * exact (Hnodes b k fb Hb Hsb).
    + intros s. destruct (Hslots3 s) as [E|(b & tdb & Hb & Hx)];
        [by left|].
      right. exists b, tdb. split; [by right|done].
  - (* the tile is deleted *)
    apply bind_Some in Hrun as (old & Hold & Hrun).
    injection Hrun as <- <- <-.
    assert (Hall : all_null m (a :: D)) by (by apply Hiff).
    split.
    + intros b k fb Hb Hsb.
      assert (Hfb : all_null m fb).
      { eapply all_null_sub; [|exact Hall].
        by apply (subtree_within m (S n) (Some a) (a :: D) Hst' b k fb). }
      split; [done|]. intros _.
      apply elem_of_cons in Hb as [->|Hb].
      * apply load_lookup in Hld3. apply lookup_lt_Some in Hld3.
        change (load (free m3 a) (Some a)) with (mjoin (free m3 a !! a)).
        unfold free. by rewrite list_lookup_insert_eq.
      * rewrite load_free_ne by (intros ->; by apply HaD).
        by apply (Hnodes b k fb Hb Hsb).
    + intros s. cbn [buf].
      destruct (decide (N.to_nat (ofs td3) = s)) as [<-|Hne].
      * right. exists a, td. split; [left|]. split; [done|].
        split; [by rewrite Hofs3|].
        apply load_lookup in Hld3. apply lookup_lt_Some in Hld3.
        change (load (free m3 a) (Some a)) with (mjoin (free m3 a !! a)).
        unfold free. by rewrite list_lookup_insert_eq.
      * rewrite list_lookup_insert_ne by done.
        destruct (Hslots3 s) as [E|(b & tdb & Hb & Hlb & Hob & Hdb)];
          [by left|].
        right. exists b, tdb. split; [by right|]. split; [done|].
        split; [done|].
        rewrite load_free_ne by (intros ->; by apply HaD). done.
Qed.

(** C2, as amended.  On a tree of descriptors, with fuel for its height,
    [DeleteTile] returns [true] exactly when the [tex] field of every
    descriptor of the tree is the null pointer.  When it returns [true]
    every descriptor of the tree is deleted, every one of their slots is
    emptied and [nused] goes down once per descriptor; whatever it
    returns, descriptors and slots outside the tree are untouched.  A
    node whose [tex] is not the null pointer (a texture object, an
    archive index other than 0, [NOTILE]) keeps itself and its ancestors:
    every node [b] of the tree that has such a node [x] in its own
    subtree stays alive with its [tex], [ltex], [flag] and [ofs], and its
    slot of [buf] is unchanged when no other node of the tree names the
    same slot; a node whose own subtree has only null [tex] fields is
    deleted, whatever the call returns. *)
Theorem DeleteTile_iff_all_null (n : nat) (p : TilePool) (m : Mem)
    (d : nat) (f : list nat) :
  subtree m n (Some d) f -> NoDup f ->
  (forall s, is_slot m f s -> (s < length (buf p))%nat) ->
  exists r p' m',
    DeleteTile n d (p, m) = Some (r, (p', m')) /\
    (r = true <->
     forall b td, b ∈ f -> load m (Some b) = Some td ->
                  tex_DWORD (tex td) = 0) /\
    (r = true ->
     (forall b, b ∈ f -> load m' (Some b) = None) /\
     (forall s, is_slot m f s -> buf p' !! s = Some None) /\
     nused p' = nused_after (length f) (nused p)) /\
    (forall b, b ∉ f -> load m' (Some b) = load m (Some b)) /\
    (forall s, ~ is_slot m f s -> buf p' !! s = buf p !! s) /\
    (forall b k fb x tdx,
       b ∈ f -> subtree m k (Some b) fb ->
       x ∈ fb -> load m (Some x) = Some tdx -> tex_DWORD (tex tdx) <> 0 ->
       exists td td',
         load m (Some b) = Some td /\ load m' (Some b) = Some td' /\
         tex td' = tex td /\ ltex td' = ltex td /\ flag td' = flag td /\
         ofs td' = ofs td /\
         ((forall b' tdb, b' ∈ f -> load m (Some b') = Some tdb ->
                          ofs tdb = ofs td -> b' = b) ->
          buf p' !! N.to_nat (ofs td) = buf p !! N.to_nat (ofs td))) /\
    (forall b k fb,
       b ∈ f -> subtree m k (Some b) fb ->
       (forall x tdx, x ∈ fb -> load m (Some x) = Some tdx ->
                      tex_DWORD (tex tdx) = 0) ->
       load m' (Some b) = None).
Proof.
  intros Hst Hnd Hslots.
  destruct (DeleteTile_correct n p m d f Hst Hnd Hslots)
    as (r & p' & m' & Hrun & Hr & (Hlen & Hfr & Hbl & Hla & Hbf) & Hfreed).
  destruct (DeleteTile_nodes n p m d f r p' m' Hst Hnd Hslots Hrun)
    as [Hnodes Hsl].
  assert (Hnull : forall g,
            all_null m g <->
            forall b td, b ∈ g -> load m (Some b) = Some td ->
                         tex_DWORD (tex td) = 0).
  { intros g. unfold all_null, tex_nonnull.
    split; intros H b td Hb Hld; specialize (H b td Hb Hld).
    - apply negb_false_iff in H. by apply Z.eqb_eq.
    - apply negb_false_iff. by apply Z.eqb_eq. }
  exists r, p', m'. split; [done|].
  split; [|split; [|split; [|split; [|split]]]].
  - by rewrite Hr, Hnull.
  - intros Ht. destruct (Hfreed Ht) as (Hf & Hs & Hn).
    split; [|done]. intros b Hb.
    change (load m' (Some b)) with (mjoin (m' !! b)). by rewrite (Hf b Hb).
  - intros b Hb. apply load_agree. by apply Hfr.
  - done.
  - intros b k fb x tdx Hb Hsb Hx Hldx Htex.
    destruct (Hnodes b k fb Hb Hsb) as [Hk _].
    destruct Hk as (td & td' & H1 & H2 & H3 & H4 & H5 & H6).
    { rewrite Hnull. intros Hall. by apply Htex, (Hall x tdx). }
    exists td, td'. repeat (split; [done|]). intros Hinj.
    destruct (Hsl (N.to_nat (ofs td))) as [E|(b' & tdb & Hb' & Hlb & Ho & Hd)];
      [done|].
    assert (b' = b) as -> by (apply (Hinj b' tdb Hb' Hlb); lia).
    congruence.
  - intros b k fb Hb Hsb Hall.
    destruct (Hnodes b k fb Hb Hsb) as [_ Hd]. apply Hd. by apply Hnull.
Qed.

(** The theorem for the tree of [sample_mem_loaded]: the child holds the
    texture object 2, so that the call returns [false] and keeps the
    child and its parent. *)
Lemma DeleteTile_iff_all_null_witness :
  exists r p' m' td0 td1,
    DeleteTile 2 0 (sample_pool_loaded, sample_mem_loaded)
    = Some (r, (p', m')) /\
    r <> true /\
    load m' (Some 0%nat) = Some td0 /\ tex td0 = TexHnd 1 /\
    load m' (Some 1%nat) = Some td1 /\ tex td1 = TexHnd 2.
Proof.
  assert (H1 : subtree sample_mem_loaded 1 (Some 1%nat) [1%nat]).
  { apply (subtree_node sample_mem_loaded 0 1
             (mkTILEDESC (TexHnd 2) NULLTEX 1 [None; None; None; None] 0)
             [] [] [] []); (reflexivity || constructor). }
  assert (H0 : subtree sample_mem_loaded 2 (Some 0%nat) [0%nat; 1%nat]).
  { apply (subtree_node sample_mem_loaded 1 0
             (mkTILEDESC (TexHnd 1) NULLTEX 1
                         [Some 1%nat; None; None; None] 0)
             [1%nat] [] [] []);
      [reflexivity|reflexivity|exact H1|constructor..]. }
  destruct (DeleteTile_iff_all_null 2 sample_pool_loaded sample_mem_loaded
              0 [0%nat; 1%nat] H0)
    as (r & p' & m' & Hrun & Hiff & _ & _ & _ & Hkept & _).
  - apply NoDup_cons. split; [|apply NoDup_singleton].
    intros Hin. apply list_elem_of_singleton in Hin. discriminate Hin.
  - intros s Hs. vm_compute in Hs.
    assert (s = 0%nat) as ->.
    { apply elem_of_cons in Hs as [->|Hs]; [done|].
      by apply list_elem_of_singleton in Hs. }
    simpl. lia.
  - destruct (Hkept 0%nat 2%nat [0%nat; 1%nat] 1%nat
                (mkTILEDESC (TexHnd 2) NULLTEX 1 [None; None; None; None] 0))
      as (td & td0 & Eld & Eld0 & Et0 & _);
      [left|exact H0|right; left|reflexivity|done|].
    destruct (Hkept 1%nat 1%nat [1%nat] 1%nat
                (mkTILEDESC (TexHnd 2) NULLTEX 1 [None; None; None; None] 0))
      as (td' & td1 & Eld' & Eld1 & Et1 & _);
      [right; left|exact H1|left|reflexivity|done|].
    injection Eld as <-. injection Eld' as <-.
    exists r, p', m', td0, td1. split; [exact Hrun|]. split.
    + intros Hr. pose proof (proj1 Hiff Hr 0%nat _ ltac:(left) eq_refl) as Hz.
      discriminate Hz.
    + by repeat (split; [done|]).
Defined.

(** C2 as stated fails: the catalogued child of [sample_mem_unloaded] has
    no loaded texture (its [tex] holds the archive index 7), yet
    [DeleteTile] refuses to delete it. *)
Lemma DeleteTile_iff_all_null_counterexample :
  exists st,
    DeleteTile 1 1 (sample_pool_loaded, sample_mem_unloaded)
    = Some (false, st) /\
    subtree sample_mem_unloaded 1 (Some 1%nat) [1%nat] /\
    forall b td, b ∈ [1%nat] ->
                 load sample_mem_unloaded (Some b) = Some td ->
                 ~ loaded (tex td).
Proof.
  eexists. split; [vm_compute; reflexivity|]. split.
  - apply (subtree_node sample_mem_unloaded 0 1
             (mkTILEDESC (TexIdx 7) (TexIdx 3) 132
                         [None; None; None; None] 0)
             [] [] [] []); (reflexivity || constructor).
  - intros b td Hb Hld. apply list_elem_of_singleton in Hb. subst b.
    vm_compute in Hld. injection Hld as <-. intros [h Hh]. discriminate Hh.
Qed.

(** ** [PreloadTileTextures]: textures handed out and textures released *)

Lemma handles_insert_null (b : list texval) (i : nat) (v : texval) :
  b !! i = Some v ->
  handles b = handles (take i b) ++
              option_list (tex_handle v) ++ handles (drop (S i) b) /\
  handles (<[i := NULLTEX]> b)
  = handles (take i b) ++ handles (drop (S i) b).
Proof.
  intros H. pose proof (lookup_lt_Some _ _ _ H) as Hlt. split.
  - rewrite <- (take_drop_middle b i v H) at 1. unfold handles.
    rewrite omap_app. simpl. by destruct (tex_handle v).
  - rewrite insert_take_drop by done. unfold handles.
    by rewrite omap_app.
Qed.

(** A texture pointer taken from the array: the array loses that object
    and no other, and the objects in it stay distinct. *)
Lemma take_texture_handles (tidx nt : Z) (tbuf tbuf' : list texval)
    (missing missing' : Z) (v : texval) :
  take_texture tidx nt tbuf missing = Some (v, tbuf', missing') ->
  NoDup (handles tbuf) ->
  NoDup (handles tbuf') /\
  (forall h, h ∈ handles tbuf' -> h ∈ handles tbuf) /\
  (forall h, v = TexHnd h -> h ∈ handles tbuf /\ (h ∉ handles tbuf')).
Proof.
  unfold take_texture. intros H Hnd.
  destruct (tidx =? NOTILE); [by injection H as <- <- _|].
  destruct (tidx <? nt); [|by injection H as <- <- _].
  bind_inv H as w Ew. injection H as <- <- _.
  unfold texbuf_at in Ew. destruct (0 <=? tidx); [|done].
  destruct (handles_insert_null _ _ _ Ew) as [E1 E2].
  rewrite E2. rewrite E1 in Hnd |- *.
  apply NoDup_app in Hnd as (Hn1 & Hd & Hn2).
  apply NoDup_app in Hn2 as (Hn2 & Hd2 & Hn3).
  split; [|split].
  - apply NoDup_app. split; [done|]. split; [|done].
    intros h Hh Hh'. apply (Hd h Hh). rewrite elem_of_app. by right.
  - intros h. rewrite !elem_of_app. tauto.
  - intros h ->. cbn [tex_handle option_list] in *. split.
    + rewrite !elem_of_app. right. left. left.
    + rewrite elem_of_app. intros [Hh|Hh].
      * apply (Hd h Hh). rewrite elem_of_app. left. left.
      * apply (Hd2 h); [left|done].
Qed.

Lemma held_modify (m m' : Mem) (a : nat) (f : TILEDESC -> TILEDESC)
    (h : handle) :
  modify m (Some a) f = Some m' -> held m' h ->
  held m h \/
  exists d, load m (Some a) = Some d /\ holds_handle h (f d).
Proof.
  intros Hmod (b & d' & Hld & Hh).
  destruct (decide (b = a)) as [->|Hne].
  - apply modify_load in Hmod as (d & Hd & Hd').
    rewrite Hld in Hd'. injection Hd' as ->. right. by exists d.
  - left. exists b, d'. split; [|done].
    by rewrite <- (modify_load_ne _ _ _ _ _ Hmod Hne).
Qed.

Lemma release_all_spec (b : list texval) (cat cat' : Catalog) :
  release_all b cat = Some cat' ->
  forall h, h ∈ cat' <-> h ∈ cat /\ (h ∉ handles b).
Proof.
  revert cat. induction b as [|v b IH]; intros cat H h.
  - injection H as <-. unfold handles. simpl.
    rewrite elem_of_nil. tauto.
  - cbn [release_all] in H. bind_inv H as cat1 E1.
    rewrite (IH _ H h). unfold handles. simpl.
    unfold ReleaseTex_if in E1. destruct v as [i|h0].
    + cbn [tex_handle]. destruct (tex_nonnull (TexIdx i)); [done|].
      by injection E1 as <-.
    + cbn [tex_handle]. change (tex_nonnull (TexHnd h0)) with true in E1.
      injection E1 as <-.
      rewrite elem_of_difference, elem_of_singleton, elem_of_cons. tauto.
Qed.


Lemma handles_fmap (l : list handle) : handles (TexHnd <$> l) = l.
Proof.
  induction l as [|h l IH]; [done|].
  change (handles (TexHnd <$> h :: l)) with (h :: handles (TexHnd <$> l)).
  by rewrite IH.
Qed.

Section PreloadHandles.
Variables T0 M0 : list handle.
Hypothesis Hdisj : forall h, h ∈ T0 -> h ∉ M0.

Lemma preload_inv_AddSubtileTextures (fuel : nat) (nt nm : Z) :
  forall (td : nat) s s',
    AddSubtileTextures fuel td nt nm s = Some s' ->
    preload_inv T0 M0 s -> preload_inv T0 M0 s'.
Proof using Hdisj.
  induction fuel as [|fuel IH];
    intros td [[[tbuf mbuf] missing] m] s' H Hinv; [done|].
  cbn [AddSubtileTextures] in H.
  bind_inv H as d0 Ed0. bind_inv H as [[v tbuf1] missing1] Et.
  bind_inv H as m1 E1. bind_inv H as d1 Ed1.
  bind_inv H as [[v2 mbuf1] missing2] Et2.
  bind_inv H as m2 E2. bind_inv H as m3 E3.
  destruct Hinv as (Hnt & Hnm & HT & HM & Hheld).
  destruct (take_texture_handles _ _ _ _ _ _ _ Et Hnt)
    as (Hnt1 & Hsub1 & Hv).
  destruct (take_texture_handles _ _ _ _ _ _ _ Et2 Hnm)
    as (Hnm1 & Hsub2 & Hv2).
  assert (Hheld1 : forall h, held m1 h ->
                     (h ∉ handles tbuf1) /\ (h ∉ handles mbuf)).
  { intros h Hh.
    destruct (held_modify _ _ _ _ _ E1 Hh) as [Hold|(d & Hd & Hnew)].
    - destruct (Hheld h Hold) as [Ha Hb]. split; [|done].
      intros Hin. by apply Ha, Hsub1.
    - rewrite Ed0 in Hd. injection Hd as <-.
      destruct Hnew as [Hx|Hx]; cbn [tex ltex set_tex] in Hx.
      + destruct (Hv h Hx) as [Hin Hout]. split; [done|].
        intros Hm. by apply (Hdisj h (HT h Hin)), HM.
      + assert (Hold : held m h).
        { exists td, d0. split; [done|]. by right. }
        destruct (Hheld h Hold) as [Ha Hb]. split; [|done].
        intros Hin. by apply Ha, Hsub1. }
  assert (Hheld2 : forall h, held m2 h ->
                     (h ∉ handles tbuf1) /\ (h ∉ handles mbuf1)).
  { intros h Hh.
    destruct (held_modify _ _ _ _ _ E2 Hh) as [Hold|(d & Hd & Hnew)].
    - destruct (Hheld1 h Hold) as [Ha Hb]. split; [done|].
      intros Hin. by apply Hb, Hsub2.
    - rewrite Ed1 in Hd. injection Hd as <-.
      destruct Hnew as [Hx|Hx]; cbn [tex ltex set_ltex] in Hx.
      + assert (Hold : held m1 h).
        { exists td, d1. split; [done|]. by left. }
        destruct (Hheld1 h Hold) as [Ha Hb]. split; [done|].
        intros Hin. by apply Hb, Hsub2.
      + destruct (Hv2 h Hx) as [Hin Hout]. split; [|done].
        intros Ht. apply Hsub1, HT in Ht.
        by apply (Hdisj h Ht), HM. }
  assert (Hheld3 : forall h, held m3 h ->
                     (h ∉ handles tbuf1) /\ (h ∉ handles mbuf1)).
  { intros h Hh.
    destruct (held_modify _ _ _ _ _ E3 Hh) as [Hold|(d & Hd & Hnew)].
    - by apply Hheld2.
    - apply Hheld2. exists td, d. split; [done|]. exact Hnew. }
  unfold for_range in H.
  refine (for_loop_preserves (preload_inv T0 M0) _ _ _ _ _ _ H _).
  - intros i [[[a1 a2] a3] a4] s1 Hb Hs. cbn [snd] in Hb.
    bind_inv Hb as d Ed.
    destruct (get_subtile d (Z.to_nat i)) as [c|].
    + by apply (IH _ _ _ Hb).
    + by injection Hb as <-.
  - split; [done|]. split; [done|]. split; [auto|]. split; [auto|done].
Qed.

Lemma preload_inv_tile8 (fuel : nat) (tm : TileManager) (nt nm : Z)
    (s s' : PreloadState) :
  for_range 0 364
    (fun i s =>
       k ← patchidx_at 7;
       tile8i ← base_tile tm (k + i);
       for_range 0 4
         (fun j s =>
            d ← load (snd s) (Some tile8i);
            match get_subtile d (Z.to_nat j) with
            | Some c => AddSubtileTextures fuel c nt nm s
            | None => Some s
            end)
         s)
    s = Some s' ->
  preload_inv T0 M0 s -> preload_inv T0 M0 s'.
Proof using Hdisj.
  unfold for_range. intros H.
  refine (for_loop_preserves (preload_inv T0 M0) _ _ _ _ _ _ H).
  clear H. intros i s0 s1 Hb Hs.
  bind_inv Hb as k Ek. bind_inv Hb as t8 Et8.
  refine (for_loop_preserves (preload_inv T0 M0) _ _ _ _ _ _ Hb Hs).
  intros j s2 s3 Hb1 Hs1. bind_inv Hb1 as d Ed.
  destruct (get_subtile d (Z.to_nat j)) as [c|].
  - by apply (preload_inv_AddSubtileTextures _ _ _ _ _ _ Hb1).
  - by injection Hb1 as <-.
Qed.
End PreloadHandles.

Section PreloadReleases.
Variable TexMgr_LoadTextures : string -> list handle.
Variable objname : string.

(** X19.  [PreloadTileTextures], when the texture manager creates
    distinct objects for the two archives and no descriptor refers to
    them yet: the loop that releases the unused textures releases no
    texture that a descriptor of the tile tree has been given, and
    nothing but textures of the two archives; every texture a descriptor
    holds in the end is still in the catalogue if it was before. *)
Theorem PreloadTileTextures_keeps_held (fuel : nat) (tm tm' : TileManager)
    (ntex nmask : Z) (m m' : Mem) (cat cat' : Catalog) :
  let T := TexMgr_LoadTextures (objname +:+ "_tile.tex") in
  let M := TexMgr_LoadTextures (objname +:+ "_tile_lmask.tex") in
  PreloadTileTextures TexMgr_LoadTextures objname fuel tm ntex nmask m cat
  = Some (tm', m', cat') ->
  NoDup (T ++ M) -> (forall h, h ∈ T ++ M -> ~ held m h) ->
  (forall h, held m' h -> h ∈ cat -> h ∈ cat') /\
  (forall h, h ∈ cat -> h ∉ cat' -> h ∈ T ++ M /\ ~ held m' h).
Proof.
  intros T M H Hnd Hfresh. unfold PreloadTileTextures in H.
  set (texbuf := if ntex =? 0 then []
                 else load_textures TexMgr_LoadTextures
                        (objname +:+ "_tile.tex") ntex) in *.
  set (maskbuf := if nmask =? 0 then []
                  else load_textures TexMgr_LoadTextures
                         (objname +:+ "_tile_lmask.tex") nmask) in *.
  cbv zeta in H.
  bind_inv H as [[[tbuf mbuf] missing] m1] El.
  bind_inv H as cat1 Ec1. bind_inv H as cat2 Ec2.
  injection H as _ <- <-.
  assert (HsT : texbuf `sublist_of` T).
  { unfold texbuf. destruct (ntex =? 0); [apply sublist_nil_l|].
    apply sublist_take. }
  assert (HsM : maskbuf `sublist_of` M).
  { unfold maskbuf. destruct (nmask =? 0); [apply sublist_nil_l|].
    apply sublist_take. }
  apply NoDup_app in Hnd as (HndT & HdTM & HndM).
  assert (Hin : forall l L (h : handle), l `sublist_of` L -> h ∈ l -> h ∈ L).
  { intros l L h Hs Hh. eapply elem_of_submseteq; [exact Hh|].
    by apply sublist_submseteq. }
  assert (Hinv : preload_inv T M (tbuf, mbuf, missing, m1)).
  { refine (preload_inv_tile8 T M HdTM fuel tm _ _ _ _ El _).
    unfold preload_inv. rewrite !handles_fmap.
    split; [exact (sublist_NoDup _ _ HndT HsT)|].
    split; [exact (sublist_NoDup _ _ HndM HsM)|].
    split; [intros h; by apply Hin|]. split; [intros h; by apply Hin|].
    intros h Hh. split; intros Hx; apply (Hfresh h); try done;
      rewrite elem_of_app; eauto. }
  destruct Hinv as (_ & _ & HT & HM & Hheld).
  pose proof (release_all_spec _ _ _ Ec1) as R1.
  pose proof (release_all_spec _ _ _ Ec2) as R2.
  split.
  - intros h Hh Hc. destruct (Hheld h Hh) as [Ha Hb].
    apply R2. split; [|done]. apply R1. done.
  - intros h Hc Hout.
    assert (Hrel : h ∈ handles tbuf \/ h ∈ handles mbuf).
    { destruct (decide (h ∈ handles tbuf)) as [|Hn1]; [by left|].
      destruct (decide (h ∈ handles mbuf)) as [|Hn2]; [by right|].
      exfalso. apply Hout, R2. split; [|done]. apply R1. done. }
    split.
    + rewrite elem_of_app. destruct Hrel; [left|right]; auto.
    + intros Hh. destruct (Hheld h Hh). tauto.
Qed.
End PreloadReleases.

Lemma sample_mem_tree_fresh (h : handle) : ~ held sample_mem_tree h.
Proof.
  intros (a & d & Hld & Hh). apply load_lookup in Hld.
  unfold sample_mem_tree in Hld.
  apply lookup_app_Some in Hld as [Hld|[_ Hld]].
  - destruct (decide (a = 137%nat)) as [->|Hne].
    + rewrite list_lookup_insert_eq in Hld
        by (unfold sample_mem; rewrite length_replicate; lia).
      injection Hld as <-. by destruct Hh.
    + rewrite list_lookup_insert_ne in Hld by done.
      apply lookup_replicate in Hld as [[= ->] _]. by destruct Hh.
  - apply list_lookup_singleton_Some in Hld as [_ [= <-]].
    by destruct Hh.
Qed.

Lemma sample_preload_run (cat : Catalog) :
  exists tm' m',
    PreloadTileTextures sample_texmgr "Earth" 2 (sample_tm 501 8) 3 2
      sample_mem_tree cat
    = Some (tm', m', cat ∖ {[ 1%positive ]} ∖ {[ 3%positive ]}
                         ∖ {[ 4%positive ]} ∖ {[ 5%positive ]}) /\
    exists d, load m' (Some 501%nat) = Some d /\ tex d = TexHnd 2.
Proof.
  unfold PreloadTileTextures.
  match goal with
  | |- context [mbind ?k (for_range ?a ?b ?body ?s0)] =>
      set (loop := for_range a b body s0)
  end.
  assert (E : exists m1, loop = Some ([TexHnd 1; NULLTEX; TexHnd 3],
                                      [TexHnd 4; TexHnd 5], 0, m1) /\
                         exists d, load m1 (Some 501%nat) = Some d /\
                                   tex d = TexHnd 2).
  { eexists. split; [vm_compute; reflexivity|].
    eexists. split; [vm_compute; reflexivity|]. reflexivity. }
  destruct E as (m1 & -> & Hd). cbn [mbind option_bind].
  eexists _, m1. split; [reflexivity|]. exact Hd.
Qed.

(** The theorem for a tile tree with one subtile: the subtile is given
    the second surface texture, which stays in the catalogue, while the
    four textures that are not used are released. *)
Lemma PreloadTileTextures_keeps_held_witness :
  exists tm' m' cat' d,
    PreloadTileTextures sample_texmgr "Earth" 2 (sample_tm 501 8) 3 2
      sample_mem_tree ({[ 2%positive ]} ∪ {[ 1%positive ]})
    = Some (tm', m', cat') /\
    load m' (Some 501%nat) = Some d /\ tex d = TexHnd 2 /\
    2%positive ∈ cat'.
Proof.
  destruct (sample_preload_run ({[ 2%positive ]} ∪ {[ 1%positive ]}))
    as (tm' & m' & E & d & Hd & Ht).
  eexists tm', m', _, d. split; [exact E|]. split; [exact Hd|].
  split; [exact Ht|].
  refine (proj1 (PreloadTileTextures_keeps_held _ _ _ _ _ _ _ _ _ _ _ E
                   _ _) 2%positive _ _).
  - change (NoDup [1; 2; 3; 4; 5]%positive).
    apply (bool_decide_unpack _). by vm_compute.
  - intros h _. apply sample_mem_tree_fresh.
  - exists 501%nat, d. split; [exact Hd|]. by left.
  - apply elem_of_union. left. by apply elem_of_singleton.
Defined.
